(** * Forward-backward alignment engine of [NativeOp.py]

    Shallow embedding of the CUDA kernels and host drivers of
    [FastBaumWelchOp] and [SegmentFastBaumWelchOp], and the properties of
    the natural-language specification checked against them.  The file
    also embeds the ops [Chunking], [UnChunking] and
    [SubtensorBatchedIndex] with the functions [chunk] and [unchunk], and
    the helpers of [NativeOpBaseMixin] on the descriptions of the variables
    of an op, with properties read off their code.

    Conventions of the embedding.
    - A C [float] is a [float] below: a real number, the two infinities or
      NaN.  Finite arithmetic is exact (no rounding, no overflow), which is
      the reading "within floating-point tolerance" of the specification;
      the infinities and NaN follow IEEE 754, as the kernels rely on them.
    - A device array is a [list]; an access outside the array is undefined
      behaviour in C and is the outcome [Fault] here.  A failed host
      [assert] is the outcome [AssertFail].
    - A kernel launch [k<<<blocks, threads>>>(args)] runs the thread body
      for the thread indices [0 .. blocks * threads - 1] in increasing
      order.  All writes shared between threads go through
      [atomic_prob_add], so the launch is a sequence of atomic updates; the
      order chosen is one of the schedules of the device.  In the kernels
      with a grid-stride loop, the rounds of the loops write disjoint
      cells. *)

From Stdlib Require Import Reals Lra Lia ZArith.
From stdpp Require Import base tactics option list strings pretty gmap.

Local Open Scope R_scope.

(** ** Floating-point values *)

Inductive float : Type :=
  | Fin (r : R)
  | PInf
  | NInf
  | NaN.

#[global] Instance float_inhabited : Inhabited float := populate NaN.

Definition fzero : float := Fin 0.
Definition fone : float := Fin 1.

Definition isnan (x : float) : bool :=
  match x with NaN => true | _ => false end.

Definition isinf (x : float) : bool :=
  match x with PInf | NInf => true | _ => false end.

Definition fneg (x : float) : float :=
  match x with
  | Fin r => Fin (- r)
  | PInf => NInf
  | NInf => PInf
  | NaN => NaN
  end.

Definition fadd (x y : float) : float :=
  match x, y with
  | NaN, _ | _, NaN => NaN
  | PInf, NInf | NInf, PInf => NaN
  | PInf, _ | _, PInf => PInf
  | NInf, _ | _, NInf => NInf
  | Fin a, Fin b => Fin (a + b)
  end.

Definition fsub (x y : float) : float := fadd x (fneg y).

Definition fabs (x : float) : float :=
  match x with
  | Fin r => Fin (Rabs r)
  | PInf | NInf => PInf
  | NaN => NaN
  end.

(** [min] on floats is [fminf]: a NaN argument is ignored. *)
Definition fmin (x y : float) : float :=
  match x, y with
  | NaN, _ => y
  | _, NaN => x
  | NInf, _ | _, NInf => NInf
  | PInf, _ => y
  | _, PInf => x
  | Fin a, Fin b => Fin (Rmin a b)
  end.

Definition fexp (x : float) : float :=
  match x with
  | Fin r => Fin (exp r)
  | PInf => PInf
  | NInf => Fin 0
  | NaN => NaN
  end.

Definition flog1p (x : float) : float :=
  match x with
  | Fin r =>
      if Rlt_dec (-1) r then Fin (ln (1 + r))
      else if Req_dec_T r (-1) then NInf else NaN
  | PInf => PInf
  | NInf | NaN => NaN
  end.

Definition fmul (x y : float) : float :=
  let sgn (r : R) (pos : float) : float :=
    if Rlt_dec 0 r then pos
    else if Rlt_dec r 0 then fneg pos else NaN in
  match x, y with
  | NaN, _ | _, NaN => NaN
  | Fin a, Fin b => Fin (a * b)
  | Fin a, PInf | PInf, Fin a => sgn a PInf
  | Fin a, NInf | NInf, Fin a => sgn a NInf
  | PInf, PInf | NInf, NInf => PInf
  | PInf, NInf | NInf, PInf => NInf
  end.

(** The C comparison [x == y]; false as soon as one side is NaN. *)
Definition feq (x y : float) : bool :=
  match x, y with
  | Fin a, Fin b => if Req_dec_T a b then true else false
  | PInf, PInf | NInf, NInf => true
  | _, _ => false
  end.

(** ** [common_fast_bw_kernels]: 012_prob_add *)

Definition prob_add (a b : float) : float :=
  let diff := fsub a b in
  if isnan diff then PInf
  else fadd (fneg (flog1p (fexp (fneg (fabs diff))))) (fmin a b).

Local Close Scope R_scope.

(** ** Outcomes, arrays and kernel launches *)

Inductive outcome (A : Type) : Type :=
  | Ok (a : A)
  | AssertFail
  | Fault.
Arguments Ok {A} a.
Arguments AssertFail {A}.
Arguments Fault {A}.

#[global] Instance outcome_ret : MRet outcome := fun A x => Ok x.

#[global] Instance outcome_bind : MBind outcome := fun A B f m =>
  match m with
  | Ok a => f a
  | AssertFail => AssertFail
  | Fault => Fault
  end.

Definition assert (b : bool) : outcome unit :=
  if b then Ok tt else AssertFail.

(** [arr[i]] as an rvalue and [arr[i] = v]. *)
Definition read {A} (arr : list A) (i : nat) : outcome A :=
  match arr !! i with
  | Some x => Ok x
  | None => Fault
  end.

Definition write {A} (arr : list A) (i : nat) (v : A) : outcome (list A) :=
  if decide (i < length arr) then Ok (<[i:=v]> arr) else Fault.

(** [arr[z]] for an offset [z] that was computed in machine integers. *)
Definition read_at {A} (arr : list A) (z : Z) : outcome A :=
  if decide (0 <= z < Z.of_nat (length arr))%Z then read arr (Z.to_nat z)
  else Fault.

(** A sequential loop over the indices [ids], threading the state. *)
Fixpoint for_each {St} (ids : list nat) (body : nat -> St -> outcome St) (st : St)
  : outcome St :=
  match ids with
  | [] => Ok st
  | i :: ids' => st' ← body i st; for_each ids' body st'
  end.

(** [k<<<n_blocks, n_threads>>>]: the thread index
    [blockIdx.x * blockDim.x + threadIdx.x] ranges over
    [0 .. n_blocks * n_threads - 1]. *)
Definition launch {St} (n_blocks n_threads : nat)
    (thread : nat -> St -> outcome St) (st : St) : outcome St :=
  for_each (seq 0 (n_blocks * n_threads)) thread st.

(** A contiguous [Ndarray]: flat data and its shape. *)
Record Ndarray (A : Type) : Type := mkNdarray {
  DATA : list A;
  SHAPE : list nat
}.
Arguments mkNdarray {A} _ _.
Arguments DATA {A} _.
Arguments SHAPE {A} _.

Definition Ndarray_DIMS {A} (a : Ndarray A) (k : nat) : nat := nth k (SHAPE a) 0.

Definition Ndarray_STRIDE {A} (a : Ndarray A) (k : nat) : nat :=
  foldr Nat.mul 1 (drop (S k) (SHAPE a)).

(** [device_malloc]: the content of fresh device memory is not specified;
    every buffer below is filled before it is read. *)
Definition device_malloc (n : nat) : list float := replicate n NaN.

(** ** [common_fast_bw_kernels] *)

(** 001_set_start_states *)
Definition set_start_states (start_states : list nat)
    (idx : nat) (states : list float) : outcome (list float) :=
  state_idx ← read start_states idx;
  write states state_idx fzero.

(** 010_fill_array *)
Definition fill_array (value : float) (size : nat)
    (idx : nat) (array : list float) : outcome (list float) :=
  if decide (idx < size) then write array idx value else Ok array.

(** 011_remove_inf: [fminf(array[idx], 1e32)] *)
Definition remove_inf (size : nat)
    (idx : nat) (array : list float) : outcome (list float) :=
  if decide (idx < size) then
    x ← read array idx;
    write array idx (fmin x (Fin (10 ^ 32)%R))
  else Ok array.

(** 013_atomic_prob_add: the compare-and-swap loop ends with
    [*a = prob_add( *a, b)] applied atomically. *)
Definition atomic_prob_add (a : list float) (i : nat) (b : float)
  : outcome (list float) :=
  old ← read a i;
  write a i (prob_add old b).

(** The number of blocks the host computes for [size] threads. *)
Definition n_threads : nat := 1024.
Definition blocks_for (size : nat) : nat := (size + n_threads - 1) / n_threads.

(** ** [FastBaumWelchOp] *)

Module FastBaumWelchOp.

(** 100_init_bwd_state_buffer.  The condition is evaluated left to right
    with the short-circuit of [&&] and [||]. *)
Definition init_bwd_state_buffer (end_states : list nat) (t max_t : nat)
    (index : list float) (index_stride : nat)
    (idx : nat) (states : list float) : outcome (list float) :=
  i0 ← read index (t * index_stride + idx);
  last ←
    (if feq i0 fone then
       if decide (t = max_t) then Ok true
       else i1 ← read index ((t + 1) * index_stride + idx); Ok (feq i1 fzero)
     else Ok false);
  if last : bool then
    state_idx ← read end_states idx;
    write states state_idx fzero
  else Ok states.

(** 101_next_frame.  The kernel mutates [next_frame] and the row of
    [edge_buffer] that starts at [edge_off]; [am_scores] points to the
    frame. *)
Definition next_frame (fwd : bool) (num_edges num_emissions : nat)
    (sequence_idxs from_buffer to_buffer : list nat)
    (weight_buffer : list float) (emission_idxs : list nat)
    (prev_frame am_scores : list float) (edge_off : nat)
    (idx : nat) (st : list float * list float)
  : outcome (list float * list float) :=
  let '(next_frame, edge_buffer) := st in
  if decide (num_edges <= idx) then Ok st else
  from ← read from_buffer idx;
  prev_val ← read prev_frame from;
  if isinf prev_val then
    edge_buffer' ← write edge_buffer (edge_off + idx) PInf;
    Ok (next_frame, edge_buffer')
  else
    to ← read to_buffer idx;
    emission_idx ← read emission_idxs idx;
    edge_weight ← read weight_buffer idx;
    sequence_idx ← read sequence_idxs idx;
    am ← read am_scores (sequence_idx * num_emissions + emission_idx);
    let val := fadd (fadd prev_val edge_weight) am in
    old ← read edge_buffer (edge_off + idx);
    edge_buffer' ← write edge_buffer (edge_off + idx)
                     (fadd old (if fwd then val else prev_val));
    next_frame' ← atomic_prob_add next_frame to val;
    Ok (next_frame', edge_buffer').

(** 102_normalize, one block per frame; [sum] is the shared scratch array
    of [shared_size] floats given at the launch. *)
Definition normalize (sequence_idxs : list nat) (num_edges num_seqs : nat)
    (shared_size : nat)
    (blockIdx : nat) (st : list float * list float)
  : outcome (list float * list float) :=
  let '(buffer, sum_output) := st in
  let off := blockIdx * num_edges in
  sum ← for_each (seq 0 num_seqs)
          (fun s sum => write sum s PInf) (device_malloc shared_size);
  sum ← for_each (seq 0 num_edges)
          (fun e sum =>
             s ← read sequence_idxs e;
             x ← read sum s;
             y ← read buffer (off + e);
             write sum s (prob_add x y)) sum;
  sum_output ← for_each (seq 0 num_seqs)
          (fun s sum_output =>
             x ← read sum s;
             write sum_output (blockIdx * num_seqs + s)
               (if isinf x then fzero else x)) sum_output;
  buffer ← for_each (seq 0 num_edges)
          (fun e buffer =>
             s ← read sequence_idxs e;
             x ← read buffer (off + e);
             y ← read sum s;
             write buffer (off + e) (fsub x y)) buffer;
  Ok (buffer, sum_output).

(** 103_compute_result *)
Definition compute_result (edge_buffer : list float)
    (emission_idxs sequence_idxs : list nat)
    (frame_stride seq_stride num_frames num_seqs num_edges : nat)
    (idx : nat) (out : list float) : outcome (list float) :=
  if decide (num_frames * num_edges <= idx) then Ok out else
  let e_idx := idx mod num_edges in
  let frame := idx / num_edges in
  emission_idx ← read emission_idxs e_idx;
  seq_idx ← read sequence_idxs e_idx;
  score ← read edge_buffer idx;
  atomic_prob_add out
    (frame * frame_stride + seq_idx * seq_stride + emission_idx) score.

(** *** The host code [c_fw_code] *)

Record inputs : Type := mkInputs {
  am_scores : Ndarray float;
  edges : Ndarray nat;
  weights : Ndarray float;
  start_end_states : Ndarray nat;
  index : Ndarray float;
  state_buffer : Ndarray float;
  out : Ndarray float;
  sum_output : Ndarray float
}.

(** The device pointers and sizes the host derives from its arguments.  A
    pointer into a read-only array is the part of the array it points
    to. *)
Section Host.
Variable inp : inputs.

Definition d_from := drop (0 * Ndarray_STRIDE (edges inp) 0) (DATA (edges inp)).
Definition d_to := drop (1 * Ndarray_STRIDE (edges inp) 0) (DATA (edges inp)).
Definition d_emission_idxs :=
  drop (2 * Ndarray_STRIDE (edges inp) 0) (DATA (edges inp)).
Definition d_sequence_idxs :=
  drop (3 * Ndarray_STRIDE (edges inp) 0) (DATA (edges inp)).
Definition d_weights := DATA (weights inp).
Definition d_am_scores := DATA (am_scores inp).
Definition d_start_states :=
  drop (0 * Ndarray_STRIDE (start_end_states inp) 0) (DATA (start_end_states inp)).
Definition d_end_states :=
  drop (1 * Ndarray_STRIDE (start_end_states inp) 0) (DATA (start_end_states inp)).
Definition d_index := DATA (index inp).

Definition n_frames := Ndarray_DIMS (am_scores inp) 0.
Definition n_seqs := Ndarray_DIMS (am_scores inp) 1.
Definition n_emissions := Ndarray_DIMS (am_scores inp) 2.
Definition n_states := Ndarray_DIMS (state_buffer inp) 1.
Definition n_edges := Ndarray_DIMS (edges inp) 1.

Definition frame_stride := Ndarray_STRIDE (am_scores inp) 0.
Definition sequence_stride := Ndarray_STRIDE (am_scores inp) 1.
Definition index_stride := Ndarray_STRIDE (index inp) 0.

(** The two rows of [state_buffer], each taken as an array of its own.  An
    index at or beyond the length of a row is a [Fault] here; in the source
    an index past the first row reaches the second one, and an index past
    the second row leaves the allocation.  A run that returns here never
    leaves a row, and is the run of the source. *)
Definition d_state_buffer_row (k : nat) : list float :=
  take (Ndarray_STRIDE (state_buffer inp) 0)
    (drop (k * Ndarray_STRIDE (state_buffer inp) 0) (DATA (state_buffer inp))).

(** The buffers the two sweeps work on. *)
Record sweep : Type := mkSweep {
  d_state_buffer_prev : list float;
  d_state_buffer_next : list float;
  d_edge_buffer : list float
}.

Definition check_shapes : outcome unit :=
  _ ← assert (Ndarray_DIMS (am_scores inp) 0 =? Ndarray_DIMS (out inp) 0);
  _ ← assert (Ndarray_DIMS (am_scores inp) 1 =? Ndarray_DIMS (out inp) 1);
  _ ← assert (Ndarray_DIMS (am_scores inp) 2 =? Ndarray_DIMS (out inp) 2);
  _ ← assert (Ndarray_DIMS (am_scores inp) 1
              =? Ndarray_DIMS (start_end_states inp) 1);
  _ ← assert (Ndarray_DIMS (sum_output inp) 0 =? Ndarray_DIMS (am_scores inp) 0);
  _ ← assert (Ndarray_DIMS (sum_output inp) 1 =? Ndarray_DIMS (am_scores inp) 1);
  assert (0 <? n_frames).

(** "initialize edge buffer" and "initialize the state buffer" *)
Definition init_buffers : outcome sweep :=
  edge_buffer ← launch (blocks_for (n_edges * n_frames)) n_threads
                  (fill_array fzero (n_edges * n_frames))
                  (device_malloc (n_edges * n_frames));
  prev ← launch (blocks_for n_states) n_threads
           (fill_array PInf n_states) (d_state_buffer_row 0);
  prev ← launch 1 n_seqs (set_start_states d_start_states) prev;
  Ok (mkSweep prev (d_state_buffer_row 1) edge_buffer).

(** The call of [next_frame] of both passes at frame [t]. *)
Definition launch_next_frame (fwd : bool) (t : nat) (s : sweep) : outcome sweep :=
  '(next, edge_buffer) ←
    launch (blocks_for n_edges) n_threads
      (if fwd then
         next_frame true n_edges sequence_stride d_sequence_idxs d_from d_to
           d_weights d_emission_idxs (d_state_buffer_prev s)
           (drop (t * frame_stride) d_am_scores) (t * n_edges)
       else
         next_frame false n_edges sequence_stride d_sequence_idxs d_to d_from
           d_weights d_emission_idxs (d_state_buffer_prev s)
           (drop (t * frame_stride) d_am_scores) (t * n_edges))
      (d_state_buffer_next s, d_edge_buffer s);
  Ok (mkSweep (d_state_buffer_prev s) next edge_buffer).

Definition fill_next (s : sweep) : outcome sweep :=
  next ← launch (blocks_for n_states) n_threads
           (fill_array PInf n_states) (d_state_buffer_next s);
  Ok (mkSweep (d_state_buffer_prev s) next (d_edge_buffer s)).

Definition swap (s : sweep) : sweep :=
  mkSweep (d_state_buffer_next s) (d_state_buffer_prev s) (d_edge_buffer s).

(** The body of the loop "fwd pass" at [t]. *)
Definition fwd_frame (t : nat) (s : sweep) : outcome sweep :=
  s ← fill_next s;
  s ← launch_next_frame true t s;
  Ok (swap s).

Definition fwd_pass (s : sweep) : outcome sweep :=
  for_each (seq 0 n_frames) fwd_frame s.

(** "bwd pass": the fill before the loop, and the body of the loop at the
    loop variable [t] (the frame is [t - 1]), in two halves. *)
Definition bwd_reset (s : sweep) : outcome sweep :=
  prev ← launch (blocks_for n_states) n_threads
           (fill_array PInf n_states) (d_state_buffer_prev s);
  Ok (mkSweep prev (d_state_buffer_next s) (d_edge_buffer s)).

Definition bwd_init (t : nat) (s : sweep) : outcome sweep :=
  prev ← launch 1 n_seqs
           (init_bwd_state_buffer d_end_states (t - 1) (n_frames - 1)
              d_index index_stride)
           (d_state_buffer_prev s);
  Ok (mkSweep prev (d_state_buffer_next s) (d_edge_buffer s)).

Definition bwd_frame (t : nat) (s : sweep) : outcome sweep :=
  s ← bwd_init t s;
  s ← fill_next s;
  s ← launch_next_frame false (t - 1) s;
  Ok (swap s).

Definition bwd_pass (s : sweep) : outcome sweep :=
  s ← bwd_reset s;
  for_each (reverse (seq 1 n_frames)) bwd_frame s.

(** Both sweeps, from the checks of the shapes on. *)
Definition sweeps : outcome sweep :=
  _ ← check_shapes;
  s ← init_buffers;
  s ← fwd_pass s;
  bwd_pass s.

(** "normalize at each time frame" and the scatter into [out]; the strides
    of the scatter are those of [out].  [TENSORFLOW] is the preprocessor
    switch of the same name. *)
Definition assemble (TENSORFLOW : bool) (s : sweep)
  : outcome (list float * list float) :=
  '(edge_buffer, d_sum_output) ←
    launch n_frames 1 (normalize d_sequence_idxs n_edges n_seqs n_seqs)
      (d_edge_buffer s, DATA (sum_output inp));
  d_out ← launch (blocks_for (n_frames * n_seqs * n_emissions)) n_threads
            (fill_array PInf (n_frames * n_seqs * n_emissions))
            (DATA (out inp));
  d_out ← launch (blocks_for (n_frames * n_edges)) n_threads
            (compute_result edge_buffer d_emission_idxs d_sequence_idxs
               (Ndarray_STRIDE (out inp) 0) (Ndarray_STRIDE (out inp) 1)
               n_frames n_seqs n_edges)
            d_out;
  d_out ←
    (if TENSORFLOW then
       launch (blocks_for (n_frames * n_seqs * n_emissions)) n_threads
         (remove_inf (n_frames * n_seqs * n_emissions)) d_out
     else Ok d_out);
  Ok (d_out, d_sum_output).

(** [c_fw_code]: the outputs [output] and [sums].  The dumps are switched
    off in the source ([dump_alignment] and [dump_output] are [false]). *)
Definition c_fw_code (TENSORFLOW : bool) : outcome (list float * list float) :=
  s ← sweeps;
  assemble TENSORFLOW s.

End Host.

(** *** The scores of the two sweeps

    [forward_score t] is the previous-frame buffer when the forward loop
    reaches the frame [t]: the forward score of every state at [t].
    [backward_score t1] is the previous-frame buffer when the backward
    loop, in the round of the loop variable [t1] (the frame [t1 - 1]), has
    run [init_bwd_state_buffer] and calls [next_frame]: the backward score
    of every state at [t1]. *)
Definition forward_state (inp : inputs) (t : nat) : outcome sweep :=
  _ ← check_shapes inp;
  s ← init_buffers inp;
  for_each (seq 0 t) (fwd_frame inp) s.

Definition forward_score (inp : inputs) (t : nat) : outcome (list float) :=
  s ← forward_state inp t;
  Ok (d_state_buffer_prev s).

Definition backward_state (inp : inputs) (t1 : nat) : outcome sweep :=
  s ← forward_state inp (n_frames inp);
  s ← bwd_reset inp s;
  s ← for_each (reverse (seq (t1 + 1) (n_frames inp - t1))) (bwd_frame inp) s;
  bwd_init inp t1 s.

Definition backward_score (inp : inputs) (t1 : nat) : outcome (list float) :=
  s ← backward_state inp t1;
  Ok (d_state_buffer_prev s).

(** [am_scores[t][seq(e)][emission(e)]], as [next_frame] addresses it. *)
Definition emission_score (inp : inputs) (e t : nat) : float :=
  d_am_scores inp !!! (t * frame_stride inp +
    ((d_sequence_idxs inp !!! e) * sequence_stride inp + d_emission_idxs inp !!! e)).

End FastBaumWelchOp.

(** ** [SegmentFastBaumWelchOp] *)

(** A kernel that is given the pointer [a + off] into the array [a] works
    on the part of [a] from [off] on. *)
Definition at_offset {A} (off : nat) (k : list A -> outcome (list A))
    (a : list A) : outcome (list A) :=
  part ← k (drop off a);
  Ok (take off a ++ part).

(** Arithmetic on [unsigned].  [min(e, n - 1)] for [e] below 2^32: the
    difference wraps around to 2^32 - 1 when [n] is 0.  The conversion of an
    [int] wraps around modulo 2^32.  [static_cast<unsigned>] of a float
    truncates, and is undefined outside the range of [unsigned]. *)
Definition min_u32_pred (e n : nat) : nat :=
  match n with
  | O => e
  | S k => Nat.min e k
  end.

Definition u32_of_int (z : Z) : nat := Z.to_nat (z mod 2 ^ 32).

Definition float_to_unsigned (x : float) : outcome nat :=
  match x with
  | Fin r =>
      if Rlt_dec (-1) r then
        if Rlt_dec r (2 ^ 32) then Ok (Z.to_nat (Int_part r)) else Fault
      else Fault
  | _ => Fault
  end.

Module SegmentFastBaumWelchOp.

(** 100_init_bwd_state_buffer; [states] points into the ring buffer. *)
Definition init_bwd_state_buffer (t num_batches num_seqs : nat)
    (batch_idxs : list Z) (index : list float) (end_states : list nat)
    (idx : nat) (states : list float) : outcome (list float) :=
  batch_idx ← read batch_idxs (t * num_seqs + idx);
  if decide (batch_idx < 0)%Z then Ok states else
  let batch_first_frame := drop (Z.to_nat batch_idx) index in
  i0 ← read batch_first_frame 0;
  last ←
    (if negb (feq i0 fzero) then
       i1 ← read batch_first_frame num_batches; Ok (feq i1 fzero)
     else Ok false);
  if last : bool then
    state_idx ← read end_states idx;
    write states state_idx fzero
  else Ok states.

(** The offset [batch_idx * num_seg_frames * num_emissions + emission_idx]
    of the pointer [am_buffer_in] of the two [next_frame] kernels; the
    product is taken in [unsigned]. *)
Definition am_buffer_in (batch_idx : Z)
    (num_seg_frames num_emissions emission_idx : nat) : Z :=
  (batch_idx * Z.of_nat num_seg_frames * Z.of_nat num_emissions) mod 2 ^ 32
  + Z.of_nat emission_idx.

(** 101_next_frame_fwd; [edge_off] is the offset of the pointer
    [edge_buffer] the host passes. *)
Definition next_frame_fwd (time num_states num_edges num_emissions
      num_seg_frames num_tot_frames num_seqs num_am_score_scales : nat)
    (sequence_idxs from_buffer to_buffer : list nat) (weight_buffer : list float)
    (emission_idxs lenmod_idxs : list nat) (batch_idxs : list Z)
    (am_scores length_models am_score_scales epoch : list float)
    (edge_off : nat)
    (idx : nat) (st : list float * list float)
  : outcome (list float * list float) :=
  let '(state_buffer, edge_buffer) := st in
  if decide (num_edges <= idx) then Ok st else
  let num_ringbuffer_frames := num_seg_frames + 1 in
  let max_seg_frames := Nat.min num_seg_frames (num_tot_frames - time) in
  let prev_frame_idx := time mod num_ringbuffer_frames in
  let prev_frame_start := prev_frame_idx * num_states in
  from ← read from_buffer idx;
  prev_val ← read state_buffer (prev_frame_start + from);
  if isinf prev_val then Ok st else
  sequence_idx ← read sequence_idxs idx;
  batch_idx ← read batch_idxs (time * num_seqs + sequence_idx);
  if decide (batch_idx = -1)%Z then Ok st else
  e ← read epoch 0;
  e ← float_to_unsigned e;
  let amss_idx := min_u32_pred e num_am_score_scales in
  am_score_scale ← read am_score_scales amss_idx;
  to ← read to_buffer idx;
  emission_idx ← read emission_idxs idx;
  lenmod_idx ← read lenmod_idxs idx;
  edge_weight ← read weight_buffer idx;
  let prev_plus_edge := fadd prev_val edge_weight in
  let am_in := am_buffer_in batch_idx num_seg_frames num_emissions
                 emission_idx in
  let length_scores := drop (lenmod_idx * num_seg_frames) length_models in
  let edge_buffer_out := edge_off + idx in
  for_each (seq 0 max_seg_frames)
    (fun i '(state_buffer, edge_buffer) =>
       am ← read_at am_scores (am_in + Z.of_nat (i * num_emissions));
       ls ← read length_scores i;
       let val := fadd (fadd prev_plus_edge (fmul am_score_scale am)) ls in
       edge_buffer ← write edge_buffer (edge_buffer_out + i * num_edges) val;
       let next_frame := (prev_frame_idx + 1 + i) mod num_ringbuffer_frames in
       state_buffer ← atomic_prob_add state_buffer
                        (next_frame * num_states + to) val;
       Ok (state_buffer, edge_buffer))
    (state_buffer, edge_buffer).

(** 102_next_frame_bwd *)
Definition next_frame_bwd (time num_states num_edges num_emissions
      num_seg_frames num_tot_frames num_seqs num_am_score_scales : nat)
    (sequence_idxs from_buffer to_buffer : list nat) (weight_buffer : list float)
    (emission_idxs lenmod_idxs : list nat) (batch_idxs : list Z)
    (am_scores length_models am_score_scales epoch : list float)
    (edge_off : nat)
    (idx : nat) (st : list float * list float)
  : outcome (list float * list float) :=
  let '(state_buffer, edge_buffer) := st in
  if decide (num_edges <= idx) then Ok st else
  let num_ringbuffer_frames := num_seg_frames + 1 in
  let max_seg_frames := Nat.min num_seg_frames (num_tot_frames - time) in
  sequence_idx ← read sequence_idxs idx;
  batch_idx ← read batch_idxs (time * num_seqs + sequence_idx);
  if decide (batch_idx = -1)%Z then Ok st else
  e ← read epoch 0;
  e ← float_to_unsigned e;
  let amss_idx := min_u32_pred e num_am_score_scales in
  am_score_scale ← read am_score_scales amss_idx;
  from ← read from_buffer idx;
  to ← read to_buffer idx;
  emission_idx ← read emission_idxs idx;
  lenmod_idx ← read lenmod_idxs idx;
  edge_weight ← read weight_buffer idx;
  let next_frame_idx := time mod num_ringbuffer_frames in
  let am_in := am_buffer_in batch_idx num_seg_frames num_emissions
                 emission_idx in
  let length_scores := drop (lenmod_idx * num_seg_frames) length_models in
  let edge_buffer_out := edge_off + idx in
  '(edge_buffer, acc_val) ←
    for_each (seq 0 max_seg_frames)
      (fun i '(edge_buffer, acc_val) =>
         let prev_frame_idx := (next_frame_idx + i + 1) mod num_ringbuffer_frames in
         prev_val ← read state_buffer (prev_frame_idx * num_states + from);
         if isinf prev_val then
           edge_buffer ← write edge_buffer (edge_buffer_out + i * num_edges) PInf;
           Ok (edge_buffer, acc_val)
         else
           am ← read_at am_scores (am_in + Z.of_nat (i * num_emissions));
           ls ← read length_scores i;
           let val := fadd (fadd (fadd prev_val edge_weight)
                              (fmul am_score_scale am)) ls in
           old ← read edge_buffer (edge_buffer_out + i * num_edges);
           edge_buffer ← write edge_buffer (edge_buffer_out + i * num_edges)
                           (fadd old prev_val);
           Ok (edge_buffer, prob_add acc_val val))
      (edge_buffer, PInf);
  state_buffer ← atomic_prob_add state_buffer
                   (next_frame_idx * num_states + to) acc_val;
  Ok (state_buffer, edge_buffer).

(** 103_compute_framewise_sum; [sum_buffer] is the part of the shared
    array of the thread. *)
Definition compute_framewise_sum (num_tot_frames num_seqs num_seg_frames
      num_batches num_edges : nat)
    (sequence_idxs : list nat) (batch_idxs : list Z)
    (index edge_buffer : list float)
    (idx : nat) (output_buffer : list float) : outcome (list float) :=
  if decide (num_tot_frames * num_seg_frames <= idx) then Ok output_buffer else
  let off := idx * num_edges in
  sum_buffer ← for_each (seq 0 num_seqs)
                 (fun s sum => write sum s PInf) (device_malloc num_seqs);
  sum_buffer ← for_each (seq 0 num_edges)
                 (fun i sum =>
                    seq_idx ← read sequence_idxs i;
                    x ← read sum seq_idx;
                    y ← read edge_buffer (off + i);
                    write sum seq_idx (prob_add x y)) sum_buffer;
  let time := idx / num_seg_frames in
  let seg_size := idx mod num_seg_frames in
  for_each (seq 0 num_seqs)
    (fun s output_buffer =>
       batch_idx ← read batch_idxs (time * num_seqs + s);
       if decide (0 <= batch_idx)%Z then
         let output_idx := seg_size * num_batches + Z.to_nat batch_idx in
         x ← read sum_buffer s;
         zero ← (if isinf x then Ok true
                 else i ← read index output_idx; Ok (feq i fzero));
         write output_buffer output_idx (if zero : bool then fzero else x)
       else Ok output_buffer)
    output_buffer.

(** 104_merge_framewise_sums *)
Definition merge_framewise_sum (num_seg_frames num_batches : nat)
    (index : list float)
    (idx : nat) (sum_buffer : list float) : outcome (list float) :=
  if decide (num_batches <= idx) then Ok sum_buffer else
  sum ← read sum_buffer (idx + 0);
  sum ← for_each (seq 1 (num_seg_frames - 1))
          (fun s sum =>
             i ← read index (idx + s * num_batches);
             if negb (feq i fzero) then
               x ← read sum_buffer (idx + s * num_batches);
               Ok (prob_add sum x)
             else Ok sum) sum;
  for_each (seq 0 num_seg_frames)
    (fun s sum_buffer =>
       i ← read index (idx + s * num_batches);
       if negb (feq i fzero) then write sum_buffer (idx + s * num_batches) sum
       else Ok sum_buffer)
    sum_buffer.

(** 105_compute_targets *)
Definition compute_targets (num_tot_frames num_seg_frames num_edges
      num_batches num_seqs num_emissions : nat)
    (sequence_idxs emission_idxs : list nat) (batch_idxs : list Z)
    (index edge_buffer normalization_buffer : list float)
    (idx : nat) (output_buffer : list float) : outcome (list float) :=
  if decide (num_tot_frames * num_seg_frames * num_edges <= idx)
  then Ok output_buffer else
  let edge_idx := idx mod num_edges in
  let time := idx / (num_edges * num_seg_frames) in
  seq_idx ← read sequence_idxs edge_idx;
  batch_idx ← read batch_idxs (time * num_seqs + seq_idx);
  if decide (batch_idx < 0)%Z then Ok output_buffer else
  let batch_idx := Z.to_nat batch_idx in
  let seg_length := (idx / num_edges) mod num_seg_frames in
  i ← read index (seg_length * num_batches + batch_idx);
  if feq i fzero then Ok output_buffer else
  emission_idx ← read emission_idxs edge_idx;
  normalization ← read normalization_buffer (seg_length * num_batches + batch_idx);
  score ← read edge_buffer idx;
  atomic_prob_add output_buffer
    (seg_length * num_batches * num_emissions + batch_idx * num_emissions
     + emission_idx)
    (fsub score normalization).

(** 106_compute_posterior_weights.  The [return] in the loop ends the
    thread: the state of the loop carries whether it has been taken. *)
Definition compute_posterior_weights (num_tot_frames num_seg_frames num_seqs
      num_batches : nat)
    (state_buffer : list float) (start_states : list nat) (batch_idxs : list Z)
    (index normalization_factors : list float)
    (idx : nat) (posterior_weigths : list float) : outcome (list float) :=
  if decide (num_tot_frames * num_seqs <= idx) then Ok posterior_weigths else
  let time := idx / num_seqs in
  let seq_idx := idx mod num_seqs in
  batch_idx ← read batch_idxs (time * num_seqs + seq_idx);
  if decide (batch_idx < 0)%Z then Ok posterior_weigths else
  let batch_idx := Z.to_nat batch_idx in
  start ← read start_states seq_idx;
  seq_sum ← read state_buffer start;
  '(posterior_weigths, _) ←
    for_each (seq 0 num_seg_frames)
      (fun s '(posterior_weigths, returned) =>
         if returned : bool then Ok (posterior_weigths, true) else
         let i := s * num_batches + batch_idx in
         m ← read index i;
         if feq m fzero then Ok (posterior_weigths, true) else
         nf ← read normalization_factors i;
         posterior_weigths ← write posterior_weigths i
                               (fexp (fneg (fsub nf seq_sum)));
         Ok (posterior_weigths, false))
      (posterior_weigths, false);
  Ok posterior_weigths.

(** *** The host code [c_fw_code] *)

Record inputs : Type := mkInputs {
  ary_am_scores : Ndarray float;
  ary_batch_idxs : Ndarray Z;
  ary_edges : Ndarray nat;
  ary_weights : Ndarray float;
  ary_start_end_states : Ndarray nat;
  ary_length_models : Ndarray float;
  ary_index : Ndarray float;
  ary_am_score_scales : Ndarray float;
  ary_epoch : Ndarray float;
  ary_out : Ndarray float;
  ary_norm_factors : Ndarray float;
  ary_posterior_weights : Ndarray float
}.

Section Host.
Variable inp : inputs.

Definition d_am_scores := DATA (ary_am_scores inp).
Definition d_batch_idxs := DATA (ary_batch_idxs inp).
Definition d_from :=
  drop (0 * Ndarray_STRIDE (ary_edges inp) 0) (DATA (ary_edges inp)).
Definition d_to :=
  drop (1 * Ndarray_STRIDE (ary_edges inp) 0) (DATA (ary_edges inp)).
Definition d_emission_idxs :=
  drop (2 * Ndarray_STRIDE (ary_edges inp) 0) (DATA (ary_edges inp)).
Definition d_lenmod_idxs :=
  drop (3 * Ndarray_STRIDE (ary_edges inp) 0) (DATA (ary_edges inp)).
Definition d_sequence_idxs :=
  drop (4 * Ndarray_STRIDE (ary_edges inp) 0) (DATA (ary_edges inp)).
Definition d_weights := DATA (ary_weights inp).
Definition d_length_models := DATA (ary_length_models inp).
Definition d_start_states :=
  drop (0 * Ndarray_STRIDE (ary_start_end_states inp) 0)
    (DATA (ary_start_end_states inp)).
Definition d_end_states :=
  drop (1 * Ndarray_STRIDE (ary_start_end_states inp) 0)
    (DATA (ary_start_end_states inp)).
Definition d_index := DATA (ary_index inp).
Definition d_am_score_scales := DATA (ary_am_score_scales inp).
Definition d_epoch := DATA (ary_epoch inp).

Definition n_seg_frames := Ndarray_DIMS (ary_am_scores inp) 0.
Definition n_batches := Ndarray_DIMS (ary_am_scores inp) 1.
Definition n_emissions := Ndarray_DIMS (ary_am_scores inp) 2.
Definition n_tot_frames := Ndarray_DIMS (ary_batch_idxs inp) 0.
Definition n_seqs := Ndarray_DIMS (ary_batch_idxs inp) 1.
Definition n_edges := Ndarray_DIMS (ary_edges inp) 1.
Definition n_am_score_scales := Ndarray_DIMS (ary_am_score_scales inp) 0.
Definition n_ringbuffer_frames := n_seg_frames + 1.

(** The ring buffer of the states and the edge buffer. *)
Definition buffers : Type := (list float * list float)%type.

Definition check_shapes : outcome unit :=
  assert (Ndarray_DIMS (ary_edges inp) 1 =? Ndarray_DIMS (ary_weights inp) 0).

(** [n_states] is read from the last end state. *)
Definition read_n_states : outcome nat :=
  tmp ← (if decide (n_seqs = 0) then Fault else read d_end_states (n_seqs - 1));
  Ok (tmp + 1).

Section States.
Variable n_states : nat.

(** The slot [(t - 1) %% n_ringbuffer_frames] of the forward loop; the
    difference is taken in [unsigned]. *)
Definition fwd_clear_slot (t : nat) : nat :=
  Z.to_nat (((Z.of_nat t - 1) mod 2 ^ 32) mod Z.of_nat n_ringbuffer_frames).

(** The body of the loop "fwd pass" at [t]; [n_fill_blocks] still has the
    value computed for the normalization factors. *)
Definition fwd_frame (n_fill_blocks : nat) (t : nat) (b : buffers)
  : outcome buffers :=
  let '(state_buffer, edge_buffer) := b in
  state_buffer ←
    launch n_fill_blocks n_threads
      (fun idx => at_offset (fwd_clear_slot t * n_states)
                    (fill_array PInf n_states idx))
      state_buffer;
  launch (blocks_for n_edges) n_threads
    (next_frame_fwd t n_states n_edges n_emissions n_seg_frames n_tot_frames
       n_seqs n_am_score_scales d_sequence_idxs d_from d_to d_weights
       d_emission_idxs d_lenmod_idxs d_batch_idxs d_am_scores d_length_models
       d_am_score_scales d_epoch (t * n_seg_frames * n_edges))
    (state_buffer, edge_buffer).

(** The body of the loop "bwd pass" at the loop variable [t], in three
    steps. *)
Definition bwd_clear (t : nat) (state_buffer : list float)
  : outcome (list float) :=
  launch (blocks_for n_states) n_threads
    (fun idx => at_offset (((t - 1) mod n_ringbuffer_frames) * n_states)
                  (fill_array PInf n_states idx))
    state_buffer.

Definition bwd_init (t : nat) (state_buffer : list float)
  : outcome (list float) :=
  launch 1 n_seqs
    (fun idx => at_offset ((t mod n_ringbuffer_frames) * n_states)
                  (init_bwd_state_buffer (t - 1) n_batches n_seqs d_batch_idxs
                     d_index d_end_states idx))
    state_buffer.

Definition bwd_frame (t : nat) (b : buffers) : outcome buffers :=
  let '(state_buffer, edge_buffer) := b in
  state_buffer ← bwd_clear t state_buffer;
  state_buffer ← bwd_init t state_buffer;
  launch (blocks_for n_edges) n_threads
    (next_frame_bwd (t - 1) n_states n_edges n_emissions n_seg_frames
       n_tot_frames n_seqs n_am_score_scales d_sequence_idxs d_to d_from
       d_weights d_emission_idxs d_lenmod_idxs d_batch_idxs d_am_scores
       d_length_models d_am_score_scales d_epoch
       ((t - 1) * n_seg_frames * n_edges))
    (state_buffer, edge_buffer).

End States.

(** [c_fw_code]: the outputs [output], [normalization_factors] and
    [posterior_weigths].  [segmentwise_normalization] is the option of the
    constructor; the dumps are left out. *)
Definition c_fw_code (segmentwise_normalization : bool)
  : outcome (list float * list float * list float) :=
  _ ← check_shapes;
  n_states ← read_n_states;
  let edge_buffer_size := n_tot_frames * n_seg_frames * n_edges in
  edge_buffer ← launch (blocks_for edge_buffer_size) n_threads
                  (fill_array PInf edge_buffer_size)
                  (device_malloc edge_buffer_size);
  state_buffer ← launch (blocks_for (n_states * n_ringbuffer_frames)) n_threads
                   (fill_array PInf (n_states * n_ringbuffer_frames))
                   (device_malloc (n_states * n_ringbuffer_frames));
  let n_fill_blocks := blocks_for (n_batches * n_seg_frames) in
  norm_factors ← launch n_fill_blocks n_threads
                   (fill_array fzero (n_batches * n_seg_frames))
                   (DATA (ary_norm_factors inp));
  posterior_weights ← launch n_fill_blocks n_threads
                        (fill_array fzero (n_batches * n_seg_frames))
                        (DATA (ary_posterior_weights inp));
  state_buffer ← launch 1 n_seqs (set_start_states d_start_states) state_buffer;
  b ← for_each (seq 0 n_tot_frames) (fwd_frame n_states n_fill_blocks)
        (state_buffer, edge_buffer);
  state_buffer ← launch (blocks_for (n_states * n_ringbuffer_frames)) n_threads
                   (fill_array PInf (n_states * n_ringbuffer_frames)) b.1;
  '(state_buffer, edge_buffer) ←
    for_each (reverse (seq 1 n_tot_frames)) (bwd_frame n_states)
      (state_buffer, b.2);
  norm_factors ← launch (blocks_for (n_tot_frames * n_seg_frames)) n_threads
                   (compute_framewise_sum n_tot_frames n_seqs n_seg_frames
                      n_batches n_edges d_sequence_idxs d_batch_idxs d_index
                      edge_buffer)
                   norm_factors;
  norm_factors ←
    (if segmentwise_normalization then
       launch (blocks_for n_batches) n_threads
         (merge_framewise_sum n_seg_frames n_batches d_index) norm_factors
     else Ok norm_factors);
  posterior_weights ← launch (blocks_for (n_tot_frames * n_seqs)) n_threads
                        (compute_posterior_weights n_tot_frames n_seg_frames
                           n_seqs n_batches state_buffer d_start_states
                           d_batch_idxs d_index norm_factors)
                        posterior_weights;
  d_out ← launch (blocks_for (n_batches * n_seg_frames * n_emissions)) n_threads
            (fill_array PInf (n_batches * n_seg_frames * n_emissions))
            (DATA (ary_out inp));
  d_out ← launch (blocks_for (n_tot_frames * n_seg_frames * n_edges)) n_threads
            (compute_targets n_tot_frames n_seg_frames n_edges n_batches n_seqs
               n_emissions d_sequence_idxs d_emission_idxs d_batch_idxs d_index
               edge_buffer norm_factors)
            d_out;
  Ok (d_out, norm_factors, posterior_weights).

End Host.

End SegmentFastBaumWelchOp.

(** ** [Chunking] *)

Module Chunking.

(** [Chunking.naive_chunk_start_frames] on Python integers.  The loop
    [while True] is run for at most [fuel] rounds; [None] says that it has
    not ended by then. *)
Fixpoint naive_chunk_start_frames_loop (fuel : nat)
    (n_time chunk_size chunk_step : Z) (t : Z) (chunk_start_frames : list Z)
  : option (list Z) :=
  match fuel with
  | O => None
  | S fuel' =>
      let chunk_start_frames := chunk_start_frames ++ [t] in
      if (t + chunk_size >=? n_time)%Z then Some chunk_start_frames
      else naive_chunk_start_frames_loop fuel' n_time chunk_size chunk_step
             (t + chunk_step)%Z chunk_start_frames
  end.

Definition naive_chunk_start_frames (fuel : nat)
    (n_time chunk_size chunk_step : Z) : option (list Z) :=
  naive_chunk_start_frames_loop fuel n_time chunk_size chunk_step 0%Z [].

(** [n_chunks] as [chunk] computes it:
    [maximum(n_time - chunk_size + chunk_step - 1, 0) // chunk_step + 1]. *)
Definition n_chunks (n_time chunk_size chunk_step : Z) : Z :=
  (Z.max (n_time - chunk_size + chunk_step - 1) 0 / chunk_step + 1)%Z.

End Chunking.

(** ** Kernels with a grid-stride loop *)

(** The loop
    [for (idx = threadIdx.x + blockDim.x * blockIdx.x; idx < max_idx;
          idx += gridDim.x * blockDim.x)]
    of the thread [tid] of [total] threads.  A thread that runs is one of
    [total >= 1] threads, so the loop ends within [max_idx] rounds. *)
Fixpoint grid_stride_loop {St} (fuel idx total max_idx : nat)
    (body : nat -> St -> outcome St) (st : St) : outcome St :=
  match fuel with
  | O => Ok st
  | S fuel' =>
      if decide (idx < max_idx) then
        st' ← body idx st;
        grid_stride_loop fuel' (idx + total) total max_idx body st'
      else Ok st
  end.

Definition grid_stride {St} (tid total max_idx : nat)
    (body : nat -> St -> outcome St) (st : St) : outcome St :=
  grid_stride_loop max_idx tid total max_idx body st.

(** [arr[z] = v] for an offset [z] that was computed in machine integers. *)
Definition write_at {A} (arr : list A) (z : Z) (v : A) : outcome (list A) :=
  if decide (0 <= z < Z.of_nat (length arr))%Z then write arr (Z.to_nat z) v
  else Fault.

(** The conversion [long(x)] or [(long) x] of a float: it truncates towards
    zero, and is undefined for NaN, for the infinities and outside of the
    range of [long]. *)
Definition float_to_long (x : float) : outcome Z :=
  match x with
  | Fin r =>
      if Rlt_dec (- 2 ^ 63 - 1) r then
        if Rlt_dec r (2 ^ 63) then
          Ok (if Rle_dec 0 r then Int_part r else (- Int_part (- r))%Z)
        else Fault
      else Fault
  | _ => Fault
  end.

(** ** [SubtensorBatchedIndex] *)

Module SubtensorBatchedIndex.

Local Open Scope Z_scope.

(** select_kernel; [/] and [%] of C are [Z.quot] and [Z.rem]. *)
Definition select_kernel (tid total : nat)
    (x : list float) (x_dim0 x_dim1 x_dim2 x_stride0 x_stride1 x_stride2 : Z)
    (index : list float) (idx_stride0 idx_stride1 : Z)
    (y_stride0 y_stride1 : Z) (y : list float) : outcome (list float) :=
  let max_idx := x_dim0 * x_dim1 in
  grid_stride tid total (Z.to_nat max_idx)
    (fun idx y =>
       let idx := Z.of_nat idx in
       let d0 := Z.rem idx x_dim0 in
       let d1 := Z.quot idx x_dim0 in
       i ← read_at index (d0 * idx_stride0 + d1 * idx_stride1);
       d2 ← float_to_long i;
       let d2 := if decide (d2 < 0) then 0 else d2 in
       let d2 := if decide (d2 >= x_dim2) then x_dim2 - 1 else d2 in
       v ← read_at x (d0 * x_stride0 + d1 * x_stride1 + d2 * x_stride2);
       write_at y (d0 * y_stride0 + d1 * y_stride1) v)
    y.

(** select_bw_kernel *)
Definition select_bw_kernel (tid total : nat)
    (Dx_dim0 Dx_dim1 Dx_dim2 Dx_stride0 Dx_stride1 Dx_stride2 : Z)
    (index : list float) (idx_stride0 idx_stride1 : Z)
    (Dy : list float) (Dy_stride0 Dy_stride1 : Z)
    (Dx : list float) : outcome (list float) :=
  let max_idx := Dx_dim0 * Dx_dim1 in
  grid_stride tid total (Z.to_nat max_idx)
    (fun idx Dx =>
       let idx := Z.of_nat idx in
       let d0 := Z.rem idx Dx_dim0 in
       let d1 := Z.quot idx Dx_dim0 in
       i ← read_at index (d0 * idx_stride0 + d1 * idx_stride1);
       d2 ← float_to_long i;
       let d2 := if decide (d2 < 0) then 0 else d2 in
       let d2 := if decide (d2 >= Dx_dim2) then Dx_dim2 - 1 else d2 in
       v ← read_at Dy (d0 * Dy_stride0 + d1 * Dy_stride1);
       write_at Dx (d0 * Dx_stride0 + d1 * Dx_stride1 + d2 * Dx_stride2) v)
    Dx.

Definition NDIM {A} (a : Ndarray A) : nat := length (SHAPE a).
Definition DIM {A} (a : Ndarray A) (k : nat) : Z := Z.of_nat (Ndarray_DIMS a k).
Definition STRIDE {A} (a : Ndarray A) (k : nat) : Z :=
  Z.of_nat (Ndarray_STRIDE a k).

(** [c_fw_code] on contiguous arrays; the grid of [start_dev_kernel] is
    [n_blocks] blocks of [n_threads] threads.  It returns the data of
    [y]. *)
Definition c_fw_code (n_blocks n_threads : nat) (x idx y : Ndarray float)
  : outcome (list float) :=
  _ ← assert (NDIM x =? 3)%nat;
  _ ← assert (NDIM idx =? 2)%nat;
  _ ← assert (DIM x 0 =? DIM idx 0);
  _ ← assert (DIM x 1 =? DIM idx 1);
  _ ← assert (NDIM y =? 2)%nat;
  _ ← assert (DIM y 0 =? DIM idx 0);
  _ ← assert (DIM y 1 =? DIM idx 1);
  launch n_blocks n_threads
    (fun tid =>
       select_kernel tid (n_blocks * n_threads) (DATA x)
         (DIM x 0) (DIM x 1) (DIM x 2) (STRIDE x 0) (STRIDE x 1) (STRIDE x 2)
         (DATA idx) (STRIDE idx 0) (STRIDE idx 1)
         (STRIDE y 0) (STRIDE y 1))
    (DATA y).

(** [c_bw_code]; [Dx] is the output, set to zero before the kernel. *)
Definition c_bw_code (n_blocks n_threads : nat) (x idx Dy Dx : Ndarray float)
  : outcome (list float) :=
  _ ← assert (NDIM x =? 3)%nat;
  _ ← assert (NDIM idx =? 2)%nat;
  _ ← assert (DIM x 0 =? DIM idx 0);
  _ ← assert (DIM x 1 =? DIM idx 1);
  _ ← assert (NDIM Dy =? 2)%nat;
  _ ← assert (DIM Dy 0 =? DIM idx 0);
  _ ← assert (DIM Dy 1 =? DIM idx 1);
  _ ← assert (NDIM Dx =? 3)%nat;
  _ ← assert (DIM Dx 0 =? DIM x 0);
  _ ← assert (DIM Dx 1 =? DIM x 1);
  _ ← assert (DIM Dx 2 =? DIM x 2);
  launch n_blocks n_threads
    (fun tid =>
       select_bw_kernel tid (n_blocks * n_threads)
         (DIM Dx 0) (DIM Dx 1) (DIM Dx 2)
         (STRIDE Dx 0) (STRIDE Dx 1) (STRIDE Dx 2)
         (DATA idx) (STRIDE idx 0) (STRIDE idx 1)
         (DATA Dy) (STRIDE Dy 0) (STRIDE Dy 1))
    (replicate (length (DATA Dx)) fzero).

End SubtensorBatchedIndex.

(** ** [Chunking]: the kernel and the host code *)

(** The C comparison [x > y]; false as soon as one side is NaN. *)
Definition fgt (x y : float) : bool :=
  match x, y with
  | Fin a, Fin b => if Rlt_dec b a then true else false
  | PInf, Fin _ | PInf, NInf | Fin _, NInf => true
  | _, _ => false
  end.

Module ChunkingOp.
Import SubtensorBatchedIndex.

Local Open Scope Z_scope.

(** The body of the loop of copy_kernel for the index [idx]; the state is
    [(output, oindex)]. *)
Definition copy_kernel_round (chunk_step n_chunks : Z)
    (input : list float)
    (in_dim0 in_dim2 in_stride0 in_stride1 in_stride2 : Z)
    (index : list float) (idx_stride0 idx_stride1 : Z)
    (out_dim0 out_stride0 out_stride1 out_stride2 : Z)
    (oidx_stride0 oidx_stride1 : Z)
    (idx : nat) (st : list float * list float)
  : outcome (list float * list float) :=
  let '(output, oindex) := st in
  let idx := Z.of_nat idx in
  let out_x := Z.rem idx out_dim0 in
  let out_y := Z.quot idx out_dim0 in
  let chunk_idx := Z.rem out_y n_chunks in
  let in_y := Z.quot out_y n_chunks in
  let in_x := chunk_step * chunk_idx + out_x in
  c ← (if decide (in_x < in_dim0) then
         i ← read_at index (in_x * idx_stride0 + in_y * idx_stride1);
         Ok (fgt i (Fin (1 / 10)%R))
       else Ok false);
  if c : bool then
    output ←
      for_each (seq 0 (Z.to_nat in_dim2))
        (fun z output =>
           let z := Z.of_nat z in
           v ← read_at input
                 (in_x * in_stride0 + in_y * in_stride1 + z * in_stride2);
           write_at output
             (out_x * out_stride0 + out_y * out_stride1 + z * out_stride2) v)
        output;
    oindex ← write_at oindex (out_x * oidx_stride0 + out_y * oidx_stride1) fone;
    Ok (output, oindex)
  else
    output ←
      for_each (seq 0 (Z.to_nat in_dim2))
        (fun z output =>
           let z := Z.of_nat z in
           write_at output
             (out_x * out_stride0 + out_y * out_stride1 + z * out_stride2)
             fzero)
        output;
    oindex ← write_at oindex (out_x * oidx_stride0 + out_y * oidx_stride1) fzero;
    Ok (output, oindex).

(** copy_kernel.  The integers are [long] and stay in its range for the
    sizes of the arrays; [%] by zero is undefined. *)
Definition copy_kernel (tid total : nat) (chunk_params : list float)
    (input : list float)
    (in_dim0 in_dim1 in_dim2 in_stride0 in_stride1 in_stride2 : Z)
    (index : list float) (idx_stride0 idx_stride1 : Z)
    (out_dim0 out_dim1 out_stride0 out_stride1 out_stride2 : Z)
    (oidx_stride0 oidx_stride1 : Z)
    (st : list float * list float) : outcome (list float * list float) :=
  _ ← (if decide (in_dim1 = 0) then Fault
       else assert (Z.rem out_dim1 in_dim1 =? 0));
  let n_chunks := Z.quot out_dim1 in_dim1 in
  _ ← assert (0 <? n_chunks);
  let chunk_size := out_dim0 in
  p0 ← read chunk_params 0;
  p0 ← float_to_long p0;
  _ ← assert (p0 =? chunk_size);
  p1 ← read chunk_params 1;
  chunk_step ← float_to_long p1;
  _ ← assert (0 <? chunk_step);
  _ ← assert (in_dim0 <=? chunk_step * (n_chunks - 1) + chunk_size);
  _ ← assert (chunk_step * (n_chunks - 1) <? in_dim0);
  let max_idx := out_dim0 * out_dim1 in
  grid_stride tid total (Z.to_nat max_idx)
    (copy_kernel_round chunk_step n_chunks input in_dim0 in_dim2
       in_stride0 in_stride1 in_stride2 index idx_stride0 idx_stride1
       out_dim0 out_stride0 out_stride1 out_stride2 oidx_stride0 oidx_stride1)
    st.

(** [c_fw_code] on contiguous arrays; [output] and [oindex] are the
    buffers [inputs[2]] and [inputs[3]], which the op works on in place.  It
    returns the data of [output] and of [oindex]. *)
Definition c_fw_code (n_blocks n_threads : nat)
    (input index chunk_params output oindex : Ndarray float)
  : outcome (list float * list float) :=
  _ ← assert (NDIM input =? 3)%nat;
  _ ← assert (NDIM index =? 2)%nat;
  _ ← assert (DIM input 0 =? DIM index 0);
  _ ← assert (DIM input 1 =? DIM index 1);
  _ ← assert (NDIM chunk_params =? 1)%nat;
  _ ← assert (DIM chunk_params 0 =? 2);
  _ ← assert (NDIM output =? 3)%nat;
  _ ← assert (NDIM oindex =? 2)%nat;
  _ ← assert (DIM output 0 =? DIM oindex 0);
  _ ← assert (DIM output 1 =? DIM oindex 1);
  _ ← assert (DIM output 2 =? DIM input 2);
  launch n_blocks n_threads
    (fun tid =>
       copy_kernel tid (n_blocks * n_threads) (DATA chunk_params)
         (DATA input) (DIM input 0) (DIM input 1) (DIM input 2)
         (STRIDE input 0) (STRIDE input 1) (STRIDE input 2)
         (DATA index) (STRIDE index 0) (STRIDE index 1)
         (DIM output 0) (DIM output 1)
         (STRIDE output 0) (STRIDE output 1) (STRIDE output 2)
         (STRIDE oindex 0) (STRIDE oindex 1))
    (DATA output, DATA oindex).

(** [chunk]: the buffers that it allocates, and the op on them. *)
Definition chunk (n_blocks n_threads : nat) (x index : Ndarray float)
    (chunk_size chunk_step : nat) : outcome (list float * list float) :=
  _ ← assert (NDIM x =? 3)%nat;
  let n_time := Ndarray_DIMS x 0 in
  let n_batch := Ndarray_DIMS x 1 in
  let n_dim := Ndarray_DIMS x 2 in
  let n_chunks :=
    Z.to_nat (Chunking.n_chunks (Z.of_nat n_time) (Z.of_nat chunk_size)
                (Z.of_nat chunk_step)) in
  let chunk_params :=
    mkNdarray [Fin (IZR (Z.of_nat chunk_size)); Fin (IZR (Z.of_nat chunk_step))]
      [2%nat] in
  let out_buffer :=
    mkNdarray (replicate (chunk_size * (n_batch * n_chunks) * n_dim)%nat fzero)
      [chunk_size; (n_batch * n_chunks)%nat; n_dim] in
  let oindex_buffer :=
    mkNdarray (replicate (chunk_size * (n_batch * n_chunks))%nat fzero)
      [chunk_size; (n_batch * n_chunks)%nat] in
  c_fw_code n_blocks n_threads x index chunk_params out_buffer oindex_buffer.

End ChunkingOp.

(** ** [UnChunking]: the kernel and the host code *)

(** The division [x / y].  There is no negative zero here, so a division
    by zero takes the sign of [x]. *)
Definition fdiv (x y : float) : float :=
  match x, y with
  | NaN, _ | _, NaN => NaN
  | Fin a, Fin b =>
      if Req_dec_T b 0 then
        if Rlt_dec 0 a then PInf else if Rlt_dec a 0 then NInf else NaN
      else Fin (a / b)
  | Fin _, PInf | Fin _, NInf => Fin 0
  | PInf, Fin b => if Rlt_dec b 0 then NInf else PInf
  | NInf, Fin b => if Rlt_dec b 0 then PInf else NInf
  | PInf, PInf | PInf, NInf | NInf, PInf | NInf, NInf => NaN
  end.

Module UnChunkingOp.
Import SubtensorBatchedIndex.

Local Open Scope Z_scope.

(** The body of the loop of unchunk_kernel for the index [idx]; the state
    is [(output, oindex, ofactors)].  The loop over [chunk_idx] runs from
    [chunk_idx_start], which is not negative, up to [chunk_idx_end]; its
    state is [(c, output)]. *)
Definition unchunk_kernel_round (chunk_size chunk_step n_chunks : Z)
    (input : list float) (in_dim2 in_stride0 in_stride1 in_stride2 : Z)
    (index : list float) (idx_stride0 idx_stride1 : Z)
    (out_dim0 out_stride0 out_stride1 out_stride2 : Z)
    (oidx_stride0 oidx_stride1 ofac_stride0 ofac_stride1 : Z)
    (idx : nat) (st : list float * list float * list float)
  : outcome (list float * list float * list float) :=
  let '(output, oindex, ofactors) := st in
  let idx := Z.of_nat idx in
  let out_x := Z.rem idx out_dim0 in
  let out_y := Z.quot idx out_dim0 in
  let c := fzero in
  output ←
    for_each (seq 0 (Z.to_nat in_dim2))
      (fun z output =>
         let z := Z.of_nat z in
         write_at output
           (out_x * out_stride0 + out_y * out_stride1 + z * out_stride2) fzero)
      output;
  let chunk_idx_start := Z.quot (out_x - chunk_size + chunk_step) chunk_step in
  let chunk_idx_start :=
    if decide (chunk_idx_start < 0) then 0 else chunk_idx_start in
  let chunk_idx_end := Z.quot out_x chunk_step + 1 in
  let chunk_idx_end :=
    if decide (chunk_idx_end > n_chunks) then n_chunks else chunk_idx_end in
  _ ← assert (chunk_idx_start <? chunk_idx_end);
  '(c, output) ←
    for_each (seq (Z.to_nat chunk_idx_start)
                (Z.to_nat (chunk_idx_end - chunk_idx_start)))
      (fun chunk_idx '(c, output) =>
         let chunk_idx := Z.of_nat chunk_idx in
         let in_y := out_y * n_chunks + chunk_idx in
         let in_x := out_x - chunk_step * chunk_idx in
         _ ← assert (0 <=? in_x);
         _ ← assert (in_x <? chunk_size);
         i ← read_at index (in_x * idx_stride0 + in_y * idx_stride1);
         if fgt i (Fin (1 / 10)%R) then
           let c := fadd c fone in
           output ←
             for_each (seq 0 (Z.to_nat in_dim2))
               (fun z output =>
                  let z := Z.of_nat z in
                  v ← read_at input
                        (in_x * in_stride0 + in_y * in_stride1 + z * in_stride2);
                  old ← read_at output
                          (out_x * out_stride0 + out_y * out_stride1
                           + z * out_stride2);
                  write_at output
                    (out_x * out_stride0 + out_y * out_stride1 + z * out_stride2)
                    (fadd old v))
               output;
           Ok (c, output)
         else Ok (c, output))
      (c, output);
  if fgt c (Fin (1 / 10)%R) then
    output ←
      for_each (seq 0 (Z.to_nat in_dim2))
        (fun z output =>
           let z := Z.of_nat z in
           old ← read_at output
                   (out_x * out_stride0 + out_y * out_stride1 + z * out_stride2);
           write_at output
             (out_x * out_stride0 + out_y * out_stride1 + z * out_stride2)
             (fdiv old c))
        output;
    oindex ← write_at oindex (out_x * oidx_stride0 + out_y * oidx_stride1) fone;
    ofactors ←
      write_at ofactors (out_x * ofac_stride0 + out_y * ofac_stride1)
        (fdiv fone c);
    Ok (output, oindex, ofactors)
  else
    oindex ← write_at oindex (out_x * oidx_stride0 + out_y * oidx_stride1) fzero;
    ofactors ←
      write_at ofactors (out_x * ofac_stride0 + out_y * ofac_stride1) fone;
    Ok (output, oindex, ofactors).

(** unchunk_kernel.  The integers are [long] and stay in its range for the
    sizes of the arrays; [%] by zero is undefined. *)
Definition unchunk_kernel (tid total : nat) (chunk_params : list float)
    (input : list float)
    (in_dim0 in_dim1 in_dim2 in_stride0 in_stride1 in_stride2 : Z)
    (index : list float) (idx_stride0 idx_stride1 : Z)
    (out_dim0 out_dim1 out_stride0 out_stride1 out_stride2 : Z)
    (oidx_stride0 oidx_stride1 ofac_stride0 ofac_stride1 : Z)
    (st : list float * list float * list float)
  : outcome (list float * list float * list float) :=
  _ ← (if decide (out_dim1 = 0) then Fault
       else assert (Z.rem in_dim1 out_dim1 =? 0));
  let n_chunks := Z.quot in_dim1 out_dim1 in
  _ ← assert (0 <? n_chunks);
  let chunk_size := in_dim0 in
  p0 ← read chunk_params 0;
  p0 ← float_to_long p0;
  _ ← assert (p0 =? chunk_size);
  p1 ← read chunk_params 1;
  chunk_step ← float_to_long p1;
  _ ← assert (0 <? chunk_step);
  _ ← assert (out_dim0 <=? chunk_step * (n_chunks - 1) + chunk_size);
  _ ← assert (chunk_step * (n_chunks - 1) <? out_dim0);
  let max_idx := out_dim0 * out_dim1 in
  grid_stride tid total (Z.to_nat max_idx)
    (unchunk_kernel_round chunk_size chunk_step n_chunks input in_dim2
       in_stride0 in_stride1 in_stride2 index idx_stride0 idx_stride1
       out_dim0 out_stride0 out_stride1 out_stride2
       oidx_stride0 oidx_stride1 ofac_stride0 ofac_stride1)
    st.

(** [c_fw_code] on contiguous arrays; [output], [oindex] and [ofactors]
    are the buffers [inputs[2]], [inputs[3]] and [inputs[4]], which the op
    works on in place.  It returns their data. *)
Definition c_fw_code (n_blocks n_threads : nat)
    (input index chunk_params output oindex ofactors : Ndarray float)
  : outcome (list float * list float * list float) :=
  _ ← assert (NDIM input =? 3)%nat;
  _ ← assert (NDIM index =? 2)%nat;
  _ ← assert (DIM input 0 =? DIM index 0);
  _ ← assert (DIM input 1 =? DIM index 1);
  _ ← assert (NDIM chunk_params =? 1)%nat;
  _ ← assert (DIM chunk_params 0 =? 2);
  _ ← assert (NDIM output =? 3)%nat;
  _ ← assert (NDIM oindex =? 2)%nat;
  _ ← assert (NDIM ofactors =? 2)%nat;
  _ ← assert (DIM output 0 =? DIM oindex 0);
  _ ← assert (DIM output 1 =? DIM oindex 1);
  _ ← assert (DIM output 2 =? DIM input 2);
  _ ← assert (DIM oindex 0 =? DIM ofactors 0);
  _ ← assert (DIM oindex 1 =? DIM ofactors 1);
  launch n_blocks n_threads
    (fun tid =>
       unchunk_kernel tid (n_blocks * n_threads) (DATA chunk_params)
         (DATA input) (DIM input 0) (DIM input 1) (DIM input 2)
         (STRIDE input 0) (STRIDE input 1) (STRIDE input 2)
         (DATA index) (STRIDE index 0) (STRIDE index 1)
         (DIM output 0) (DIM output 1)
         (STRIDE output 0) (STRIDE output 1) (STRIDE output 2)
         (STRIDE oindex 0) (STRIDE oindex 1)
         (STRIDE ofactors 0) (STRIDE ofactors 1))
    (DATA output, DATA oindex, DATA ofactors).

(** [unchunk]: the buffers that it allocates, and the op on them. *)
Definition unchunk (n_blocks n_threads : nat) (x index : Ndarray float)
    (chunk_size chunk_step n_time n_batch : nat)
  : outcome (list float * list float * list float) :=
  _ ← assert (NDIM x =? 3)%nat;
  let n_dim := Ndarray_DIMS x 2 in
  let chunk_params :=
    mkNdarray [Fin (IZR (Z.of_nat chunk_size)); Fin (IZR (Z.of_nat chunk_step))]
      [2%nat] in
  let out_buffer :=
    mkNdarray (replicate (n_time * n_batch * n_dim)%nat fzero)
      [n_time; n_batch; n_dim] in
  let oindex_buffer :=
    mkNdarray (replicate (n_time * n_batch)%nat fzero) [n_time; n_batch] in
  let ofactors_buffer :=
    mkNdarray (replicate (n_time * n_batch)%nat fzero) [n_time; n_batch] in
  c_fw_code n_blocks n_threads x index chunk_params
    out_buffer oindex_buffer ofactors_buffer.

End UnChunkingOp.

(** ** Notions of the chunks *)

(** The frame [t] of the chunk [c] of the sequence [b] is a frame of the
    input on which the index is set. *)
Definition chunk_live (index : list float) (n_time n_batch chunk_step : nat)
    (t b c : nat) : bool :=
  bool_decide (chunk_step * c + t < n_time)
  && fgt (index !!! ((chunk_step * c + t) * n_batch + b)) (Fin (1 / 10)%R).

(** The number of the chunks that hold the frame [t]. *)
Definition covering_chunks (chunk_size chunk_step n_chunks t : nat) : nat :=
  length (filter (fun c => chunk_step * c <= t < chunk_step * c + chunk_size)
            (seq 0 n_chunks)).

(** ** [NativeOpBaseMixin]: the helpers on the descriptions of the variables *)

(** The Python values that occur in the [info] dictionaries of the
    variables.  For the Python helpers the outcome [AssertFail] is an
    [AssertionError], and [Fault] is another exception ([KeyError],
    [TypeError], [IndexError]). *)
#[warnings="-register-all"]
Inductive pyval : Type :=
  | PNone
  | PBool (b : bool)
  | PInt (z : Z)
  | PStr (s : string)
  | PTuple (l : list pyval)
  | PList (l : list pyval).

Module NativeOpBaseMixin.

Local Open Scope string_scope.

Definition Info : Type := gmap string pyval.

(** [d.get(k, dflt)] and [d[k]] *)
Definition get (d : Info) (k : string) (dflt : pyval) : pyval :=
  default dflt (d !! k).

Definition item (d : Info) (k : string) : outcome pyval :=
  match d !! k with
  | Some v => Ok v
  | None => Fault
  end.

(** The integer that a value is, if [isinstance(v, (int, long))] holds: a
    [bool] is an [int] in Python. *)
Definition as_int (v : pyval) : option Z :=
  match v with
  | PInt z => Some z
  | PBool b => Some (if b then 1 else 0)%Z
  | _ => None
  end.

(** [v == s] for a string [s]. *)
Definition eq_str (v : pyval) (s : string) : bool :=
  match v with
  | PStr s' => bool_decide (s' = s)
  | _ => false
  end.

(** The truth value of [v]. *)
Definition truthy (v : pyval) : bool :=
  match v with
  | PNone => false
  | PBool b => b
  | PInt z => negb (z =? 0)%Z
  | PStr s => negb (bool_decide (s = ""))
  | PTuple l | PList l => match l with [] => false | _ => true end
  end.

(** [range(n)] as index pairs [(in_idx, i)]. *)
Definition shape_refs (in_idx : nat) (ndim : Z) : list pyval :=
  (fun i => PTuple [PInt (Z.of_nat in_idx); PInt (Z.of_nat i)])
    <$> seq 0 (Z.to_nat ndim).

(** [_resolve_want_inplace_dummy]; the state of the loop is
    [(in_info, out_info, num_dummy_outs)]. *)
Definition _resolve_want_inplace_dummy (in_info out_info : list Info)
  : outcome (list Info * list Info * nat) :=
  for_each (seq 0 (length in_info))
    (fun in_idx '(in_info, out_info, num_dummy_outs) =>
       let info := in_info !!! in_idx in
       if eq_str (get info "want_inplace" PNone) "dummy_out" then
         let num_dummy_outs := S num_dummy_outs in
         let dummy_out_idx := length out_info in
         ndim ← item info "ndim";
         n ← (match as_int ndim with Some n => Ok n | None => Fault end);
         let dummy_out : Info :=
           {[ "ndim" := ndim;
              "shape" := PList (shape_refs in_idx n);
              "dtype" := get info "dtype" (PStr "float32");
              "name" := PStr ("dummy_out_" +:+ pretty num_dummy_outs) ]} in
         let out_info := (out_info ++ [dummy_out])%list in
         let info := <["want_inplace" := PInt (Z.of_nat dummy_out_idx)]> info in
         Ok (<[in_idx := info]> in_info, out_info, num_dummy_outs)
       else Ok (in_info, out_info, num_dummy_outs))
    (in_info, out_info, 0).

(** [_construct_destroy_map]; the keys of the dictionary are integers. *)
Definition _construct_destroy_map (in_info : list Info)
  : outcome (gmap Z (list nat)) :=
  for_each (seq 0 (length in_info))
    (fun in_idx destroy_map =>
       let info := in_info !!! in_idx in
       match as_int (get info "want_inplace" (PInt (-1))) with
       | None => AssertFail
       | Some want_inplace =>
           if (0 <=? want_inplace)%Z && truthy (get info "is_inplace" (PBool false))
           then
             let out_idx := want_inplace in
             if decide (is_Some (destroy_map !! out_idx)) then AssertFail
             else Ok (<[out_idx := [in_idx]]> destroy_map)
           else Ok destroy_map
       end)
    ∅.

(** [make_results_of_gradient]; [disconnected] is what
    [disconnected_type()] returns.  The state of the loop is
    [(results, grad_op_outputs)]. *)
Definition make_results_of_gradient {T S} (in_info : list Info)
    (grad_op_outputs : list T) (disconnected : S) : outcome (list (T + S)) :=
  '(results, grad_op_outputs) ←
    for_each (seq 0 (length in_info))
      (fun i '(results, grad_op_outputs) =>
         let info := in_info !!! i in
         if eq_str (get info "gradient" (PStr "")) "disconnected" then
           Ok ((results ++ [inr disconnected])%list, grad_op_outputs)
         else
           Ok ((results ++ (inl <$> take 1 grad_op_outputs))%list,
               drop 1 grad_op_outputs))
      ([], grad_op_outputs);
  _ ← assert (length grad_op_outputs =? 0)%nat;
  _ ← assert (length results =? length in_info)%nat;
  Ok results.

End NativeOpBaseMixin.

(** ** Notions of the specification *)

(** The frame [t] is the last live frame of the sequence [seq]: the
    validity mask is 1 at [t], and [t] is the last frame of the batch or
    the mask is 0 at [t + 1]. *)
Definition last_live_frame (index : list float) (index_stride max_t : nat)
    (t seq : nat) : bool :=
  match index !! (t * index_stride + seq) with
  | Some i0 =>
      feq i0 fone &&
      (bool_decide (t = max_t) ||
       match index !! ((t + 1) * index_stride + seq) with
       | Some i1 => feq i1 fzero
       | None => false
       end)
  | None => false
  end.

(** The value [prev_val + edge_weight + am_scores[...]] of [next_frame] for
    the edge [e]. *)
Definition edge_score (prev_frame am_scores weight_buffer : list float)
    (from_buffer emission_idxs sequence_idxs : list nat) (num_emissions : nat)
    (e : nat) : float :=
  fadd (fadd (prev_frame !!! (from_buffer !!! e)) (weight_buffer !!! e))
    (am_scores !!! ((sequence_idxs !!! e) * num_emissions + emission_idxs !!! e)).

(** What the thread of [next_frame] for the edge [e] leaves in its cell of
    the edge buffer, which held [old]. *)
Definition edge_stored (fwd : bool) (prev_frame am_scores weight_buffer : list float)
    (from_buffer emission_idxs sequence_idxs : list nat) (num_emissions : nat)
    (old : float) (e : nat) : float :=
  let prev_val := prev_frame !!! (from_buffer !!! e) in
  if isinf prev_val then PInf
  else fadd old
         (if fwd then
            edge_score prev_frame am_scores weight_buffer from_buffer
              emission_idxs sequence_idxs num_emissions e
          else prev_val).

(** The score of a state or of an edge: a real number or +infinity. *)
Definition is_fin (x : float) : Prop :=
  match x with Fin _ => True | _ => False end.

Definition is_score (x : float) : Prop :=
  match x with Fin _ | PInf => True | _ => False end.

(** The probability [exp(-x)] a score stands for. *)
Definition prob (x : float) : R :=
  match x with Fin r => exp (- r) | _ => 0%R end.

(** The log-sum-exp of a list of scores, with [prob_add]. *)
Definition logsumexp (xs : list float) : float := foldr prob_add PInf xs.

(** The log-sum of the cells of the edges of the sequence [s] in the row of
    the edge buffer that starts at [off], in the order in which [normalize]
    accumulates them in [sum[s]]. *)
Definition frame_sum (sequence_idxs : list nat) (buffer : list float)
    (off num_edges s : nat) : float :=
  foldl (fun acc e =>
           if bool_decide (sequence_idxs !!! e = s)
           then prob_add acc (buffer !!! (off + e)) else acc)
    PInf (seq 0 num_edges).

(** The cell of [out] the thread [idx] of [compute_result] accumulates
    into, and the content of the cell [c] after the threads [0 .. k - 1]. *)
Definition out_cell (emission_idxs sequence_idxs : list nat)
    (frame_stride seq_stride num_edges : nat) (idx : nat) : nat :=
  (idx / num_edges) * frame_stride
  + (sequence_idxs !!! (idx mod num_edges)) * seq_stride
  + emission_idxs !!! (idx mod num_edges).

Definition scattered (edge_buffer : list float)
    (emission_idxs sequence_idxs : list nat)
    (frame_stride seq_stride num_edges : nat)
    (out0 : list float) (k c : nat) : float :=
  foldl (fun acc idx =>
           if bool_decide (out_cell emission_idxs sequence_idxs frame_stride
                             seq_stride num_edges idx = c)
           then prob_add acc (edge_buffer !!! idx) else acc)
    (out0 !!! c) (seq 0 k).

(** The sum [f 0 + ... + f (n - 1)] of real numbers. *)
Fixpoint rsum (f : nat -> R) (n : nat) : R :=
  match n with
  | O => 0%R
  | S k => (rsum f k + f k)%R
  end.

(** The buffers of the sweeps hold scores. *)
Definition score_buffers (inp : FastBaumWelchOp.inputs)
    (s : FastBaumWelchOp.sweep) : Prop :=
  Forall is_score (FastBaumWelchOp.d_state_buffer_prev s) /\
  Forall is_score (FastBaumWelchOp.d_edge_buffer s) /\
  length (FastBaumWelchOp.d_state_buffer_prev s) <= FastBaumWelchOp.n_states inp /\
  length (FastBaumWelchOp.d_state_buffer_next s) <= FastBaumWelchOp.n_states inp.

(** The cell of [out] for the label [l] of the sequence [sq] at the frame
    [t]: the log-sum of the normalised cells of the edges of the sequence
    with that label. *)
Definition posterior_cell (sequence_idxs emission_idxs : list nat)
    (edge_buffer : list float) (num_edges t sq l : nat) : float :=
  foldl (fun acc e =>
           if bool_decide (sequence_idxs !!! e = sq /\ emission_idxs !!! e = l)
           then prob_add acc
                  (fsub (edge_buffer !!! (t * num_edges + e))
                     (frame_sum sequence_idxs edge_buffer (t * num_edges)
                        num_edges sq))
           else acc)
    PInf (seq 0 num_edges).

(** An input whose gradient is declared as disconnected, and the number
    of the other inputs among the first [i]. *)
Definition is_disconnected (info : NativeOpBaseMixin.Info) : bool :=
  NativeOpBaseMixin.eq_str
    (NativeOpBaseMixin.get info "gradient" (PStr "")) "disconnected".

Definition connected_before (in_info : list NativeOpBaseMixin.Info) (i : nat)
  : nat :=
  length (filter (fun info => is_disconnected info = false) (take i in_info)).

(** The output that an input asks to be computed in place on, when the
    optimisation has been applied to it. *)
Definition inplace_target (info : NativeOpBaseMixin.Info) : option Z :=
  match NativeOpBaseMixin.as_int
          (NativeOpBaseMixin.get info "want_inplace" (PInt (-1))) with
  | Some w =>
      if (0 <=? w)%Z
         && NativeOpBaseMixin.truthy
              (NativeOpBaseMixin.get info "is_inplace" (PBool false))
      then Some w else None
  | None => None
  end.

(** An input that asks for a dummy output, and the number of such inputs
    among the first [i]. *)
Definition wants_dummy_out (info : NativeOpBaseMixin.Info) : bool :=
  NativeOpBaseMixin.eq_str
    (NativeOpBaseMixin.get info "want_inplace" PNone) "dummy_out".

Definition dummies_before (in_info : list NativeOpBaseMixin.Info) (i : nat)
  : nat :=
  length (filter (fun info => wants_dummy_out info = true) (take i in_info)).

(** ** Inputs of the examples *)

(** One sequence of one frame, two states, and the edge 0 -> 1 with the
    label 0 and the weight 0. *)
Definition one_edge : FastBaumWelchOp.inputs := {|
  FastBaumWelchOp.am_scores := mkNdarray [Fin 0] [1; 1; 1];
  FastBaumWelchOp.edges := mkNdarray [0; 1; 0; 0] [4; 1];
  FastBaumWelchOp.weights := mkNdarray [Fin 0] [1];
  FastBaumWelchOp.start_end_states := mkNdarray [0; 1] [2; 1];
  FastBaumWelchOp.index := mkNdarray [Fin 1] [1; 1];
  FastBaumWelchOp.state_buffer := mkNdarray [NaN; NaN; NaN; NaN] [2; 2];
  FastBaumWelchOp.out := mkNdarray [NaN] [1; 1; 1];
  FastBaumWelchOp.sum_output := mkNdarray [NaN] [1; 1]
|}.

(** The same, but the edge leaves the state 5, which does not exist. *)
Definition bad_edge : FastBaumWelchOp.inputs := {|
  FastBaumWelchOp.am_scores := mkNdarray [Fin 0] [1; 1; 1];
  FastBaumWelchOp.edges := mkNdarray [5; 1; 0; 0] [4; 1];
  FastBaumWelchOp.weights := mkNdarray [Fin 0] [1];
  FastBaumWelchOp.start_end_states := mkNdarray [0; 1] [2; 1];
  FastBaumWelchOp.index := mkNdarray [Fin 1] [1; 1];
  FastBaumWelchOp.state_buffer := mkNdarray [NaN; NaN; NaN; NaN] [2; 2];
  FastBaumWelchOp.out := mkNdarray [NaN] [1; 1; 1];
  FastBaumWelchOp.sum_output := mkNdarray [NaN] [1; 1]
|}.

(** The edge 0 -> 0 cannot reach the end state 1: no path. *)
Definition no_path : FastBaumWelchOp.inputs := {|
  FastBaumWelchOp.am_scores := mkNdarray [Fin 0] [1; 1; 1];
  FastBaumWelchOp.edges := mkNdarray [0; 0; 0; 0] [4; 1];
  FastBaumWelchOp.weights := mkNdarray [Fin 0] [1];
  FastBaumWelchOp.start_end_states := mkNdarray [0; 1] [2; 1];
  FastBaumWelchOp.index := mkNdarray [Fin 1] [1; 1];
  FastBaumWelchOp.state_buffer := mkNdarray [NaN; NaN; NaN; NaN] [2; 2];
  FastBaumWelchOp.out := mkNdarray [NaN] [1; 1; 1];
  FastBaumWelchOp.sum_output := mkNdarray [NaN] [1; 1]
|}.

(** One frame, two sequences with their own states, one label: the only
    edge 0 -> 1 belongs to the sequence 0 and carries the label 1, which
    does not exist. *)
Definition bad_label : FastBaumWelchOp.inputs := {|
  FastBaumWelchOp.am_scores := mkNdarray [Fin 0; Fin 0] [1; 2; 1];
  FastBaumWelchOp.edges := mkNdarray [0; 1; 1; 0] [4; 1];
  FastBaumWelchOp.weights := mkNdarray [Fin 0] [1];
  FastBaumWelchOp.start_end_states := mkNdarray [0; 2; 1; 3] [2; 2];
  FastBaumWelchOp.index := mkNdarray [Fin 1; Fin 1] [1; 2];
  FastBaumWelchOp.state_buffer :=
    mkNdarray [NaN; NaN; NaN; NaN; NaN; NaN; NaN; NaN] [2; 4];
  FastBaumWelchOp.out := mkNdarray [NaN; NaN] [1; 2; 1];
  FastBaumWelchOp.sum_output := mkNdarray [NaN; NaN] [1; 2]
|}.

(** [one_edge] for the segmental engine, with segments of one frame
    ([K = 1]): the frame 0 of the sequence is the batch slot 0, one length
    model of score 0, scale 1. *)
Definition one_edge_segmental : SegmentFastBaumWelchOp.inputs := {|
  SegmentFastBaumWelchOp.ary_am_scores := mkNdarray [Fin 0] [1; 1; 1];
  SegmentFastBaumWelchOp.ary_batch_idxs := mkNdarray [0%Z] [1; 1];
  SegmentFastBaumWelchOp.ary_edges := mkNdarray [0; 1; 0; 0; 0] [5; 1];
  SegmentFastBaumWelchOp.ary_weights := mkNdarray [Fin 0] [1];
  SegmentFastBaumWelchOp.ary_start_end_states := mkNdarray [0; 1] [2; 1];
  SegmentFastBaumWelchOp.ary_length_models := mkNdarray [Fin 0] [1; 1];
  SegmentFastBaumWelchOp.ary_index := mkNdarray [Fin 1] [1; 1];
  SegmentFastBaumWelchOp.ary_am_score_scales := mkNdarray [Fin 1] [1];
  SegmentFastBaumWelchOp.ary_epoch := mkNdarray [Fin 0] [];
  SegmentFastBaumWelchOp.ary_out := mkNdarray [NaN] [1; 1; 1];
  SegmentFastBaumWelchOp.ary_norm_factors := mkNdarray [NaN] [1; 1];
  SegmentFastBaumWelchOp.ary_posterior_weights := mkNdarray [NaN] [1; 1]
|}.

(** The cell of the segment length [s] (counted from 0) of the batch slot
    [b]; the lengths up to [s] are all valid for the slot by the index
    mask. *)
Definition slot_cell (num_batches : nat) (b : Z) (s : nat) : nat :=
  s * num_batches + Z.to_nat b.

Definition live_lengths (index : list float) (num_batches : nat) (b : Z)
    (s : nat) : Prop :=
  forall s', s' <= s -> feq (index !!! slot_cell num_batches b s') fzero = false.

(** The pair of the frame [time] and the sequence of the edge [idx] has the
    batch index -1, the "none" of [batch_idxs]; and it has a negative batch
    index. *)
Definition none_pair (sequence_idxs : list nat) (batch_idxs : list Z)
    (num_seqs time idx : nat) : bool :=
  match sequence_idxs !! idx with
  | Some sq => bool_decide (batch_idxs !! (time * num_seqs + sq) = Some (-1)%Z)
  | None => false
  end.

Definition negative_pair (sequence_idxs : list nat) (batch_idxs : list Z)
    (num_seqs time idx : nat) : bool :=
  match sequence_idxs !! idx with
  | Some sq =>
      match batch_idxs !! (time * num_seqs + sq) with
      | Some b => bool_decide (b < 0)%Z
      | None => false
      end
  | None => false
  end.

(** [one_edge] with a second label, which no edge carries. *)
Definition two_labels : FastBaumWelchOp.inputs := {|
  FastBaumWelchOp.am_scores := mkNdarray [Fin 0; Fin 0] [1; 1; 2];
  FastBaumWelchOp.edges := mkNdarray [0; 1; 0; 0] [4; 1];
  FastBaumWelchOp.weights := mkNdarray [Fin 0] [1];
  FastBaumWelchOp.start_end_states := mkNdarray [0; 1] [2; 1];
  FastBaumWelchOp.index := mkNdarray [Fin 1] [1; 1];
  FastBaumWelchOp.state_buffer := mkNdarray [NaN; NaN; NaN; NaN] [2; 2];
  FastBaumWelchOp.out := mkNdarray [NaN; NaN] [1; 1; 2];
  FastBaumWelchOp.sum_output := mkNdarray [NaN] [1; 1]
|}.


(** A row of two vectors [(10, 11)] and [(20, 21)], the indices 1 and 5 of
    which the second is out of range, and an output of two cells. *)
Definition select_x : Ndarray float :=
  mkNdarray [Fin 10; Fin 11; Fin 20; Fin 21] [1; 2; 2].
Definition select_idx : Ndarray float := mkNdarray [Fin 1; Fin 5] [1; 2].
Definition select_y : Ndarray float := mkNdarray [NaN; NaN] [1; 2].

(** The gradient of the two cells of the output, and the array that the
    backward pass fills. *)
Definition select_Dy : Ndarray float := mkNdarray [Fin 7; Fin 8] [1; 2].
Definition select_Dx : Ndarray float :=
  mkNdarray [NaN; NaN; NaN; NaN] [1; 2; 2].

(** Three inputs: a plain one, one with a disconnected gradient, and one
    that asks for a dummy output. *)
Definition three_in_info : list NativeOpBaseMixin.Info :=
  [ {[ "ndim" := PInt 2 ]};
    {[ "ndim" := PInt 1; "gradient" := PStr "disconnected" ]};
    {[ "ndim" := PInt 2; "want_inplace" := PStr "dummy_out" ]} ].

(** Two inputs that are computed in place on the outputs 1 and 0. *)
Definition inplace_in_info : list NativeOpBaseMixin.Info :=
  [ {[ "ndim" := PInt 2; "want_inplace" := PInt 1; "is_inplace" := PBool true ]};
    {[ "ndim" := PInt 1; "want_inplace" := PInt 0; "is_inplace" := PBool true ]} ].

(** Three frames of one sequence, for chunks of two frames every two
    frames; and two frames, for chunks of one frame every two frames. *)
Definition chunk_x : Ndarray float := mkNdarray [Fin 1; Fin 2; Fin 3] [3; 1; 1].
Definition chunk_index : Ndarray float := mkNdarray [fone; fone; fone] [3; 1].
Definition gap_x : Ndarray float := mkNdarray [Fin 1; Fin 2] [2; 1; 1].
Definition gap_index : Ndarray float := mkNdarray [fone; fone] [2; 1].

(** Two chunks of one frame, for frames that are two frames apart. *)
Definition gap_chunks : Ndarray float := mkNdarray [Fin 1; Fin 3] [1; 2; 1].
Definition gap_flags : Ndarray float := mkNdarray [fone; fone] [1; 2].

(** * Properties *)

Local Open Scope R_scope.

(** *** Facts on [prob_add] *)

Lemma flog1p_fexp_fin (r : R) : flog1p (fexp (Fin r)) = Fin (ln (1 + exp r)).
Proof.
  simpl. destruct (Rlt_dec (-1) (exp r)) as [|n]; [done|].
  exfalso. apply n. pose proof (exp_pos r). lra.
Qed.

Lemma prob_add_fin (a b : R) :
  prob_add (Fin a) (Fin b) = Fin (- ln (1 + exp (- Rabs (a + - b))) + Rmin a b).
Proof.
  unfold prob_add, fsub. cbn [fneg fadd isnan fabs].
  rewrite flog1p_fexp_fin. reflexivity.
Qed.

Lemma prob_add_fin_log (a b : R) :
  prob_add (Fin a) (Fin b) = Fin (- ln (exp (- a) + exp (- b))).
Proof.
  rewrite prob_add_fin. f_equal.
  assert (Hsplit : forall x y, x <= y ->
    - ln (1 + exp (- (y - x))) + x = - ln (exp (- x) + exp (- y))).
  { intros x y Hxy.
    replace (exp (- x) + exp (- y)) with (exp (- x) * (1 + exp (- (y - x)))).
    - rewrite ln_mult.
      + rewrite ln_exp. lra.
      + apply exp_pos.
      + pose proof (exp_pos (- (y - x))). lra.
    - rewrite Rmult_plus_distr_l, Rmult_1_r, <- exp_plus. f_equal. f_equal. lra. }
  destruct (Rle_dec a b) as [Hab|Hab].
  - rewrite Rmin_left by lra.
    replace (Rabs (a + - b)) with (b - a).
    + apply Hsplit; lra.
    + rewrite Rabs_left1 by lra. lra.
  - rewrite Rmin_right by lra.
    replace (Rabs (a + - b)) with (a - b).
    + rewrite (Rplus_comm (exp (- a))). apply Hsplit; lra.
    + rewrite Rabs_right by lra. lra.
Qed.

Lemma prob_add_fin_inf (a : R) : prob_add (Fin a) PInf = Fin a.
Proof.
  unfold prob_add, fsub. cbn [fneg fadd isnan fabs fexp].
  unfold flog1p. destruct (Rlt_dec (-1) 0) as [_|n]; [|exfalso; lra].
  cbn. f_equal. rewrite Rplus_0_r, ln_1. lra.
Qed.

Lemma prob_add_comm (a b : float) : prob_add a b = prob_add b a.
Proof.
  destruct a as [a| | |], b as [b| | |]; try reflexivity.
  rewrite !prob_add_fin. f_equal. rewrite (Rmin_comm b a).
  replace (b + - a) with (- (a + - b)) by lra.
  rewrite Rabs_Ropp. reflexivity.
Qed.

Lemma prob_add_inf_fin (a : R) : prob_add PInf (Fin a) = Fin a.
Proof. rewrite prob_add_comm. apply prob_add_fin_inf. Qed.

Lemma flog1p_zero : flog1p (Fin 0) = Fin 0.
Proof.
  unfold flog1p. destruct (Rlt_dec (-1) 0) as [_|n]; [|exfalso; lra].
  f_equal. rewrite Rplus_0_r. apply ln_1.
Qed.

(** The correction term [-log1p(exp(-|diff|))] is a real number as soon as
    [diff] is not NaN. *)
Lemma correction_fin (d : float) :
  isnan d = false -> exists r, fneg (flog1p (fexp (fneg (fabs d)))) = Fin r.
Proof.
  destruct d as [r| | |]; intros Hd; try discriminate.
  - cbn [fabs fneg]. rewrite flog1p_fexp_fin. eexists. reflexivity.
  - cbn [fabs fneg fexp]. rewrite flog1p_zero. eexists. reflexivity.
  - cbn [fabs fneg fexp]. rewrite flog1p_zero. eexists. reflexivity.
Qed.

Lemma prob_add_not_nan (a b : float) : isnan (prob_add a b) = false.
Proof.
  unfold prob_add. destruct (isnan (fsub a b)) eqn:Hd; [reflexivity|].
  destruct (correction_fin _ Hd) as [r ->].
  destruct a, b; try reflexivity; discriminate.
Qed.

Lemma prob_add_nan_diff (a b : float) :
  isnan (fsub a b) = true -> prob_add a b = PInf.
Proof. unfold prob_add. intros ->. reflexivity. Qed.

Lemma prob_add_inf_r (a : float) : a <> NaN -> prob_add a PInf = a.
Proof.
  destruct a as [r| | |]; intros Ha; try congruence.
  - apply prob_add_fin_inf.
  - reflexivity.
  - unfold prob_add. cbn [fsub fneg fadd isnan fabs fexp].
    rewrite flog1p_zero. reflexivity.
Qed.

Local Close Scope R_scope.

(** ** Outcomes and loops *)

Lemma bind_Ok {A B} (m : outcome A) (f : A -> outcome B) (y : B) :
  m ≫= f = Ok y <-> exists x, m = Ok x /\ f x = Ok y.
Proof.
  destruct m as [x| |]; cbn; split; try (intros [? [? ?]]); try discriminate.
  - eauto.
  - congruence.
Qed.

Lemma read_Ok {A} (arr : list A) (i : nat) (x : A) :
  read arr i = Ok x <-> arr !! i = Some x.
Proof. unfold read. destruct (arr !! i); split; congruence. Qed.

Lemma write_Ok {A} (arr arr' : list A) (i : nat) (v : A) :
  write arr i v = Ok arr' <-> i < length arr /\ arr' = <[i:=v]> arr.
Proof.
  unfold write. destruct (decide (i < length arr)); split.
  - intros [= <-]. auto.
  - intros [_ ->]. reflexivity.
  - discriminate.
  - intros [? _]. lia.
Qed.

Lemma read_lookup {A} (arr : list A) (i : nat) (x : A) :
  arr !! i = Some x -> read arr i = Ok x.
Proof. apply read_Ok. Qed.

Lemma write_lt {A} (arr : list A) (i : nat) (v : A) :
  i < length arr -> write arr i v = Ok (<[i:=v]> arr).
Proof. intros. apply write_Ok. auto. Qed.

Lemma assert_Ok (b : bool) (u : unit) : assert b = Ok u <-> b = true.
Proof. destruct b, u; cbn; split; congruence. Qed.

(** Takes apart the hypotheses that say a sequence of steps ended well. *)
Ltac inv_ok :=
  repeat match goal with
  | H : _ ≫= _ = Ok _ |- _ =>
      apply bind_Ok in H; destruct H as (? & ? & H)
  | H : read _ _ = Ok _ |- _ => apply read_Ok in H
  | H : write _ _ _ = Ok _ |- _ =>
      apply write_Ok in H; destruct H as [? H]
  | H : assert _ = Ok _ |- _ => apply assert_Ok in H
  | H : Ok _ = Ok _ |- _ => injection H as H
  | H : AssertFail = Ok _ |- _ => discriminate H
  | H : Fault = Ok _ |- _ => discriminate H
  | H : mret _ = Ok _ |- _ => injection H as H
  end.

(** Replaces the total lookups of the goal by the values the hypotheses
    give them. *)
Ltac use_lookups :=
  repeat match goal with
  | H : ?l !! ?i = Some ?v |- context [?l !!! ?i] =>
      rewrite (list_lookup_total_correct l i v H)
  end.

(** Runs the steps whose results the hypotheses give. *)
Ltac run_step H := rewrite H; cbn [mbind outcome_bind].
Tactic Notation "run_with" hyp(H1) := run_step H1.
Tactic Notation "run_with" hyp(H1) hyp(H2) := run_step H1; run_step H2.
Tactic Notation "run_with" hyp(H1) hyp(H2) hyp(H3) :=
  run_step H1; run_step H2; run_step H3.

Lemma for_each_cons {St} (i : nat) (l : list nat)
    (body : nat -> St -> outcome St) (st : St) :
  for_each (i :: l) body st = body i st ≫= for_each l body.
Proof. reflexivity. Qed.

Lemma for_each_app {St} (l1 l2 : list nat) (body : nat -> St -> outcome St) (st : St) :
  for_each (l1 ++ l2) body st = for_each l1 body st ≫= for_each l2 body.
Proof.
  revert st. induction l1 as [|i l1 IH]; intros st; cbn; [reflexivity|].
  destruct (body i st); cbn; auto.
Qed.

Lemma for_each_snoc {St} (l : list nat) (i : nat) (body : nat -> St -> outcome St)
    (st : St) :
  for_each (l ++ [i]) body st = for_each l body st ≫= body i.
Proof.
  rewrite for_each_app. destruct (for_each l body st) as [s| |]; cbn; auto.
  destruct (body i s); reflexivity.
Qed.

Lemma for_each_skip {St} (l : list nat) (body : nat -> St -> outcome St) (st : St) :
  (forall i, i ∈ l -> body i st = Ok st) -> for_each l body st = Ok st.
Proof.
  induction l as [|i l IH]; intros H; cbn; [reflexivity|].
  rewrite H by left. cbn. apply IH. intros j Hj. apply H. by right.
Qed.

Lemma for_each_ext {St} (l : list nat) (f g : nat -> St -> outcome St) (st : St) :
  (forall i s, i ∈ l -> f i s = g i s) -> for_each l f st = for_each l g st.
Proof.
  revert st. induction l as [|i l IH]; intros st H; cbn; [reflexivity|].
  rewrite H by left. destruct (g i st); cbn; auto.
  apply IH. intros j s Hj. apply H. by right.
Qed.

(** A loop over [0 .. n - 1] that ended well keeps an invariant [P k st],
    "[st] is the state after [k] rounds". *)
Lemma for_each_seq_inv {St} (P : nat -> St -> Prop) (n : nat)
    (body : nat -> St -> outcome St) (st st' : St) :
  for_each (seq 0 n) body st = Ok st' ->
  P 0 st ->
  (forall i s s', i < n -> P i s -> body i s = Ok s' -> P (S i) s') ->
  P n st'.
Proof.
  revert st'. induction n as [|n IH]; intros st' Hrun H0 Hstep.
  - cbn in Hrun. congruence.
  - rewrite seq_S, for_each_snoc in Hrun. cbn in Hrun. inv_ok.
    eapply Hstep; [lia| |eassumption].
    eapply IH; eauto.
Qed.

(** A loop over [0 .. n - 1] ends well when every round does, with the
    invariant. *)
Lemma for_each_seq_total {St} (P : nat -> St -> Prop) (n : nat)
    (body : nat -> St -> outcome St) (st : St) :
  P 0 st ->
  (forall i s, i < n -> P i s -> exists s', body i s = Ok s' /\ P (S i) s') ->
  exists st', for_each (seq 0 n) body st = Ok st' /\ P n st'.
Proof.
  induction n as [|n IH]; intros H0 Hstep.
  - exists st. split; [reflexivity|assumption].
  - destruct IH as (s & Hs & HP); [assumption|auto|].
    destruct (Hstep n s) as (s' & Hs' & HP'); [lia|assumption|].
    exists s'. split; [|assumption].
    rewrite seq_S, for_each_snoc. cbn. rewrite Hs. cbn. assumption.
Qed.

(** The threads past the guard of a kernel do nothing. *)
Lemma launch_guard {St} (n blocks threads : nat) (thread : nat -> St -> outcome St)
    (st : St) :
  n <= blocks * threads ->
  (forall i s, n <= i -> thread i s = Ok s) ->
  launch blocks threads thread st = for_each (seq 0 n) thread st.
Proof.
  intros Hn Hskip. unfold launch.
  replace (blocks * threads) with (n + (blocks * threads - n)) by lia.
  rewrite seq_app, for_each_app.
  destruct (for_each (seq 0 n) thread st) as [s| |]; cbn; try reflexivity.
  apply for_each_skip. intros i Hi. apply Hskip.
  apply elem_of_seq in Hi. lia.
Qed.

Lemma blocks_for_ge (size : nat) : size <= blocks_for size * n_threads.
Proof.
  unfold blocks_for, n_threads.
  pose proof (Nat.div_mod_eq (size + 1024 - 1) 1024) as H.
  pose proof (Nat.mod_upper_bound (size + 1024 - 1) 1024). lia.
Qed.

(** ** The common kernels *)

Lemma insert_filled (v : float) (i : nat) (arr : list float) :
  i < length arr ->
  <[i:=v]> (replicate i v ++ drop i arr) = replicate (S i) v ++ drop (S i) arr.
Proof.
  intros Hi.
  rewrite insert_app_r_alt by (rewrite length_replicate; lia).
  rewrite length_replicate, Nat.sub_diag.
  destruct (drop i arr) as [|a tl] eqn:Hd.
  { apply (f_equal length) in Hd. rewrite length_drop in Hd. cbn in Hd. lia. }
  replace (drop (S i) arr) with tl.
  - rewrite replicate_S_end, <- app_assoc. reflexivity.
  - replace (S i) with (i + 1) by lia.
    rewrite <- drop_drop, Hd. reflexivity.
Qed.

Lemma launch_fill_array (v : float) (size : nat) (arr arr' : list float) :
  launch (blocks_for size) n_threads (fill_array v size) arr = Ok arr' <->
  size <= length arr /\ arr' = replicate size v ++ drop size arr.
Proof.
  rewrite (launch_guard size);
    [|apply blocks_for_ge
     |intros i s Hi; unfold fill_array;
      destruct (decide (i < size)); [lia|reflexivity]].
  split.
  - intros Hrun.
    apply (for_each_seq_inv
             (fun k s => k <= length arr /\ s = replicate k v ++ drop k arr))
      in Hrun; [assumption|split; [lia|by rewrite drop_0]|].
    intros i s s' Hi [Hle ->] Hbody. unfold fill_array in Hbody.
    destruct (decide (i < size)); [|lia]. inv_ok.
    rewrite length_app, length_replicate, length_drop in *.
    split; [lia|]. subst s'.
    apply insert_filled. lia.
  - intros [Hle ->].
    destruct (for_each_seq_total
                (fun k s => s = replicate k v ++ drop k arr) size
                (fill_array v size) arr) as (s & Hs & ->);
      [by rewrite drop_0| |assumption].
    intros i s Hi ->. eexists. split; [|reflexivity].
    unfold fill_array. destruct (decide (i < size)); [|lia].
    rewrite write_lt by (rewrite length_app, length_replicate, length_drop; lia).
    f_equal.
    apply insert_filled. lia.
Qed.

Lemma lookup_filled (v : float) (size : nat) (arr : list float) (i : nat) :
  i < size -> (replicate size v ++ drop size arr) !! i = Some v.
Proof.
  intros Hi. rewrite lookup_app_l by (rewrite length_replicate; lia).
  apply lookup_replicate_2. assumption.
Qed.

(** A loop whose round [idx] stores the constant [c] at the place
    [target idx], if any. *)
Lemma for_each_scatter (c : float) (target : nat -> option nat)
    (body : nat -> list float -> outcome (list float)) (n : nat)
    (st st' : list float) :
  (forall idx s s', idx < n -> body idx s = Ok s' ->
     match target idx with
     | Some k => k < length s /\ s' = <[k:=c]> s
     | None => s' = s
     end) ->
  for_each (seq 0 n) body st = Ok st' ->
  length st' = length st /\
  (forall i, (exists idx, idx < n /\ target idx = Some i) -> st' !! i = Some c) /\
  (forall i, (forall idx, idx < n -> target idx <> Some i) -> st' !! i = st !! i).
Proof.
  intros Hbody Hrun.
  apply (for_each_seq_inv (fun k s =>
    length s = length st /\
    (forall i, (exists idx, idx < k /\ target idx = Some i) -> s !! i = Some c) /\
    (forall i, (forall idx, idx < k -> target idx <> Some i) -> s !! i = st !! i)))
    in Hrun; [assumption| |].
  - split; [reflexivity|]. split; [|reflexivity].
    intros i (idx & Hidx & _). lia.
  - intros k s s' Hk (Hlen & Hset & Hkeep) Hstep.
    specialize (Hbody k s s' Hk Hstep).
    destruct (target k) as [j|] eqn:Htk.
    + destruct Hbody as [Hj ->]. rewrite length_insert.
      split; [assumption|]. split.
      * intros i (idx & Hidx & Hti).
        destruct (decide (i = j)) as [->|Hne].
        { by apply list_lookup_insert_eq. }
        rewrite list_lookup_insert_ne by congruence.
        apply Hset. exists idx. split; [|assumption].
        destruct (decide (idx = k)) as [->|]; [congruence|lia].
      * intros i Hnone.
        rewrite list_lookup_insert_ne
          by (intros ->; by apply (Hnone k); [lia|]).
        apply Hkeep. intros idx Hidx. apply Hnone. lia.
    + subst s'. split; [assumption|]. split.
      * intros i (idx & Hidx & Hti). apply Hset. exists idx. split; [|assumption].
        destruct (decide (idx = k)) as [->|]; [congruence|lia].
      * intros i Hnone. apply Hkeep. intros idx Hidx. apply Hnone. lia.
Qed.

Lemma launch_set_start_states (start_states : list nat) (n : nat)
    (states states' : list float) :
  launch 1 n (set_start_states start_states) states = Ok states' ->
  length states' = length states /\
  (forall i, (exists idx, idx < n /\ start_states !! idx = Some i) ->
     states' !! i = Some fzero) /\
  (forall i, (forall idx, idx < n -> start_states !! idx <> Some i) ->
     states' !! i = states !! i).
Proof.
  unfold launch. rewrite Nat.mul_1_l.
  apply for_each_scatter. intros idx s s' _ Hbody.
  unfold set_start_states in Hbody. inv_ok.
  match goal with H : start_states !! idx = Some _ |- _ => rewrite H end.
  auto.
Qed.

(** ** [FastBaumWelchOp]: the initialisations of the two sweeps *)

Import FastBaumWelchOp.

Lemma init_bwd_state_buffer_thread (end_states : list nat) (t max_t : nat)
    (index : list float) (index_stride idx : nat) (s s' : list float) :
  init_bwd_state_buffer end_states t max_t index index_stride idx s = Ok s' ->
  match (if last_live_frame index index_stride max_t t idx
         then end_states !! idx else None) with
  | Some k => k < length s /\ s' = <[k:=fzero]> s
  | None => s' = s
  end.
Proof.
  unfold init_bwd_state_buffer, last_live_frame. intros H. inv_ok.
  match goal with H : index !! _ = Some _ |- _ => rewrite H end.
  destruct (feq _ fone); cbn [andb].
  - destruct (decide (t = max_t)) as [Ht|Ht].
    + rewrite bool_decide_eq_true_2 by assumption. cbn [orb]. inv_ok. subst.
      inv_ok. match goal with H : end_states !! idx = Some _ |- _ => rewrite H end.
      auto.
    + rewrite bool_decide_eq_false_2 by assumption. cbn [orb]. inv_ok. subst.
      match goal with H : index !! _ = Some _ |- _ => rewrite H end.
      destruct (feq _ fzero); inv_ok; [|congruence].
      match goal with H : end_states !! idx = Some _ |- _ => rewrite H end.
      auto.
  - inv_ok. subst. inv_ok. congruence.
Qed.

(** C5.  The reset before the backward loop leaves +infinity in all of the
    previous-frame buffer.  The backward initialisation of the loop round
    [t] (frame [t - 1]) stores 0 at the end state of each sequence of which
    [t - 1] is the last live frame, and changes no other state and no other
    buffer. *)
Theorem backward_init (inp : inputs) :
  (forall s s', bwd_reset inp s = Ok s' ->
     forall i, i < n_states inp -> d_state_buffer_prev s' !! i = Some PInf) /\
  (forall t s s', bwd_init inp t s = Ok s' ->
     (forall i,
        (exists seq, seq < n_seqs inp /\ d_end_states inp !! seq = Some i /\
           last_live_frame (d_index inp) (index_stride inp) (n_frames inp - 1)
             (t - 1) seq = true) ->
        d_state_buffer_prev s' !! i = Some fzero) /\
     (forall i,
        (forall seq, seq < n_seqs inp -> d_end_states inp !! seq = Some i ->
           last_live_frame (d_index inp) (index_stride inp) (n_frames inp - 1)
             (t - 1) seq = false) ->
        d_state_buffer_prev s' !! i = d_state_buffer_prev s !! i) /\
     d_state_buffer_next s' = d_state_buffer_next s /\
     d_edge_buffer s' = d_edge_buffer s).
Proof.
  split.
  - intros s s' H i Hi. unfold bwd_reset in H. inv_ok. subst s'. cbn.
    match goal with H : launch _ _ _ _ = Ok _ |- _ =>
      apply launch_fill_array in H; destruct H as [_ ->] end.
    by apply lookup_filled.
  - intros t s s' H. unfold bwd_init in H. inv_ok. subst s'. cbn.
    match goal with H : launch _ _ _ _ = Ok _ |- _ => rename H into Hl end.
    unfold launch in Hl. rewrite Nat.mul_1_l in Hl.
    eapply for_each_scatter in Hl;
      [|intros idx a a' _ Hb; apply init_bwd_state_buffer_thread in Hb; exact Hb].
    destruct Hl as (_ & Hset & Hkeep).
    split; [|split; [|split; reflexivity]].
    + intros i (sq & Hsq & Hend & Hlast). apply Hset. exists sq.
      split; [assumption|]. by rewrite Hlast.
    + intros i Hnone. apply Hkeep. intros sq Hsq.
      destruct (last_live_frame _ _ _ _ sq) eqn:Hlast; [|discriminate].
      intros Hend. specialize (Hnone sq Hsq Hend). congruence.
Qed.

(** C6.  After the initialisation of the buffers the previous-frame buffer
    holds 0 at the start state of every sequence and +infinity at every
    other state.  A thread of the forward [next_frame] whose source state
    holds an infinity stores +infinity for its edge and leaves the
    next-frame buffer as it is. *)
Theorem forward_init_and_skip (inp : inputs) :
  (forall s, init_buffers inp = Ok s ->
     forall i, i < n_states inp ->
       ((exists seq, seq < n_seqs inp /\ d_start_states inp !! seq = Some i) ->
          d_state_buffer_prev s !! i = Some fzero) /\
       ((forall seq, seq < n_seqs inp -> d_start_states inp !! seq <> Some i) ->
          d_state_buffer_prev s !! i = Some PInf)) /\
  (forall num_edges num_emissions sequence_idxs from_buffer to_buffer
      weight_buffer emission_idxs prev_frame am_scores edge_off idx from prev_val
      next edge_buffer,
     idx < num_edges ->
     from_buffer !! idx = Some from ->
     prev_frame !! from = Some prev_val ->
     isinf prev_val = true ->
     edge_off + idx < length edge_buffer ->
     next_frame true num_edges num_emissions sequence_idxs from_buffer to_buffer
       weight_buffer emission_idxs prev_frame am_scores edge_off idx
       (next, edge_buffer)
     = Ok (next, <[edge_off + idx := PInf]> edge_buffer)).
Proof.
  split.
  - intros s H i Hi. unfold init_buffers in H. inv_ok. subst s. cbn.
    repeat match goal with
    | H : launch _ _ (fill_array _ _) _ = Ok _ |- _ =>
        apply launch_fill_array in H; destruct H as [? ->]
    | H : launch 1 _ (set_start_states _) _ = Ok _ |- _ =>
        apply launch_set_start_states in H; destruct H as (_ & Hset & Hkeep)
    end.
    split.
    + intros Hex. by apply Hset.
    + intros Hnone. rewrite Hkeep by assumption. by apply lookup_filled.
  - intros n E sqs froms tos ws ems prev am off idx from p next eb
      Hidx Hfrom Hprev Hinf Hoff.
    unfold next_frame. destruct (decide (n <= idx)); [lia|].
    rewrite (read_lookup _ _ _ Hfrom). cbn.
    rewrite (read_lookup _ _ _ Hprev). cbn. rewrite Hinf.
    rewrite write_lt by assumption. reflexivity.
Qed.

(** ** [FastBaumWelchOp]: [next_frame] *)

Section NextFrame.
Variables (fwd : bool) (num_edges num_emissions : nat).
Variables (sequence_idxs from_buffer to_buffer : list nat).
Variables (weight_buffer : list float) (emission_idxs : list nat).
Variables (prev_frame am_scores : list float) (edge_off : nat).

Let thread := next_frame fwd num_edges num_emissions sequence_idxs from_buffer
  to_buffer weight_buffer emission_idxs prev_frame am_scores edge_off.

Let score := edge_score prev_frame am_scores weight_buffer from_buffer
  emission_idxs sequence_idxs num_emissions.

Let stored := edge_stored fwd prev_frame am_scores weight_buffer from_buffer
  emission_idxs sequence_idxs num_emissions.

Lemma next_frame_thread (e : nat) (next eb next' eb' : list float) :
  e < num_edges ->
  thread e (next, eb) = Ok (next', eb') ->
  edge_off + e < length eb /\
  eb' = <[edge_off + e := stored (eb !!! (edge_off + e)) e]> eb /\
  length next' = length next /\
  (isinf (prev_frame !!! (from_buffer !!! e)) = true -> next' = next) /\
  (isinf (prev_frame !!! (from_buffer !!! e)) = false ->
     exists x, next !! (to_buffer !!! e) = Some x /\
       next' = <[to_buffer !!! e := prob_add x (score e)]> next).
Proof.
  intros He H. subst thread. unfold next_frame in H.
  destruct (decide (num_edges <= e)); [lia|]. inv_ok.
  unfold stored, edge_stored, score, edge_score.
  use_lookups.
  destruct (isinf x0) eqn:Hinf; inv_ok.
  - subst. split_and!; auto; discriminate.
  - unfold atomic_prob_add in *. inv_ok.
    use_lookups. subst.
    rewrite length_insert. split; [assumption|]. split; [reflexivity|].
    split; [reflexivity|]. split; [discriminate|]. eauto.
Qed.

Lemma for_each_next_frame (next eb next' eb' : list float) :
  for_each (seq 0 num_edges) thread (next, eb) = Ok (next', eb') ->
  length eb' = length eb /\ length next' = length next /\
  (forall j, j < edge_off \/ edge_off + num_edges <= j -> eb' !! j = eb !! j) /\
  (forall e, e < num_edges ->
     eb' !! (edge_off + e) = Some (stored (eb !!! (edge_off + e)) e)).
Proof.
  intros Hrun.
  apply (for_each_seq_inv (fun k (s : list float * list float) =>
    length s.2 = length eb /\ length s.1 = length next /\
    (forall j, j < edge_off \/ edge_off + k <= j -> s.2 !! j = eb !! j) /\
    (forall e, e < k ->
       s.2 !! (edge_off + e) = Some (stored (eb !!! (edge_off + e)) e))))
    in Hrun; [exact Hrun|cbn; split_and!; auto; intros; lia|].
  intros k [nx b] [nx' b'] Hk (Hlb & Hln & Hout & Hin) Hstep. cbn in *.
  apply next_frame_thread in Hstep; [|assumption].
  destruct Hstep as (Hlt & -> & Hlen & _ & _).
  rewrite length_insert. split_and!; [assumption|congruence| |].
  - intros j Hj. rewrite list_lookup_insert_ne by lia. apply Hout. lia.
  - intros e He. destruct (decide (e = k)) as [->|Hne].
    + rewrite list_lookup_insert_eq by assumption. do 2 f_equal.
      apply list_lookup_total_correct.
      rewrite Hout by lia. apply list_lookup_lookup_total_lt. lia.
    + rewrite list_lookup_insert_ne by lia. apply Hin. lia.
Qed.

Lemma launch_next_frame_guard (st : list float * list float) :
  launch (blocks_for num_edges) n_threads thread st
  = for_each (seq 0 num_edges) thread st.
Proof.
  apply launch_guard; [apply blocks_for_ge|].
  intros i [nx b] Hi. subst thread. unfold next_frame.
  destruct (decide (num_edges <= i)); [reflexivity|lia].
Qed.

End NextFrame.

(** ** [FastBaumWelchOp]: the two sweeps and the edge buffer *)

Lemma fadd_zero_l (x : float) : fadd fzero x = x.
Proof. destruct x; cbn; try reflexivity. f_equal. apply Rplus_0_l. Qed.

Section Sweeps.
Variable inp : inputs.

Let n := n_edges inp.

(** The cell of the edge [e] in the row [t] of the edge buffer after the
    call of [next_frame] at [t] on the buffers [s]. *)
Let row_after (fwd : bool) (t : nat) (s : sweep) (e : nat) : float :=
  edge_stored fwd (d_state_buffer_prev s) (drop (t * frame_stride inp) (d_am_scores inp))
    (d_weights inp) (if fwd then d_from inp else d_to inp)
    (d_emission_idxs inp) (d_sequence_idxs inp) (sequence_stride inp)
    (d_edge_buffer s !!! (t * n + e)) e.

Lemma fill_next_spec (s s' : sweep) :
  fill_next inp s = Ok s' ->
  d_state_buffer_prev s' = d_state_buffer_prev s /\
  d_edge_buffer s' = d_edge_buffer s.
Proof. unfold fill_next. intros H. inv_ok. subst s'. auto. Qed.

Lemma bwd_init_edge_buffer (t1 : nat) (s s' : sweep) :
  bwd_init inp t1 s = Ok s' -> d_edge_buffer s' = d_edge_buffer s.
Proof. unfold bwd_init. intros H. inv_ok. by subst s'. Qed.

Lemma bwd_reset_edge_buffer (s s' : sweep) :
  bwd_reset inp s = Ok s' -> d_edge_buffer s' = d_edge_buffer s.
Proof. unfold bwd_reset. intros H. inv_ok. by subst s'. Qed.

Lemma launch_next_frame_spec (fwd : bool) (t : nat) (s s' : sweep) :
  launch_next_frame inp fwd t s = Ok s' ->
  d_state_buffer_prev s' = d_state_buffer_prev s /\
  length (d_state_buffer_next s') = length (d_state_buffer_next s) /\
  length (d_edge_buffer s') = length (d_edge_buffer s) /\
  (forall j, j < t * n \/ t * n + n <= j ->
     d_edge_buffer s' !! j = d_edge_buffer s !! j) /\
  (forall e, e < n -> d_edge_buffer s' !! (t * n + e) = Some (row_after fwd t s e)).
Proof.
  unfold launch_next_frame. intros H. inv_ok.
  match goal with H : launch _ _ _ _ = Ok ?r |- _ =>
    destruct r as [nx b]; rename H into Hl end.
  inv_ok. subst s'. cbn.
  destruct fwd; rewrite launch_next_frame_guard in Hl;
    apply for_each_next_frame in Hl; destruct Hl as (Hlen & Hlenn & Hout & Hin);
    auto.
Qed.

Lemma fwd_frame_spec (t : nat) (s s' : sweep) :
  fwd_frame inp t s = Ok s' ->
  length (d_edge_buffer s') = length (d_edge_buffer s) /\
  (forall j, j < t * n \/ t * n + n <= j ->
     d_edge_buffer s' !! j = d_edge_buffer s !! j) /\
  (forall e, e < n -> d_edge_buffer s' !! (t * n + e) = Some (row_after true t s e)).
Proof.
  unfold fwd_frame. intros H. inv_ok. subst s'. cbn.
  match goal with H : fill_next _ _ = Ok _ |- _ =>
    apply fill_next_spec in H; destruct H as [Hp Hb] end.
  match goal with H : launch_next_frame _ _ _ _ = Ok _ |- _ =>
    apply launch_next_frame_spec in H; destruct H as (_ & _ & Hlen & Hout & Hin) end.
  rewrite Hlen, Hb. split; [reflexivity|]. split.
  - intros j Hj. rewrite Hout by assumption. by rewrite Hb.
  - intros e He. rewrite Hin by assumption. unfold row_after.
    by rewrite Hp, Hb.
Qed.

Lemma bwd_frame_spec (t1 : nat) (s s' : sweep) :
  bwd_frame inp t1 s = Ok s' ->
  exists si, bwd_init inp t1 s = Ok si /\
  length (d_edge_buffer s') = length (d_edge_buffer s) /\
  (forall j, j < (t1 - 1) * n \/ (t1 - 1) * n + n <= j ->
     d_edge_buffer s' !! j = d_edge_buffer s !! j) /\
  (forall e, e < n ->
     d_edge_buffer s' !! ((t1 - 1) * n + e) = Some (row_after false (t1 - 1) si e)).
Proof.
  unfold bwd_frame. intros H. inv_ok. subst s'. cbn.
  match goal with H : bwd_init _ _ _ = Ok ?r |- _ =>
    exists r; split; [exact H|];
    pose proof (bwd_init_edge_buffer _ _ _ H) as Hbi end.
  match goal with H : fill_next _ _ = Ok _ |- _ =>
    apply fill_next_spec in H; destruct H as [Hp Hb] end.
  match goal with H : launch_next_frame _ _ _ _ = Ok _ |- _ =>
    apply launch_next_frame_spec in H; destruct H as (_ & _ & Hlen & Hout & Hin) end.
  rewrite Hlen, Hb, Hbi. split; [reflexivity|]. split.
  - intros j Hj. rewrite Hout by assumption. by rewrite Hb, Hbi.
  - intros e He. rewrite Hin by assumption. unfold row_after.
    by rewrite Hp, Hb.
Qed.

(** The rounds of a loop over frames leave alone the rows of the other
    frames. *)
Lemma for_each_rows (row : nat -> nat) (body : nat -> sweep -> outcome sweep)
    (l : list nat) (s s' : sweep) :
  (forall t a a', body t a = Ok a' ->
     length (d_edge_buffer a') = length (d_edge_buffer a) /\
     forall j, j < row t * n \/ row t * n + n <= j ->
       d_edge_buffer a' !! j = d_edge_buffer a !! j) ->
  for_each l body s = Ok s' ->
  length (d_edge_buffer s') = length (d_edge_buffer s) /\
  forall j, (forall t, t ∈ l -> j < row t * n \/ row t * n + n <= j) ->
    d_edge_buffer s' !! j = d_edge_buffer s !! j.
Proof.
  intros Hbody. revert s. induction l as [|t l IH]; intros s Hrun; cbn in Hrun.
  - inv_ok. subst. auto.
  - inv_ok. destruct (Hbody _ _ _ H) as [Hlen Hrow].
    destruct (IH _ Hrun) as [Hlen' Hrest]. split; [congruence|].
    intros j Hj. rewrite Hrest by (intros; apply Hj; by right).
    apply Hrow, Hj. by left.
Qed.

Lemma seq_split_at (t nf : nat) :
  t < nf -> seq 0 nf = seq 0 t ++ t :: seq (S t) (nf - S t).
Proof.
  intros Ht. replace nf with (t + S (nf - S t)) at 1 by lia.
  rewrite seq_app. reflexivity.
Qed.

Lemma rev_seq_split_at (t nf : nat) :
  t < nf ->
  reverse (seq 1 nf)
  = reverse (seq (t + 1 + 1) (nf - (t + 1))) ++ (t + 1) :: reverse (seq 1 t).
Proof.
  intros Ht. replace nf with (t + S (nf - S t)) at 1 by lia.
  rewrite seq_app, reverse_app. cbn [seq]. rewrite reverse_cons, <- app_assoc.
  cbn. repeat f_equal; lia.
Qed.

Lemma init_buffers_edge_buffer (s0 : sweep) (j : nat) :
  init_buffers inp = Ok s0 ->
  j < n * n_frames inp -> d_edge_buffer s0 !! j = Some fzero.
Proof.
  unfold init_buffers. intros H Hj. inv_ok. subst s0. cbn.
  match goal with H : launch _ _ (fill_array fzero _) _ = Ok _ |- _ =>
    apply launch_fill_array in H; destruct H as [_ ->] end.
  by apply lookup_filled.
Qed.

(** The row [t] of the edge buffer after the forward pass. *)
Lemma fwd_pass_row (s0 sF : sweep) (t e : nat) :
  init_buffers inp = Ok s0 ->
  fwd_pass inp s0 = Ok sF ->
  t < n_frames inp -> e < n ->
  exists st, for_each (seq 0 t) (fwd_frame inp) s0 = Ok st /\
    d_edge_buffer sF !! (t * n + e)
    = Some (edge_stored true (d_state_buffer_prev st)
              (drop (t * frame_stride inp) (d_am_scores inp)) (d_weights inp)
              (d_from inp) (d_emission_idxs inp) (d_sequence_idxs inp)
              (sequence_stride inp) fzero e).
Proof.
  intros Hinit Hrun Ht He. unfold fwd_pass in Hrun.
  rewrite (seq_split_at t) in Hrun by assumption.
  rewrite for_each_app in Hrun. apply bind_Ok in Hrun as (st & Hpre & Hrun).
  rewrite for_each_cons in Hrun. apply bind_Ok in Hrun as (st1 & Hmid & Hrun).
  exists st. split; [assumption|].
  apply (for_each_rows (fun t => t)) in Hrun;
    [|intros t' a a' Hb; apply fwd_frame_spec in Hb; tauto].
  apply (for_each_rows (fun t => t)) in Hpre;
    [|intros t' a a' Hb; apply fwd_frame_spec in Hb; tauto].
  apply fwd_frame_spec in Hmid. destruct Hmid as (_ & _ & Hrow).
  destruct Hrun as [_ ->].
  2:{ intros t' Ht'. apply elem_of_seq in Ht'. left. fold n. nia. }
  fold n in Hrow. rewrite Hrow by assumption. unfold row_after.
  do 2 f_equal. apply list_lookup_total_correct.
  destruct Hpre as [_ ->].
  2:{ intros t' Ht'. apply elem_of_seq in Ht'. right. fold n. nia. }
  apply init_buffers_edge_buffer; [assumption|]. fold n. nia.
Qed.

(** The row [t] of the edge buffer after the backward pass. *)
Lemma bwd_pass_row (sF sB : sweep) (t e : nat) :
  bwd_pass inp sF = Ok sB ->
  t < n_frames inp -> e < n ->
  exists sR sa si,
    bwd_reset inp sF = Ok sR /\
    for_each (reverse (seq (t + 1 + 1) (n_frames inp - (t + 1))))
      (bwd_frame inp) sR = Ok sa /\
    bwd_init inp (t + 1) sa = Ok si /\
    d_edge_buffer sB !! (t * n + e)
    = Some (edge_stored false (d_state_buffer_prev si)
              (drop (t * frame_stride inp) (d_am_scores inp)) (d_weights inp)
              (d_to inp) (d_emission_idxs inp) (d_sequence_idxs inp)
              (sequence_stride inp) (d_edge_buffer sF !!! (t * n + e)) e).
Proof.
  intros Hrun Ht He. unfold bwd_pass in Hrun.
  apply bind_Ok in Hrun as (sR & Hreset & Hrun).
  rewrite (rev_seq_split_at t) in Hrun by assumption.
  rewrite for_each_app in Hrun. apply bind_Ok in Hrun as (sa & Hpre & Hrun).
  rewrite for_each_cons in Hrun. apply bind_Ok in Hrun as (sb & Hmid & Hrun).
  apply bwd_frame_spec in Hmid. destruct Hmid as (si & Hinit & _ & _ & Hrow).
  exists sR, sa, si. split_and!; try assumption.
  apply (for_each_rows (fun t => t - 1)) in Hrun;
    [|intros t' a a' Hb; apply bwd_frame_spec in Hb;
      destruct Hb as (? & _ & ? & ? & _); auto].
  apply (for_each_rows (fun t => t - 1)) in Hpre;
    [|intros t' a a' Hb; apply bwd_frame_spec in Hb;
      destruct Hb as (? & _ & ? & ? & _); auto].
  destruct Hrun as [_ ->].
  2:{ intros t' Ht'. apply elem_of_reverse, elem_of_seq in Ht'. right.
      fold n. nia. }
  replace (t + 1 - 1) with t in Hrow by lia. fold n in Hrow.
  rewrite Hrow by assumption. unfold row_after. do 2 f_equal.
  rewrite (bwd_init_edge_buffer _ _ _ Hinit).
  destruct Hpre as [Hlen Hrest].
  assert (Hcell : d_edge_buffer sa !! (t * n + e) = d_edge_buffer sF !! (t * n + e)).
  { rewrite Hrest.
    - by rewrite (bwd_reset_edge_buffer _ _ Hreset).
    - intros t' Ht'. apply elem_of_reverse, elem_of_seq in Ht'. left.
      fold n. nia. }
  by rewrite !list_lookup_total_alt, Hcell.
Qed.

End Sweeps.

(** The cell of the edge [e] at the frame [t] after both sweeps, from the
    scores of the two sweeps. *)
Lemma sweeps_edge_buffer (inp : inputs) (s : sweep) (t e : nat) :
  sweeps inp = Ok s ->
  t < n_frames inp -> e < n_edges inp ->
  exists alpha beta,
    forward_score inp t = Ok alpha /\
    backward_score inp (t + 1) = Ok beta /\
    d_edge_buffer s !! (t * n_edges inp + e)
    = Some (edge_stored false beta
              (drop (t * frame_stride inp) (d_am_scores inp)) (d_weights inp)
              (d_to inp) (d_emission_idxs inp) (d_sequence_idxs inp)
              (sequence_stride inp)
              (edge_stored true alpha
                 (drop (t * frame_stride inp) (d_am_scores inp)) (d_weights inp)
                 (d_from inp) (d_emission_idxs inp) (d_sequence_idxs inp)
                 (sequence_stride inp) fzero e) e).
Proof.
  intros Hrun Ht He. unfold sweeps in Hrun.
  apply bind_Ok in Hrun as ([] & Hchk & Hrun).
  apply bind_Ok in Hrun as (s0 & Hinit & Hrun).
  apply bind_Ok in Hrun as (sF & Hfwd & Hbwd).
  destruct (fwd_pass_row inp s0 sF t e Hinit Hfwd Ht He) as (st & Hst & HrowF).
  destruct (bwd_pass_row inp sF s t e Hbwd Ht He)
    as (sR & sa & si & HsR & Hsa & Hsi & HrowB).
  exists (d_state_buffer_prev st), (d_state_buffer_prev si). split_and!.
  - unfold forward_score, forward_state. by run_with Hchk Hinit Hst.
  - unfold backward_score, backward_state, forward_state.
    unfold fwd_pass in Hfwd. run_with Hchk Hinit Hfwd. by run_with HsR Hsa Hsi.
  - rewrite HrowB. do 2 f_equal. by apply list_lookup_total_correct.
Qed.

(** C1.  After both sweeps, the cell of the edge buffer of an edge [e] at
    the frame [t] whose source state has a forward score at [t] and whose
    target state has a backward score at [t + 1] that are not infinite holds
    forward_score(from(e), t) + weight(e) + emission_score(e, t) +
    backward_score(to(e), t + 1). *)
Theorem edge_buffer_path_cost (inp : inputs) (s : sweep) (t e : nat) :
  sweeps inp = Ok s ->
  t < n_frames inp -> e < n_edges inp ->
  exists alpha beta,
    forward_score inp t = Ok alpha /\
    backward_score inp (t + 1) = Ok beta /\
    (isinf (alpha !!! (d_from inp !!! e)) = false ->
     isinf (beta !!! (d_to inp !!! e)) = false ->
     d_edge_buffer s !! (t * n_edges inp + e)
     = Some (fadd (fadd (fadd (alpha !!! (d_from inp !!! e))
                           (d_weights inp !!! e))
                     (emission_score inp e t))
               (beta !!! (d_to inp !!! e)))).
Proof.
  intros Hrun Ht He.
  destruct (sweeps_edge_buffer inp s t e Hrun Ht He)
    as (alpha & beta & Ha & Hb & Hcell).
  exists alpha, beta. split_and!; [assumption..|].
  intros Hfa Hfb. rewrite Hcell. unfold edge_stored, edge_score.
  rewrite Hfa, Hfb, fadd_zero_l. unfold emission_score.
  by rewrite lookup_total_drop.
Qed.

(** ** [FastBaumWelchOp]: [normalize] and [compute_result] *)

(** A loop whose round [i] rewrites the cell [off + i]. *)
Lemma for_each_write_row (f : float -> nat -> float) (off n : nat)
    (body : nat -> list float -> outcome (list float)) (st st' : list float) :
  (forall i s s', i < n -> body i s = Ok s' ->
     off + i < length s /\ s' = <[off + i := f (s !!! (off + i)) i]> s) ->
  for_each (seq 0 n) body st = Ok st' ->
  length st' = length st /\
  (forall j, j < off \/ off + n <= j -> st' !! j = st !! j) /\
  (forall i, i < n -> st' !! (off + i) = Some (f (st !!! (off + i)) i)).
Proof.
  intros Hbody Hrun.
  apply (for_each_seq_inv (fun k (s : list float) =>
    length s = length st /\
    (forall j, j < off \/ off + k <= j -> s !! j = st !! j) /\
    (forall i, i < k -> s !! (off + i) = Some (f (st !!! (off + i)) i))))
    in Hrun; [exact Hrun|split_and!; auto; intros; lia|].
  intros k s s' Hk (Hlen & Hout & Hin) Hstep.
  destruct (Hbody k s s' Hk Hstep) as [Hlt ->].
  rewrite length_insert. split_and!; [assumption| |].
  - intros j Hj. rewrite list_lookup_insert_ne by lia. apply Hout. lia.
  - intros i Hi. destruct (decide (i = k)) as [->|Hne].
    + rewrite list_lookup_insert_eq by assumption. do 2 f_equal.
      apply list_lookup_total_correct.
      rewrite Hout by lia. apply list_lookup_lookup_total_lt. lia.
    + rewrite list_lookup_insert_ne by lia. apply Hin. lia.
Qed.

Lemma frame_sum_S (sequence_idxs : list nat) (buffer : list float)
    (off k s : nat) :
  frame_sum sequence_idxs buffer off (S k) s
  = if bool_decide (sequence_idxs !!! k = s)
    then prob_add (frame_sum sequence_idxs buffer off k s) (buffer !!! (off + k))
    else frame_sum sequence_idxs buffer off k s.
Proof. unfold frame_sum. rewrite seq_S, foldl_snoc. reflexivity. Qed.

Lemma frame_sum_ext (sequence_idxs : list nat) (b1 b2 : list float)
    (off n s : nat) :
  (forall e, e < n -> b1 !! (off + e) = b2 !! (off + e)) ->
  frame_sum sequence_idxs b1 off n s = frame_sum sequence_idxs b2 off n s.
Proof.
  induction n as [|n IH]; intros H; [reflexivity|].
  rewrite !frame_sum_S, IH by (intros; apply H; lia).
  by rewrite !list_lookup_total_alt, H by lia.
Qed.

Section Normalize.
Variables (sequence_idxs : list nat) (num_edges num_seqs : nat).

(** One block of [normalize], with the shared array the host gives it. *)
Lemma normalize_block (b : nat) (buf so buf' so' : list float) :
  normalize sequence_idxs num_edges num_seqs num_seqs b (buf, so) = Ok (buf', so') ->
  length buf' = length buf /\ length so' = length so /\
  (forall j, j < b * num_edges \/ b * num_edges + num_edges <= j ->
     buf' !! j = buf !! j) /\
  (forall e, e < num_edges ->
     sequence_idxs !!! e < num_seqs /\
     buf' !! (b * num_edges + e)
     = Some (fsub (buf !!! (b * num_edges + e))
               (frame_sum sequence_idxs buf (b * num_edges) num_edges
                  (sequence_idxs !!! e)))) /\
  (forall j, j < b * num_seqs \/ b * num_seqs + num_seqs <= j ->
     so' !! j = so !! j) /\
  (forall s, s < num_seqs ->
     so' !! (b * num_seqs + s)
     = Some (let x := frame_sum sequence_idxs buf (b * num_edges) num_edges s in
             if isinf x then fzero else x)).
Proof.
  unfold normalize. intros H.
  apply bind_Ok in H as (sum0 & Hl1 & H).
  apply bind_Ok in H as (sum & Hl2 & H).
  apply bind_Ok in H as (so1 & Hl3 & H).
  apply bind_Ok in H as (buf1 & Hl4 & H). injection H as <- <-.
  (* the shared array is set to +infinity *)
  apply (for_each_write_row (fun _ _ => PInf) 0) in Hl1;
    [|intros i s s' _ Hb; inv_ok; auto].
  destruct Hl1 as (Hlen0 & _ & Hinf).
  unfold device_malloc in Hlen0. rewrite length_replicate in Hlen0.
  (* the sums of the sequences *)
  apply (for_each_seq_inv (fun k (s : list float) =>
    length s = num_seqs /\
    (forall e, e < k -> sequence_idxs !!! e < num_seqs) /\
    (forall q, q < num_seqs ->
       s !! q = Some (frame_sum sequence_idxs buf (b * num_edges) k q))))
    in Hl2.
  2:{ split_and!; [assumption|intros; lia|]. intros q Hq. apply (Hinf q Hq). }
  2:{ intros k s s' Hk (Hlen & Hrange & Hsum) Hstep. inv_ok. subst s'.
      rewrite length_insert. split_and!; [assumption| |].
      - intros e He. destruct (decide (e = k)) as [->|]; [|apply Hrange; lia].
        by erewrite list_lookup_total_correct by eassumption; lia.
      - intros q Hq. rewrite frame_sum_S.
        match goal with H : sequence_idxs !! k = Some ?s |- _ =>
          rewrite (list_lookup_total_correct _ _ _ H);
          destruct (decide (s = q)) as [->|Hne];
          [rewrite bool_decide_eq_true_2 by reflexivity
          |rewrite bool_decide_eq_false_2 by assumption] end.
        + rewrite list_lookup_insert_eq by lia. f_equal.
          match goal with H : buf !! _ = Some _ |- _ =>
            rewrite (list_lookup_total_correct _ _ _ H) end.
          f_equal. specialize (Hsum q Hq). congruence.
        + rewrite list_lookup_insert_ne by assumption. by apply Hsum. }
  destruct Hl2 as (Hlen & Hrange & Hsum).
  (* the output of the sums *)
  apply (for_each_write_row
           (fun _ s => if isinf (sum !!! s) then fzero else sum !!! s)
           (b * num_seqs)) in Hl3.
  2:{ intros i s s' _ Hb. inv_ok. subst s'. use_lookups. auto. }
  destruct Hl3 as (Hlenso & Hsoout & Hsoin).
  (* the subtraction *)
  apply (for_each_write_row
           (fun old e => fsub old (sum !!! (sequence_idxs !!! e)))
           (b * num_edges)) in Hl4.
  2:{ intros i s s' _ Hb. inv_ok. subst s'. use_lookups. auto. }
  destruct Hl4 as (Hlenb & Hbout & Hbin).
  split_and!; try assumption.
  - intros e He. split; [by apply Hrange|].
    rewrite Hbin by assumption. do 3 f_equal.
    apply list_lookup_total_correct. by apply Hsum, Hrange.
  - intros s Hs. rewrite Hsoin by assumption. cbn zeta.
    by rewrite (list_lookup_total_correct _ _ _ (Hsum s Hs)).
Qed.

End Normalize.

Section NormalizeLaunch.
Variables (sequence_idxs : list nat) (num_edges num_seqs : nat).

Lemma launch_normalize (nf : nat) (buf so buf' so' : list float) :
  launch nf 1 (normalize sequence_idxs num_edges num_seqs num_seqs) (buf, so)
  = Ok (buf', so') ->
  length buf' = length buf /\ length so' = length so /\
  (forall t e, t < nf -> e < num_edges ->
     sequence_idxs !!! e < num_seqs /\
     buf' !! (t * num_edges + e)
     = Some (fsub (buf !!! (t * num_edges + e))
               (frame_sum sequence_idxs buf (t * num_edges) num_edges
                  (sequence_idxs !!! e)))) /\
  (forall t s, t < nf -> s < num_seqs ->
     so' !! (t * num_seqs + s)
     = Some (let x := frame_sum sequence_idxs buf (t * num_edges) num_edges s in
             if isinf x then fzero else x)).
Proof.
  unfold launch. rewrite Nat.mul_1_r. intros Hrun.
  apply (for_each_seq_inv (fun k (s : list float * list float) =>
    length s.1 = length buf /\ length s.2 = length so /\
    (forall j, k * num_edges <= j -> s.1 !! j = buf !! j) /\
    (forall t e, t < k -> e < num_edges ->
       sequence_idxs !!! e < num_seqs /\
       s.1 !! (t * num_edges + e)
       = Some (fsub (buf !!! (t * num_edges + e))
                 (frame_sum sequence_idxs buf (t * num_edges) num_edges
                    (sequence_idxs !!! e)))) /\
    (forall t q, t < k -> q < num_seqs ->
       s.2 !! (t * num_seqs + q)
       = Some (let x := frame_sum sequence_idxs buf (t * num_edges) num_edges q in
               if isinf x then fzero else x)))) in Hrun.
  - cbn in Hrun. tauto.
  - cbn. split_and!; auto; intros; lia.
  - intros k [b o] [b' o'] Hk (Hlb & Hlo & Hrest & Hdone & Hsums) Hstep.
    cbn in *. apply normalize_block in Hstep.
    destruct Hstep as (Hlb' & Hlo' & Hbout & Hbin & Hoout & Hoin).
    assert (Hsame : forall q,
      frame_sum sequence_idxs b (k * num_edges) num_edges q
      = frame_sum sequence_idxs buf (k * num_edges) num_edges q).
    { intros q. apply frame_sum_ext. intros e He. apply Hrest. lia. }
    split_and!; [congruence|congruence| | |].
    + intros j Hj. rewrite Hbout by lia. apply Hrest. lia.
    + intros t e Ht He. destruct (decide (t = k)) as [->|Hne].
      * destruct (Hbin e He) as [Hr ->]. split; [assumption|].
        rewrite Hsame. do 2 f_equal.
        rewrite !list_lookup_total_alt. f_equal. apply Hrest. lia.
      * rewrite Hbout by nia. apply Hdone; [lia|assumption].
    + intros t q Ht Hq. destruct (decide (t = k)) as [->|Hne].
      * rewrite Hoin by assumption. cbn zeta. by rewrite Hsame.
      * rewrite Hoout by nia. apply Hsums; [lia|assumption].
Qed.

End NormalizeLaunch.

Section ComputeResult.
Variables (edge_buffer : list float) (emission_idxs sequence_idxs : list nat).
Variables (frame_stride seq_stride num_frames num_seqs num_edges : nat).

Let cell := out_cell emission_idxs sequence_idxs frame_stride seq_stride num_edges.
Let content := scattered edge_buffer emission_idxs sequence_idxs frame_stride
  seq_stride num_edges.

Lemma scattered_S (out0 : list float) (k c : nat) :
  content out0 (S k) c
  = if bool_decide (cell k = c)
    then prob_add (content out0 k c) (edge_buffer !!! k)
    else content out0 k c.
Proof.
  subst content cell. unfold scattered. rewrite seq_S, foldl_snoc. reflexivity.
Qed.

Lemma launch_compute_result (out0 out' : list float) :
  launch (blocks_for (num_frames * num_edges)) n_threads
    (compute_result edge_buffer emission_idxs sequence_idxs frame_stride
       seq_stride num_frames num_seqs num_edges) out0 = Ok out' ->
  length out' = length out0 /\
  (forall idx, idx < num_frames * num_edges -> cell idx < length out0) /\
  (forall c, c < length out0 ->
     out' !! c = Some (content out0 (num_frames * num_edges) c)).
Proof.
  rewrite (launch_guard (num_frames * num_edges));
    [|apply blocks_for_ge
     |intros i s Hi; unfold compute_result;
      destruct (decide (num_frames * num_edges <= i)); [reflexivity|lia]].
  intros Hrun.
  apply (for_each_seq_inv (fun k (o : list float) =>
    length o = length out0 /\
    (forall idx, idx < k -> cell idx < length out0) /\
    (forall c, c < length out0 -> o !! c = Some (content out0 k c))))
    in Hrun; [exact Hrun| |].
  - split_and!; [reflexivity|intros; lia|].
    intros c Hc. subst content. unfold scattered. cbn.
    by apply list_lookup_lookup_total_lt.
  - intros k o o' Hk (Hlen & Hcells & Hcont) Hstep.
    unfold compute_result in Hstep.
    destruct (decide (num_frames * num_edges <= k)); [lia|].
    unfold atomic_prob_add in Hstep. inv_ok. subst o'.
    assert (Hcell : cell k = k `div` num_edges * frame_stride + x0 * seq_stride + x).
    { subst cell. unfold out_cell. by use_lookups. }
    rewrite <- Hcell in *.
    rewrite length_insert. split_and!; [assumption| |].
    + intros idx Hidx. destruct (decide (idx = k)) as [->|]; [lia|].
      apply Hcells. lia.
    + intros c Hc. rewrite scattered_S.
      destruct (decide (cell k = c)) as [<-|Hne];
        [rewrite bool_decide_eq_true_2 by reflexivity
        |rewrite bool_decide_eq_false_2 by assumption].
      * rewrite list_lookup_insert_eq by lia. f_equal. use_lookups.
        f_equal. specialize (Hcont (cell k) Hc). congruence.
      * rewrite list_lookup_insert_ne by assumption. by apply Hcont.
Qed.

End ComputeResult.

(** ** Scores as probabilities *)

Local Open Scope R_scope.

Lemma prob_nonneg (x : float) : 0 <= prob x.
Proof. destruct x; cbn; try lra. left. apply exp_pos. Qed.

Lemma prob_pos_fin (x : float) : is_score x -> 0 < prob x -> is_fin x.
Proof. destruct x; cbn; try tauto; lra. Qed.

Lemma prob_fin_pos (x : float) : is_fin x -> 0 < prob x.
Proof. destruct x; cbn; try tauto. intros _. apply exp_pos. Qed.

Lemma is_fin_score (x : float) : is_fin x -> is_score x.
Proof. by destruct x. Qed.

Lemma is_score_not_inf (x : float) : is_score x -> isinf x = false -> is_fin x.
Proof. by destruct x. Qed.

(** [prob_add] adds the probabilities of two scores. *)
Lemma prob_add_score (a b : float) :
  is_score a -> is_score b ->
  is_score (prob_add a b) /\ prob (prob_add a b) = prob a + prob b.
Proof.
  destruct a as [a| | |], b as [b| | |]; cbn [is_score]; try tauto; intros _ _.
  - rewrite prob_add_fin_log. split; [exact I|]. cbn [prob].
    rewrite Ropp_involutive, exp_ln; [reflexivity|].
    pose proof (exp_pos (- a)). pose proof (exp_pos (- b)). lra.
  - rewrite prob_add_fin_inf. split; [exact I|]. cbn [prob]. lra.
  - rewrite prob_add_inf_fin. split; [exact I|]. cbn [prob]. lra.
  - split; [exact I|]. cbn. lra.
Qed.

Lemma prob_one (x : float) : is_score x -> prob x = 1 -> x = Fin 0.
Proof.
  destruct x as [r| | |]; cbn; try tauto; try lra.
  intros _ H. f_equal. rewrite <- exp_0 in H. apply exp_inv in H. lra.
Qed.

Lemma rsum_ext (f g : nat -> R) (n : nat) :
  (forall i, (i < n)%nat -> f i = g i) -> rsum f n = rsum g n.
Proof.
  induction n as [|n IH]; intros H; cbn; [reflexivity|].
  rewrite IH, H by (intros; try apply H; lia). reflexivity.
Qed.

Lemma rsum_plus (f g : nat -> R) (n : nat) :
  rsum (fun i => f i + g i) n = rsum f n + rsum g n.
Proof. induction n as [|n IH]; cbn; [lra|]. rewrite IH. lra. Qed.

Lemma rsum_scale (c : R) (f : nat -> R) (n : nat) :
  rsum (fun i => c * f i) n = c * rsum f n.
Proof. induction n as [|n IH]; cbn; [lra|]. rewrite IH. lra. Qed.

Lemma rsum_zero (n : nat) : rsum (fun _ => 0) n = 0.
Proof. induction n as [|n IH]; cbn; lra. Qed.

Lemma rsum_nonneg (f : nat -> R) (n : nat) :
  (forall i, (i < n)%nat -> 0 <= f i) -> 0 <= rsum f n.
Proof.
  induction n as [|n IH]; intros H; cbn; [lra|].
  pose proof (H n ltac:(lia)). pose proof (IH ltac:(intros; apply H; lia)). lra.
Qed.

Lemma rsum_pos (f : nat -> R) (n i : nat) :
  (forall j, (j < n)%nat -> 0 <= f j) -> (i < n)%nat -> 0 < f i -> 0 < rsum f n.
Proof.
  induction n as [|n IH]; intros H Hi Hpos; [lia|]. cbn.
  pose proof (H n ltac:(lia)).
  destruct (decide (i = n)) as [->|].
  - pose proof (rsum_nonneg f n ltac:(intros; apply H; lia)). lra.
  - pose proof (IH ltac:(intros; apply H; lia) ltac:(lia) Hpos). lra.
Qed.

(** The indicator sum over the labels [l < m] picks the label in range. *)
Lemma rsum_indicator (c : R) (k m : nat) :
  (k < m)%nat -> rsum (fun l => if decide (k = l) then c else 0) m = c.
Proof.
  induction m as [|m IH]; intros Hk; [lia|]. cbn.
  destruct (decide (k = m)) as [->|Hne].
  - rewrite (rsum_ext _ (fun _ => 0)), rsum_zero; [lra|].
    intros i Hi. destruct (decide (m = i)); [lia|reflexivity].
  - rewrite IH by lia. lra.
Qed.

(** Sums over a family of cells can be taken in either order. *)
Lemma rsum_swap (f : nat -> nat -> R) (n m : nat) :
  rsum (fun i => rsum (fun j => f i j) m) n
  = rsum (fun j => rsum (fun i => f i j) n) m.
Proof.
  induction n as [|n IH]; cbn.
  - by rewrite rsum_zero.
  - rewrite IH, <- rsum_plus. reflexivity.
Qed.

(** The probability of a log-sum accumulated by a loop over the edges. *)
Lemma prob_foldl (P : nat -> bool) (g : nat -> float) (init : float) (n : nat) :
  is_score init ->
  (forall e, (e < n)%nat -> P e = true -> is_score (g e)) ->
  let acc := foldl (fun a e => if P e then prob_add a (g e) else a) init (seq 0 n) in
  is_score acc /\
  prob acc = prob init + rsum (fun e => if P e then prob (g e) else 0) n.
Proof.
  intros Hinit. induction n as [|n IH]; intros Hg; cbn zeta.
  - cbn. split; [assumption|lra].
  - rewrite seq_S, foldl_snoc. cbn beta. cbn [rsum Nat.add].
    destruct IH as [Hs Hp]; [intros; apply Hg; [lia|assumption]|].
    destruct (P n) eqn:HP.
    + destruct (prob_add_score _ (g n) Hs (Hg n ltac:(lia) HP)) as [Hs' Hp'].
      split; [assumption|]. rewrite Hp', Hp. lra.
    + split; [assumption|]. rewrite Hp. lra.
Qed.

Lemma rsum_shift (f : nat -> R) (n : nat) :
  rsum f (S n) = f 0%nat + rsum (fun i => f (S i)) n.
Proof.
  induction n as [|n IH]; [cbn; lra|].
  change (rsum f (S (S n))) with (rsum f (S n) + f (S n)).
  rewrite IH. cbn. lra.
Qed.

Lemma prob_logsumexp (xs : list float) :
  Forall is_score xs ->
  is_score (logsumexp xs) /\
  prob (logsumexp xs) = rsum (fun l => prob (xs !!! l)) (length xs).
Proof.
  induction xs as [|x xs IH]; intros Hxs.
  - cbn. split; [exact I|reflexivity].
  - apply Forall_cons in Hxs as [Hx Hxs]. destruct (IH Hxs) as [Hs Hp].
    change (logsumexp (x :: xs)) with (prob_add x (logsumexp xs)).
    destruct (prob_add_score x _ Hx Hs) as [Hs' Hp'].
    split; [assumption|].
    cbn [length]. rewrite rsum_shift, Hp', Hp. reflexivity.
Qed.

Local Close Scope R_scope.

(** ** [FastBaumWelchOp]: the buffers hold scores *)

Lemma fadd_fin (x y : float) : is_fin x -> is_fin y -> is_fin (fadd x y).
Proof. by destruct x, y. Qed.

Lemma fadd_score_fin (x y : float) : is_score x -> is_fin y -> is_score (fadd x y).
Proof. by destruct x, y. Qed.

Lemma Forall_is_score_insert (l : list float) (i : nat) (x : float) :
  Forall is_score l -> is_score x -> Forall is_score (<[i:=x]> l).
Proof. intros. by apply Forall_insert. Qed.

Section NextFrameScores.
Variables (fwd : bool) (num_edges num_emissions : nat).
Variables (sequence_idxs from_buffer to_buffer : list nat).
Variables (weight_buffer : list float) (emission_idxs : list nat).
Variables (prev_frame am_scores : list float) (edge_off : nat).
Hypothesis prev_scores : Forall is_score prev_frame.
Hypothesis weights_fin : Forall is_fin weight_buffer.
Hypothesis am_fin : Forall is_fin am_scores.

Lemma next_frame_thread_scores (e : nat) (st st' : list float * list float) :
  next_frame fwd num_edges num_emissions sequence_idxs from_buffer to_buffer
    weight_buffer emission_idxs prev_frame am_scores edge_off e st = Ok st' ->
  Forall is_score st.1 -> Forall is_score st.2 ->
  Forall is_score st'.1 /\ Forall is_score st'.2.
Proof.
  destruct st as [next eb], st' as [next' eb']. unfold next_frame. cbn [fst snd].
  destruct (decide (num_edges <= e)).
  { intros [= <- <-]. auto. }
  intros H Hnext Heb. inv_ok.
  match goal with H : prev_frame !! _ = Some ?p |- _ =>
    pose proof (Forall_lookup_1 _ _ _ _ prev_scores H) as Hp;
    destruct (isinf p) eqn:Hinf end.
  - inv_ok. subst. split; [assumption|]. by apply Forall_is_score_insert.
  - unfold atomic_prob_add in H. inv_ok. subst.
    repeat match goal with
    | H : weight_buffer !! _ = Some _ |- _ =>
        apply (Forall_lookup_1 _ _ _ _ weights_fin) in H
    | H : am_scores !! _ = Some _ |- _ =>
        apply (Forall_lookup_1 _ _ _ _ am_fin) in H
    | H : next !! _ = Some _ |- _ =>
        apply (Forall_lookup_1 _ _ _ _ Hnext) in H
    | H : eb !! _ = Some _ |- _ =>
        apply (Forall_lookup_1 _ _ _ _ Heb) in H
    end.
    pose proof (is_score_not_inf _ Hp Hinf) as Hpf.
    split; apply Forall_is_score_insert; try assumption.
    + apply prob_add_score; [assumption|].
      apply is_fin_score. by repeat apply fadd_fin.
    + apply fadd_score_fin; [assumption|].
      destruct fwd; [by repeat apply fadd_fin|assumption].
Qed.

Lemma launch_next_frame_scores (st st' : list float * list float) :
  launch (blocks_for num_edges) n_threads
    (next_frame fwd num_edges num_emissions sequence_idxs from_buffer to_buffer
       weight_buffer emission_idxs prev_frame am_scores edge_off) st = Ok st' ->
  Forall is_score st.1 -> Forall is_score st.2 ->
  Forall is_score st'.1 /\ Forall is_score st'.2.
Proof.
  unfold launch. generalize (seq 0 (blocks_for num_edges * n_threads)).
  intros l. revert st. induction l as [|i l IH]; intros st Hrun H1 H2.
  - cbn in Hrun. injection Hrun as <-. auto.
  - rewrite for_each_cons in Hrun. apply bind_Ok in Hrun as (s1 & Hs1 & Hrun).
    destruct (next_frame_thread_scores _ _ _ Hs1 H1 H2). eauto.
Qed.

End NextFrameScores.

Lemma for_each_scatter_Forall (P : float -> Prop) (c : float)
    (target : nat -> option nat)
    (body : nat -> list float -> outcome (list float)) (l : list nat)
    (st st' : list float) :
  (forall idx s s', body idx s = Ok s' ->
     match target idx with
     | Some k => k < length s /\ s' = <[k:=c]> s
     | None => s' = s
     end) ->
  P c ->
  for_each l body st = Ok st' ->
  Forall P st -> Forall P st' /\ length st' = length st.
Proof.
  intros Hbody Hc. revert st. induction l as [|i l IH]; intros st Hrun Hst.
  - cbn in Hrun. injection Hrun as <-. auto.
  - rewrite for_each_cons in Hrun. apply bind_Ok in Hrun as (s1 & Hs1 & Hrun).
    apply Hbody in Hs1. destruct (target i).
    + destruct Hs1 as [_ ->]. destruct (IH _ Hrun) as [H1 H2].
      * by apply Forall_insert.
      * rewrite length_insert in H2. auto.
    + subst s1. auto.
Qed.

Lemma for_each_preserves {St} (J : St -> Prop) (body : nat -> St -> outcome St)
    (l : list nat) (st st' : St) :
  (forall i s s', body i s = Ok s' -> J s -> J s') ->
  for_each l body st = Ok st' -> J st -> J st'.
Proof.
  intros Hbody. revert st. induction l as [|i l IH]; intros st Hrun Hst.
  - cbn in Hrun. by injection Hrun as <-.
  - rewrite for_each_cons in Hrun. apply bind_Ok in Hrun as (s1 & Hs1 & Hrun).
    eauto.
Qed.

Lemma filled_all (v : float) (size : nat) (arr : list float) :
  length arr <= size -> replicate size v ++ drop size arr = replicate size v.
Proof. intros H. rewrite drop_ge by assumption. apply app_nil_r. Qed.

Section SweepScores.
Variable inp : inputs.
Hypothesis weights_fin : Forall is_fin (DATA (weights inp)).
Hypothesis am_fin : Forall is_fin (DATA (am_scores inp)).
Hypothesis state_rows : Ndarray_STRIDE (state_buffer inp) 0 = n_states inp.

Lemma row_length (k : nat) : length (d_state_buffer_row inp k) <= n_states inp.
Proof. unfold d_state_buffer_row. rewrite length_take, state_rows. lia. Qed.

Lemma Forall_replicate_score (m : nat) (v : float) :
  is_score v -> Forall is_score (replicate m v).
Proof. intros. by apply Forall_replicate. Qed.

Lemma init_buffers_scores (s : sweep) :
  init_buffers inp = Ok s -> score_buffers inp s.
Proof.
  unfold init_buffers. intros H. inv_ok. subst s.
  repeat match goal with
  | H : launch _ _ (fill_array _ _) _ = Ok _ |- _ =>
      apply launch_fill_array in H; destruct H as [? ->]
  end.
  match goal with H : launch 1 _ _ _ = Ok _ |- _ =>
    eapply (for_each_scatter_Forall is_score fzero
              (fun idx => d_start_states inp !! idx)) in H;
      [destruct H as [Hs Hl]|..] end.
  - pose proof (row_length 0). pose proof (row_length 1).
    rewrite filled_all in Hl by assumption. rewrite length_replicate in Hl.
    unfold score_buffers. cbn. split_and!; [assumption| |lia|assumption].
    rewrite filled_all by (unfold device_malloc; by rewrite length_replicate).
    by apply Forall_replicate_score.
  - intros idx a a' Hb. unfold set_start_states in Hb. inv_ok.
    match goal with H : _ !! idx = Some _ |- _ => rewrite H end. auto.
  - exact I.
  - rewrite filled_all by apply row_length. by apply Forall_replicate_score.
Qed.

Lemma fwd_frame_scores (t : nat) (s s' : sweep) :
  fwd_frame inp t s = Ok s' -> score_buffers inp s -> score_buffers inp s'.
Proof.
  unfold fwd_frame, fill_next, launch_next_frame.
  intros H (Hp & Hb & Hlp & Hln). inv_ok. subst.
  cbn [d_state_buffer_prev d_state_buffer_next d_edge_buffer] in *.
  match goal with H : launch _ _ (fill_array _ _) _ = Ok _ |- _ =>
    apply launch_fill_array in H; destruct H as [? ->] end.
  rewrite filled_all in * by assumption.
  match goal with H : launch _ _ _ _ = Ok ?r |- _ =>
    destruct r as [nx eb]; pose proof H as Hlen;
    apply launch_next_frame_scores in H; cbn [fst snd];
      [destruct H as [Hnx Heb]|try assumption..] end.
  - rewrite launch_next_frame_guard in Hlen.
    apply for_each_next_frame in Hlen. destruct Hlen as (_ & Hlen & _).
    rewrite length_replicate in Hlen.
    inv_ok. subst. unfold score_buffers. cbn. split_and!; try assumption. lia.
  - by apply Forall_drop.
  - by apply Forall_replicate_score.
Qed.

Lemma bwd_frame_scores (t : nat) (s s' : sweep) :
  bwd_frame inp t s = Ok s' -> score_buffers inp s -> score_buffers inp s'.
Proof.
  unfold bwd_frame, bwd_init, fill_next, launch_next_frame.
  intros H (Hp & Hb & Hlp & Hln). inv_ok. subst.
  cbn [d_state_buffer_prev d_state_buffer_next d_edge_buffer] in *.
  match goal with H : launch _ _ (fill_array _ _) _ = Ok _ |- _ =>
    apply launch_fill_array in H; destruct H as [? ->] end.
  rewrite filled_all in * by assumption.
  match goal with H : launch 1 _ _ _ = Ok _ |- _ =>
    eapply (for_each_scatter_Forall is_score fzero) in H;
      [destruct H as [Hs Hl]|intros idx a a' Hb';
        apply init_bwd_state_buffer_thread in Hb'; exact Hb'
       |exact I|assumption] end.
  match goal with H : launch _ _ _ _ = Ok ?r |- _ =>
    destruct r as [nx eb]; pose proof H as Hlen;
    apply launch_next_frame_scores in H; cbn [fst snd];
      [destruct H as [Hnx Heb]|try assumption..] end.
  - rewrite launch_next_frame_guard in Hlen.
    apply for_each_next_frame in Hlen. destruct Hlen as (_ & Hlen & _).
    rewrite length_replicate in Hlen.
    inv_ok. subst. unfold score_buffers. cbn. split_and!; try assumption; lia.
  - by apply Forall_drop.
  - by apply Forall_replicate_score.
Qed.

Lemma sweeps_scores (s : sweep) : sweeps inp = Ok s -> score_buffers inp s.
Proof.
  unfold sweeps, fwd_pass, bwd_pass, bwd_reset. intros H. inv_ok.
  match goal with H : init_buffers _ = Ok _ |- _ =>
    apply init_buffers_scores in H; rename H into Hinit end.
  match goal with H : for_each (seq _ _) _ _ = Ok _ |- _ =>
    apply (for_each_preserves (score_buffers inp)) in H;
      [rename H into Hfwd|exact fwd_frame_scores|exact Hinit] end.
  match goal with H : launch _ _ (fill_array _ _) _ = Ok _ |- _ =>
    apply launch_fill_array in H; destruct H as [? ->] end.
  destruct Hfwd as (Hp & Hb & Hlp & Hln).
  rewrite filled_all in * by assumption.
  eapply (for_each_preserves (score_buffers inp)); [exact bwd_frame_scores|eassumption|].
  subst. unfold score_buffers. cbn. rewrite length_replicate.
  split_and!; [by apply Forall_replicate_score|assumption|lia|assumption].
Qed.

End SweepScores.

(** ** [FastBaumWelchOp]: the cells of [out] *)

Lemma foldl_ext_in {A B} (f g : A -> B -> A) (a : A) (l : list B) :
  (forall x b, b ∈ l -> f x b = g x b) -> foldl f a l = foldl g a l.
Proof.
  revert a. induction l as [|b l IH]; intros a H; cbn; [reflexivity|].
  rewrite H by left. apply IH. intros x c Hc. apply H. by right.
Qed.

Lemma foldl_skip {A B} (f : A -> B -> A) (a : A) (l : list B) :
  (forall x b, b ∈ l -> f x b = x) -> foldl f a l = a.
Proof.
  revert a. induction l as [|b l IH]; intros a H; cbn; [reflexivity|].
  rewrite H by left. apply IH. intros x c Hc. apply H. by right.
Qed.

Lemma foldl_fixed {A B} (f : A -> B -> A) (a : A) (l : list B) :
  (forall b, b ∈ l -> f a b = a) -> foldl f a l = a.
Proof.
  induction l as [|b l IH]; intros H; cbn; [reflexivity|].
  rewrite H by left. apply IH. intros c Hc. apply H. by right.
Qed.

Lemma cell_unique (S E k q m t s l : nat) :
  m < E -> l < E -> q < S -> s < S ->
  k * (S * E) + q * E + m = t * (S * E) + s * E + l ->
  k = t /\ q = s /\ m = l.
Proof.
  intros Hm Hl Hq Hs H.
  assert (H1 : (k * S + q) * E + m = (t * S + s) * E + l) by lia.
  assert (H2 : k * S + q = t * S + s) by nia.
  assert (H3 : k = t) by nia.
  subst k. split; [reflexivity|]. split; nia.
Qed.

Section Scatter.
Variables (edge_buffer : list float) (emission_idxs sequence_idxs : list nat).
Variables (S E n : nat).
Hypothesis emissions_in_range : forall e, e < n -> emission_idxs !!! e < E.
Hypothesis sequences_in_range : forall e, e < n -> sequence_idxs !!! e < S.

Let cell := out_cell emission_idxs sequence_idxs (S * E) E n.

Lemma cell_frame (k e : nat) :
  e < n ->
  cell (k * n + e) = k * (S * E) + (sequence_idxs !!! e) * E + emission_idxs !!! e.
Proof.
  intros He. subst cell. unfold out_cell.
  replace ((k * n + e) `div` n) with k
    by (apply (Nat.div_unique _ _ _ e); lia).
  replace ((k * n + e) `mod` n) with e
    by (apply (Nat.mod_unique _ _ k); lia).
  reflexivity.
Qed.

(** The edges that accumulate into the cell of the label [l] of the
    sequence [s]. *)
Let into (s l e : nat) : bool :=
  bool_decide (sequence_idxs !!! e = s /\ emission_idxs !!! e = l).

Lemma scattered_frames (out0 : list float) (nf t s l : nat) :
  s < S -> l < E ->
  scattered edge_buffer emission_idxs sequence_idxs (S * E) E n out0 (nf * n)
    (t * (S * E) + s * E + l)
  = if decide (t < nf)
    then foldl (fun acc e =>
                  if into s l e then prob_add acc (edge_buffer !!! (t * n + e))
                  else acc)
           (out0 !!! (t * (S * E) + s * E + l)) (seq 0 n)
    else out0 !!! (t * (S * E) + s * E + l).
Proof.
  intros Hs Hl. unfold scattered. fold cell.
  induction nf as [|k IH].
  - cbn. destruct (decide (t < 0)); [lia|reflexivity].
  - replace (Datatypes.S k * n) with (k * n + n) by lia.
    rewrite seq_app, foldl_app, IH. cbn [Nat.add].
    replace (seq (k * n) n) with ((fun e => k * n + e) <$> seq 0 n)
      by (rewrite fmap_add_seq; f_equal; lia).
    rewrite foldl_fmap.
    destruct (decide (k = t)) as [->|Hne].
    + destruct (decide (t < t)); [lia|].
      destruct (decide (t < Datatypes.S t)); [|lia].
      apply foldl_ext_in. intros x e He. apply elem_of_seq in He.
      rewrite cell_frame by lia. unfold into.
      destruct (decide (sequence_idxs !!! e = s /\ emission_idxs !!! e = l))
        as [[-> ->]|Hno].
      * by rewrite !bool_decide_eq_true_2 by auto.
      * rewrite (bool_decide_eq_false_2 _ Hno).
        rewrite bool_decide_eq_false_2; [reflexivity|].
        intros Heq. apply cell_unique in Heq; try assumption;
          try (apply emissions_in_range; lia);
          try (apply sequences_in_range; lia).
        tauto.
    + rewrite foldl_skip.
      * destruct (decide (t < k)), (decide (t < Datatypes.S k)); try lia;
          reflexivity.
      * intros x e He. apply elem_of_seq in He. rewrite cell_frame by lia.
        rewrite bool_decide_eq_false_2; [reflexivity|].
        intros Heq. apply cell_unique in Heq; try assumption;
          try (apply emissions_in_range; lia);
          try (apply sequences_in_range; lia).
        lia.
Qed.

End Scatter.

(** The outputs of [assemble], built without the TensorFlow switch, cell by
    cell. *)
Lemma assemble_cells (inp : inputs) (s : sweep) (d_out d_sums : list float) :
  assemble inp false s = Ok (d_out, d_sums) ->
  SHAPE (out inp) = [n_frames inp; n_seqs inp; n_emissions inp] ->
  (forall e, e < n_edges inp -> d_emission_idxs inp !!! e < n_emissions inp) ->
  n_frames inp * n_seqs inp * n_emissions inp <= length d_out /\
  (forall t sq, t < n_frames inp -> sq < n_seqs inp ->
     d_sums !! (t * n_seqs inp + sq)
     = Some (let x := frame_sum (d_sequence_idxs inp) (d_edge_buffer s)
                        (t * n_edges inp) (n_edges inp) sq in
             if isinf x then fzero else x)) /\
  (forall t sq l, t < n_frames inp -> sq < n_seqs inp -> l < n_emissions inp ->
     d_out !! (t * (n_seqs inp * n_emissions inp) + sq * n_emissions inp + l)
     = Some (posterior_cell (d_sequence_idxs inp) (d_emission_idxs inp)
               (d_edge_buffer s) (n_edges inp) t sq l)).
Proof.
  intros Hrun Hshape Hems. unfold assemble in Hrun.
  apply bind_Ok in Hrun as ([nb so] & Hnorm & Hrun).
  apply bind_Ok in Hrun as (out0 & Hfill & Hrun).
  apply bind_Ok in Hrun as (out1 & Hres & Hrun).
  cbn [mbind outcome_bind] in Hrun. injection Hrun as <- <-.
  apply launch_normalize in Hnorm as (_ & _ & Hnb & Hso).
  apply launch_fill_array in Hfill as [Hlen ->].
  assert (Hs0 : Ndarray_STRIDE (out inp) 0 = n_seqs inp * n_emissions inp)
    by (unfold Ndarray_STRIDE; rewrite Hshape; cbn; lia).
  assert (Hs1 : Ndarray_STRIDE (out inp) 1 = n_emissions inp)
    by (unfold Ndarray_STRIDE; rewrite Hshape; cbn; lia).
  rewrite Hs0, Hs1 in Hres.
  apply launch_compute_result in Hres as (Hlen1 & _ & Hcells).
  rewrite length_app, length_replicate, length_drop in *.
  split_and!; [lia|exact Hso|].
  intros t sq l Ht Hsq Hl.
  assert (Hc : t * (n_seqs inp * n_emissions inp) + sq * n_emissions inp + l
               < n_frames inp * n_seqs inp * n_emissions inp) by nia.
  rewrite Hcells by lia.
  rewrite scattered_frames; [|assumption|intros e He; apply (Hnb t e Ht He)|
                             assumption..].
  destruct (decide (t < n_frames inp)); [|lia].
  rewrite (list_lookup_total_correct _ _ _ (lookup_filled _ _ _ _ Hc)).
  f_equal. unfold posterior_cell. apply foldl_ext_in.
  intros x e He. apply elem_of_seq in He.
  destruct (decide (d_sequence_idxs inp !!! e = sq /\ d_emission_idxs inp !!! e = l))
    as [[Hq Hm]|Hno].
  - rewrite !bool_decide_eq_true_2 by auto.
    destruct (Hnb t e Ht ltac:(lia)) as [_ Hcell].
    by rewrite (list_lookup_total_correct _ _ _ Hcell), Hq.
  - by rewrite !bool_decide_eq_false_2.
Qed.

(** The cells of an array after [remove_inf]. *)
Lemma launch_remove_inf_cells (N : nat) (a a' : list float) :
  launch (blocks_for N) n_threads (remove_inf N) a = Ok a' ->
  length a' = length a /\
  (forall i, i < N -> a' !! i = Some (fmin (a !!! i) (Fin (10 ^ 32)%R))).
Proof.
  rewrite (launch_guard N);
    [|apply blocks_for_ge
     |intros i s Hi; unfold remove_inf;
      destruct (decide (i < N)); [lia|reflexivity]].
  intros Hrun.
  apply (for_each_write_row (fun x _ => fmin x (Fin (10 ^ 32)%R)) 0) in Hrun.
  - destruct Hrun as (Hlen & _ & Hcells). split; [exact Hlen|].
    intros i Hi. exact (Hcells i Hi).
  - intros i s s' Hi Hstep. unfold remove_inf in Hstep.
    destruct (decide (i < N)); [|lia]. inv_ok. subst s'. cbn [Nat.add].
    split; [assumption|]. by use_lookups.
Qed.

(** With the TensorFlow switch, [assemble] is [assemble] without it,
    followed by [remove_inf] on the output. *)
Lemma assemble_remove_inf (inp : inputs) (s : sweep)
    (d_out d_sums : list float) :
  assemble inp true s = Ok (d_out, d_sums) ->
  exists d_out0,
    assemble inp false s = Ok (d_out0, d_sums) /\
    launch (blocks_for (n_frames inp * n_seqs inp * n_emissions inp)) n_threads
      (remove_inf (n_frames inp * n_seqs inp * n_emissions inp)) d_out0
    = Ok d_out.
Proof.
  unfold assemble. intros Hrun.
  apply bind_Ok in Hrun as ([nb so] & Hnorm & Hrun).
  apply bind_Ok in Hrun as (out0 & Hfill & Hrun).
  apply bind_Ok in Hrun as (out1 & Hres & Hrun).
  apply bind_Ok in Hrun as (out2 & Hrem & Hrun).
  injection Hrun as <- <-.
  exists out1. split; [|exact Hrem].
  rewrite Hnorm. cbn [mbind outcome_bind].
  rewrite Hfill. cbn [mbind outcome_bind].
  rewrite Hres. reflexivity.
Qed.

(** The outputs of [assemble], cell by cell: with the TensorFlow switch the
    cells of [out] are those without it, capped by [remove_inf]. *)
Lemma assemble_cells_capped (inp : inputs) (tf : bool) (s : sweep)
    (d_out d_sums : list float) :
  assemble inp tf s = Ok (d_out, d_sums) ->
  SHAPE (out inp) = [n_frames inp; n_seqs inp; n_emissions inp] ->
  (forall e, e < n_edges inp -> d_emission_idxs inp !!! e < n_emissions inp) ->
  n_frames inp * n_seqs inp * n_emissions inp <= length d_out /\
  (forall t sq, t < n_frames inp -> sq < n_seqs inp ->
     d_sums !! (t * n_seqs inp + sq)
     = Some (let x := frame_sum (d_sequence_idxs inp) (d_edge_buffer s)
                        (t * n_edges inp) (n_edges inp) sq in
             if isinf x then fzero else x)) /\
  (forall t sq l, t < n_frames inp -> sq < n_seqs inp -> l < n_emissions inp ->
     d_out !! (t * (n_seqs inp * n_emissions inp) + sq * n_emissions inp + l)
     = Some (let v := posterior_cell (d_sequence_idxs inp) (d_emission_idxs inp)
                        (d_edge_buffer s) (n_edges inp) t sq l in
             if tf then fmin v (Fin (10 ^ 32)%R) else v)).
Proof.
  intros Hrun Hshape Hems. destruct tf.
  - apply assemble_remove_inf in Hrun as (d_out0 & Hrun & Hrem).
    destruct (assemble_cells inp s d_out0 d_sums Hrun Hshape Hems)
      as (Hlen & Hsums & Hcells).
    apply launch_remove_inf_cells in Hrem as [Hlen' Hcap].
    split_and!; [lia|exact Hsums|].
    intros t sq l Ht Hsq Hl.
    assert (Hc : t * (n_seqs inp * n_emissions inp) + sq * n_emissions inp + l
                 < n_frames inp * n_seqs inp * n_emissions inp).
    { assert (sq * n_emissions inp + l + 1 <= n_seqs inp * n_emissions inp)
        by nia.
      assert ((t + 1) * (n_seqs inp * n_emissions inp)
              <= n_frames inp * (n_seqs inp * n_emissions inp))
        by (apply Nat.mul_le_mono_r; lia).
      lia. }
    rewrite (Hcap _ Hc).
    by rewrite (list_lookup_total_correct _ _ _ (Hcells t sq l Ht Hsq Hl)).
  - exact (assemble_cells inp s d_out d_sums Hrun Hshape Hems).
Qed.

Lemma prob_add_nan_r (x : float) : prob_add x NaN = PInf.
Proof. by destruct x. Qed.

Lemma frame_sum_all_inf (sequence_idxs : list nat) (buffer : list float)
    (off n sq : nat) :
  (forall e, e < n -> sequence_idxs !!! e = sq -> buffer !!! (off + e) = PInf) ->
  frame_sum sequence_idxs buffer off n sq = PInf.
Proof.
  induction n as [|n IH]; intros H; [reflexivity|].
  rewrite frame_sum_S, IH by (intros; apply H; [lia|assumption]).
  case_bool_decide; [|reflexivity]. by rewrite H by (lia || assumption).
Qed.

(** Where all the edges of a sequence hold +infinity, the scatter leaves
    +infinity: the NaN that [normalize] leaves is absorbed by [prob_add]. *)
Lemma posterior_cell_all_inf (sequence_idxs emission_idxs : list nat)
    (buffer : list float) (n t sq l : nat) :
  (forall e, e < n -> sequence_idxs !!! e = sq ->
     buffer !!! (t * n + e) = PInf) ->
  posterior_cell sequence_idxs emission_idxs buffer n t sq l = PInf.
Proof.
  intros Hinf. unfold posterior_cell.
  rewrite (frame_sum_all_inf _ _ (t * n) _ _ Hinf).
  apply foldl_fixed. intros e He. apply elem_of_seq in He.
  case_bool_decide as Hc; [|reflexivity]. destruct Hc as [Hq _].
  by rewrite Hinf by (lia || assumption).
Qed.

Local Open Scope R_scope.

Lemma prob_fsub_fin (x : float) (sigma : R) :
  is_score x ->
  is_score (fsub x (Fin sigma)) /\
  prob (fsub x (Fin sigma)) = exp sigma * prob x.
Proof.
  destruct x as [r| | |]; cbn; try tauto; intros _.
  - split; [exact I|]. rewrite <- exp_plus. f_equal. lra.
  - split; [exact I|]. lra.
Qed.

(** The labels of the edges of a sequence partition its edges. *)
Lemma rsum_labels (sequence_idxs emission_idxs : list nat) (c : nat -> R)
    (sq n E : nat) :
  (forall e, (e < n)%nat -> (emission_idxs !!! e < E)%nat) ->
  rsum (fun l =>
          rsum (fun e =>
                  if bool_decide (sequence_idxs !!! e = sq /\ emission_idxs !!! e = l)
                  then c e else 0) n) E
  = rsum (fun e => if bool_decide (sequence_idxs !!! e = sq) then c e else 0) n.
Proof.
  intros Hems. rewrite <- rsum_swap. apply rsum_ext. intros e He.
  destruct (decide (sequence_idxs !!! e = sq)) as [Hq|Hq].
  - rewrite (bool_decide_eq_true_2 _ Hq).
    etrans; [|apply (rsum_indicator (c e) (emission_idxs !!! e) E); auto].
    apply rsum_ext. intros l Hl.
    destruct (decide (emission_idxs !!! e = l)).
    + rewrite bool_decide_eq_true_2; [reflexivity|tauto].
    + rewrite bool_decide_eq_false_2; [reflexivity|tauto].
  - rewrite (bool_decide_eq_false_2 _ Hq).
    etrans; [|apply (rsum_zero E)]. apply rsum_ext. intros l Hl.
    rewrite bool_decide_eq_false_2; [reflexivity|tauto].
Qed.

Lemma rsum_le (f g : nat -> R) (n : nat) :
  (forall i, (i < n)%nat -> f i <= g i) -> rsum f n <= rsum g n.
Proof.
  induction n as [|n IH]; intros H; cbn; [lra|].
  pose proof (H n ltac:(lia)). pose proof (IH ltac:(intros; apply H; lia)). lra.
Qed.

Lemma rsum_const (c : R) (n : nat) : rsum (fun _ => c) n = INR n * c.
Proof.
  induction n as [|n IH]; [cbn; lra|].
  rewrite S_INR. cbn [rsum]. rewrite IH. lra.
Qed.

(** Capping a score at [c] adds at most [exp(-c)] to its probability. *)
Lemma prob_fmin_cap (x : float) (c : R) :
  is_score x ->
  is_score (fmin x (Fin c)) /\
  prob x <= prob (fmin x (Fin c)) <= prob x + exp (- c).
Proof.
  destruct x as [r| | |]; cbn [is_score]; try tauto; intros _.
  - cbn [fmin prob is_score]. split; [exact I|].
    pose proof (exp_pos (- r)). pose proof (exp_pos (- c)).
    unfold Rmin. destruct (Rle_dec r c) as [Hle|Hgt]; [lra|].
    assert (exp (- r) < exp (- c)) by (apply exp_increasing; lra). lra.
  - cbn [fmin prob is_score]. split; [exact I|].
    pose proof (exp_pos (- c)). lra.
Qed.

(** C2, as the code has it.  The run is on real-valued edge weights and
    emission scores, with the emission label of every edge below
    [n_emissions], rows of [n_states] cells in the state buffer and an
    output of the contiguous shape [(n_frames, n_seqs, n_emissions)]; the
    float operations are exact, over the real numbers.  At a frame [t] and
    a sequence [sq] at which some edge of the sequence has a finite cell in
    the edge buffer after the two sweeps, the log-sum-exp over the emission
    labels of [output[t, sq, :]] is exactly 0 without the TensorFlow switch:
    the posteriors of the frame sum to 1.  With the switch, [remove_inf]
    puts 1e32 in the cells of the labels without an edge, and the
    log-sum-exp lies between [-log(1 + n_emissions * exp(-1e32))] and 0.
    At a frame and a sequence none of whose edges has a finite cell, valid
    by the index mask or not, every cell of [output[t, sq, :]] is +infinity
    (1e32 with the switch). *)
Theorem posteriors_sum_to_one (inp : inputs) (tf : bool) (s : sweep)
    (d_out d_sums : list float) (t sq : nat) :
  sweeps inp = Ok s ->
  c_fw_code inp tf = Ok (d_out, d_sums) ->
  Forall is_fin (DATA (weights inp)) ->
  Forall is_fin (DATA (am_scores inp)) ->
  Ndarray_STRIDE (state_buffer inp) 0 = n_states inp ->
  SHAPE (out inp) = [n_frames inp; n_seqs inp; n_emissions inp] ->
  (forall e, (e < n_edges inp)%nat ->
     (d_emission_idxs inp !!! e < n_emissions inp)%nat) ->
  (t < n_frames inp)%nat -> (sq < n_seqs inp)%nat ->
  ((exists e, (e < n_edges inp)%nat /\ d_sequence_idxs inp !!! e = sq /\
      is_fin (d_edge_buffer s !!! (t * n_edges inp + e)%nat)) ->
   exists x : R,
     logsumexp (take (n_emissions inp)
                  (drop (t * (n_seqs inp * n_emissions inp) + sq * n_emissions inp)
                     d_out))
     = Fin x /\
     (tf = false -> x = 0) /\
     - ln (1 + INR (n_emissions inp) * exp (- (10 ^ 32))) <= x <= 0) /\
  ((forall e, (e < n_edges inp)%nat -> d_sequence_idxs inp !!! e = sq ->
      ~ is_fin (d_edge_buffer s !!! (t * n_edges inp + e)%nat)) ->
   forall l, (l < n_emissions inp)%nat ->
     d_out
       !! (t * (n_seqs inp * n_emissions inp) + sq * n_emissions inp + l)%nat
     = Some (if tf then Fin (10 ^ 32) else PInf)).
Proof.
  intros Hsw Hrun Hw Ham Hrows Hshape Hems Ht Hsq.
  unfold c_fw_code in Hrun. rewrite Hsw in Hrun. cbn [mbind outcome_bind] in Hrun.
  destruct (sweeps_scores inp Hw Ham Hrows s Hsw) as (_ & Heb & _).
  destruct (assemble_cells_capped inp tf s d_out d_sums Hrun Hshape Hems)
    as (Hlen & _ & Hcells).
  set (n := n_edges inp) in *. set (S := n_seqs inp) in *.
  set (E := n_emissions inp) in *.
  set (g := fun e => d_edge_buffer s !!! (t * n + e)%nat).
  assert (Hg : forall e, (e < n)%nat -> is_score (g e)).
  { intros e He.
    destruct (sweeps_edge_buffer inp s t e Hsw Ht He) as (? & ? & _ & _ & Hc).
    subst g. cbn beta. fold n in Hc.
    rewrite (list_lookup_total_correct _ _ _ Hc).
    apply (Forall_lookup_1 _ _ _ _ Heb Hc). }
  split.
  2:{ intros Hnone l Hl. rewrite Hcells by assumption. cbn zeta.
      rewrite posterior_cell_all_inf; [by destruct tf|].
      intros e He Hq. specialize (Hnone e He Hq). specialize (Hg e He).
      subst g. cbn beta in Hg.
      destruct (d_edge_buffer s !!! (t * n + e)%nat); cbn in *; tauto. }
  intros (e0 & He0 & Hq0 & Hfin0).
  set (P := fun e => bool_decide (d_sequence_idxs inp !!! e = sq)).
  (* the sum of the sequence is a real number *)
  destruct (prob_foldl P g PInf n I ltac:(auto)) as [Hss Hps].
  change (foldl _ PInf (seq 0 n))
    with (frame_sum (d_sequence_idxs inp) (d_edge_buffer s) (t * n) n sq) in *.
  set (sigma := frame_sum _ _ _ _ _) in *. cbn [prob] in Hps.
  assert (Hpos : 0 < prob sigma).
  { rewrite Hps, Rplus_0_l.
    apply (rsum_pos _ n e0); [|assumption|].
    - intros j _. destruct (P j); [apply prob_nonneg|lra].
    - subst P. cbn beta. rewrite bool_decide_eq_true_2 by assumption.
      by apply prob_fin_pos. }
  destruct sigma as [r| | |] eqn:Hsigma; cbn in Hss, Hpos; try tauto; try lra.
  (* the cells of the labels, before [remove_inf] *)
  set (v := fun l => posterior_cell (d_sequence_idxs inp) (d_emission_idxs inp)
                       (d_edge_buffer s) n t sq l).
  assert (Hv : forall l, is_score (v l) /\
    prob (v l) = rsum (fun e =>
      if bool_decide (d_sequence_idxs inp !!! e = sq /\ d_emission_idxs inp !!! e = l)
      then exp r * prob (g e) else 0) n).
  { intros l. subst v. unfold posterior_cell. cbn beta. fold sigma. rewrite Hsigma.
    destruct (prob_foldl
      (fun e => bool_decide (d_sequence_idxs inp !!! e = sq /\
                             d_emission_idxs inp !!! e = l))
      (fun e => fsub (g e) (Fin r)) PInf n I) as [H1 H2].
    - intros e He _. by apply prob_fsub_fin, Hg.
    - split; [exact H1|]. etrans; [exact H2|]. cbn [prob]. rewrite Rplus_0_l.
      apply rsum_ext. intros e He. destruct (bool_decide _); [|reflexivity].
      by apply prob_fsub_fin, Hg. }
  assert (Hone : rsum (fun l => prob (v l)) E = 1).
  { rewrite (rsum_ext _ _ E (fun l _ => proj2 (Hv l))).
    rewrite (rsum_labels _ _ (fun e => exp r * prob (g e))) by assumption.
    rewrite (rsum_ext _ (fun e => exp r * (if P e then prob (g e) else 0)))
      by (intros e _; subst P; cbn beta; destruct (bool_decide _); lra).
    rewrite rsum_scale. rewrite Rplus_0_l in Hps. rewrite <- Hps.
    cbn [prob]. rewrite <- exp_plus, Rplus_opp_r. apply exp_0. }
  (* the cells of the labels in [out] *)
  set (w := fun l => if tf then fmin (v l) (Fin (10 ^ 32)) else v l).
  assert (Hw' : forall l,
    is_score (w l) /\
    prob (v l) <= prob (w l) <= prob (v l) + exp (- (10 ^ 32))).
  { intros l. subst w. cbn beta. destruct tf.
    - apply prob_fmin_cap, Hv.
    - split; [apply Hv|]. pose proof (exp_pos (- (10 ^ 32))). lra. }
  set (c0 := (t * (S * E) + sq * E)%nat).
  set (xs := take E (drop c0 d_out)).
  assert (Hxs : forall l, (l < E)%nat -> xs !! l = Some (w l)).
  { intros l Hl. subst xs. rewrite lookup_take_lt, lookup_drop by assumption.
    by apply Hcells. }
  assert (Hlenxs : length xs = E).
  { subst xs c0. rewrite length_take, length_drop.
    assert (sq * E + E <= S * E)%nat by nia.
    assert (t * (S * E) + S * E <= n_frames inp * (S * E))%nat by nia.
    lia. }
  assert (Hall : Forall is_score xs).
  { apply Forall_lookup. intros i x Hi.
    assert (i < E)%nat by (rewrite <- Hlenxs; by eapply lookup_lt_Some).
    rewrite Hxs in Hi by assumption. injection Hi as <-. apply Hw'. }
  destruct (prob_logsumexp xs Hall) as [Hls Hlp].
  rewrite Hlenxs in Hlp.
  rewrite (rsum_ext _ (fun l => prob (w l))) in Hlp
    by (intros l Hl; by rewrite (list_lookup_total_correct _ _ _ (Hxs l Hl))).
  assert (Hlo : 1 <= rsum (fun l => prob (w l)) E).
  { rewrite <- Hone. apply rsum_le. intros l _. apply Hw'. }
  assert (Hhi : rsum (fun l => prob (w l)) E <= 1 + INR E * exp (- (10 ^ 32))).
  { rewrite <- Hone, <- rsum_const, <- rsum_plus.
    apply rsum_le. intros l _. apply Hw'. }
  destruct (logsumexp xs) as [x| | |] eqn:Hx; cbn in Hls, Hlp;
    try tauto; try lra.
  exists x. split; [reflexivity|]. split; [|split].
  - intros ->. subst w. cbn beta iota in Hlp. rewrite Hone in Hlp.
    rewrite <- exp_0 in Hlp. apply exp_inv in Hlp. lra.
  - rewrite <- Hlp in Hhi.
    assert (H0 : 0 < exp (- x)) by apply exp_pos.
    destruct (Rle_lt_or_eq_dec _ _ Hhi) as [Hlt|Heq].
    + apply ln_increasing in Hlt; [|assumption]. rewrite ln_exp in Hlt. lra.
    + rewrite <- Heq, ln_exp. lra.
  - rewrite <- Hlp in Hlo. destruct (Rle_dec x 0) as [|Hgt]; [assumption|].
    assert (exp (- x) < exp 0) by (apply exp_increasing; lra).
    rewrite exp_0 in *. lra.
Qed.

Local Close Scope R_scope.

(** ** [FastBaumWelchOp]: frames without a finite edge *)

(** C10, as the code has it.  The output has the contiguous shape
    [(n_frames, n_seqs, n_emissions)] and the emission label of every edge
    is below [n_emissions].  At a frame [t] and a sequence [sq] all of
    whose edges hold +infinity in the edge buffer after the sweeps, the
    normalisation output [sums] is 0; [normalize] leaves NaN (infinity
    minus infinity), not +infinity, in the cells of these edges; and the
    cells of [output] of that frame and sequence are +infinity without the
    TensorFlow switch, and the 1e32 of [remove_inf] with it. *)
Theorem empty_frame_outputs (inp : inputs) (tf : bool) (s : sweep)
    (d_out d_sums : list float) (t sq : nat) :
  assemble inp tf s = Ok (d_out, d_sums) ->
  SHAPE (out inp) = [n_frames inp; n_seqs inp; n_emissions inp] ->
  (forall e, e < n_edges inp -> d_emission_idxs inp !!! e < n_emissions inp) ->
  t < n_frames inp -> sq < n_seqs inp ->
  (forall e, e < n_edges inp -> d_sequence_idxs inp !!! e = sq ->
     d_edge_buffer s !!! (t * n_edges inp + e) = PInf) ->
  d_sums !! (t * n_seqs inp + sq) = Some fzero /\
  (forall buffer sums,
     launch (n_frames inp) 1
       (normalize (d_sequence_idxs inp) (n_edges inp) (n_seqs inp) (n_seqs inp))
       (d_edge_buffer s, DATA (sum_output inp)) = Ok (buffer, sums) ->
     forall e, e < n_edges inp -> d_sequence_idxs inp !!! e = sq ->
       buffer !! (t * n_edges inp + e) = Some NaN) /\
  (forall l, l < n_emissions inp ->
     d_out !! (t * (n_seqs inp * n_emissions inp) + sq * n_emissions inp + l)
     = Some (if tf then Fin (10 ^ 32)%R else PInf)).
Proof.
  intros Hrun Hshape Hems Ht Hsq Hinf.
  pose proof (frame_sum_all_inf _ _ (t * n_edges inp) _ _ Hinf) as Hsum.
  destruct (assemble_cells_capped inp tf s d_out d_sums Hrun Hshape Hems)
    as (_ & Hsums & Hcells).
  split_and!.
  - rewrite Hsums by assumption. by rewrite Hsum.
  - intros buffer sums Hnorm e He Hq.
    apply launch_normalize in Hnorm as (_ & _ & Hnb & _).
    destruct (Hnb t e Ht He) as [_ ->]. by rewrite Hq, Hsum, Hinf.
  - intros l Hl. rewrite Hcells by assumption. cbn zeta.
    rewrite posterior_cell_all_inf by assumption. by destruct tf.
Qed.

(** ** Running the kernels on given inputs *)

Local Open Scope R_scope.

Lemma feq_same (r : R) : feq (Fin r) (Fin r) = true.
Proof. cbn. destruct (Req_dec_T r r); congruence. Qed.

Lemma feq_1_0 : feq (Fin 1) (Fin 0) = false.
Proof. cbn. destruct (Req_dec_T 1 0); [lra|reflexivity]. Qed.

Lemma feq_0_1 : feq (Fin 0) (Fin 1) = false.
Proof. cbn. destruct (Req_dec_T 0 1); [lra|reflexivity]. Qed.

Lemma prob_add_inf_inf : prob_add PInf PInf = PInf.
Proof. reflexivity. Qed.

Lemma float_to_unsigned_0 : float_to_unsigned (Fin 0) = Ok 0%nat.
Proof.
  unfold float_to_unsigned.
  destruct (Rlt_dec (-1) 0) as [_|n]; [|exfalso; lra].
  destruct (Rlt_dec 0 (2 ^ 32)) as [_|n]; [|exfalso; apply n; apply pow_lt; lra].
  f_equal. unfold Int_part. rewrite <- (tech_up 0 1); [reflexivity|cbn; lra..].
Qed.

Local Close Scope R_scope.

Create Rewrite HintDb fl.
#[local] Hint Rewrite feq_same feq_1_0 feq_0_1 prob_add_inf_inf prob_add_inf_fin
  prob_add_fin_inf prob_add_fin_log float_to_unsigned_0 : fl.

(** Evaluates one kernel launch, or a value: the operations on real
    numbers that decide the control flow are rewritten, the rest is
    computed. *)
Ltac eval_atom :=
  repeat first
    [ progress lazy -[prob_add feq float_to_unsigned IZR]
    | progress unfold fzero, fone
    | progress autorewrite with fl ];
  reflexivity.

Ltac head_of t := lazymatch t with ?f _ => head_of f | _ => t end.

(** Evaluates a sequence of steps, step by step. *)
Ltac run :=
  lazymatch goal with
  | |- Ok _ = _ => eval_atom
  | |- Fault = _ => reflexivity
  | |- AssertFail = _ => reflexivity
  | |- (?m ≫= ?f) = _ =>
      let H := fresh "Hrun" in
      eassert (m = _) as H by run;
      rewrite H; clear H; cbn [mbind outcome_bind]; run
  | |- launch _ _ _ _ = _ => eval_atom
  | |- assert _ = _ => eval_atom
  | |- read _ _ = _ => eval_atom
  | |- write _ _ _ = _ => eval_atom
  | |- for_each [] _ _ = _ => eval_atom
  | |- for_each (_ :: _) _ _ = _ => rewrite for_each_cons; run
  | |- for_each ?l _ _ = _ =>
      let l' := eval lazy in l in
      change l with l'; run
  | |- (if ?c then _ else _) = _ =>
      let c' := eval lazy -[prob_add feq float_to_unsigned IZR] in c in
      change c with c'; cbv iota; run
  | |- ?x = _ =>
      let h := head_of x in first [unfold h; run | eval_atom]
  end.

(** The engine on [one_edge]: the posterior of the only label is 0 (the
    probability 1) and the normalisation is 0. *)
Lemma one_edge_run :
  FastBaumWelchOp.c_fw_code one_edge false = Ok ([fzero], [fzero]).
Proof.
  etrans; [run|]. unfold fzero. repeat f_equal; lra.
Qed.

Lemma one_edge_sweeps :
  FastBaumWelchOp.sweeps one_edge
  = Ok (mkSweep [Fin (0 + 0 + 0); PInf] [PInf; fzero] [Fin (0 + (0 + 0 + 0) + 0)]).
Proof. run. Qed.

(** ** The claims on the inputs of the examples *)

Lemma one_edge_init :
  init_buffers one_edge = Ok (mkSweep [fzero; PInf] [NaN; NaN] [fzero]).
Proof. run. Qed.

Lemma one_edge_bwd_init :
  bwd_init one_edge 1 (mkSweep [PInf; PInf] [fzero; PInf] [fzero])
  = Ok (mkSweep [PInf; fzero] [fzero; PInf] [fzero]).
Proof. run. Qed.

Lemma one_edge_bwd_reset :
  bwd_reset one_edge (mkSweep [NaN; fzero] [fzero; PInf] [fzero])
  = Ok (mkSweep [PInf; PInf] [fzero; PInf] [fzero]).
Proof. run. Qed.

(** C1 on [one_edge]: the cell of the edge at the frame 0. *)
Lemma edge_buffer_path_cost_witness :
  exists alpha beta,
    forward_score one_edge 0 = Ok alpha /\
    backward_score one_edge (0 + 1) = Ok beta /\
    (isinf (alpha !!! (d_from one_edge !!! 0)) = false ->
     isinf (beta !!! (d_to one_edge !!! 0)) = false ->
     [Fin (0 + (0 + 0 + 0) + 0)] !! (0 * n_edges one_edge + 0)
     = Some (fadd (fadd (fadd (alpha !!! (d_from one_edge !!! 0))
                           (d_weights one_edge !!! 0))
                     (emission_score one_edge 0 0))
               (beta !!! (d_to one_edge !!! 0)))).
Proof.
  apply (edge_buffer_path_cost one_edge _ 0 0 one_edge_sweeps);
    vm_compute; lia.
Defined.

(** C5 on [one_edge]: the reset, and the end state 1 at the last frame. *)
Lemma backward_init_witness :
  d_state_buffer_prev (mkSweep [PInf; PInf] [fzero; PInf] [fzero]) !! 0
  = Some PInf /\
  d_state_buffer_prev (mkSweep [PInf; fzero] [fzero; PInf] [fzero]) !! 1
  = Some fzero.
Proof.
  split.
  - apply (proj1 (backward_init one_edge) _ _ one_edge_bwd_reset).
    vm_compute. lia.
  - apply (proj1 (proj2 (backward_init one_edge) _ _ _ one_edge_bwd_init)).
    exists 0. split; [vm_compute; lia|]. split; [reflexivity|].
    lazy -[feq IZR]. by rewrite feq_same.
Defined.

(** C6 on [one_edge]: the start state 0, the other state 1, and the skip
    of an edge that leaves the state 1. *)
Lemma forward_init_and_skip_witness :
  (d_state_buffer_prev (mkSweep [fzero; PInf] [NaN; NaN] [fzero]) !! 0
   = Some fzero /\
   d_state_buffer_prev (mkSweep [fzero; PInf] [NaN; NaN] [fzero]) !! 1
   = Some PInf) /\
  next_frame true 1 1 [0] [1] [0] [fzero] [0] [fzero; PInf] [fzero] 0 0
    ([PInf; PInf], [fzero])
  = Ok ([PInf; PInf], <[0 + 0 := PInf]> [fzero]).
Proof.
  split; [split|].
  - apply (proj1 (proj1 (forward_init_and_skip one_edge) _ one_edge_init 0
                    ltac:(vm_compute; lia))).
    exists 0. split; [vm_compute; lia|reflexivity].
  - apply (proj2 (proj1 (forward_init_and_skip one_edge) _ one_edge_init 1
                    ltac:(vm_compute; lia))).
    intros sq Hsq. assert (sq = 0) as -> by (vm_compute in Hsq; lia).
    discriminate.
  - apply (proj2 (forward_init_and_skip one_edge) 1 1 [0] [1] [0] [fzero] [0]
             [fzero; PInf] [fzero] 0 0 1 PInf);
      (reflexivity || (cbn; lia)).
Defined.

Lemma no_path_sweeps :
  sweeps no_path
  = Ok (mkSweep [PInf; PInf] [PInf; fzero] [PInf]).
Proof. run. Qed.

Lemma no_path_run :
  FastBaumWelchOp.c_fw_code no_path false = Ok ([PInf], [fzero]).
Proof. run. Qed.

Lemma no_path_run_capped :
  FastBaumWelchOp.c_fw_code no_path true = Ok ([Fin (10 ^ 32)%R], [fzero]).
Proof. run. Qed.

(** C2 as stated fails on [no_path]: the frame 0 of the sequence 0 is valid
    by the mask, and its posteriors are all +infinity without the
    TensorFlow switch and all 1e32 with it. *)
Lemma valid_frame_without_path :
  d_index no_path !! (0 * index_stride no_path + 0) = Some fone /\
  (exists d_out d_sums,
     c_fw_code no_path false = Ok (d_out, d_sums) /\
     logsumexp (take (n_emissions no_path)
                  (drop (0 * (n_seqs no_path * n_emissions no_path)
                         + 0 * n_emissions no_path) d_out)) = PInf /\
     logsumexp (take (n_emissions no_path)
                  (drop (0 * (n_seqs no_path * n_emissions no_path)
                         + 0 * n_emissions no_path) d_out)) <> fzero) /\
  (exists d_out d_sums,
     c_fw_code no_path true = Ok (d_out, d_sums) /\
     logsumexp (take (n_emissions no_path)
                  (drop (0 * (n_seqs no_path * n_emissions no_path)
                         + 0 * n_emissions no_path) d_out))
     = Fin (10 ^ 32)%R /\
     logsumexp (take (n_emissions no_path)
                  (drop (0 * (n_seqs no_path * n_emissions no_path)
                         + 0 * n_emissions no_path) d_out)) <> fzero).
Proof.
  split; [reflexivity|]. split.
  - exists [PInf], [fzero]. split; [exact no_path_run|].
    split; [reflexivity|discriminate].
  - exists [Fin (10 ^ 32)%R], [fzero]. split; [exact no_path_run_capped|].
    assert (E : logsumexp [Fin (10 ^ 32)%R] = Fin (10 ^ 32)%R)
      by apply prob_add_fin_inf.
    change (logsumexp _) with (logsumexp [Fin (10 ^ 32)%R]). rewrite E.
    split; [reflexivity|]. unfold fzero. intros H. injection H as H.
    pose proof (pow_lt 10 32 ltac:(lra)). lra.
Qed.

(** C10 as stated fails on [no_path]: the only edge holds +infinity after
    the sweeps, and [normalize] leaves NaN in its cell. *)
Lemma empty_frame_cell_is_nan :
  exists s buffer sums,
    sweeps no_path = Ok s /\
    d_edge_buffer s !! 0 = Some PInf /\
    launch (n_frames no_path) 1
      (normalize (d_sequence_idxs no_path) (n_edges no_path) (n_seqs no_path)
         (n_seqs no_path))
      (d_edge_buffer s, DATA (sum_output no_path)) = Ok (buffer, sums) /\
    sums !! 0 = Some fzero /\
    buffer !! 0 = Some NaN /\
    buffer !! 0 <> Some PInf.
Proof.
  eexists _, [NaN], [fzero]. split; [exact no_path_sweeps|].
  split; [reflexivity|]. split; [run|].
  split; [reflexivity|]. split; [reflexivity|discriminate].
Qed.

(** C10 on [no_path], with the TensorFlow switch. *)
Lemma empty_frame_outputs_witness :
  [fzero] !! (0 * n_seqs no_path + 0) = Some fzero /\
  (forall buffer sums,
     launch (n_frames no_path) 1
       (normalize (d_sequence_idxs no_path) (n_edges no_path) (n_seqs no_path)
          (n_seqs no_path))
       ([PInf], DATA (sum_output no_path)) = Ok (buffer, sums) ->
     forall e, e < n_edges no_path -> d_sequence_idxs no_path !!! e = 0 ->
       buffer !! (0 * n_edges no_path + e) = Some NaN) /\
  (forall l, l < n_emissions no_path ->
     [Fin (10 ^ 32)%R] !! (0 * (n_seqs no_path * n_emissions no_path)
                           + 0 * n_emissions no_path + l)
     = Some (Fin (10 ^ 32)%R)).
Proof.
  apply (empty_frame_outputs no_path true
           (mkSweep [PInf; PInf] [PInf; fzero] [PInf])
           [Fin (10 ^ 32)%R] [fzero] 0 0).
  - run.
  - reflexivity.
  - intros e He. assert (e = 0) as -> by (vm_compute in He; lia).
    vm_compute. lia.
  - vm_compute. lia.
  - vm_compute. lia.
  - intros e He _. assert (e = 0) as -> by (vm_compute in He; lia).
    reflexivity.
Defined.

(** ** [prob_add] *)

Local Open Scope R_scope.

(** C3.  [prob_add a +infinity] is [a] for every score [a], that is for
    every float but NaN, which is no score and compares unequal to every
    float.  [prob_add] is commutative, on all floats; its result is never
    NaN, so [prob_add a a] is not; it is +infinity when [a - b] is NaN, as
    for two +infinity; otherwise it is [-log1p(exp(-|a - b|)) + min(a, b)],
    which on real numbers, computed exactly, is [-log(exp(-a) + exp(-b))]. *)
Theorem prob_add_properties :
  (forall a, a <> NaN -> prob_add a PInf = a) /\
  (forall a b, prob_add a b = prob_add b a) /\
  (forall a b, isnan (prob_add a b) = false) /\
  (forall a b, isnan (fsub a b) = true -> prob_add a b = PInf) /\
  (forall a b, isnan (fsub a b) = false ->
     prob_add a b
     = fadd (fneg (flog1p (fexp (fneg (fabs (fsub a b)))))) (fmin a b)) /\
  (forall a b : R, prob_add (Fin a) (Fin b) = Fin (- ln (exp (- a) + exp (- b)))).
Proof.
  split_and!.
  - exact prob_add_inf_r.
  - exact prob_add_comm.
  - exact prob_add_not_nan.
  - exact prob_add_nan_diff.
  - intros a b H. unfold prob_add. by rewrite H.
  - exact prob_add_fin_log.
Qed.

(** C3 on the scores 2 and 3. *)
Lemma prob_add_properties_witness :
  prob_add (Fin 2) PInf = Fin 2 /\
  prob_add PInf PInf = PInf /\
  prob_add (Fin 2) (Fin 3)
  = fadd (fneg (flog1p (fexp (fneg (fabs (fsub (Fin 2) (Fin 3))))))) (fmin (Fin 2) (Fin 3)).
Proof.
  destruct prob_add_properties as (Hid & _ & _ & Hnan & Hdef & _).
  split_and!.
  - apply Hid. discriminate.
  - apply Hnan. reflexivity.
  - apply Hdef. reflexivity.
Defined.

Local Close Scope R_scope.

(** C2 on [one_edge], whose only frame has the edge with a finite score,
    and on [no_path] with the TensorFlow switch. *)
Lemma posteriors_sum_to_one_witness :
  (exists x : R,
     logsumexp (take (n_emissions one_edge)
                  (drop (0 * (n_seqs one_edge * n_emissions one_edge)
                         + 0 * n_emissions one_edge) [fzero]))
     = Fin x /\
     (false = false -> x = 0%R) /\
     (- ln (1 + INR (n_emissions one_edge) * exp (- (10 ^ 32))) <= x <= 0)%R) /\
  (forall l, l < n_emissions no_path ->
     [Fin (10 ^ 32)%R] !! (0 * (n_seqs no_path * n_emissions no_path)
                           + 0 * n_emissions no_path + l)
     = Some (Fin (10 ^ 32)%R)).
Proof.
  split.
  - apply (posteriors_sum_to_one one_edge false _ [fzero] [fzero] 0 0
             one_edge_sweeps one_edge_run).
    + repeat constructor.
    + repeat constructor.
    + reflexivity.
    + reflexivity.
    + intros e He. assert (e = 0) as -> by (vm_compute in He; lia).
      vm_compute. lia.
    + vm_compute. lia.
    + vm_compute. lia.
    + exists 0. split; [vm_compute; lia|]. split; [reflexivity|exact I].
  - apply (posteriors_sum_to_one no_path true _ [Fin (10 ^ 32)%R] [fzero] 0 0
             no_path_sweeps no_path_run_capped).
    + repeat constructor.
    + repeat constructor.
    + reflexivity.
    + reflexivity.
    + intros e He. assert (e = 0) as -> by (vm_compute in He; lia).
      vm_compute. lia.
    + vm_compute. lia.
    + vm_compute. lia.
    + intros e He _. assert (e = 0) as -> by (vm_compute in He; lia).
      intros [].
Defined.

(** ** Running a sequence of steps, one result at a time *)

Lemma bind_eq_Ok {A B} (m : outcome A) (v : A) (f : A -> outcome B)
    (r : outcome B) :
  m = Ok v -> f v = r -> m ≫= f = r.
Proof. by intros -> <-. Qed.

Lemma bind_eq_Fault {A B} (m : outcome A) (f : A -> outcome B) :
  m = Fault -> m ≫= f = Fault.
Proof. by intros ->. Qed.

Lemma bind_eq_AssertFail {A B} (m : outcome A) (f : A -> outcome B) :
  m = AssertFail -> m ≫= f = AssertFail.
Proof. by intros ->. Qed.

(** As [run], with the result of each step passed on by the lemmas above,
    so that no step is compared with the steps after it. *)
Ltac exec :=
  lazymatch goal with
  | |- Ok _ = _ => eval_atom
  | |- Fault = _ => reflexivity
  | |- AssertFail = _ => reflexivity
  | |- (?m ≫= ?f) = _ =>
      let H := fresh "Hrun" in
      eassert (m = _) as H by exec;
      lazymatch type of H with
      | _ = Ok ?v =>
          refine (bind_eq_Ok m v f _ H _); clear H; cbv beta iota; exec
      | _ = Fault => exact (bind_eq_Fault m f H)
      | _ = AssertFail => exact (bind_eq_AssertFail m f H)
      end
  | |- launch _ _ _ _ = _ => eval_atom
  | |- assert _ = _ => eval_atom
  | |- read _ _ = _ => eval_atom
  | |- write _ _ _ = _ => eval_atom
  | |- float_to_unsigned _ = _ => eval_atom
  | |- for_each [] _ _ = _ => eval_atom
  | |- for_each (_ :: _) _ _ = _ => rewrite for_each_cons; exec
  | |- for_each ?l _ _ = _ =>
      let l' := eval lazy in l in
      change l with l'; exec
  | |- (if ?c then _ else _) = _ =>
      let c' := eval lazy -[prob_add feq float_to_unsigned IZR] in c in
      first [ progress (change c with c'; cbv iota)
            | progress (autorewrite with fl; cbv iota) ];
      exec
  | |- ?x = _ =>
      let h := head_of x in first [unfold h; exec | eval_atom]
  end.

(** ** [SegmentFastBaumWelchOp] *)

Module Segmental.
Import SegmentFastBaumWelchOp.

(** C4 fails on [one_edge_segmental].  With segments of one frame the
    index mask has one row, and the backward initialisation reads the row
    after it: the run of the segmental engine has no result, where the base
    engine returns the posterior 0 on [one_edge]. *)
Lemma one_frame_segments_fault :
  c_fw_code one_edge_segmental false = Fault /\
  FastBaumWelchOp.c_fw_code one_edge false = Ok ([fzero], [fzero]).
Proof. split; [exec|exact one_edge_run]. Qed.

(** C7, as the code has it.  For an edge whose (time, sequence) pair has
    the batch index -1, the threads of [next_frame_fwd] and
    [next_frame_bwd] leave the state buffer and the edge buffer as they
    are; the thread of [compute_targets] leaves the output as it is for
    every negative batch index. *)
Theorem none_batch_index_skips
    (time num_states num_edges num_emissions num_seg_frames num_tot_frames
       num_seqs num_am_score_scales : nat)
    (sequence_idxs from_buffer to_buffer : list nat) (weight_buffer : list float)
    (emission_idxs lenmod_idxs : list nat) (batch_idxs : list Z)
    (am_scores length_models am_score_scales epoch : list float)
    (edge_off idx sq : nat) :
  sequence_idxs !! idx = Some sq ->
  (forall state_buffer edge_buffer from prev_val,
     batch_idxs !! (time * num_seqs + sq) = Some (-1)%Z ->
     from_buffer !! idx = Some from ->
     state_buffer !! (time mod (num_seg_frames + 1) * num_states + from)
     = Some prev_val ->
     next_frame_fwd time num_states num_edges num_emissions num_seg_frames
       num_tot_frames num_seqs num_am_score_scales sequence_idxs from_buffer
       to_buffer weight_buffer emission_idxs lenmod_idxs batch_idxs am_scores
       length_models am_score_scales epoch edge_off idx
       (state_buffer, edge_buffer)
     = Ok (state_buffer, edge_buffer)) /\
  (forall state_buffer edge_buffer,
     batch_idxs !! (time * num_seqs + sq) = Some (-1)%Z ->
     next_frame_bwd time num_states num_edges num_emissions num_seg_frames
       num_tot_frames num_seqs num_am_score_scales sequence_idxs from_buffer
       to_buffer weight_buffer emission_idxs lenmod_idxs batch_idxs am_scores
       length_models am_score_scales epoch edge_off idx
       (state_buffer, edge_buffer)
     = Ok (state_buffer, edge_buffer)) /\
  (forall num_batches index edge_buffer normalization_buffer output_buffer
      thread batch_idx,
     thread mod num_edges = idx ->
     batch_idxs !! (thread / (num_edges * num_seg_frames) * num_seqs + sq)
     = Some batch_idx ->
     (batch_idx < 0)%Z ->
     compute_targets num_tot_frames num_seg_frames num_edges num_batches
       num_seqs num_emissions sequence_idxs emission_idxs batch_idxs index
       edge_buffer normalization_buffer thread output_buffer
     = Ok output_buffer).
Proof.
  intros Hsq. split_and!.
  - intros sb eb from p Hb Hfrom Hp. unfold next_frame_fwd.
    destruct (decide (num_edges <= idx)); [reflexivity|].
    rewrite (read_lookup _ _ _ Hfrom). cbn [mbind outcome_bind].
    rewrite (read_lookup _ _ _ Hp). cbn [mbind outcome_bind].
    destruct (isinf p); [reflexivity|].
    rewrite (read_lookup _ _ _ Hsq). cbn [mbind outcome_bind].
    rewrite (read_lookup _ _ _ Hb). cbn [mbind outcome_bind].
    destruct (decide (-1 = -1)%Z); [reflexivity|congruence].
  - intros sb eb Hb. unfold next_frame_bwd.
    destruct (decide (num_edges <= idx)); [reflexivity|].
    rewrite (read_lookup _ _ _ Hsq). cbn [mbind outcome_bind].
    rewrite (read_lookup _ _ _ Hb). cbn [mbind outcome_bind].
    destruct (decide (-1 = -1)%Z); [reflexivity|congruence].
  - intros nb index eb norm out thread b Hidx Hb Hneg. unfold compute_targets.
    destruct (decide (_ <= thread)); [reflexivity|].
    rewrite Hidx, (read_lookup _ _ _ Hsq). cbn [mbind outcome_bind].
    rewrite (read_lookup _ _ _ Hb). cbn [mbind outcome_bind].
    destruct (decide (b < 0)%Z); [reflexivity|lia].
Qed.

(** C7 on an edge of the sequence 0 at the time 0, with the index -1. *)
Lemma none_batch_index_skips_witness :
  next_frame_fwd 0 1 1 1 1 1 1 1 [0] [0] [0] [fzero] [0] [0] [(-1)%Z]
    [fzero] [fzero] [fone] [fzero] 0 0 ([fzero; PInf], [PInf])
  = Ok ([fzero; PInf], [PInf]) /\
  next_frame_bwd 0 1 1 1 1 1 1 1 [0] [0] [0] [fzero] [0] [0] [(-1)%Z]
    [fzero] [fzero] [fone] [fzero] 0 0 ([PInf; fzero], [fzero])
  = Ok ([PInf; fzero], [fzero]) /\
  compute_targets 1 1 1 1 1 1 [0] [0] [(-1)%Z] [fone] [fzero] [fzero] 0 [PInf]
  = Ok [PInf].
Proof.
  destruct (none_batch_index_skips 0 1 1 1 1 1 1 1 [0] [0] [0] [fzero] [0] [0]
              [(-1)%Z] [fzero] [fzero] [fone] [fzero] 0 0 0 eq_refl)
    as (Hf & Hb & Ht).
  split_and!.
  - by apply (Hf _ _ 0 fzero).
  - by apply Hb.
  - apply (Ht 1 [fone] [fzero] [fzero] [PInf] 0 (-1)%Z); [reflexivity..|lia].
Defined.


Lemma posterior_weights_thread_cells
    (num_tot_frames num_seg_frames num_seqs num_batches : nat)
    (state_buffer : list float) (start_states : list nat) (batch_idxs : list Z)
    (index normalization_factors : list float)
    (idx : nat) (pw pw' : list float) (b : Z) :
  idx < num_tot_frames * num_seqs ->
  batch_idxs !! (idx / num_seqs * num_seqs + idx mod num_seqs) = Some b ->
  compute_posterior_weights num_tot_frames num_seg_frames num_seqs num_batches
    state_buffer start_states batch_idxs index normalization_factors idx pw
  = Ok pw' ->
  ((b < 0)%Z -> pw' = pw) /\
  ((0 <= b)%Z -> 0 < num_batches ->
   (forall s, s < num_seg_frames -> live_lengths index num_batches b s ->
      pw' !! slot_cell num_batches b s
      = Some (fexp (fneg (fsub (normalization_factors !!! slot_cell num_batches b s)
                            (state_buffer !!! (start_states !!! (idx mod num_seqs))))))) /\
   (forall j,
      (forall s, s < num_seg_frames -> live_lengths index num_batches b s ->
         j <> slot_cell num_batches b s) ->
      pw' !! j = pw !! j)).
Proof.
  intros Hidx Hb Hrun. unfold compute_posterior_weights in Hrun.
  destruct (decide (_ <= idx)); [lia|].
  rewrite (read_lookup _ _ _ Hb) in Hrun. cbn [mbind outcome_bind] in Hrun.
  destruct (decide (b < 0)%Z) as [Hneg|Hpos].
  { injection Hrun as <-. split; [reflexivity|lia]. }
  split; [lia|]. intros _ Hnb.
  apply bind_Ok in Hrun as (start & Hstart & Hrun).
  apply bind_Ok in Hrun as (seq_sum & Hsum & Hrun).
  apply bind_Ok in Hrun as ([pw1 ret] & Hloop & Hrun). injection Hrun as <-.
  apply read_Ok in Hstart, Hsum.
  rewrite (list_lookup_total_correct _ _ _ Hstart),
    (list_lookup_total_correct _ _ _ Hsum).
  set (cell := slot_cell num_batches b).
  set (val := fun s => fexp (fneg (fsub (normalization_factors !!! cell s) seq_sum))).
  apply (for_each_seq_inv (fun k (st : list float * bool) =>
    length st.1 = length pw /\
    (st.2 = false -> forall s', s' < k -> feq (index !!! cell s') fzero = false) /\
    (st.2 = true -> exists s', s' < k /\ feq (index !!! cell s') fzero = true) /\
    (forall s, s < k -> live_lengths index num_batches b s ->
       st.1 !! cell s = Some (val s)) /\
    (forall j, (forall s, s < k -> live_lengths index num_batches b s ->
                  j <> cell s) -> st.1 !! j = pw !! j))) in Hloop.
  - cbn [fst snd] in Hloop. destruct Hloop as (_ & _ & _ & Hin & Hout). auto.
  - cbn [fst snd]. split_and!; try reflexivity; try discriminate; intros; lia.
  - intros k [p r] [p' r'] Hk (Hlen & Hlive & Hdead & Hin & Hout) Hstep.
    cbn [fst snd] in *. destruct r.
    + injection Hstep as <- <-. split_and!; try assumption; try discriminate.
      * intros _. destruct (Hdead eq_refl) as (s' & Hs' & Hz). exists s'.
        split; [lia|assumption].
      * intros s Hs Hl. destruct (decide (s = k)) as [->|]; [|apply Hin; [lia|done]].
        destruct (Hdead eq_refl) as (s' & Hs' & Hz).
        specialize (Hl s' ltac:(lia)). unfold cell in Hz. congruence.
      * intros j Hj. apply Hout. intros s Hs. apply Hj. lia.
    + apply bind_Ok in Hstep as (m & Hm & Hstep). apply read_Ok in Hm.
      fold (slot_cell num_batches b k) in Hm. fold cell in Hm.
      destruct (feq m fzero) eqn:Hz.
      * injection Hstep as <- <-.
        split_and!; try assumption; try discriminate.
        -- intros _. exists k. split; [lia|].
           by rewrite (list_lookup_total_correct _ _ _ Hm).
        -- intros s Hs Hl. destruct (decide (s = k)) as [->|]; [|apply Hin; [lia|done]].
           specialize (Hl k ltac:(lia)). fold cell in Hl.
           rewrite (list_lookup_total_correct _ _ _ Hm) in Hl. congruence.
        -- intros j Hj. apply Hout. intros s Hs. apply Hj. lia.
      * inv_ok. subst p' r'.
        match goal with H : ?x = <[_:=_]> _ |- _ => subst x end.
        match goal with H : normalization_factors !! _ = Some ?x |- _ =>
          fold (slot_cell num_batches b k) in H; fold cell in H;
          rename H into Hnf, x into nf end.
        match goal with H : _ < length p |- _ =>
          fold (slot_cell num_batches b k) in H; fold cell in H;
          rename H into Hlt end.
        fold (slot_cell num_batches b k). fold cell.
        assert (Hk_live1 : feq (index !!! cell k) fzero = false)
          by (by rewrite (list_lookup_total_correct _ _ _ Hm)).
        assert (Hk_live : live_lengths index num_batches b k).
        { intros s' Hs'. destruct (decide (s' = k)) as [->|]; [assumption|].
          apply (Hlive eq_refl). lia. }
        assert (Hinj : forall s, s <> k -> cell s <> cell k)
          by (intros s Hs; subst cell; unfold slot_cell; nia).
        rewrite length_insert. split_and!; try assumption; try discriminate.
        -- intros _ s' Hs'. destruct (decide (s' = k)) as [->|]; [assumption|].
           apply (Hlive eq_refl). lia.
        -- intros s Hs Hl. destruct (decide (s = k)) as [->|Hne].
           ++ rewrite list_lookup_insert_eq by assumption. subst val. cbn beta.
              by rewrite (list_lookup_total_correct _ _ _ Hnf).
           ++ rewrite list_lookup_insert_ne by (apply not_eq_sym, Hinj, Hne).
              apply Hin; [lia|assumption].
        -- intros j Hj.
           rewrite list_lookup_insert_ne
             by (apply not_eq_sym, Hj; [lia|assumption]).
           apply Hout. intros s Hs. apply Hj. lia.
Qed.

(** C9, as the code has it.  The thread of [compute_posterior_weights] for
    a (time, sequence) pair with the batch slot [b] stores
    [exp(-(normalization_factors - seq_sum))], where [seq_sum] is the state
    buffer at the start state of the sequence, in the cell of every segment
    length whose mask and the masks of all shorter lengths of the slot are
    not 0, and leaves every other cell as it is; for a negative batch index
    it changes nothing. *)
Theorem posterior_weights_thread
    (num_tot_frames num_seg_frames num_seqs num_batches : nat)
    (state_buffer : list float) (start_states : list nat) (batch_idxs : list Z)
    (index normalization_factors : list float)
    (idx : nat) (pw pw' : list float) (b : Z) :
  idx < num_tot_frames * num_seqs ->
  batch_idxs !! (idx / num_seqs * num_seqs + idx mod num_seqs) = Some b ->
  compute_posterior_weights num_tot_frames num_seg_frames num_seqs num_batches
    state_buffer start_states batch_idxs index normalization_factors idx pw
  = Ok pw' ->
  ((b < 0)%Z -> pw' = pw) /\
  ((0 <= b)%Z -> 0 < num_batches ->
   (forall s, s < num_seg_frames -> live_lengths index num_batches b s ->
      pw' !! slot_cell num_batches b s
      = Some (fexp (fneg (fsub (normalization_factors !!! slot_cell num_batches b s)
                            (state_buffer !!! (start_states !!! (idx mod num_seqs))))))) /\
   (forall j,
      (forall s, s < num_seg_frames -> live_lengths index num_batches b s ->
         j <> slot_cell num_batches b s) ->
      pw' !! j = pw !! j)).
Proof.
  exact (posterior_weights_thread_cells num_tot_frames num_seg_frames num_seqs
           num_batches state_buffer start_states batch_idxs index
           normalization_factors idx pw pw' b).
Qed.

(** C9 on a slot with two valid segment lengths. *)
Lemma posterior_weights_thread_witness :
  [fexp (fneg (fsub fzero fzero)); fexp (fneg (fsub fzero fzero))]
    !! slot_cell 1 0 1
  = Some (fexp (fneg (fsub ([fzero; fzero] !!! slot_cell 1 0 1)
                        ([fzero] !!! ([0] !!! (0 mod 1)))))).
Proof.
  assert (Hrun :
    compute_posterior_weights 1 2 1 1 [fzero] [0] [0%Z] [fone; fone]
      [fzero; fzero] 0 [fzero; fzero]
    = Ok [fexp (fneg (fsub fzero fzero)); fexp (fneg (fsub fzero fzero))])
    by exec.
  destruct (posterior_weights_thread 1 2 1 1 [fzero] [0] [0%Z] [fone; fone]
              [fzero; fzero] 0 [fzero; fzero] _ 0%Z
              ltac:(cbn; lia) eq_refl Hrun) as [_ H].
  destruct (H ltac:(lia) ltac:(lia)) as [Hin _].
  apply Hin; [lia|].
  intros s' Hs'. assert (s' = 0 \/ s' = 1) as [-> | ->] by lia;
    exact feq_1_0.
Defined.


End Segmental.

(** ** [SegmentFastBaumWelchOp]: the launches of the kernels *)

(** Rounds that leave the state as it is can be left out of a loop. *)
Lemma for_each_filter_skip {St} (body : nat -> St -> outcome St)
    (dead : nat -> bool) (l : list nat) (st : St) :
  (forall i s, dead i = true -> body i s = Ok s) ->
  for_each (filter (fun i => dead i = false) l) body st = for_each l body st.
Proof.
  intros Hdead. revert st. induction l as [|i l IH]; intros st; [reflexivity|].
  destruct (dead i) eqn:Hi.
  - rewrite filter_cons_False by (rewrite Hi; discriminate).
    rewrite for_each_cons, (Hdead i st Hi). cbn [mbind outcome_bind]. apply IH.
  - rewrite filter_cons_True by assumption.
    rewrite !for_each_cons. destruct (body i st); cbn [mbind outcome_bind]; auto.
Qed.

Lemma for_each_filter_skip_Ok {St} (body : nat -> St -> outcome St)
    (dead : nat -> bool) (l : list nat) (st st' : St) :
  (forall i s s', dead i = true -> body i s = Ok s' -> s' = s) ->
  for_each l body st = Ok st' ->
  for_each (filter (fun i => dead i = false) l) body st = Ok st'.
Proof.
  intros Hdead. revert st. induction l as [|i l IH]; intros st H; [exact H|].
  rewrite for_each_cons in H. apply bind_Ok in H as (s1 & Hi & H).
  destruct (dead i) eqn:Hd.
  - rewrite filter_cons_False by (rewrite Hd; discriminate).
    rewrite (Hdead i st s1 Hd Hi) in H. by apply IH.
  - rewrite filter_cons_True by assumption.
    rewrite for_each_cons, Hi. cbn [mbind outcome_bind]. by apply IH.
Qed.

Lemma none_pair_true (sequence_idxs : list nat) (batch_idxs : list Z)
    (num_seqs time idx : nat) :
  none_pair sequence_idxs batch_idxs num_seqs time idx = true ->
  exists sq, sequence_idxs !! idx = Some sq /\
             batch_idxs !! (time * num_seqs + sq) = Some (-1)%Z.
Proof.
  unfold none_pair. destruct (sequence_idxs !! idx) as [sq|]; [|discriminate].
  intros H. apply bool_decide_eq_true in H. eauto.
Qed.

Lemma negative_pair_true (sequence_idxs : list nat) (batch_idxs : list Z)
    (num_seqs time idx : nat) :
  negative_pair sequence_idxs batch_idxs num_seqs time idx = true ->
  exists sq b, sequence_idxs !! idx = Some sq /\
               batch_idxs !! (time * num_seqs + sq) = Some b /\ (b < 0)%Z.
Proof.
  unfold negative_pair. destruct (sequence_idxs !! idx) as [sq|]; [|discriminate].
  destruct (batch_idxs !! _) as [b|] eqn:Hb; [|discriminate].
  intros H. apply bool_decide_eq_true in H. by exists sq, b.
Qed.

Module SegmentalLaunches.
Import SegmentFastBaumWelchOp.

Section NonePairs.
Variables (time num_states num_edges num_emissions num_seg_frames
  num_tot_frames num_seqs num_am_score_scales : nat).
Variables (sequence_idxs from_buffer to_buffer : list nat).
Variable weight_buffer : list float.
Variables (emission_idxs lenmod_idxs : list nat) (batch_idxs : list Z).
Variables (am_scores length_models am_score_scales epoch : list float).
Variable edge_off : nat.

Lemma next_frame_fwd_none (idx : nat) (st st' : list float * list float) :
  none_pair sequence_idxs batch_idxs num_seqs time idx = true ->
  next_frame_fwd time num_states num_edges num_emissions num_seg_frames
    num_tot_frames num_seqs num_am_score_scales sequence_idxs from_buffer
    to_buffer weight_buffer emission_idxs lenmod_idxs batch_idxs am_scores
    length_models am_score_scales epoch edge_off idx st = Ok st' ->
  st' = st.
Proof.
  intros Hn H. apply none_pair_true in Hn as (sq & Hsq & Hb).
  unfold next_frame_fwd in H. destruct st as [sb eb].
  destruct (decide (num_edges <= idx)); [by injection H|].
  apply bind_Ok in H as (from & _ & H). apply bind_Ok in H as (p & _ & H).
  destruct (isinf p); [by injection H|].
  rewrite (read_lookup _ _ _ Hsq) in H. cbn [mbind outcome_bind] in H.
  rewrite (read_lookup _ _ _ Hb) in H. cbn [mbind outcome_bind] in H.
  destruct (decide (-1 = -1)%Z); [by injection H|congruence].
Qed.

Lemma next_frame_bwd_none (idx : nat) (st : list float * list float) :
  none_pair sequence_idxs batch_idxs num_seqs time idx = true ->
  next_frame_bwd time num_states num_edges num_emissions num_seg_frames
    num_tot_frames num_seqs num_am_score_scales sequence_idxs from_buffer
    to_buffer weight_buffer emission_idxs lenmod_idxs batch_idxs am_scores
    length_models am_score_scales epoch edge_off idx st = Ok st.
Proof.
  intros Hn. apply none_pair_true in Hn as (sq & Hsq & Hb).
  unfold next_frame_bwd. destruct st as [sb eb].
  destruct (decide (num_edges <= idx)); [reflexivity|].
  rewrite (read_lookup _ _ _ Hsq). cbn [mbind outcome_bind].
  rewrite (read_lookup _ _ _ Hb). cbn [mbind outcome_bind].
  destruct (decide (-1 = -1)%Z); [reflexivity|congruence].
Qed.

Lemma compute_targets_negative (num_batches : nat)
    (index edge_buffer normalization_buffer : list float)
    (thread : nat) (out : list float) :
  negative_pair sequence_idxs batch_idxs num_seqs
    (thread / (num_edges * num_seg_frames)) (thread mod num_edges) = true ->
  compute_targets num_tot_frames num_seg_frames num_edges num_batches
    num_seqs num_emissions sequence_idxs emission_idxs batch_idxs index
    edge_buffer normalization_buffer thread out = Ok out.
Proof.
  intros Hn. apply negative_pair_true in Hn as (sq & b & Hsq & Hb & Hneg).
  unfold compute_targets. destruct (decide (_ <= thread)); [reflexivity|].
  rewrite (read_lookup _ _ _ Hsq). cbn [mbind outcome_bind].
  rewrite (read_lookup _ _ _ Hb). cbn [mbind outcome_bind].
  destruct (decide (b < 0)%Z); [reflexivity|lia].
Qed.

(** The threads of the edges whose (time, sequence) pair has the batch
    index -1 do no work in the two sweeps: a launch of [next_frame_fwd]
    that returns, over any list of thread indices, returns the same state
    buffer and edge buffer without these threads, and a launch of
    [next_frame_bwd] has the same outcome without them.  No thread of
    [compute_targets] for a pair with a negative batch index works either:
    a launch has the same outcome, and so the same output, without these
    threads. *)
Theorem none_pairs_do_no_work (threads : list nat) :
  (forall st st',
     for_each threads
       (next_frame_fwd time num_states num_edges num_emissions num_seg_frames
          num_tot_frames num_seqs num_am_score_scales sequence_idxs from_buffer
          to_buffer weight_buffer emission_idxs lenmod_idxs batch_idxs am_scores
          length_models am_score_scales epoch edge_off) st = Ok st' ->
     for_each
       (filter (fun idx =>
                  none_pair sequence_idxs batch_idxs num_seqs time idx = false)
          threads)
       (next_frame_fwd time num_states num_edges num_emissions num_seg_frames
          num_tot_frames num_seqs num_am_score_scales sequence_idxs from_buffer
          to_buffer weight_buffer emission_idxs lenmod_idxs batch_idxs am_scores
          length_models am_score_scales epoch edge_off) st = Ok st') /\
  (forall st,
     for_each
       (filter (fun idx =>
                  none_pair sequence_idxs batch_idxs num_seqs time idx = false)
          threads)
       (next_frame_bwd time num_states num_edges num_emissions num_seg_frames
          num_tot_frames num_seqs num_am_score_scales sequence_idxs from_buffer
          to_buffer weight_buffer emission_idxs lenmod_idxs batch_idxs am_scores
          length_models am_score_scales epoch edge_off) st
     = for_each threads
         (next_frame_bwd time num_states num_edges num_emissions num_seg_frames
            num_tot_frames num_seqs num_am_score_scales sequence_idxs from_buffer
            to_buffer weight_buffer emission_idxs lenmod_idxs batch_idxs am_scores
            length_models am_score_scales epoch edge_off) st) /\
  (forall num_batches index edge_buffer normalization_buffer out,
     for_each
       (filter (fun thread =>
                  negative_pair sequence_idxs batch_idxs num_seqs
                    (thread / (num_edges * num_seg_frames))
                    (thread mod num_edges) = false)
          threads)
       (compute_targets num_tot_frames num_seg_frames num_edges num_batches
          num_seqs num_emissions sequence_idxs emission_idxs batch_idxs index
          edge_buffer normalization_buffer) out
     = for_each threads
         (compute_targets num_tot_frames num_seg_frames num_edges num_batches
            num_seqs num_emissions sequence_idxs emission_idxs batch_idxs index
            edge_buffer normalization_buffer) out).
Proof.
  split_and!.
  - intros st st'. apply for_each_filter_skip_Ok.
    intros i s s'. apply next_frame_fwd_none.
  - intros st. apply for_each_filter_skip.
    intros i s. apply next_frame_bwd_none.
  - intros nb index eb norm out.
    apply (for_each_filter_skip _ (fun thread =>
      negative_pair sequence_idxs batch_idxs num_seqs
        (thread / (num_edges * num_seg_frames)) (thread mod num_edges))).
    intros i s. apply compute_targets_negative.
Qed.

End NonePairs.

(** Two edges at the time 0: the edge 0 of the sequence 0, which has the
    batch index -1, and the edge 1 of the sequence 1, in the slot 0. *)
Lemma none_pairs_do_no_work_witness :
  for_each [1]
    (next_frame_fwd 0 2 2 1 1 1 2 1 [0; 1] [0; 0] [1; 1] [fzero; fzero]
       [0; 0] [0; 0] [(-1)%Z; 0%Z] [fzero] [fzero] [fone] [fzero] 0)
    ([fzero; PInf; PInf; PInf], [PInf; PInf])
  = Ok ([fzero; PInf; PInf; Fin (0 + 0 + 1 * 0 + 0)],
        [PInf; Fin (0 + 0 + 1 * 0 + 0)]).
Proof.
  apply (proj1 (none_pairs_do_no_work 0 2 2 1 1 1 2 1 [0; 1] [0; 0] [1; 1]
                  [fzero; fzero] [0; 0] [0; 0] [(-1)%Z; 0%Z] [fzero] [fzero]
                  [fone] [fzero] 0 [0; 1])).
  exec.
Defined.

Section PosteriorWeights.
Variables (num_tot_frames num_seg_frames num_seqs num_batches : nat).
Variables (state_buffer : list float) (start_states : list nat).
Variables (batch_idxs : list Z) (index normalization_factors : list float).

Lemma slot_cell_inj (b b' : Z) (s s' : nat) :
  (0 <= b < Z.of_nat num_batches)%Z -> (0 <= b' < Z.of_nat num_batches)%Z ->
  slot_cell num_batches b s = slot_cell num_batches b' s' -> b = b'.
Proof.
  unfold slot_cell. intros Hb Hb' H.
  assert (Z.to_nat b = Z.to_nat b'); [|lia].
  assert (E : (s * num_batches + Z.to_nat b) mod num_batches
              = (s' * num_batches + Z.to_nat b') mod num_batches) by by rewrite H.
  rewrite (Nat.add_comm (s * num_batches)), (Nat.add_comm (s' * num_batches)),
    !Nat.Div0.mod_add in E.
  rewrite !Nat.mod_small in E by lia. exact E.
Qed.

(** The cells after a launch of [compute_posterior_weights] that returns,
    when every batch slot is below [num_batches] and no two (time,
    sequence) pairs have the same slot.  For the slot [b] of a pair and a
    segment length [s] such that the index mask of the slot is not 0 at [s]
    and at all shorter lengths, the cell holds
    [exp(-(normalization_factors - seq_sum))], where [seq_sum] is the state
    buffer at the start state of the sequence of the pair.  Every other
    cell is as before the launch: the cells of a zero mask, and also the
    cells of the lengths after the first zero mask of a slot, where the
    thread has returned. *)
Theorem posterior_weights_cells (blocks threads : nat) (pw pw' : list float) :
  num_tot_frames * num_seqs <= blocks * threads ->
  launch blocks threads
    (compute_posterior_weights num_tot_frames num_seg_frames num_seqs
       num_batches state_buffer start_states batch_idxs index
       normalization_factors) pw = Ok pw' ->
  (forall idx b, idx < num_tot_frames * num_seqs ->
     batch_idxs !! idx = Some b -> (0 <= b)%Z -> (b < Z.of_nat num_batches)%Z) ->
  (forall idx idx' b, idx < num_tot_frames * num_seqs ->
     idx' < num_tot_frames * num_seqs ->
     batch_idxs !! idx = Some b -> batch_idxs !! idx' = Some b -> (0 <= b)%Z ->
     idx = idx') ->
  (forall idx b s, idx < num_tot_frames * num_seqs ->
     batch_idxs !! idx = Some b -> (0 <= b)%Z ->
     s < num_seg_frames -> live_lengths index num_batches b s ->
     pw' !! slot_cell num_batches b s
     = Some (fexp (fneg (fsub (normalization_factors !!! slot_cell num_batches b s)
                           (state_buffer !!! (start_states !!! (idx mod num_seqs))))))) /\
  (forall j,
     (forall idx b s, idx < num_tot_frames * num_seqs ->
        batch_idxs !! idx = Some b -> (0 <= b)%Z ->
        s < num_seg_frames -> live_lengths index num_batches b s ->
        j <> slot_cell num_batches b s) ->
     pw' !! j = pw !! j).
Proof.
  intros Hgrid Hrun Hrange Hinj.
  rewrite (launch_guard (num_tot_frames * num_seqs)) in Hrun;
    [|assumption
     |intros i s Hi; unfold compute_posterior_weights;
      destruct (decide (_ <= i)); [reflexivity|lia]].
  set (N := num_tot_frames * num_seqs) in *.
  set (val := fun idx b s =>
    fexp (fneg (fsub (normalization_factors !!! slot_cell num_batches b s)
                  (state_buffer !!! (start_states !!! (idx mod num_seqs)))))).
  pose (P := fun k (st : list float) =>
    (forall idx b s, idx < k -> idx < N ->
       batch_idxs !! idx = Some b -> (0 <= b)%Z ->
       s < num_seg_frames -> live_lengths index num_batches b s ->
       st !! slot_cell num_batches b s = Some (val idx b s)) /\
    (forall j,
       (forall idx b s, idx < k -> idx < N ->
          batch_idxs !! idx = Some b -> (0 <= b)%Z ->
          s < num_seg_frames -> live_lengths index num_batches b s ->
          j <> slot_cell num_batches b s) ->
       st !! j = pw !! j)).
  assert (HP : P N pw').
  2:{ destruct HP as [Hin Hout]. split.
      - intros idx b s Hidx. by apply Hin.
      - intros j Hj. apply Hout. intros idx b s _. by apply Hj. }
  apply (for_each_seq_inv P _ _ _ _ Hrun).
  - split; [intros; lia|reflexivity].
  - intros k st st1 Hk [Hin Hout] Hstep.
    assert (Hseqs : 0 < num_seqs) by (subst N; nia).
    assert (Hkk : k / num_seqs * num_seqs + k mod num_seqs = k).
    { pose proof (Nat.div_mod_eq k num_seqs). lia. }
    (* the batch index of the thread *)
    assert (Hread : exists bk, batch_idxs !! k = Some bk).
    { unfold compute_posterior_weights in Hstep.
      destruct (decide (_ <= k)); [fold N in l; lia|].
      rewrite Hkk in Hstep.
      destruct (batch_idxs !! k) as [bk|] eqn:E; [eauto|].
      unfold read in Hstep. by rewrite E in Hstep. }
    destruct Hread as [bk Hbk].
    destruct (Segmental.posterior_weights_thread_cells num_tot_frames num_seg_frames
                num_seqs num_batches state_buffer start_states batch_idxs index
                normalization_factors k st st1 bk Hk
                ltac:(by rewrite Hkk) Hstep) as [Hneg Hpos].
    destruct (decide (bk < 0)%Z) as [Hn|Hn].
    { rewrite (Hneg Hn). split.
      - intros idx b s Hidx HidxN Hb Hb0 Hs Hl.
        destruct (decide (idx = k)) as [->|]; [|apply Hin; auto; lia].
        rewrite Hbk in Hb. injection Hb as ->. lia.
      - intros j Hj. apply Hout. intros idx b s Hidx. apply Hj. lia. }
    assert (Hbk0 : (0 <= bk)%Z) by lia.
    pose proof (Hrange k bk Hk Hbk Hbk0) as Hbkn.
    destruct (Hpos Hbk0 ltac:(lia)) as [Hset Hkeep]. split.
    + intros idx b s Hidx HidxN Hb Hb0 Hs Hl.
      destruct (decide (idx = k)) as [->|Hne].
      * rewrite Hbk in Hb. injection Hb as <-. by apply Hset.
      * rewrite Hkeep; [apply Hin; auto; lia|].
        intros s' Hs' Hl' Heq.
        pose proof (Hrange idx b HidxN Hb Hb0).
        apply slot_cell_inj in Heq; [|lia..]. subst b.
        apply Hne. exact (Hinj idx k bk HidxN Hk Hb Hbk Hbk0).
    + intros j Hj. rewrite Hkeep.
      * apply Hout. intros idx b s Hidx. apply Hj. lia.
      * intros s Hs Hl. apply (Hj k bk s); [lia|done..].
Qed.

End PosteriorWeights.

(** The launch for one pair, whose slot has two valid lengths. *)
Lemma posterior_weights_cells_witness :
  [fexp (fneg (fsub fzero fzero)); fexp (fneg (fsub fzero fzero))]
    !! slot_cell 1 0 1
  = Some (fexp (fneg (fsub ([fzero; fzero] !!! slot_cell 1 0 1)
                        ([fzero] !!! ([0] !!! (0 mod 1)))))).
Proof.
  assert (Hrun :
    launch 1 1
      (compute_posterior_weights 1 2 1 1 [fzero] [0] [0%Z] [fone; fone]
         [fzero; fzero]) [fzero; fzero]
    = Ok [fexp (fneg (fsub fzero fzero)); fexp (fneg (fsub fzero fzero))])
    by exec.
  refine (proj1 (posterior_weights_cells 1 2 1 1 [fzero] [0] [0%Z] [fone; fone]
                   [fzero; fzero] 1 1 [fzero; fzero] _ _ Hrun _ _) 0 0%Z 1 _ _ _ _ _).
  - cbn. lia.
  - intros idx b Hidx Hb _. assert (idx = 0) as -> by (cbn in Hidx; lia).
    injection Hb as <-. cbn. lia.
  - intros idx idx' b Hidx Hidx' _ _ _. cbn in Hidx, Hidx'. lia.
  - cbn. lia.
  - reflexivity.
  - lia.
  - lia.
  - intros s' Hs'. assert (s' = 0 \/ s' = 1) as [-> | ->] by lia;
      exact feq_1_0.
Defined.

End SegmentalLaunches.

(** ** The checks of the configuration *)

Lemma bind_no_abort {A B} (m : outcome A) (f : A -> outcome B) :
  m <> AssertFail -> (forall x, f x <> AssertFail) -> m ≫= f <> AssertFail.
Proof. destruct m; cbn; auto. Qed.

Lemma read_no_abort {A} (arr : list A) (i : nat) : read arr i <> AssertFail.
Proof. unfold read. by destruct (arr !! i). Qed.

Lemma write_no_abort {A} (arr : list A) (i : nat) (v : A) :
  write arr i v <> AssertFail.
Proof. unfold write. by destruct (decide _). Qed.

Lemma read_at_no_abort {A} (arr : list A) (z : Z) : read_at arr z <> AssertFail.
Proof. unfold read_at. destruct (decide _); [apply read_no_abort|done]. Qed.

Lemma float_to_unsigned_no_abort (x : float) : float_to_unsigned x <> AssertFail.
Proof.
  unfold float_to_unsigned. destruct x; try done.
  destruct (Rlt_dec _ _); [|done]. by destruct (Rlt_dec _ _).
Qed.

Lemma for_each_no_abort {St} (l : list nat) (body : nat -> St -> outcome St)
    (st : St) :
  (forall i s, body i s <> AssertFail) -> for_each l body st <> AssertFail.
Proof.
  intros H. revert st. induction l as [|i l IH]; intros st; [done|].
  rewrite for_each_cons. apply bind_no_abort; auto.
Qed.

Lemma launch_no_abort {St} (blocks threads : nat)
    (thread : nat -> St -> outcome St) (st : St) :
  (forall i s, thread i s <> AssertFail) ->
  launch blocks threads thread st <> AssertFail.
Proof. apply for_each_no_abort. Qed.

Lemma at_offset_no_abort {A} (off : nat) (k : list A -> outcome (list A))
    (a : list A) :
  (forall l, k l <> AssertFail) -> at_offset off k a <> AssertFail.
Proof. intros H. unfold at_offset. apply bind_no_abort; [apply H|done]. Qed.

(** No kernel and no loop of kernels ends on a failed assertion. *)
Ltac no_abort :=
  repeat first
    [ apply bind_no_abort; [|intros]
    | apply launch_no_abort; intros
    | apply for_each_no_abort; intros
    | apply at_offset_no_abort; intros
    | apply read_no_abort
    | apply write_no_abort
    | apply read_at_no_abort
    | apply float_to_unsigned_no_abort
    | discriminate
    | match goal with
      | |- (if ?c then _ else _) <> _ => destruct c
      | |- (match ?x with _ => _ end) <> _ => destruct x
      end ].

Lemma sweeps_after_checks_no_abort (inp : inputs) :
  (s ← init_buffers inp; s ← fwd_pass inp s; bwd_pass inp s) <> AssertFail.
Proof.
  unfold init_buffers, fwd_pass, bwd_pass, bwd_reset, fwd_frame, bwd_frame,
    bwd_init, fill_next, launch_next_frame, fill_array, set_start_states,
    init_bwd_state_buffer, next_frame, atomic_prob_add.
  no_abort.
Qed.

Lemma assemble_no_abort (inp : inputs) (tf : bool) (s : sweep) :
  assemble inp tf s <> AssertFail.
Proof.
  unfold assemble, normalize, compute_result, fill_array, remove_inf,
    atomic_prob_add.
  no_abort.
Qed.

Lemma check_shapes_Ok (inp : inputs) :
  check_shapes inp = Ok tt <->
  Ndarray_DIMS (am_scores inp) 0 = Ndarray_DIMS (out inp) 0 /\
  Ndarray_DIMS (am_scores inp) 1 = Ndarray_DIMS (out inp) 1 /\
  Ndarray_DIMS (am_scores inp) 2 = Ndarray_DIMS (out inp) 2 /\
  Ndarray_DIMS (am_scores inp) 1 = Ndarray_DIMS (start_end_states inp) 1 /\
  Ndarray_DIMS (sum_output inp) 0 = Ndarray_DIMS (am_scores inp) 0 /\
  Ndarray_DIMS (sum_output inp) 1 = Ndarray_DIMS (am_scores inp) 1 /\
  0 < n_frames inp.
Proof.
  unfold check_shapes. split.
  - intros H. inv_ok.
    repeat match goal with
    | H : (_ =? _) = true |- _ => apply Nat.eqb_eq in H
    | H : (_ <? _) = true |- _ => apply Nat.ltb_lt in H
    end. tauto.
  - intros (H1 & H2 & H3 & H4 & H5 & H6 & H7).
    rewrite (proj2 (Nat.eqb_eq _ _) H1), (proj2 (Nat.eqb_eq _ _) H2),
      (proj2 (Nat.eqb_eq _ _) H3), (proj2 (Nat.eqb_eq _ _) H4),
      (proj2 (Nat.eqb_eq _ _) H5), (proj2 (Nat.eqb_eq _ _) H6),
      (proj2 (Nat.ltb_lt _ _) H7).
    reflexivity.
Qed.

Lemma check_shapes_cases (inp : inputs) :
  check_shapes inp = Ok tt \/ check_shapes inp = AssertFail.
Proof.
  unfold check_shapes, assert.
  repeat match goal with
  | |- context [if ?c then Ok tt else AssertFail] => destruct c; cbn; auto
  end.
Qed.

(** The only assertions of [c_fw_code] are the checks of the shapes at its
    start: the call ends on a failed assertion exactly when one of them
    fails, and they pass exactly when [out] has the three dimensions of
    [am_scores], [start_end_states] has one column per sequence,
    [sum_output] has the first two dimensions of [am_scores], and there is
    at least one frame.  The kernels assert nothing. *)
Theorem shape_checks_decide_abort (inp : inputs) (tf : bool) :
  (c_fw_code inp tf = AssertFail <-> check_shapes inp = AssertFail) /\
  (check_shapes inp = AssertFail <->
   ~ (Ndarray_DIMS (am_scores inp) 0 = Ndarray_DIMS (out inp) 0 /\
      Ndarray_DIMS (am_scores inp) 1 = Ndarray_DIMS (out inp) 1 /\
      Ndarray_DIMS (am_scores inp) 2 = Ndarray_DIMS (out inp) 2 /\
      Ndarray_DIMS (am_scores inp) 1 = Ndarray_DIMS (start_end_states inp) 1 /\
      Ndarray_DIMS (sum_output inp) 0 = Ndarray_DIMS (am_scores inp) 0 /\
      Ndarray_DIMS (sum_output inp) 1 = Ndarray_DIMS (am_scores inp) 1 /\
      0 < n_frames inp)).
Proof.
  split.
  - unfold c_fw_code, sweeps. split.
    + intros H. destruct (check_shapes_cases inp) as [Hc|Hc]; [|done].
      exfalso. rewrite Hc in H. cbn [mbind outcome_bind] in H.
      pose proof (sweeps_after_checks_no_abort inp) as Hs.
      destruct (init_buffers inp ≫= _) as [s| |] eqn:E; [|done|discriminate].
      cbn [mbind outcome_bind] in H. by apply (assemble_no_abort inp tf s).
    + by intros ->.
  - rewrite <- check_shapes_Ok.
    destruct (check_shapes_cases inp) as [Hc|Hc]; rewrite Hc; split;
      try done; intros H; by destruct H.
Qed.

(** ** Indices that the host does not check *)

Lemma for_each_fault {St} (l : list nat) (body : nat -> St -> outcome St)
    (st : St) (i : nat) :
  i ∈ l ->
  (forall s, body i s = Fault) ->
  (forall j s, body j s <> AssertFail) ->
  for_each l body st = Fault.
Proof.
  intros Hi Hf Ha. revert st. induction l as [|j l IH]; intros st.
  - by apply elem_of_nil in Hi.
  - rewrite for_each_cons. destruct (body j st) as [s'| |] eqn:E.
    + cbn [mbind outcome_bind]. apply elem_of_cons in Hi as [->|Hi].
      * by rewrite Hf in E.
      * by apply IH.
    + by apply Ha in E.
    + reflexivity.
Qed.

Lemma next_frame_no_abort (fwd : bool) (num_edges num_emissions : nat)
    (sequence_idxs from_buffer to_buffer : list nat)
    (weight_buffer : list float) (emission_idxs : list nat)
    (prev_frame am : list float) (edge_off idx : nat)
    (st : list float * list float) :
  next_frame fwd num_edges num_emissions sequence_idxs from_buffer to_buffer
    weight_buffer emission_idxs prev_frame am edge_off idx st <> AssertFail.
Proof. unfold next_frame, atomic_prob_add. no_abort. Qed.

Lemma next_frame_from_fault (fwd : bool) (num_edges num_emissions : nat)
    (sequence_idxs from_buffer to_buffer : list nat)
    (weight_buffer : list float) (emission_idxs : list nat)
    (prev_frame am : list float) (edge_off e f : nat)
    (st : list float * list float) :
  e < num_edges -> from_buffer !! e = Some f -> length prev_frame <= f ->
  next_frame fwd num_edges num_emissions sequence_idxs from_buffer to_buffer
    weight_buffer emission_idxs prev_frame am edge_off e st = Fault.
Proof.
  intros He Hf Hlen. unfold next_frame. destruct st as [nf eb].
  destruct (decide (num_edges <= e)); [lia|].
  rewrite (read_lookup _ _ _ Hf). cbn [mbind outcome_bind].
  assert (read prev_frame f = Fault) as ->; [|reflexivity].
  unfold read. by rewrite (lookup_ge_None_2 _ _ Hlen).
Qed.

(** The previous-frame buffer of the first forward step is the first row
    of the state buffer, so it lies within the cells of [state_buffer]. *)
Lemma init_buffers_prev_length (inp : inputs) (s0 : sweep) :
  init_buffers inp = Ok s0 ->
  length (d_state_buffer_prev s0) <= length (DATA (state_buffer inp)).
Proof.
  unfold init_buffers. intros H. inv_ok. subst s0. cbn.
  match goal with H : launch 1 _ _ _ = Ok _ |- _ =>
    apply launch_set_start_states in H as (-> & _) end.
  match goal with
  | H : launch _ _ (fill_array PInf _) _ = Ok _ |- _ =>
      apply launch_fill_array in H; destruct H as [Hle ->]
  end.
  rewrite length_app, length_replicate, length_drop.
  unfold d_state_buffer_row in *. rewrite length_take, length_drop in *. lia.
Qed.

(** The host never compares the states of the edges with the number of
    states.  On an input that passes the checks of the shapes, an edge
    whose [from] state is at or beyond the number of cells of the whole
    state buffer (its two rows) makes [next_frame] read outside of the
    allocation of [state_buffer], in the forward step of the first frame at
    the latest: the call has no result, and no assertion reports it. *)
Theorem unchecked_from_state_faults (inp : inputs) (tf : bool) (e f : nat) :
  check_shapes inp = Ok tt ->
  e < n_edges inp ->
  d_from inp !! e = Some f ->
  length (DATA (state_buffer inp)) <= f ->
  c_fw_code inp tf = Fault.
Proof.
  intros Hc He Hf Hrow. unfold c_fw_code, sweeps. rewrite Hc.
  cbn [mbind outcome_bind].
  assert (Hia : init_buffers inp <> AssertFail)
    by (unfold init_buffers, fill_array, set_start_states; no_abort).
  destruct (init_buffers inp) as [s0| |] eqn:Hinit; [|done|reflexivity].
  cbn [mbind outcome_bind]. apply init_buffers_prev_length in Hinit.
  assert (Hfwd : fwd_pass inp s0 = Fault); [|by rewrite Hfwd].
  unfold fwd_pass. apply check_shapes_Ok in Hc.
  destruct Hc as (_ & _ & _ & _ & _ & _ & Hn).
  destruct (n_frames inp) as [|nf]; [lia|]. cbn [seq]. rewrite for_each_cons.
  assert (Hstep : fwd_frame inp 0 s0 = Fault); [|by rewrite Hstep].
  unfold fwd_frame.
  assert (Hfa : fill_next inp s0 <> AssertFail)
    by (unfold fill_next, fill_array; no_abort).
  destruct (fill_next inp s0) as [s1| |] eqn:Hfill; [|done|reflexivity].
  cbn [mbind outcome_bind]. apply fill_next_spec in Hfill as [Hprev _].
  assert (Hl : launch_next_frame inp true 0 s1 = Fault); [|by rewrite Hl].
  unfold launch_next_frame, launch.
  rewrite (for_each_fault _ _ _ e); [reflexivity| | |].
  - apply elem_of_seq. pose proof (blocks_for_ge (n_edges inp)). lia.
  - intros st. apply next_frame_from_fault with (f := f); [done..|].
    rewrite Hprev. lia.
  - intros j st. apply next_frame_no_abort.
Qed.

(** On [bad_edge] the edge leaves the state 5, and the state buffer has
    4 cells. *)
Lemma unchecked_from_state_faults_witness : c_fw_code bad_edge false = Fault.
Proof.
  apply (unchecked_from_state_faults bad_edge false 0 5);
    [reflexivity|vm_compute; lia|reflexivity|vm_compute; lia].
Defined.

(** ** The configuration errors that the host detects *)

Lemma check_shapes_of_shapes (inp inp' : inputs) :
  SHAPE (am_scores inp') = SHAPE (am_scores inp) ->
  SHAPE (out inp') = SHAPE (out inp) ->
  SHAPE (start_end_states inp') = SHAPE (start_end_states inp) ->
  SHAPE (sum_output inp') = SHAPE (sum_output inp) ->
  check_shapes inp' = check_shapes inp.
Proof.
  intros Ham Hout Hse Hso. unfold check_shapes, n_frames, Ndarray_DIMS.
  by rewrite Ham, Hout, Hse, Hso.
Qed.

Lemma c_fw_code_abort (inp : inputs) (tf : bool) :
  c_fw_code inp tf = AssertFail <-> check_shapes inp = AssertFail.
Proof.
  unfold c_fw_code, sweeps. split; [|by intros ->].
  intros H. destruct (check_shapes_cases inp) as [Hc|Hc]; [|done].
  exfalso. rewrite Hc in H. cbn [mbind outcome_bind] in H.
  pose proof (sweeps_after_checks_no_abort inp) as Hs.
  destruct (init_buffers inp ≫= _) as [s| |] eqn:E; [|done|discriminate].
  cbn [mbind outcome_bind] in H. by apply (assemble_no_abort inp tf s).
Qed.

(** C8, as the code has it.  The call ends on a failed assertion exactly
    when one of the checks at its start fails, before any kernel runs.  The
    checks fail exactly when [out] has not the three dimensions of
    [am_scores], or [start_end_states] has not one column per sequence, or
    [sum_output] has not the first two dimensions of [am_scores], or there
    is no frame.  They read these four shapes only: two inputs with the
    same four shapes abort alike, whatever their edges (the states and the
    emission labels), their index mask and their other contents are. *)
Theorem only_shapes_are_checked (inp inp' : inputs) (tf tf' : bool) :
  (c_fw_code inp tf = AssertFail <-> check_shapes inp = AssertFail) /\
  (check_shapes inp = AssertFail <->
   ~ (Ndarray_DIMS (am_scores inp) 0 = Ndarray_DIMS (out inp) 0 /\
      Ndarray_DIMS (am_scores inp) 1 = Ndarray_DIMS (out inp) 1 /\
      Ndarray_DIMS (am_scores inp) 2 = Ndarray_DIMS (out inp) 2 /\
      Ndarray_DIMS (am_scores inp) 1 = Ndarray_DIMS (start_end_states inp) 1 /\
      Ndarray_DIMS (sum_output inp) 0 = Ndarray_DIMS (am_scores inp) 0 /\
      Ndarray_DIMS (sum_output inp) 1 = Ndarray_DIMS (am_scores inp) 1 /\
      0 < n_frames inp)) /\
  (SHAPE (am_scores inp') = SHAPE (am_scores inp) ->
   SHAPE (out inp') = SHAPE (out inp) ->
   SHAPE (start_end_states inp') = SHAPE (start_end_states inp) ->
   SHAPE (sum_output inp') = SHAPE (sum_output inp) ->
   (c_fw_code inp' tf' = AssertFail <-> c_fw_code inp tf = AssertFail)).
Proof.
  split_and!.
  - apply c_fw_code_abort.
  - rewrite <- check_shapes_Ok.
    destruct (check_shapes_cases inp) as [Hc|Hc]; rewrite Hc; split;
      try done; intros H; by destruct H.
  - intros Ham Hout Hse Hso. rewrite !c_fw_code_abort.
    by rewrite (check_shapes_of_shapes inp inp' Ham Hout Hse Hso).
Qed.

(** C8 on [one_edge] and [bad_edge], which differ in the [from] state of
    the edge. *)
Lemma only_shapes_are_checked_witness :
  c_fw_code bad_edge false = AssertFail <-> c_fw_code one_edge false = AssertFail.
Proof.
  apply (only_shapes_are_checked one_edge bad_edge false false);
    reflexivity.
Defined.

Lemma bad_edge_init :
  init_buffers bad_edge = Ok (mkSweep [fzero; PInf] [NaN; NaN] [fzero]).
Proof. run. Qed.

Lemma bad_edge_fill_next :
  fill_next bad_edge (mkSweep [fzero; PInf] [NaN; NaN] [fzero])
  = Ok (mkSweep [fzero; PInf] [PInf; PInf] [fzero]).
Proof. run. Qed.

Lemma bad_edge_next_frame :
  launch_next_frame bad_edge true 0 (mkSweep [fzero; PInf] [PInf; PInf] [fzero])
  = Fault.
Proof. run. Qed.

Lemma bad_edge_run : c_fw_code bad_edge false = Fault.
Proof. exec. Qed.

Lemma bad_label_run :
  c_fw_code bad_label false = Ok ([PInf; fzero], [fzero; fzero]).
Proof.
  etrans; [run|]. unfold fzero. repeat f_equal; lra.
Qed.

(** C8 as stated fails on [bad_edge] and on [bad_label].  Both pass the
    checks.  On [bad_edge] the edge leaves the state 5 of a state buffer of
    4 cells, and the forward step of the frame 0 runs and reads outside of
    the buffer.  On [bad_label] the edge carries the label 1 where there is
    one label, 0: the call returns, with the posterior of the sequence 0 in
    the cell of the sequence 1. *)
Lemma out_of_range_indices_undetected :
  (check_shapes bad_edge = Ok tt /\
   d_from bad_edge !! 0 = Some 5 /\
   length (DATA (state_buffer bad_edge)) = 4 /\
   (exists s0 s1,
      init_buffers bad_edge = Ok s0 /\ fill_next bad_edge s0 = Ok s1 /\
      launch_next_frame bad_edge true 0 s1 = Fault) /\
   c_fw_code bad_edge false = Fault) /\
  (check_shapes bad_label = Ok tt /\
   d_emission_idxs bad_label !! 0 = Some 1 /\
   n_emissions bad_label = 1 /\
   c_fw_code bad_label false = Ok ([PInf; fzero], [fzero; fzero])).
Proof.
  split.
  - split_and!; [reflexivity..| |exact bad_edge_run].
    eexists _, _.
    split; [exact bad_edge_init|]. split; [exact bad_edge_fill_next|].
    exact bad_edge_next_frame.
  - split_and!; [reflexivity..|exact bad_label_run].
Qed.

(** ** What the output never holds *)

Lemma fmin_cap (x : float) (c : R) :
  isnan (fmin x (Fin c)) = false /\ fmin x (Fin c) <> PInf.
Proof. by destruct x. Qed.

Lemma atomic_prob_add_not_nan (N : nat) (a a' : list float) (k : nat) (b : float) :
  atomic_prob_add a k b = Ok a' ->
  (forall i, i < N -> exists x, a !! i = Some x /\ isnan x = false) ->
  forall i, i < N -> exists x, a' !! i = Some x /\ isnan x = false.
Proof.
  unfold atomic_prob_add. intros H J i Hi. inv_ok. subst a'.
  destruct (decide (i = k)) as [->|Hne].
  - rewrite list_lookup_insert_eq by assumption.
    eexists. split; [reflexivity|]. apply prob_add_not_nan.
  - rewrite list_lookup_insert_ne by auto. by apply J.
Qed.

Lemma launch_remove_inf (N : nat) (a a' : list float) :
  launch (blocks_for N) n_threads (remove_inf N) a = Ok a' ->
  forall i, i < N ->
    exists x, a' !! i = Some x /\ isnan x = false /\ x <> PInf.
Proof.
  unfold launch. intros H.
  pose (P := fun k (s : list float) =>
    forall i, i < N -> i < k ->
      exists x, s !! i = Some x /\ isnan x = false /\ x <> PInf).
  assert (HP : P (blocks_for N * n_threads) a').
  2:{ intros i Hi. apply HP; [done|]. pose proof (blocks_for_ge N). lia. }
  apply (for_each_seq_inv P _ _ _ _ H).
  - intros i _ Hi. lia.
  - intros k s s' _ J Hstep i Hi Hik. unfold remove_inf in Hstep.
    destruct (decide (k < N)) as [Hk|Hk].
    + inv_ok. subst s'. destruct (decide (i = k)) as [->|Hne].
      * rewrite list_lookup_insert_eq by assumption.
        eexists. split; [reflexivity|]. apply fmin_cap.
      * rewrite list_lookup_insert_ne by auto. apply J; [done|lia].
    + injection Hstep as <-. apply J; [done|lia].
Qed.

(** No cell of the output is NaN, whatever the inputs are: every cell of
    [out] within the [n_frames * n_seqs * n_emissions] first ones is
    +infinity from [fill_array] or a result of [prob_add].  With
    [TENSORFLOW], [remove_inf] leaves no +infinity in them either. *)
Theorem output_never_nan (inp : inputs) (tf : bool) (d_out d_sums : list float)
    (i : nat) :
  c_fw_code inp tf = Ok (d_out, d_sums) ->
  i < n_frames inp * n_seqs inp * n_emissions inp ->
  exists x, d_out !! i = Some x /\ isnan x = false /\
            (tf = true -> x <> PInf).
Proof.
  intros H Hi. unfold c_fw_code in H.
  apply bind_Ok in H as (s & _ & H). unfold assemble in H.
  apply bind_Ok in H as ([eb so] & _ & H).
  apply bind_Ok in H as (o1 & Hfill & H).
  apply bind_Ok in H as (o2 & Hres & H).
  apply bind_Ok in H as (o3 & Htf & H). injection H as <- _.
  apply launch_fill_array in Hfill as [Hlen ->].
  set (N := n_frames inp * n_seqs inp * n_emissions inp) in *.
  assert (J2 : forall j, j < N -> exists x, o2 !! j = Some x /\ isnan x = false).
  { unfold launch in Hres.
    refine (for_each_preserves
              (fun a => forall j, j < N ->
                 exists x, a !! j = Some x /\ isnan x = false)
              _ _ _ _ _ Hres _).
    - intros k a a' Hstep J. unfold compute_result in Hstep.
      destruct (decide (_ <= k)); [by injection Hstep as <-|].
      apply bind_Ok in Hstep as (em & _ & Hstep).
      apply bind_Ok in Hstep as (sq & _ & Hstep).
      apply bind_Ok in Hstep as (sc & _ & Hstep).
      exact (atomic_prob_add_not_nan N _ _ _ _ Hstep J).
    - intros j Hj. exists PInf. split; [|reflexivity].
      by apply lookup_filled. }
  destruct tf.
  - destruct (launch_remove_inf N _ _ Htf i Hi) as (x & Hx & Hn & Hp).
    exists x. auto.
  - injection Htf as <-. destruct (J2 i Hi) as (x & Hx & Hn).
    exists x. split_and!; [done..|discriminate].
Qed.

(** On [one_edge]. *)
Lemma output_never_nan_witness :
  exists x, [fzero] !! 0 = Some x /\ isnan x = false /\ (false = true -> x <> PInf).
Proof.
  apply (output_never_nan one_edge false [fzero] [fzero] 0 one_edge_run).
  vm_compute. lia.
Defined.

(** ** Labels that no edge carries *)

Lemma two_labels_run :
  c_fw_code two_labels false = Ok ([fzero; PInf], [fzero]).
Proof. etrans; [exec|]. unfold fzero. repeat f_equal; lra. Qed.

(** A label that no edge of the sequence carries gets +infinity (the
    posterior 0) at every frame, when the labels of all edges are in
    range. *)
Theorem label_without_edge_is_inf (inp : inputs) (d_out d_sums : list float)
    (t sq l : nat) :
  c_fw_code inp false = Ok (d_out, d_sums) ->
  SHAPE (out inp) = [n_frames inp; n_seqs inp; n_emissions inp] ->
  (forall e, e < n_edges inp -> d_emission_idxs inp !!! e < n_emissions inp) ->
  t < n_frames inp -> sq < n_seqs inp -> l < n_emissions inp ->
  (forall e, e < n_edges inp ->
     ~ (d_sequence_idxs inp !!! e = sq /\ d_emission_idxs inp !!! e = l)) ->
  d_out !! (t * (n_seqs inp * n_emissions inp) + sq * n_emissions inp + l)
  = Some PInf.
Proof.
  intros H Hshape Hem Ht Hsq Hl Hnone. unfold c_fw_code in H.
  apply bind_Ok in H as (s & _ & H).
  destruct (assemble_cells inp s d_out d_sums H Hshape Hem) as (_ & _ & Hcell).
  rewrite (Hcell t sq l Ht Hsq Hl). f_equal. unfold posterior_cell.
  apply foldl_skip. intros x e He. apply elem_of_seq in He.
  rewrite bool_decide_eq_false_2; [reflexivity|]. apply Hnone. lia.
Qed.

(** On [two_labels] the label 1 has no edge. *)
Lemma label_without_edge_is_inf_witness :
  [fzero; PInf] !! (0 * (n_seqs two_labels * n_emissions two_labels)
                    + 0 * n_emissions two_labels + 1) = Some PInf.
Proof.
  apply (label_without_edge_is_inf two_labels _ [fzero] 0 0 1 two_labels_run);
    try reflexivity; try (vm_compute; lia).
  - intros e He. assert (e = 0) as -> by (revert He; vm_compute; lia).
    vm_compute. lia.
  - intros e He. assert (e = 0) as -> by (revert He; vm_compute; lia).
    vm_compute. lia.
Defined.

(** ** The order of the atomic updates *)

Lemma prob_add_inf_l (a : float) : is_score a -> prob_add PInf a = a.
Proof. destruct a; try done. intros _. apply prob_add_inf_fin. Qed.

Lemma prob_add_assoc_score (a b c : float) :
  is_score a -> is_score b -> is_score c ->
  prob_add (prob_add a b) c = prob_add a (prob_add b c).
Proof.
  intros Ha Hb Hc.
  destruct a as [a| | |]; try done;
    [|by rewrite !prob_add_inf_l by (done || by apply prob_add_score)].
  destruct b as [b| | |]; try done;
    [|by rewrite prob_add_fin_inf, prob_add_inf_l].
  destruct c as [c| | |]; try done;
    [|by rewrite (prob_add_comm _ PInf), (prob_add_comm (Fin b) PInf),
         !prob_add_inf_l by (done || by apply prob_add_score)].
  rewrite !prob_add_fin_log. f_equal. f_equal.
  rewrite !Ropp_involutive, !exp_ln.
  - f_equal. lra.
  - pose proof (exp_pos (- b)). pose proof (exp_pos (- c)). lra.
  - pose proof (exp_pos (- a)). pose proof (exp_pos (- b)). lra.
Qed.

Lemma read_None {A} (arr : list A) (i : nat) :
  arr !! i = None -> read arr i = Fault.
Proof. unfold read. by intros ->. Qed.

(** With the float operations exact, over the real numbers, [prob_add] is
    associative on scores, and two atomic updates of an array of scores
    give the same array in either order, also on the same cell; when one of
    them is out of bounds, both orders fail.  The [prob_add] of the source
    rounds to [float], and there the two orders can differ in the last
    bits of a cell. *)
Theorem atomic_prob_add_order (a : list float) (i j : nat) (x y : float) :
  Forall is_score a -> is_score x -> is_score y ->
  (a1 ← atomic_prob_add a i x; atomic_prob_add a1 j y)
  = (a1 ← atomic_prob_add a j y; atomic_prob_add a1 i x).
Proof.
  intros Ha Hx Hy. unfold atomic_prob_add.
  destruct (a !! i) as [u|] eqn:Hi; destruct (a !! j) as [v|] eqn:Hj.
  - pose proof (lookup_lt_Some _ _ _ Hi) as Hli.
    pose proof (lookup_lt_Some _ _ _ Hj) as Hlj.
    rewrite (read_lookup _ _ _ Hi), (read_lookup _ _ _ Hj).
    cbn [mbind outcome_bind]. rewrite !write_lt by assumption.
    cbn [mbind outcome_bind].
    destruct (decide (i = j)) as [->|Hne].
    + assert (u = v) as <- by congruence.
      rewrite !(read_lookup _ j _ (list_lookup_insert_eq _ _ _ Hli)).
      cbn [mbind outcome_bind].
      rewrite !write_lt by (by rewrite length_insert).
      rewrite !list_insert_insert_eq. do 2 f_equal.
      assert (Hu : is_score u)
        by (eapply Forall_lookup_1 in Ha; [exact Ha|exact Hi]).
      rewrite !prob_add_assoc_score by assumption.
      by rewrite (prob_add_comm x y).
    + rewrite (read_lookup _ j v), (read_lookup _ i u)
        by (by rewrite list_lookup_insert_ne).
      cbn [mbind outcome_bind].
      rewrite !write_lt by (by rewrite length_insert).
      by rewrite list_insert_insert_ne.
  - pose proof (lookup_lt_Some _ _ _ Hi) as Hli.
    rewrite (read_lookup _ _ _ Hi), (read_None _ _ Hj).
    cbn [mbind outcome_bind]. rewrite write_lt by assumption.
    cbn [mbind outcome_bind]. rewrite read_None; [reflexivity|].
    apply lookup_ge_None. rewrite length_insert.
    by apply lookup_ge_None in Hj.
  - pose proof (lookup_lt_Some _ _ _ Hj) as Hlj.
    rewrite (read_lookup _ _ _ Hj), (read_None _ _ Hi).
    cbn [mbind outcome_bind]. rewrite write_lt by assumption.
    cbn [mbind outcome_bind]. rewrite read_None; [reflexivity|].
    apply lookup_ge_None. rewrite length_insert.
    by apply lookup_ge_None in Hi.
  - by rewrite (read_None _ _ Hi), (read_None _ _ Hj).
Qed.

(** Two updates of the only cell of [[PInf]]. *)
Lemma atomic_prob_add_order_witness :
  (a1 ← atomic_prob_add [PInf] 0 fzero; atomic_prob_add a1 0 fone)
  = (a1 ← atomic_prob_add [PInf] 0 fone; atomic_prob_add a1 0 fzero).
Proof.
  apply atomic_prob_add_order; [|exact I|exact I].
  apply Forall_cons. split; [exact I|apply Forall_nil_2].
Defined.

Lemma bind_assoc {A B C} (m : outcome A) (f : A -> outcome B)
    (g : B -> outcome C) :
  (m ≫= f) ≫= g = m ≫= (fun x => f x ≫= g).
Proof. by destruct m. Qed.

Lemma for_each_Permutation {St} (J : St -> Prop)
    (body : nat -> St -> outcome St) (l l' : list nat) :
  l ≡ₚ l' ->
  (forall i s s', J s -> body i s = Ok s' -> J s') ->
  (forall i j s, J s -> body i s ≫= body j = body j s ≫= body i) ->
  forall st, J st -> for_each l body st = for_each l' body st.
Proof.
  intros Hp Hpres Hcomm.
  induction Hp as [|x l l' _ IH|x y l|l1 l2 l3 _ IH1 _ IH2]; intros st Hst.
  - reflexivity.
  - rewrite !for_each_cons. destruct (body x st) as [s'| |] eqn:E; try done.
    cbn [mbind outcome_bind]. apply IH. by apply (Hpres x st).
  - rewrite !for_each_cons.
    transitivity ((body y st ≫= body x) ≫= for_each l body).
    + rewrite bind_assoc. by destruct (body y st).
    + rewrite Hcomm by assumption. rewrite bind_assoc.
      by destruct (body x st).
  - rewrite IH1 by assumption. by apply IH2.
Qed.

Lemma atomic_prob_add_score (a a' : list float) (k : nat) (b : float) :
  Forall is_score a -> is_score b ->
  atomic_prob_add a k b = Ok a' -> Forall is_score a'.
Proof.
  unfold atomic_prob_add. intros Ha Hb H. inv_ok. subst a'.
  apply Forall_insert; [assumption|]. apply prob_add_score; [|assumption].
  eapply Forall_lookup_1 in Ha; eauto.
Qed.

Lemma atomic_prob_add_no_abort (a : list float) (k : nat) (b : float) :
  atomic_prob_add a k b <> AssertFail.
Proof. unfold atomic_prob_add. no_abort. Qed.

Section ComputeResultOrder.
Variables (edge_buffer : list float) (emission_idxs sequence_idxs : list nat).
Variables (frame_stride seq_stride num_frames num_seqs num_edges : nat).
Hypothesis edge_scores : Forall is_score edge_buffer.

(** What a thread of [compute_result] does is fixed by its index: nothing,
    a failure, or one atomic update with a score. *)
Lemma compute_result_cases (idx : nat) :
  let thread := compute_result edge_buffer emission_idxs sequence_idxs
                  frame_stride seq_stride num_frames num_seqs num_edges idx in
  (forall out, thread out = Ok out) \/
  (forall out, thread out = Fault) \/
  (exists k b, is_score b /\ forall out, thread out = atomic_prob_add out k b).
Proof.
  cbv zeta. unfold compute_result.
  destruct (decide (num_frames * num_edges <= idx)); [by left|].
  destruct (emission_idxs !! (idx mod num_edges)) as [em|] eqn:Hem.
  2:{ right. left. intros out. by rewrite (read_None _ _ Hem). }
  destruct (sequence_idxs !! (idx mod num_edges)) as [sq|] eqn:Hsq.
  2:{ right. left. intros out.
      by rewrite (read_lookup _ _ _ Hem), (read_None _ _ Hsq). }
  destruct (edge_buffer !! idx) as [sc|] eqn:Hsc.
  2:{ right. left. intros out.
      by rewrite (read_lookup _ _ _ Hem), (read_lookup _ _ _ Hsq),
        (read_None _ _ Hsc). }
  right. right. eexists _, sc. split.
  - eapply Forall_lookup_1 in edge_scores; eauto.
  - intros out.
    by rewrite (read_lookup _ _ _ Hem), (read_lookup _ _ _ Hsq),
      (read_lookup _ _ _ Hsc).
Qed.

(** With the float operations exact, over the real numbers, the threads of
    [compute_result] may run in any order: on an edge buffer and an output
    of scores, every order of the same threads gives the same output, or
    fails alike.  With the rounding of the source the outputs of two orders
    can differ in the last bits. *)
Theorem compute_result_any_order (l l' : list nat) (out0 : list float) :
  l ≡ₚ l' -> Forall is_score out0 ->
  for_each l (compute_result edge_buffer emission_idxs sequence_idxs
                frame_stride seq_stride num_frames num_seqs num_edges) out0
  = for_each l' (compute_result edge_buffer emission_idxs sequence_idxs
                   frame_stride seq_stride num_frames num_seqs num_edges) out0.
Proof.
  intros Hp Hout.
  apply (for_each_Permutation (Forall is_score)); [assumption| | |assumption].
  - intros i s s' Hs.
    destruct (compute_result_cases i) as [H|[H|(k & b & Hb & H)]];
      rewrite H.
    + by intros [= <-].
    + discriminate.
    + by apply atomic_prob_add_score.
  - intros i j s Hs.
    assert (Hid : forall m : outcome (list float), m ≫= Ok = m)
      by (by intros []).
    destruct (compute_result_cases i) as [Hi|[Hi|(k & b & Hb & Hi)]];
      destruct (compute_result_cases j) as [Hj|[Hj|(k' & b' & Hb' & Hj)]];
      rewrite ?Hi, ?Hj; cbn [mbind outcome_bind]; rewrite ?Hi, ?Hj;
      try reflexivity.
    + destruct (atomic_prob_add s k' b') eqn:E; cbn [mbind outcome_bind];
        rewrite ?Hi; reflexivity.
    + destruct (atomic_prob_add s k' b') eqn:E; cbn [mbind outcome_bind];
        rewrite ?Hi; try reflexivity.
      by apply atomic_prob_add_no_abort in E.
    + destruct (atomic_prob_add s k b) eqn:E; cbn [mbind outcome_bind];
        rewrite ?Hj; reflexivity.
    + destruct (atomic_prob_add s k b) eqn:E; cbn [mbind outcome_bind];
        rewrite ?Hj; try reflexivity.
      by apply atomic_prob_add_no_abort in E.
    + transitivity (a1 ← atomic_prob_add s k b; atomic_prob_add a1 k' b').
      * destruct (atomic_prob_add s k b); cbn [mbind outcome_bind];
          rewrite ?Hj; reflexivity.
      * rewrite atomic_prob_add_order by assumption.
        destruct (atomic_prob_add s k' b'); cbn [mbind outcome_bind];
          rewrite ?Hi; reflexivity.
Qed.

End ComputeResultOrder.

(** The two threads of a frame of two edges with the same label, in both
    orders. *)
Lemma compute_result_any_order_witness :
  for_each [0; 1] (compute_result [fzero; fone] [0; 0] [0; 0] 1 1 1 1 2) [PInf]
  = for_each [1; 0] (compute_result [fzero; fone] [0; 0] [0; 0] 1 1 1 1 2) [PInf].
Proof.
  apply compute_result_any_order.
  - repeat (apply Forall_cons; split; [exact I|]). apply Forall_nil_2.
  - apply Permutation_swap.
  - repeat (apply Forall_cons; split; [exact I|]). apply Forall_nil_2.
Defined.

(** ** [SegmentFastBaumWelchOp]: the host code *)

Module SegmentalHost.
Import SegmentFastBaumWelchOp.

Ltac unfold_kernels :=
  unfold fwd_frame, bwd_frame, bwd_clear, bwd_init, read_n_states,
    init_bwd_state_buffer, next_frame_fwd, next_frame_bwd,
    compute_framewise_sum, merge_framewise_sum, compute_targets,
    compute_posterior_weights, fill_array, set_start_states, atomic_prob_add.

Lemma after_checks_no_abort (inp : inputs) (sn : bool) :
  check_shapes inp = Ok tt -> c_fw_code inp sn <> AssertFail.
Proof.
  intros Hc. unfold c_fw_code. rewrite Hc. cbn [mbind outcome_bind].
  unfold_kernels. no_abort.
Qed.

(** The host of the segmental engine asserts one thing: that there are as
    many weights as edges.  The call ends on a failed assertion exactly
    when this fails; neither the number of segment frames nor another
    shape is checked. *)
Theorem only_edge_count_is_checked (inp : inputs) (sn : bool) :
  c_fw_code inp sn = AssertFail <->
  Ndarray_DIMS (ary_edges inp) 1 <> Ndarray_DIMS (ary_weights inp) 0.
Proof.
  destruct (decide (Ndarray_DIMS (ary_edges inp) 1
                    = Ndarray_DIMS (ary_weights inp) 0)) as [Heq|Hne].
  - assert (Hc : check_shapes inp = Ok tt).
    { unfold check_shapes. by rewrite (proj2 (Nat.eqb_eq _ _) Heq). }
    split; [|done]. intros H. by apply after_checks_no_abort in H.
  - split; [done|]. intros _. unfold c_fw_code, check_shapes.
    by rewrite (proj2 (Nat.eqb_neq _ _) Hne).
Qed.

Lemma bind_fault_later {A B} (m : outcome A) (f : A -> outcome B) :
  m <> AssertFail -> (forall x, m = Ok x -> f x = Fault) -> m ≫= f = Fault.
Proof. destruct m; cbn; intros Ha Hf; [by apply Hf|done|done]. Qed.

Lemma init_bwd_state_buffer_past_mask (t num_batches num_seqs : nat)
    (batch_idxs : list Z) (index : list float) (end_states : list nat)
    (idx : nat) (states : list float) (b : Z) (i0 : float) :
  batch_idxs !! (t * num_seqs + idx) = Some b -> (0 <= b)%Z ->
  index !! Z.to_nat b = Some i0 -> feq i0 fzero = false ->
  length index <= Z.to_nat b + num_batches ->
  init_bwd_state_buffer t num_batches num_seqs batch_idxs index end_states
    idx states = Fault.
Proof.
  intros Hb Hpos Hi0 Hz Hlen. unfold init_bwd_state_buffer.
  rewrite (read_lookup _ _ _ Hb). cbn [mbind outcome_bind].
  destruct (decide (b < 0)%Z); [lia|].
  rewrite (read_lookup _ 0 i0)
    by (rewrite lookup_drop, Nat.add_0_r; exact Hi0).
  cbn [mbind outcome_bind]. rewrite Hz. cbn [negb].
  rewrite (read_None (drop (Z.to_nat b) index) num_batches); [reflexivity|].
  rewrite lookup_drop. by apply lookup_ge_None.
Qed.

(** With segments of one frame ([n_seg_frames = 1]) the index mask is one
    row of [n_batches] cells, and [init_bwd_state_buffer] reads the cell
    [batch_idx + num_batches] of it for every sequence whose last frame is
    valid: the call has no result on any such input. *)
Theorem one_frame_segments_have_no_result (inp : inputs) (sn : bool)
    (idx : nat) (b : Z) (i0 : float) :
  check_shapes inp = Ok tt ->
  n_seg_frames inp = 1 ->
  length (d_index inp) = n_seg_frames inp * n_batches inp ->
  0 < n_tot_frames inp ->
  idx < n_seqs inp ->
  d_batch_idxs inp !! ((n_tot_frames inp - 1) * n_seqs inp + idx) = Some b ->
  (0 <= b)%Z ->
  d_index inp !! Z.to_nat b = Some i0 -> feq i0 fzero = false ->
  c_fw_code inp sn = Fault.
Proof.
  intros Hc HK Hlen HT Hidx Hb Hpos Hi0 Hz.
  unfold c_fw_code. rewrite Hc. cbn [mbind outcome_bind]. cbv zeta.
  do 8 (apply bind_fault_later; [unfold_kernels; no_abort|intros ? _]).
  apply bind_eq_Fault.
  destruct (n_tot_frames inp) as [|T'] eqn:HT'; [lia|].
  rewrite seq_S, reverse_app. cbn [reverse rev_append app].
  rewrite for_each_cons. apply bind_eq_Fault.
  unfold bwd_frame. cbn [fst snd].
  apply bind_fault_later; [unfold_kernels; no_abort|intros sb _].
  apply bind_eq_Fault. unfold bwd_init, launch.
  apply (for_each_fault _ _ _ idx).
  - apply elem_of_seq. lia.
  - intros st. unfold at_offset.
    rewrite (init_bwd_state_buffer_past_mask _ _ _ _ _ _ _ _ b i0);
      [reflexivity| |assumption..|].
    + replace (1 + T' - 1) with (S T' - 1) by lia. exact Hb.
    + rewrite Hlen, HK. lia.
  - intros j st. unfold_kernels. unfold at_offset. no_abort.
Qed.

(** On [one_edge_segmental]. *)
Lemma one_frame_segments_have_no_result_witness :
  c_fw_code one_edge_segmental false = Fault.
Proof.
  apply (one_frame_segments_have_no_result one_edge_segmental false 0 0%Z fone);
    try reflexivity; try (vm_compute; lia).
  exact feq_1_0.
Defined.

(** *** The reset of a slot of the ring buffer *)






End SegmentalHost.

(** ** [SegmentFastBaumWelchOp]: the normalisation of a batch slot *)

Lemma for_each_foldl {St} (f : St -> nat -> St)
    (body : nat -> St -> outcome St) (l : list nat) (st st' : St) :
  (forall i s s', body i s = Ok s' -> s' = f s i) ->
  for_each l body st = Ok st' -> st' = foldl f st l.
Proof.
  intros Hb. revert st. induction l as [|i l IH]; intros st H.
  - by injection H.
  - rewrite for_each_cons in H. apply bind_Ok in H as (s1 & H1 & H).
    apply Hb in H1 as ->. by apply IH.
Qed.

Module SegmentalKernels.
Import SegmentFastBaumWelchOp.

(** The thread of [merge_framewise_sum] for the batch slot [idx] stores one
    value in the cells of all segment lengths of the slot that the index
    mask marks as valid, and leaves every other cell as it is.  The value
    is the log-sum of the cell of the length 0 of the slot, whether it is
    valid or not, and of the valid cells of the further lengths. *)
Theorem merge_framewise_sum_thread (num_seg_frames num_batches : nat)
    (index sum_buffer sum_buffer' : list float) (idx : nat) :
  idx < num_batches ->
  merge_framewise_sum num_seg_frames num_batches index idx sum_buffer
  = Ok sum_buffer' ->
  let valid s := negb (feq (index !!! (idx + s * num_batches)) fzero) in
  let sum :=
    foldl (fun acc s =>
             if valid s then prob_add acc (sum_buffer !!! (idx + s * num_batches))
             else acc)
      (sum_buffer !!! (idx + 0)) (seq 1 (num_seg_frames - 1)) in
  (forall s, s < num_seg_frames -> valid s = true ->
     sum_buffer' !! (idx + s * num_batches) = Some sum) /\
  (forall j,
     (forall s, s < num_seg_frames -> valid s = true ->
        j <> idx + s * num_batches) ->
     sum_buffer' !! j = sum_buffer !! j).
Proof.
  intros Hidx H valid sum. unfold merge_framewise_sum in H.
  destruct (decide (num_batches <= idx)); [lia|].
  apply bind_Ok in H as (sum0 & H0 & H). apply read_Ok in H0.
  apply bind_Ok in H as (sum1 & Hsum & H).
  assert (sum1 = sum) as ->.
  { subst sum. rewrite (list_lookup_total_correct _ _ _ H0).
    refine (for_each_foldl _ _ _ _ _ _ Hsum).
    intros s acc acc' Hb. apply bind_Ok in Hb as (m & Hm & Hb).
    apply read_Ok in Hm. unfold valid.
    rewrite (list_lookup_total_correct _ _ _ Hm).
    destruct (negb (feq m fzero)); [|by injection Hb].
    apply bind_Ok in Hb as (x & Hx & Hb). apply read_Ok in Hx.
    rewrite (list_lookup_total_correct _ _ _ Hx). by injection Hb. }
  pose (P := fun k (s : list float) =>
    length s = length sum_buffer /\
    (forall s0, s0 < k -> valid s0 = true ->
       s !! (idx + s0 * num_batches) = Some sum) /\
    (forall j, (forall s0, s0 < k -> valid s0 = true ->
                  j <> idx + s0 * num_batches) -> s !! j = sum_buffer !! j)).
  assert (HP : P num_seg_frames sum_buffer').
  2:{ destruct HP as (_ & Hin & Hout). auto. }
  apply (for_each_seq_inv P _ _ _ _ H); unfold P.
  - split_and!; [reflexivity|intros; lia|reflexivity].
  - intros k s s' Hk (Hlen & Hin & Hout) Hb.
    apply bind_Ok in Hb as (m & Hm & Hb). apply read_Ok in Hm.
    assert (Hv : valid k = negb (feq m fzero))
      by (unfold valid; by rewrite (list_lookup_total_correct _ _ _ Hm)).
    destruct (negb (feq m fzero)).
    + apply write_Ok in Hb as [Hlt ->]. rewrite length_insert.
      split_and!; [assumption| |].
      * intros s0 Hs0 Hv0. destruct (decide (s0 = k)) as [->|Hne].
        -- by rewrite list_lookup_insert_eq.
        -- rewrite list_lookup_insert_ne by nia. apply Hin; [lia|done].
      * intros j Hj. rewrite list_lookup_insert_ne.
        -- apply Hout. intros s0 Hs0. apply Hj. lia.
        -- apply not_eq_sym, Hj; [lia|done].
    + injection Hb as <-. split_and!; [assumption| |].
      * intros s0 Hs0 Hv0. destruct (decide (s0 = k)) as [->|Hne];
          [congruence|]. apply Hin; [lia|done].
      * intros j Hj. apply Hout. intros s0 Hs0 Hv0. apply Hj; [lia|done].
Qed.

(** A slot whose lengths 0 and 2 are valid, and whose length 1 is not. *)
Lemma merge_framewise_sum_thread_witness :
  exists sum_buffer',
    merge_framewise_sum 3 1 [fone; fzero; fone] 0 [fzero; fone; fzero]
    = Ok sum_buffer' /\
    sum_buffer' !! (0 + 2 * 1)
    = Some (foldl (fun acc s =>
                     if negb (feq ([fone; fzero; fone] !!! (0 + s * 1)) fzero)
                     then prob_add acc ([fzero; fone; fzero] !!! (0 + s * 1))
                     else acc)
              ([fzero; fone; fzero] !!! (0 + 0)) (seq 1 (3 - 1))).
Proof.
  assert (Hrun : { r | merge_framewise_sum 3 1 [fone; fzero; fone] 0
                         [fzero; fone; fzero] = Ok r })
    by (eexists; exec).
  destruct Hrun as [r Hrun]. exists r. split; [exact Hrun|].
  apply (proj1 (merge_framewise_sum_thread 3 1 [fone; fzero; fone]
                  [fzero; fone; fzero] r 0 ltac:(lia) Hrun) 2); [lia|].
  lazy -[feq IZR]. by rewrite feq_1_0.
Defined.

End SegmentalKernels.

(** ** [Chunking]: the start frames of the chunks *)

Module ChunkStarts.
Import Chunking.

Local Open Scope Z_scope.

Lemma n_chunks_last (n_time chunk_size chunk_step : Z) :
  0 < chunk_step ->
  let q := n_chunks n_time chunk_size chunk_step - 1 in
  0 <= q /\ n_time <= q * chunk_step + chunk_size /\
  forall j, 0 <= j < q -> j * chunk_step + chunk_size < n_time.
Proof.
  intros Hs. unfold n_chunks.
  set (a := n_time - chunk_size + chunk_step - 1).
  replace (Z.max a 0 / chunk_step + 1 - 1) with (Z.max a 0 / chunk_step) by lia.
  pose proof (Z.div_mod (Z.max a 0) chunk_step ltac:(lia)) as Hdm.
  pose proof (Z.mod_pos_bound (Z.max a 0) chunk_step Hs) as Hm.
  assert (Hq : 0 <= Z.max a 0 / chunk_step) by (apply Z.div_pos; lia).
  split; [exact Hq|]. split.
  - destruct (Z.max_spec a 0) as [[Ha Hmax]|[Ha Hmax]]; rewrite Hmax in *.
    + rewrite Z.div_0_l by lia. lia.
    + nia.
  - intros j Hj. nia.
Qed.

Lemma naive_loop_spec (n_time chunk_size chunk_step : Z) (m : nat) :
  forall (k : Z) (fuel : nat) (acc : list Z),
    (S m <= fuel)%nat ->
    (forall j, k <= j < k + Z.of_nat m -> j * chunk_step + chunk_size < n_time) ->
    n_time <= (k + Z.of_nat m) * chunk_step + chunk_size ->
    naive_chunk_start_frames_loop fuel n_time chunk_size chunk_step
      (k * chunk_step) acc
    = Some (acc ++ map (fun i => (k + Z.of_nat i) * chunk_step) (seq 0 (S m))).
Proof.
  induction m as [|m IH]; intros k fuel acc Hfuel Hbefore Hlast;
    (destruct fuel as [|fuel]; [lia|]); cbn [naive_chunk_start_frames_loop].
  - destruct (Z.geb_spec (k * chunk_step + chunk_size) n_time) as [_|Hlt].
    + cbn. do 3 f_equal. lia.
    + replace (k + Z.of_nat 0) with k in Hlast by lia. lia.
  - destruct (Z.geb_spec (k * chunk_step + chunk_size) n_time) as [Hge|_].
    + specialize (Hbefore k ltac:(lia)). lia.
    + replace (k * chunk_step + chunk_step) with ((k + 1) * chunk_step) by lia.
      rewrite IH; [| lia | intros j Hj; apply Hbefore; lia
                   | replace (k + 1 + Z.of_nat m) with (k + Z.of_nat (S m)) by lia;
                     exact Hlast].
      rewrite <- app_assoc. do 2 f_equal.
      change (seq 0 (S (S m))) with (0%nat :: seq 1 (S m)).
      cbn [map app]. f_equal; [lia|].
      rewrite <- seq_shift, map_map. apply map_ext. intros i. lia.
Qed.

(** For a positive step the loop of [naive_chunk_start_frames] ends, and
    returns the start frames [0, chunk_step, 2 * chunk_step, ...] of exactly
    the [n_chunks] chunks that [chunk] allocates. *)
Theorem naive_chunk_start_frames_are_the_chunks
    (n_time chunk_size chunk_step : Z) (fuel : nat) :
  0 < chunk_step ->
  (Z.to_nat (n_chunks n_time chunk_size chunk_step) <= fuel)%nat ->
  naive_chunk_start_frames fuel n_time chunk_size chunk_step
  = Some (map (fun i => Z.of_nat i * chunk_step)
            (seq 0 (Z.to_nat (n_chunks n_time chunk_size chunk_step)))).
Proof.
  intros Hs Hfuel.
  destruct (n_chunks_last n_time chunk_size chunk_step Hs) as (Hq & Hlast & Hbefore).
  set (n := n_chunks n_time chunk_size chunk_step) in *.
  unfold naive_chunk_start_frames.
  replace (Z.to_nat n) with (S (Z.to_nat (n - 1))) in * by lia.
  change 0 with (0 * chunk_step) at 1.
  rewrite (naive_loop_spec _ _ _ (Z.to_nat (n - 1))); [| lia | |].
  - cbn [app]. f_equal.
  - intros j Hj. apply Hbefore. lia.
  - rewrite Z2Nat.id by lia. exact Hlast.
Qed.

(** The example [n_time=61, chunk_size=50, chunk_step=10] of the class. *)
Lemma naive_chunk_start_frames_are_the_chunks_witness :
  naive_chunk_start_frames 3 61 50 10 = Some [0; 10; 20].
Proof.
  apply (naive_chunk_start_frames_are_the_chunks 61 50 10 3); [lia|].
  vm_compute. lia.
Defined.

(** With a step that is not positive the loop does not end on an input that
    is longer than one chunk. *)
Theorem naive_chunk_start_frames_diverges
    (n_time chunk_size chunk_step : Z) (fuel : nat) :
  chunk_step <= 0 -> chunk_size < n_time ->
  naive_chunk_start_frames fuel n_time chunk_size chunk_step = None.
Proof.
  intros Hs Hlong. unfold naive_chunk_start_frames.
  assert (H : forall t acc, t <= 0 ->
            naive_chunk_start_frames_loop fuel n_time chunk_size chunk_step t acc
            = None); [|by apply H].
  induction fuel as [|fuel IH]; intros t acc Ht; [reflexivity|].
  cbn [naive_chunk_start_frames_loop].
  destruct (Z.geb_spec (t + chunk_size) n_time); [lia|]. apply IH. lia.
Qed.

Lemma naive_chunk_start_frames_diverges_witness :
  naive_chunk_start_frames 100 2 1 0 = None.
Proof. apply naive_chunk_start_frames_diverges; lia. Defined.

End ChunkStarts.

(** ** Grid-stride loops *)

Lemma grid_stride_loop_ids {St} (total max_idx : nat) :
  0 < total ->
  forall fuel idx, max_idx <= idx + fuel ->
  exists l : list nat,
    (forall (body : nat -> St -> outcome St) st,
       grid_stride_loop fuel idx total max_idx body st = for_each l body st) /\
    (forall i, i ∈ l <-> idx <= i < max_idx /\ (i - idx) mod total = 0).
Proof.
  intros Ht. induction fuel as [|fuel IH]; intros idx Hfuel.
  - exists []. split; [reflexivity|]. intros i. split.
    + intros Hi. by apply elem_of_nil in Hi.
    + lia.
  - cbn [grid_stride_loop]. destruct (decide (idx < max_idx)) as [Hlt|Hge].
    + destruct (IH (idx + total) ltac:(lia)) as (l & Hrun & Hin).
      exists (idx :: l). split.
      * intros body st. rewrite for_each_cons.
        destruct (body idx st); cbn [mbind outcome_bind]; [apply Hrun|done..].
      * intros i. rewrite elem_of_cons, Hin. split.
        -- intros [->|(Hi & Hm)].
           ++ split; [lia|]. rewrite Nat.sub_diag. by apply Nat.Div0.mod_0_l.
           ++ split; [lia|].
              replace (i - idx) with (i - (idx + total) + 1 * total) by lia.
              by rewrite Nat.Div0.mod_add.
        -- intros (Hi & Hm). destruct (decide (i = idx)) as [|Hne]; [by left|].
           right. apply Nat.Div0.mod_divides in Hm as [q Hq].
           assert (1 <= q) by nia. split; [nia|].
           replace (i - (idx + total)) with ((q - 1) * total) by nia.
           by apply Nat.Div0.mod_mul.
    + exists []. split; [reflexivity|]. intros i. split.
      * intros Hi. by apply elem_of_nil in Hi.
      * lia.
Qed.

(** The threads of a grid, taken together, run the body of a grid-stride
    loop for the indices below [max_idx], and for no other index. *)
Lemma launch_grid_stride {St} (n_blocks n_threads max_idx : nat) :
  0 < n_blocks * n_threads ->
  exists l : list nat,
    (forall (body : nat -> St -> outcome St) st,
       launch n_blocks n_threads
         (fun tid => grid_stride tid (n_blocks * n_threads) max_idx body) st
       = for_each l body st) /\
    (forall i, i ∈ l <-> i < max_idx).
Proof.
  intros Ht. unfold launch. set (T := n_blocks * n_threads) in *.
  assert (H : forall ts : list nat,
    exists l : list nat,
      (forall (body : nat -> St -> outcome St) st,
         for_each ts (fun tid => grid_stride tid T max_idx body) st
         = for_each l body st) /\
      (forall i, i ∈ l <->
         exists tid, tid ∈ ts /\ tid <= i < max_idx /\ (i - tid) mod T = 0)).
  { induction ts as [|tid ts (l2 & Hrun2 & Hin2)].
    - exists []. split; [reflexivity|]. intros i. split.
      + intros Hi. by apply elem_of_nil in Hi.
      + intros (tid & Htid & _). by apply elem_of_nil in Htid.
    - destruct (grid_stride_loop_ids (St:=St) T max_idx Ht max_idx tid
                  ltac:(lia)) as (l1 & Hrun1 & Hin1).
      exists (l1 ++ l2). split.
      + intros body st. rewrite for_each_cons, for_each_app.
        unfold grid_stride. rewrite Hrun1.
        destruct (for_each l1 body st); cbn [mbind outcome_bind];
          [apply Hrun2|done..].
      + intros i. rewrite elem_of_app, Hin1, Hin2. split.
        * intros [Hi|(t & Ht' & Hi)].
          -- exists tid. split; [apply elem_of_cons; by left|exact Hi].
          -- exists t. split; [apply elem_of_cons; by right|exact Hi].
        * intros (t & Ht' & Hi). apply elem_of_cons in Ht' as [->|Ht'].
          -- by left.
          -- right. by exists t. }
  destruct (H (seq 0 T)) as (l & Hrun & Hin). exists l. split; [exact Hrun|].
  intros i. rewrite Hin. split.
  - intros (tid & _ & Hi & _). lia.
  - intros Hi. exists (i mod T). split_and!.
    + apply elem_of_seq. pose proof (Nat.mod_upper_bound i T). lia.
    + apply Nat.Div0.mod_le.
    + exact Hi.
    + rewrite (Nat.div_mod_eq i T) at 1.
      replace (T * (i / T) + i mod T - i mod T) with ((i / T) * T) by lia.
      by apply Nat.Div0.mod_mul.
Qed.

Lemma read_at_nat {A} (arr : list A) (k : nat) :
  read_at arr (Z.of_nat k) = read arr k.
Proof.
  unfold read_at. destruct (decide _) as [Hin|Hout].
  - by rewrite Nat2Z.id.
  - symmetry. apply read_None, lookup_ge_None. lia.
Qed.

Lemma write_at_nat {A} (arr : list A) (k : nat) (v : A) :
  write_at arr (Z.of_nat k) v = write arr k v.
Proof.
  unfold write_at. destruct (decide _) as [Hin|Hout].
  - by rewrite Nat2Z.id.
  - unfold write. destruct (decide (k < length arr)); [lia|reflexivity].
Qed.

(** A loop whose round [i] stores [val i] in the cell [cell i]. *)
Lemma for_each_scatter_vals {A} (cell : nat -> nat) (val : nat -> A)
    (body : nat -> list A -> outcome (list A)) (l : list nat)
    (st st' : list A) :
  (forall i s s', i ∈ l -> body i s = Ok s' ->
     cell i < length s /\ s' = <[cell i:=val i]> s) ->
  (forall i j, i ∈ l -> j ∈ l -> cell i = cell j -> val i = val j) ->
  for_each l body st = Ok st' ->
  length st' = length st /\
  (forall i, i ∈ l -> st' !! cell i = Some (val i)) /\
  (forall c, (forall i, i ∈ l -> cell i <> c) -> st' !! c = st !! c).
Proof.
  revert st. induction l as [|a l IH]; intros st Hbody Hval H.
  - injection H as <-. split_and!; [reflexivity| |reflexivity].
    intros i Hi. by apply elem_of_nil in Hi.
  - rewrite for_each_cons in H. apply bind_Ok in H as (s1 & Ha & H).
    apply Hbody in Ha as [Hlt ->]; [|apply elem_of_cons; by left].
    apply IH in H as (Hlen & Hin & Hout).
    2:{ intros i s s' Hi. apply Hbody. apply elem_of_cons. by right. }
    2:{ intros i j Hi Hj. apply Hval; apply elem_of_cons; by right. }
    rewrite length_insert in Hlen. split_and!; [exact Hlen| |].
    + intros i Hi. apply elem_of_cons in Hi as [->|Hi]; [|by apply Hin].
      destruct (decide (cell a ∈ (cell <$> l))) as [Hex|Hnex].
      * apply list_elem_of_fmap in Hex as (j & Hj & Hjl).
        rewrite Hj, (Hin j Hjl). f_equal. symmetry.
        apply Hval; [apply elem_of_cons; by left|apply elem_of_cons; by right|
                     exact Hj].
      * rewrite Hout.
        -- by apply list_lookup_insert_eq.
        -- intros j Hj Hc. apply Hnex. apply list_elem_of_fmap. eauto.
    + intros c Hc. rewrite Hout.
      * apply list_lookup_insert_ne. apply Hc. apply elem_of_cons. by left.
      * intros i Hi. apply Hc. apply elem_of_cons. by right.
Qed.

(** ** [SubtensorBatchedIndex] *)

Lemma for_each_all_ok {St} (body : nat -> St -> outcome St) (l : list nat)
    (st st' : St) :
  for_each l body st = Ok st' ->
  forall i, i ∈ l -> exists s s', body i s = Ok s'.
Proof.
  revert st. induction l as [|a l IH]; intros st H i Hi.
  - by apply elem_of_nil in Hi.
  - rewrite for_each_cons in H. apply bind_Ok in H as (s1 & Ha & H).
    apply elem_of_cons in Hi as [->|Hi]; [eauto|by eapply IH].
Qed.

Lemma rem_of_nat (i d : nat) :
  0 < d -> Z.rem (Z.of_nat i) (Z.of_nat d) = Z.of_nat (i mod d).
Proof. intros. rewrite Z.rem_mod_nonneg by lia. by rewrite Nat2Z.inj_mod. Qed.

Lemma quot_of_nat (i d : nat) :
  0 < d -> Z.quot (Z.of_nat i) (Z.of_nat d) = Z.of_nat (i / d).
Proof. intros. rewrite Z.quot_div_nonneg by lia. by rewrite Nat2Z.inj_div. Qed.

(** The cell of the pair [(i mod d0, i / d0)] in an array of [d0] rows of
    [d1] cells. *)
Lemma transposed_cell_inj (d0 d1 i j : nat) :
  i < d0 * d1 -> j < d0 * d1 ->
  i mod d0 * d1 + i / d0 = j mod d0 * d1 + j / d0 -> i = j.
Proof.
  intros Hi Hj Hc. assert (0 < d0) by nia.
  assert (i / d0 < d1) by (apply Nat.Div0.div_lt_upper_bound; nia).
  assert (j / d0 < d1) by (apply Nat.Div0.div_lt_upper_bound; nia).
  rewrite (Nat.div_mod_eq i d0), (Nat.div_mod_eq j d0).
  assert (i mod d0 < d0) by (apply Nat.mod_upper_bound; lia).
  assert (j mod d0 < d0) by (apply Nat.mod_upper_bound; lia).
  revert Hc. generalize dependent (i mod d0). generalize dependent (j mod d0).
  generalize dependent (i / d0). generalize dependent (j / d0).
  intros b' Hb' b Hb a' Ha' a Ha Hc.
  assert (a = a') by nia. subst a'. assert (b = b') by nia. by subst b'.
Qed.

Lemma transposed_cell_of (d0 d1 a b : nat) :
  a < d0 -> b < d1 ->
  b * d0 + a < d0 * d1 /\ (b * d0 + a) mod d0 = a /\ (b * d0 + a) / d0 = b.
Proof.
  intros Ha Hb. split_and!.
  - nia.
  - rewrite Nat.add_comm, Nat.Div0.mod_add. by apply Nat.mod_small.
  - rewrite Nat.add_comm, Nat.div_add by lia. rewrite Nat.div_small by lia. lia.
Qed.

Module SubtensorSelect.
Import SubtensorBatchedIndex.

Lemma strides2 {A} (a : Ndarray A) :
  NDIM a = 2 -> STRIDE a 0 = DIM a 1 /\ STRIDE a 1 = 1%Z.
Proof.
  destruct a as [data [|s0 [|s1 [|s2 sh]]]]; try discriminate. intros _.
  unfold STRIDE, DIM, Ndarray_STRIDE, Ndarray_DIMS. cbn. split; [f_equal|]; lia.
Qed.

Lemma strides3 {A} (a : Ndarray A) :
  NDIM a = 3 ->
  STRIDE a 0 = (DIM a 1 * DIM a 2)%Z /\ STRIDE a 1 = DIM a 2 /\
  STRIDE a 2 = 1%Z.
Proof.
  destruct a as [data [|s0 [|s1 [|s2 [|s3 sh]]]]]; try discriminate. intros _.
  unfold STRIDE, DIM, Ndarray_STRIDE, Ndarray_DIMS. cbn. split_and!; lia.
Qed.

Lemma clamp_min_max (d2 n : Z) :
  (if decide ((if decide (d2 < 0)%Z then 0%Z else d2) >= n)%Z then (n - 1)%Z
   else if decide (d2 < 0)%Z then 0%Z else d2)
  = Z.min (Z.max d2 0) (n - 1).
Proof. repeat destruct (decide _); lia. Qed.

(** One round of the loop of [select_kernel] on contiguous arrays. *)
Lemma select_round (xd id : list float) (D0 D1 D2 : nat) (i : nat)
    (s s' : list float) :
  i < D0 * D1 ->
  (let idx := Z.of_nat i in
   let d0 := Z.rem idx (Z.of_nat D0) in
   let d1 := Z.quot idx (Z.of_nat D0) in
   f ← read_at id (d0 * Z.of_nat D1 + d1 * 1)%Z;
   d2 ← float_to_long f;
   let d2 := if decide (d2 < 0)%Z then 0%Z else d2 in
   let d2 := if decide (d2 >= Z.of_nat D2)%Z then (Z.of_nat D2 - 1)%Z else d2 in
   v ← read_at xd (d0 * (Z.of_nat D1 * Z.of_nat D2) + d1 * Z.of_nat D2
                   + d2 * 1)%Z;
   write_at s (d0 * Z.of_nat D1 + d1 * 1)%Z v) = Ok s' ->
  let c := i mod D0 * D1 + i / D0 in
  exists f d2 v,
    id !! c = Some f /\ float_to_long f = Ok d2 /\
    read_at xd (Z.of_nat (c * D2) + Z.min (Z.max d2 0) (Z.of_nat D2 - 1)) = Ok v /\
    c < length s /\ s' = <[c:=v]> s.
Proof.
  intros Hi H. cbv zeta in H. assert (0 < D0) by nia.
  rewrite rem_of_nat, quot_of_nat in H by assumption.
  replace (Z.of_nat (i mod D0) * Z.of_nat D1 + Z.of_nat (i / D0) * 1)%Z
    with (Z.of_nat (i mod D0 * D1 + i / D0)) in H by lia.
  rewrite read_at_nat in H.
  apply bind_Ok in H as (f & Hf & H). apply read_Ok in Hf.
  apply bind_Ok in H as (d2 & Hd2 & H).
  apply bind_Ok in H as (v & Hv & H). rewrite write_at_nat in H.
  apply write_Ok in H as [Hlt ->].
  rewrite clamp_min_max in Hv.
  exists f, d2, v. split_and!; try done.
  rewrite <- Hv. f_equal. lia.
Qed.

(** [select_kernel] on contiguous arrays, for any grid with a thread. *)
Lemma select_kernel_launch (n_blocks n_threads : nat) (xd id yd y' : list float)
    (D0 D1 D2 : nat) :
  0 < n_blocks * n_threads ->
  launch n_blocks n_threads
    (fun tid =>
       select_kernel tid (n_blocks * n_threads) xd
         (Z.of_nat D0) (Z.of_nat D1) (Z.of_nat D2)
         (Z.of_nat D1 * Z.of_nat D2) (Z.of_nat D2) 1
         id (Z.of_nat D1) 1 (Z.of_nat D1) 1) yd = Ok y' ->
  length y' = length yd /\
  (forall d0 d1, d0 < D0 -> d1 < D1 ->
     exists f d2 v,
       id !! (d0 * D1 + d1) = Some f /\ float_to_long f = Ok d2 /\
       read_at xd (Z.of_nat ((d0 * D1 + d1) * D2)
                   + Z.min (Z.max d2 0) (Z.of_nat D2 - 1)) = Ok v /\
       y' !! (d0 * D1 + d1) = Some v) /\
  (forall c, D0 * D1 <= c -> y' !! c = yd !! c).
Proof.
  intros Hgrid H. unfold select_kernel in H.
  destruct (launch_grid_stride (St:=list float) n_blocks n_threads
              (Z.to_nat (Z.of_nat D0 * Z.of_nat D1)) Hgrid) as (l & Hrun & Hin).
  rewrite Hrun in H. clear Hrun.
  assert (Hl : forall i, i ∈ l <-> i < D0 * D1).
  { intros i. rewrite Hin. lia. }
  clear Hin.
  pose (cell := fun i => i mod D0 * D1 + i / D0).
  pose (val := fun i =>
    match float_to_long (id !!! cell i) with
    | Ok d2 =>
        match read_at xd (Z.of_nat (cell i * D2)
                          + Z.min (Z.max d2 0) (Z.of_nat D2 - 1)) with
        | Ok v => v
        | _ => NaN
        end
    | _ => NaN
    end).
  assert (Hround : forall i s s', i ∈ l ->
    (let idx := Z.of_nat i in
     let d0 := Z.rem idx (Z.of_nat D0) in
     let d1 := Z.quot idx (Z.of_nat D0) in
     f ← read_at id (d0 * Z.of_nat D1 + d1 * 1)%Z;
     d2 ← float_to_long f;
     let d2 := if decide (d2 < 0)%Z then 0%Z else d2 in
     let d2 := if decide (d2 >= Z.of_nat D2)%Z then (Z.of_nat D2 - 1)%Z else d2 in
     v ← read_at xd (d0 * (Z.of_nat D1 * Z.of_nat D2) + d1 * Z.of_nat D2
                     + d2 * 1)%Z;
     write_at s (d0 * Z.of_nat D1 + d1 * 1)%Z v) = Ok s' ->
    exists f d2 v,
      id !! cell i = Some f /\ float_to_long f = Ok d2 /\
      read_at xd (Z.of_nat (cell i * D2)
                  + Z.min (Z.max d2 0) (Z.of_nat D2 - 1)) = Ok v /\
      val i = v /\ cell i < length s /\ s' = <[cell i:=v]> s).
  { intros i s s' Hi Hb. apply Hl in Hi.
    destruct (select_round xd id D0 D1 D2 i s s' Hi Hb)
      as (f & d2 & v & Hf & Hd2 & Hv & Hlt & ->).
    exists f, d2, v. split_and!; try done.
    unfold val. fold (cell i) in Hf, Hv.
    by rewrite (list_lookup_total_correct _ _ _ Hf), Hd2, Hv. }
  pose proof (for_each_all_ok _ _ _ _ H) as Hok.
  apply (for_each_scatter_vals cell val) in H.
  - destruct H as (Hlen & Hcells & Hrest). split_and!; [exact Hlen| |].
    + intros d0 d1 Hd0 Hd1.
      destruct (transposed_cell_of D0 D1 d0 d1 Hd0 Hd1) as (Hlt & Hm & Hd).
      assert (Hi : d1 * D0 + d0 ∈ l) by (by apply Hl).
      destruct (Hok _ Hi) as (s & s' & Hb).
      destruct (Hround _ _ _ Hi Hb) as (f & d2 & v & Hf & Hd2 & Hv & Hval & _).
      specialize (Hcells _ Hi). unfold cell in Hf, Hv, Hcells.
      rewrite Hm, Hd in Hf, Hv, Hcells.
      exists f, d2, v. split_and!; try done. by rewrite Hcells, Hval.
    + intros c Hc. apply Hrest. intros i Hi. apply Hl in Hi. unfold cell.
      assert (0 < D0) by nia.
      assert (i / D0 < D1) by (apply Nat.Div0.div_lt_upper_bound; nia).
      pose proof (Nat.mod_upper_bound i D0 ltac:(lia)). nia.
  - intros i s s' Hi Hb.
    destruct (Hround _ _ _ Hi Hb) as (f & d2 & v & _ & _ & _ & -> & Hlt & ->).
    done.
  - intros i j Hi Hj Hc. apply Hl in Hi, Hj. unfold cell in Hc.
    by rewrite (transposed_cell_inj D0 D1 i j Hi Hj Hc).
Qed.

Lemma float_to_long_IZR (z : Z) :
  (- 2 ^ 63 <= z < 2 ^ 63)%Z -> float_to_long (Fin (IZR z)) = Ok z.
Proof.
  intros Hz. unfold float_to_long.
  assert (H63 : (2 ^ 63)%R = IZR (2 ^ 63)).
  { change (2 ^ 63)%Z with (2 ^ Z.of_nat 63)%Z. by rewrite <- pow_IZR. }
  destruct (Rlt_dec (- 2 ^ 63 - 1) (IZR z)) as [_|Hn].
  2:{ exfalso. apply Hn. rewrite H63, <- opp_IZR, <- minus_IZR.
      apply IZR_lt. lia. }
  destruct (Rlt_dec (IZR z) (2 ^ 63)) as [_|Hn].
  2:{ exfalso. apply Hn. rewrite H63. apply IZR_lt. lia. }
  f_equal. destruct (Rle_dec 0 (IZR z)) as [Hpos|Hneg].
  - symmetry. apply Int_part_spec. lra.
  - rewrite <- opp_IZR. rewrite <- (Int_part_spec (IZR (- z)) (- z)); [lia|lra].
Qed.

#[local] Hint Rewrite float_to_long_IZR using lia : fl.

(** As [exec], for the kernels that convert floats to [long]. *)
Ltac eval_atom_long :=
  repeat first
    [ progress lazy -[prob_add feq float_to_unsigned float_to_long IZR]
    | progress unfold fzero, fone
    | progress autorewrite with fl ];
  reflexivity.

Ltac exec_long :=
  lazymatch goal with
  | |- Ok _ = _ => eval_atom_long
  | |- Fault = _ => reflexivity
  | |- AssertFail = _ => reflexivity
  | |- (?m ≫= ?f) = _ =>
      let H := fresh "Hrun" in
      eassert (m = _) as H by exec_long;
      lazymatch type of H with
      | _ = Ok ?v =>
          refine (bind_eq_Ok m v f _ H _); clear H; cbv beta iota; exec_long
      | _ = Fault => exact (bind_eq_Fault m f H)
      | _ = AssertFail => exact (bind_eq_AssertFail m f H)
      end
  | |- float_to_long _ = _ => eval_atom_long
  | |- assert _ = _ => eval_atom_long
  | |- read _ _ = _ => eval_atom_long
  | |- write _ _ _ = _ => eval_atom_long
  | |- read_at _ _ = _ => eval_atom_long
  | |- write_at _ _ _ = _ => eval_atom_long
  | |- for_each [] _ _ = _ => eval_atom_long
  | |- for_each (_ :: _) _ _ = _ => rewrite for_each_cons; exec_long
  | |- for_each ?l _ _ = _ =>
      let l' := eval lazy in l in
      change l with l'; exec_long
  | |- launch _ _ _ _ = _ => unfold launch; exec_long
  | |- grid_stride_loop ?fuel _ _ _ _ _ = _ =>
      let f' := eval lazy in fuel in
      change fuel with f'; cbn [grid_stride_loop]; exec_long
  | |- (if ?c then _ else _) = _ =>
      let c' := eval lazy -[prob_add feq float_to_unsigned float_to_long IZR] in c in
      first [ progress (change c with c'; cbv iota)
            | progress (autorewrite with fl; cbv iota) ];
      exec_long
  | |- ?x = _ =>
      let h := head_of x in first [unfold h; exec_long | eval_atom_long]
  end.

(** The forward pass on contiguous arrays, for any grid with a thread:
    [y[d0, d1] = x[d0, d1, d2]] where [d2] is [idx[d0, d1]], converted to
    [long] and clamped into [0 .. x_dim2 - 1]; the cells beyond [y] are
    kept. *)
Theorem select_result (n_blocks n_threads : nat) (x idx y : Ndarray float)
    (y' : list float) :
  0 < n_blocks * n_threads ->
  c_fw_code n_blocks n_threads x idx y = Ok y' ->
  length y' = length (DATA y) /\
  (forall d0 d1, d0 < Ndarray_DIMS x 0 -> d1 < Ndarray_DIMS x 1 ->
     exists f d2 v,
       DATA idx !! (d0 * Ndarray_DIMS x 1 + d1) = Some f /\
       float_to_long f = Ok d2 /\
       read_at (DATA x)
         (Z.of_nat ((d0 * Ndarray_DIMS x 1 + d1) * Ndarray_DIMS x 2)
          + Z.min (Z.max d2 0) (Z.of_nat (Ndarray_DIMS x 2) - 1)) = Ok v /\
       y' !! (d0 * Ndarray_DIMS x 1 + d1) = Some v) /\
  (forall c, Ndarray_DIMS x 0 * Ndarray_DIMS x 1 <= c ->
     y' !! c = DATA y !! c).
Proof.
  intros Hgrid H. unfold c_fw_code in H.
  repeat (apply bind_Ok in H as ([] & ?Ha & H)).
  repeat match goal with
  | H : assert _ = Ok _ |- _ => apply assert_Ok in H
  | H : (_ =? _)%nat = true |- _ => apply Nat.eqb_eq in H
  | H : (_ =? _)%Z = true |- _ => apply Z.eqb_eq in H
  end.
  destruct (strides3 x) as (Hx0 & Hx1 & Hx2); [assumption|].
  destruct (strides2 idx) as (Hi0 & Hi1); [assumption|].
  destruct (strides2 y) as (Hy0 & Hy1); [assumption|].
  rewrite Hx0, Hx1, Hx2, Hi0, Hi1, Hy0, Hy1 in H.
  replace (DIM y 1) with (DIM x 1) in H by congruence.
  replace (DIM idx 1) with (DIM x 1) in H by congruence.
  unfold DIM in H. by apply select_kernel_launch in H.
Qed.

Lemma select_run : c_fw_code 1 1 select_x select_idx select_y
                   = Ok [Fin 11; Fin 21].
Proof. exec_long. Qed.

(** On [select_x]: the index 5 of the second vector is clamped to 1. *)
Lemma select_result_witness :
  exists f d2 v,
    DATA select_idx !! (0 * Ndarray_DIMS select_x 1 + 1) = Some f /\
    float_to_long f = Ok d2 /\
    read_at (DATA select_x)
      (Z.of_nat ((0 * Ndarray_DIMS select_x 1 + 1) * Ndarray_DIMS select_x 2)
       + Z.min (Z.max d2 0) (Z.of_nat (Ndarray_DIMS select_x 2) - 1)) = Ok v /\
    [Fin 11; Fin 21] !! (0 * Ndarray_DIMS select_x 1 + 1) = Some v.
Proof.
  apply (proj1 (proj2 (select_result 1 1 select_x select_idx select_y _
                         ltac:(lia) select_run)) 0 1); vm_compute; lia.
Defined.

Lemma for_each_total_list {St} (J : St -> Prop)
    (body : nat -> St -> outcome St) (l : list nat) (st : St) :
  J st ->
  (forall i s, i ∈ l -> J s -> exists s', body i s = Ok s' /\ J s') ->
  exists st', for_each l body st = Ok st' /\ J st'.
Proof.
  revert st. induction l as [|a l IH]; intros st Hst Hb; [by exists st|].
  destruct (Hb a st) as (s1 & Ha & Hs1); [apply elem_of_cons; by left|done|].
  destruct (IH s1 Hs1) as (st' & Hrun & Hst').
  { intros i s Hi. apply Hb. apply elem_of_cons. by right. }
  exists st'. rewrite for_each_cons, Ha. done.
Qed.

(** The clamp makes [select_kernel] safe: when the three arrays have the
    sizes of their shapes, the shapes agree, [x_dim2] is not 0 and every
    index can be converted to [long], the forward pass returns, whatever the
    indices are. *)
Theorem select_is_memory_safe (n_blocks n_threads : nat)
    (x idx y : Ndarray float) :
  NDIM x = 3 -> NDIM idx = 2 -> NDIM y = 2 ->
  Ndarray_DIMS x 0 = Ndarray_DIMS idx 0 ->
  Ndarray_DIMS x 1 = Ndarray_DIMS idx 1 ->
  Ndarray_DIMS y 0 = Ndarray_DIMS idx 0 ->
  Ndarray_DIMS y 1 = Ndarray_DIMS idx 1 ->
  length (DATA x) = Ndarray_DIMS x 0 * Ndarray_DIMS x 1 * Ndarray_DIMS x 2 ->
  length (DATA idx) = Ndarray_DIMS x 0 * Ndarray_DIMS x 1 ->
  length (DATA y) = Ndarray_DIMS x 0 * Ndarray_DIMS x 1 ->
  0 < Ndarray_DIMS x 2 ->
  (forall c f, DATA idx !! c = Some f -> exists d2, float_to_long f = Ok d2) ->
  exists y', c_fw_code n_blocks n_threads x idx y = Ok y'.
Proof.
  intros HNx HNi HNy H0 H1 Hy0 Hy1 Hlx Hli Hly HD2 Hconv.
  unfold c_fw_code. unfold DIM.
  rewrite HNx, HNi, HNy, H0, H1, Hy0, Hy1, !Nat.eqb_refl, !Z.eqb_refl.
  cbn [assert mbind outcome_bind].
  destruct (strides3 x) as (Hx0 & Hx1 & Hx2); [assumption|].
  destruct (strides2 idx) as (Hi0 & Hi1); [assumption|].
  destruct (strides2 y) as (Hs0 & Hs1); [assumption|].
  rewrite Hx0, Hx1, Hx2, Hi0, Hi1, Hs0, Hs1. unfold DIM.
  rewrite Hy1, <- H1.
  set (D0 := Ndarray_DIMS x 0) in *. set (D1 := Ndarray_DIMS x 1) in *.
  set (D2 := Ndarray_DIMS x 2) in *.
  destruct (decide (n_blocks * n_threads = 0)) as [Hz|Hnz].
  { unfold launch. rewrite Hz. by eexists. }
  destruct (launch_grid_stride (St:=list float) n_blocks n_threads
              (Z.to_nat (Z.of_nat (Ndarray_DIMS idx 0) * Z.of_nat D1))
              ltac:(lia)) as (l & Hrun & Hin).
  unfold select_kernel. rewrite Hrun.
  destruct (for_each_total_list (fun s => length s = D0 * D1)
    (fun idx0 y0 =>
       let idx1 := Z.of_nat idx0 in
       let d0 := Z.rem idx1 (Z.of_nat (Ndarray_DIMS idx 0)) in
       let d1 := Z.quot idx1 (Z.of_nat (Ndarray_DIMS idx 0)) in
       i ← read_at (DATA idx) (d0 * Z.of_nat D1 + d1 * 1)%Z;
       d2 ← float_to_long i;
       let d3 := if decide (d2 < 0)%Z then 0%Z else d2 in
       let d4 := if decide (d3 >= Z.of_nat D2)%Z then (Z.of_nat D2 - 1)%Z else d3 in
       v ← read_at (DATA x)
             (d0 * (Z.of_nat D1 * Z.of_nat D2) + d1 * Z.of_nat D2 + d4 * 1)%Z;
       write_at y0 (d0 * Z.of_nat D1 + d1 * 1)%Z v)
    l (DATA y) Hly) as (y' & Hy' & _); [|by exists y'].
  intros i s Hi Hs. apply Hin in Hi. rewrite <- H0 in *. fold D0 in Hi |- *.
  assert (Hi' : i < D0 * D1) by lia. assert (0 < D0) by nia.
  assert (i / D0 < D1) by (apply Nat.Div0.div_lt_upper_bound; nia).
  pose proof (Nat.mod_upper_bound i D0 ltac:(lia)) as Hm.
  assert (Hc : i mod D0 * D1 + i / D0 < D0 * D1) by nia.
  cbv zeta. rewrite rem_of_nat, quot_of_nat by assumption.
  replace (Z.of_nat (i mod D0) * Z.of_nat D1 + Z.of_nat (i / D0) * 1)%Z
    with (Z.of_nat (i mod D0 * D1 + i / D0)) by lia.
  set (c := i mod D0 * D1 + i / D0) in *.
  rewrite read_at_nat.
  destruct (lookup_lt_is_Some_2 (DATA idx) c ltac:(lia)) as [f Hf].
  rewrite (read_lookup _ _ _ Hf). cbn [mbind outcome_bind].
  destruct (Hconv _ _ Hf) as [d2 ->]. cbn [mbind outcome_bind].
  rewrite clamp_min_max.
  replace (Z.of_nat (i mod D0) * (Z.of_nat D1 * Z.of_nat D2)
           + Z.of_nat (i / D0) * Z.of_nat D2
           + Z.min (Z.max d2 0) (Z.of_nat D2 - 1) * 1)%Z
    with (Z.of_nat (c * D2 + Z.to_nat (Z.min (Z.max d2 0) (Z.of_nat D2 - 1))))
    by (subst c; lia).
  rewrite read_at_nat.
  destruct (lookup_lt_is_Some_2 (DATA x)
              (c * D2 + Z.to_nat (Z.min (Z.max d2 0) (Z.of_nat D2 - 1))))
    as [v Hv]; [rewrite Hlx; fold D0 D1 D2; nia|].
  rewrite (read_lookup _ _ _ Hv). cbn [mbind outcome_bind].
  rewrite write_at_nat, write_lt by lia.
  eexists. split; [reflexivity|]. by rewrite length_insert.
Qed.

(** On [select_x], for a grid of two blocks of three threads. *)
Lemma select_is_memory_safe_witness :
  exists y', c_fw_code 2 3 select_x select_idx select_y = Ok y'.
Proof.
  apply select_is_memory_safe; try reflexivity; try (vm_compute; lia).
  intros c f Hf. destruct c as [|[|c]]; cbn in Hf; try discriminate;
    injection Hf as <-; eexists; apply float_to_long_IZR; lia.
Defined.

(** One round of the loop of [select_bw_kernel] on contiguous arrays. *)
Lemma select_bw_round (id dy : list float) (D0 D1 D2 : nat) (i : nat)
    (s s' : list float) :
  i < D0 * D1 ->
  (let idx := Z.of_nat i in
   let d0 := Z.rem idx (Z.of_nat D0) in
   let d1 := Z.quot idx (Z.of_nat D0) in
   f ← read_at id (d0 * Z.of_nat D1 + d1 * 1)%Z;
   d2 ← float_to_long f;
   let d2 := if decide (d2 < 0)%Z then 0%Z else d2 in
   let d2 := if decide (d2 >= Z.of_nat D2)%Z then (Z.of_nat D2 - 1)%Z else d2 in
   v ← read_at dy (d0 * Z.of_nat D1 + d1 * 1)%Z;
   write_at s (d0 * (Z.of_nat D1 * Z.of_nat D2) + d1 * Z.of_nat D2
               + d2 * 1)%Z v) = Ok s' ->
  let c := i mod D0 * D1 + i / D0 in
  exists f d2 v k,
    id !! c = Some f /\ float_to_long f = Ok d2 /\ dy !! c = Some v /\
    Z.min (Z.max d2 0) (Z.of_nat D2 - 1) = Z.of_nat k /\ k < D2 /\
    c * D2 + k < length s /\ s' = <[c * D2 + k:=v]> s.
Proof.
  intros Hi H. cbv zeta in H. assert (0 < D0) by nia.
  rewrite rem_of_nat, quot_of_nat in H by assumption.
  replace (Z.of_nat (i mod D0) * Z.of_nat D1 + Z.of_nat (i / D0) * 1)%Z
    with (Z.of_nat (i mod D0 * D1 + i / D0)) in H by lia.
  rewrite !read_at_nat in H.
  apply bind_Ok in H as (f & Hf & H). apply read_Ok in Hf.
  apply bind_Ok in H as (d2 & Hd2 & H).
  apply bind_Ok in H as (v & Hv & H). apply read_Ok in Hv.
  rewrite clamp_min_max in H. unfold write_at in H.
  destruct (decide _) as [Hin|]; [|discriminate].
  apply write_Ok in H as [Hlt ->].
  cbv zeta.
  remember (Z.min (Z.max d2 0) (Z.of_nat D2 - 1)) as m eqn:Em.
  assert (Hmb : (m <= Z.of_nat D2 - 1)%Z) by lia.
  assert (Hm : (0 <= m)%Z).
  { destruct (decide (0 <= m)%Z) as [|Hneg]; [done|]. exfalso.
    assert (D2 = 0) as HD by lia. clear Em. subst D2.
    change (Z.of_nat 0) with 0%Z in Hin. rewrite !Z.mul_0_r in Hin. lia. }
  exists f, d2, v, (Z.to_nat m). rewrite <- Em. clear Em.
  split_and!; try done; try lia.
  f_equal.
    assert (E : Z.of_nat ((i mod D0 * D1 + i / D0) * D2 + Z.to_nat m)
                = (Z.of_nat (i mod D0) * (Z.of_nat D1 * Z.of_nat D2)
                   + Z.of_nat (i / D0) * Z.of_nat D2 + m * 1)%Z).
    { rewrite Nat2Z.inj_add, Z2Nat.id, !Nat2Z.inj_mul, Nat2Z.inj_add,
        Nat2Z.inj_mul by lia. ring. }
    rewrite <- E. by rewrite Nat2Z.id.
Qed.

(** [select_bw_kernel] on contiguous arrays, for any grid with a thread. *)
Lemma select_bw_kernel_launch (n_blocks n_threads : nat)
    (id dy dx dx' : list float) (D0 D1 D2 : nat) :
  0 < n_blocks * n_threads ->
  launch n_blocks n_threads
    (fun tid =>
       select_bw_kernel tid (n_blocks * n_threads)
         (Z.of_nat D0) (Z.of_nat D1) (Z.of_nat D2)
         (Z.of_nat D1 * Z.of_nat D2) (Z.of_nat D2) 1
         id (Z.of_nat D1) 1 dy (Z.of_nat D1) 1) dx = Ok dx' ->
  length dx' = length dx /\
  (forall d0 d1, d0 < D0 -> d1 < D1 ->
     exists f d2 v k,
       id !! (d0 * D1 + d1) = Some f /\ float_to_long f = Ok d2 /\
       dy !! (d0 * D1 + d1) = Some v /\
       Z.min (Z.max d2 0) (Z.of_nat D2 - 1) = Z.of_nat k /\ k < D2 /\
       dx' !! ((d0 * D1 + d1) * D2 + k) = Some v) /\
  (forall j,
     (forall d0 d1 f d2, d0 < D0 -> d1 < D1 ->
        id !! (d0 * D1 + d1) = Some f -> float_to_long f = Ok d2 ->
        j <> (d0 * D1 + d1) * D2
             + Z.to_nat (Z.min (Z.max d2 0) (Z.of_nat D2 - 1))) ->
     dx' !! j = dx !! j).
Proof.
  intros Hgrid H. unfold select_bw_kernel in H.
  destruct (launch_grid_stride (St:=list float) n_blocks n_threads
              (Z.to_nat (Z.of_nat D0 * Z.of_nat D1)) Hgrid) as (l & Hrun & Hin).
  rewrite Hrun in H. clear Hrun.
  assert (Hl : forall i, i ∈ l <-> i < D0 * D1).
  { intros i. rewrite Hin. lia. }
  clear Hin.
  pose (cell := fun i => i mod D0 * D1 + i / D0).
  pose (kof := fun i =>
    match float_to_long (id !!! cell i) with
    | Ok d2 => Z.to_nat (Z.min (Z.max d2 0) (Z.of_nat D2 - 1))
    | _ => 0
    end).
  pose (val := fun i => dy !!! cell i).
  assert (Hround : forall i s s', i ∈ l ->
    (let idx := Z.of_nat i in
     let d0 := Z.rem idx (Z.of_nat D0) in
     let d1 := Z.quot idx (Z.of_nat D0) in
     f ← read_at id (d0 * Z.of_nat D1 + d1 * 1)%Z;
     d2 ← float_to_long f;
     let d2 := if decide (d2 < 0)%Z then 0%Z else d2 in
     let d2 := if decide (d2 >= Z.of_nat D2)%Z then (Z.of_nat D2 - 1)%Z else d2 in
     v ← read_at dy (d0 * Z.of_nat D1 + d1 * 1)%Z;
     write_at s (d0 * (Z.of_nat D1 * Z.of_nat D2) + d1 * Z.of_nat D2
                 + d2 * 1)%Z v) = Ok s' ->
    exists f d2,
      id !! cell i = Some f /\ float_to_long f = Ok d2 /\
      dy !! cell i = Some (val i) /\
      Z.min (Z.max d2 0) (Z.of_nat D2 - 1) = Z.of_nat (kof i) /\ kof i < D2 /\
      cell i * D2 + kof i < length s /\ s' = <[cell i * D2 + kof i:=val i]> s).
  { intros i s s' Hi Hb. apply Hl in Hi.
    destruct (select_bw_round id dy D0 D1 D2 i s s' Hi Hb)
      as (f & d2 & v & k & Hf & Hd2 & Hv & Hk & HkD & Hlt & ->).
    fold (cell i) in Hf, Hv, Hlt |- *.
    assert (Hkof : kof i = k).
    { unfold kof. rewrite (list_lookup_total_correct _ _ _ Hf), Hd2, Hk. lia. }
    assert (Hval : val i = v)
      by (unfold val; by rewrite (list_lookup_total_correct _ _ _ Hv)).
    exists f, d2. rewrite Hkof, Hval. by split_and!. }
  pose proof (for_each_all_ok _ _ _ _ H) as Hok.
  assert (HkD : forall i, i ∈ l -> kof i < D2).
  { intros i Hi. destruct (Hok _ Hi) as (s & s' & Hb).
    destruct (Hround _ _ _ Hi Hb) as (f & d2 & _ & _ & _ & _ & HkD & _). done. }
  apply (for_each_scatter_vals (fun i => cell i * D2 + kof i) val) in H.
  - destruct H as (Hlen & Hcells & Hrest). split_and!; [exact Hlen| |].
    + intros d0 d1 Hd0 Hd1.
      destruct (transposed_cell_of D0 D1 d0 d1 Hd0 Hd1) as (Hlt & Hm & Hd).
      assert (Hi : d1 * D0 + d0 ∈ l) by (by apply Hl).
      destruct (Hok _ Hi) as (s & s' & Hb).
      destruct (Hround _ _ _ Hi Hb)
        as (f & d2 & Hf & Hd2 & Hv & Hk & Hkl & _).
      specialize (Hcells _ Hi). cbv beta in Hcells.
      unfold cell in Hf, Hv, Hcells. rewrite Hm, Hd in Hf, Hv, Hcells.
      exists f, d2, (val (d1 * D0 + d0)), (kof (d1 * D0 + d0)).
      by split_and!.
    + intros c Hc. apply Hrest. intros i Hi Heq.
      destruct (Hok _ Hi) as (s & s' & Hb).
      destruct (Hround _ _ _ Hi Hb) as (f & d2 & Hf & Hd2 & _ & Hk & _).
      apply Hl in Hi. assert (0 < D0) by nia.
      assert (i / D0 < D1) by (apply Nat.Div0.div_lt_upper_bound; nia).
      pose proof (Nat.mod_upper_bound i D0 ltac:(lia)) as Hmod.
      apply (Hc (i mod D0) (i / D0) f d2 Hmod ltac:(done) Hf Hd2).
      rewrite <- Heq, Hk. unfold cell. lia.
  - intros i s s' Hi Hb.
    destruct (Hround _ _ _ Hi Hb) as (f & d2 & _ & _ & _ & _ & _ & Hlt & ->).
    done.
  - intros i j Hi Hj Hc. pose proof (HkD _ Hi). pose proof (HkD _ Hj).
    assert (cell i = cell j) as Hcell by nia.
    apply Hl in Hi, Hj. unfold cell in Hcell.
    by rewrite (transposed_cell_inj D0 D1 i j Hi Hj Hcell).
Qed.

(** The backward pass stores every cell of [Dy] where the forward pass
    picks its cell of [x]: on contiguous arrays, the forward pass on the
    result of the backward pass gives back [Dy]. *)
Theorem select_of_scattered (n_blocks n_threads n_blocks' n_threads' : nat)
    (x idx Dy Dx y : Ndarray float) (Dx' y' : list float) :
  0 < n_blocks * n_threads -> 0 < n_blocks' * n_threads' ->
  c_bw_code n_blocks n_threads x idx Dy Dx = Ok Dx' ->
  c_fw_code n_blocks' n_threads' (mkNdarray Dx' (SHAPE Dx)) idx y = Ok y' ->
  forall d0 d1, d0 < Ndarray_DIMS x 0 -> d1 < Ndarray_DIMS x 1 ->
    exists v, DATA Dy !! (d0 * Ndarray_DIMS x 1 + d1) = Some v /\
              y' !! (d0 * Ndarray_DIMS x 1 + d1) = Some v.
Proof.
  intros Hgrid Hgrid' Hbw Hfw d0 d1 Hd0 Hd1. unfold c_bw_code in Hbw.
  repeat (apply bind_Ok in Hbw as ([] & ?Ha & Hbw)).
  repeat match goal with
  | H : assert _ = Ok _ |- _ => apply assert_Ok in H
  | H : (_ =? _)%nat = true |- _ => apply Nat.eqb_eq in H
  | H : (_ =? _)%Z = true |- _ => apply Z.eqb_eq in H
  end.
  destruct (strides3 Dx) as (Hx0 & Hx1 & Hx2); [assumption|].
  destruct (strides2 idx) as (Hi0 & Hi1); [assumption|].
  destruct (strides2 Dy) as (Hy0 & Hy1); [assumption|].
  rewrite Hx0, Hx1, Hx2, Hi0, Hi1, Hy0, Hy1 in Hbw.
  assert (E0 : Ndarray_DIMS Dx 0 = Ndarray_DIMS x 0)
    by (apply Nat2Z.inj; unfold DIM in *; congruence).
  assert (E1 : Ndarray_DIMS Dx 1 = Ndarray_DIMS x 1)
    by (apply Nat2Z.inj; unfold DIM in *; congruence).
  assert (E2 : Ndarray_DIMS Dx 2 = Ndarray_DIMS x 2)
    by (apply Nat2Z.inj; unfold DIM in *; congruence).
  replace (DIM Dy 1) with (DIM Dx 1) in Hbw by congruence.
  replace (DIM idx 1) with (DIM Dx 1) in Hbw by congruence.
  unfold DIM in Hbw. rewrite E0, E1, E2 in Hbw.
  apply select_bw_kernel_launch in Hbw as (_ & Hcells & _); [|assumption].
  destruct (Hcells d0 d1 Hd0 Hd1) as (f & d2 & v & k & Hf & Hd2 & Hv & Hk & _ & Hdx).
  apply select_result in Hfw as (_ & Hsel & _); [|assumption].
  change (Ndarray_DIMS (mkNdarray Dx' (SHAPE Dx)) 0)
    with (Ndarray_DIMS Dx 0) in Hsel.
  change (Ndarray_DIMS (mkNdarray Dx' (SHAPE Dx)) 1)
    with (Ndarray_DIMS Dx 1) in Hsel.
  change (Ndarray_DIMS (mkNdarray Dx' (SHAPE Dx)) 2)
    with (Ndarray_DIMS Dx 2) in Hsel.
  rewrite E0, E1, E2 in Hsel. cbn [DATA] in Hsel.
  destruct (Hsel d0 d1 Hd0 Hd1) as (f' & d2' & v' & Hf' & Hd2' & Hv' & Hy).
  assert (f' = f) as -> by congruence. assert (d2' = d2) as -> by congruence.
  rewrite Hk, <- Nat2Z.inj_add, read_at_nat, (read_lookup _ _ _ Hdx) in Hv'.
  injection Hv' as <-. by exists v.
Qed.

Lemma select_bw_run :
  c_bw_code 1 1 select_x select_idx select_Dy select_Dx
  = Ok [Fin 0; Fin 7; Fin 0; Fin 8].
Proof. exec_long. Qed.

Lemma select_of_scattered_run :
  c_fw_code 1 1 (mkNdarray [Fin 0; Fin 7; Fin 0; Fin 8] (SHAPE select_Dx))
    select_idx select_y
  = Ok [Fin 7; Fin 8].
Proof. exec_long. Qed.

(** On [select_Dy]: the second cell comes back through the clamped index. *)
Lemma select_of_scattered_witness :
  exists v, DATA select_Dy !! (0 * Ndarray_DIMS select_x 1 + 1) = Some v /\
            [Fin 7; Fin 8] !! (0 * Ndarray_DIMS select_x 1 + 1) = Some v.
Proof.
  apply (select_of_scattered 1 1 1 1 select_x select_idx select_Dy select_Dx
           select_y _ _ ltac:(lia) ltac:(lia) select_bw_run
           select_of_scattered_run 0 1); vm_compute; lia.
Defined.

End SubtensorSelect.

(** ** [NativeOpBaseMixin]: the helpers on the descriptions of the variables *)

Module MixinHelpers.
Import NativeOpBaseMixin.

Lemma connected_before_S (in_info : list Info) (k : nat) (info : Info) :
  in_info !! k = Some info ->
  connected_before in_info (S k)
  = connected_before in_info k + (if is_disconnected info then 0 else 1).
Proof.
  intros Hk. unfold connected_before.
  rewrite (take_S_r _ _ _ Hk), filter_app, length_app. f_equal.
  rewrite filter_cons, filter_nil.
  destruct (is_disconnected info); destruct (decide _); done || congruence.
Qed.

Lemma connected_before_mono (in_info : list Info) (i k : nat) :
  i <= k -> connected_before in_info i <= connected_before in_info k.
Proof.
  induction 1 as [|k _ IH]; [lia|].
  destruct (in_info !! k) as [info|] eqn:Hk.
  - rewrite (connected_before_S _ _ _ Hk). lia.
  - apply lookup_ge_None in Hk. unfold connected_before in *.
    rewrite (take_ge _ (S k)) by lia. rewrite (take_ge in_info k) in IH by lia.
    exact IH.
Qed.

(** The state of the loop of [make_results_of_gradient] after [k]
    inputs. *)
Lemma make_results_loop {T S} (in_info : list Info) (outs : list T) (d : S)
    (k : nat) :
  k <= length in_info ->
  exists res,
    for_each (seq 0 k)
      (fun i '(results, grad_op_outputs) =>
         let info := in_info !!! i in
         if eq_str (get info "gradient" (PStr "")) "disconnected" then
           Ok ((results ++ [inr d])%list, grad_op_outputs)
         else
           Ok ((results ++ (inl <$> take 1 grad_op_outputs))%list,
               drop 1 grad_op_outputs))
      ([], outs)
    = Ok (res, drop (connected_before in_info k) outs) /\
    length res = k - connected_before in_info k
                 + connected_before in_info k `min` length outs /\
    (connected_before in_info k <= length outs ->
     forall i info, i < k -> in_info !! i = Some info ->
       res !! i = if is_disconnected info then Some (inr d)
                  else inl <$> outs !! connected_before in_info i).
Proof.
  induction k as [|k IH]; intros Hk.
  - exists []. split_and!; [reflexivity|reflexivity|intros; lia].
  - destruct (IH ltac:(lia)) as (res & Hrun & Hlen & Hcont).
    destruct (lookup_lt_is_Some_2 in_info k ltac:(lia)) as [info Hinfo].
    pose proof (connected_before_S _ _ _ Hinfo) as HS.
    pose proof (connected_before_mono in_info 0 k ltac:(lia)) as H0.
    assert (Hck : connected_before in_info k <= k).
    { unfold connected_before.
      etrans; [apply length_filter|]. rewrite length_take. lia. }
    rewrite seq_S, for_each_app, Hrun. cbn [mbind outcome_bind Nat.add].
    rewrite for_each_cons. cbn [for_each mbind outcome_bind].
    rewrite (list_lookup_total_correct _ _ _ Hinfo).
    fold (is_disconnected info). destruct (is_disconnected info) eqn:Hd.
    + eexists. rewrite HS, Nat.add_0_r. split_and!; [reflexivity| |].
      * rewrite length_app, Hlen. cbn. lia.
      * intros Hle i info' Hi Hi'. destruct (decide (i = k)) as [->|Hne].
        -- assert (info' = info) as -> by congruence. rewrite Hd.
           rewrite lookup_app_r by lia.
           replace (k - length res) with 0 by lia. reflexivity.
        -- rewrite lookup_app_l by lia. apply Hcont; [done|lia|done].
    + eexists. rewrite HS. split_and!.
      * rewrite drop_drop. do 3 f_equal.
      * rewrite length_app, length_fmap, length_take, length_drop, Hlen. lia.
      * intros Hle i info' Hi Hi'. destruct (decide (i = k)) as [->|Hne].
        -- assert (info' = info) as -> by congruence. rewrite Hd.
           rewrite lookup_app_r by lia.
           replace (k - length res) with 0 by lia.
           rewrite !list_lookup_fmap, lookup_take by lia.
           by rewrite lookup_drop, Nat.add_0_r.
        -- rewrite lookup_app_l by lia. apply Hcont; [lia|lia|done].
Qed.

(** [make_results_of_gradient] returns exactly when it is given one
    gradient per input that is not declared as disconnected, and fails an
    assertion otherwise.  The result has one entry per input: the marker of
    the disconnected type for a disconnected input, and for the others the
    given gradients in their order. *)
Theorem make_results_of_gradient_spec {T S} (in_info : list Info)
    (grad_op_outputs : list T) (disconnected : S) :
  (length grad_op_outputs = connected_before in_info (length in_info) ->
   exists results,
     make_results_of_gradient in_info grad_op_outputs disconnected = Ok results /\
     length results = length in_info /\
     forall i info, in_info !! i = Some info ->
       results !! i
       = if is_disconnected info then Some (inr disconnected)
         else inl <$> grad_op_outputs !! connected_before in_info i) /\
  (length grad_op_outputs <> connected_before in_info (length in_info) ->
   make_results_of_gradient in_info grad_op_outputs disconnected = AssertFail).
Proof.
  destruct (make_results_loop in_info grad_op_outputs disconnected
              (length in_info) ltac:(lia)) as (res & Hrun & Hlen & Hcont).
  unfold make_results_of_gradient.
  match goal with
  | |- context [for_each ?l ?f ?s] =>
      assert (E : for_each l f s
                  = Ok (res, drop (connected_before in_info (length in_info))
                               grad_op_outputs)) by exact Hrun;
      rewrite E; clear E
  end.
  cbn [mbind outcome_bind]. rewrite length_drop.
  assert (Hc : connected_before in_info (length in_info) <= length in_info).
  { unfold connected_before. etrans; [apply length_filter|].
    rewrite length_take. lia. }
  split.
  - intros Heq. exists res.
    replace (length grad_op_outputs
             - connected_before in_info (length in_info)) with 0 by lia.
    assert (Hres : length res = length in_info) by lia.
    rewrite Hres, Nat.eqb_refl. cbn. split_and!; [reflexivity..|].
    intros i info Hi. apply Hcont; [lia| |done].
    by eapply lookup_lt_Some.
  - intros Hne.
    destruct (decide (length grad_op_outputs
                      < connected_before in_info (length in_info))) as [Hlt|Hge].
    + replace (length grad_op_outputs
               - connected_before in_info (length in_info)) with 0 by lia.
      cbn. assert (length res <> length in_info) as Hr by lia.
      by rewrite (proj2 (Nat.eqb_neq _ _) Hr).
    + assert (length grad_op_outputs
              - connected_before in_info (length in_info) <> 0) as Hr by lia.
      by rewrite (proj2 (Nat.eqb_neq _ _) Hr).
Qed.

Lemma make_results_of_gradient_spec_witness :
  exists results,
    make_results_of_gradient three_in_info [10%Z; 20%Z] tt = Ok results /\
    length results = length three_in_info /\
    forall i info, three_in_info !! i = Some info ->
      results !! i
      = if is_disconnected info then Some (inr tt)
        else inl <$> [10%Z; 20%Z] !! connected_before three_in_info i.
Proof.
  apply (proj1 (make_results_of_gradient_spec three_in_info [10%Z; 20%Z] tt)).
  vm_compute. reflexivity.
Defined.

Lemma inplace_target_eq (info : Info) :
  inplace_target info
  = match as_int (get info "want_inplace" (PInt (-1))) with
    | Some w =>
        if (0 <=? w)%Z && truthy (get info "is_inplace" (PBool false))
        then Some w else None
    | None => None
    end.
Proof. reflexivity. Qed.

(** The state of the loop of [_construct_destroy_map] after [k] inputs. *)
Lemma construct_destroy_map_loop (in_info : list Info) (k : nat) :
  k <= length in_info ->
  match
    for_each (seq 0 k)
      (fun in_idx destroy_map =>
         let info := in_info !!! in_idx in
         match as_int (get info "want_inplace" (PInt (-1))) with
         | None => AssertFail
         | Some want_inplace =>
             if (0 <=? want_inplace)%Z && truthy (get info "is_inplace" (PBool false))
             then
               let out_idx := want_inplace in
               if decide (is_Some (destroy_map !! out_idx)) then AssertFail
               else Ok (<[out_idx := [in_idx]]> destroy_map)
             else Ok destroy_map
         end)
      (∅ : gmap Z (list nat))
  with
  | Ok m =>
      (forall i info, i < k -> in_info !! i = Some info ->
         is_Some (as_int (get info "want_inplace" (PInt (-1))))) /\
      (forall i j info info' o, i < k -> j < k ->
         in_info !! i = Some info -> in_info !! j = Some info' ->
         inplace_target info = Some o -> inplace_target info' = Some o ->
         i = j) /\
      (forall o l, m !! o = Some l <->
         exists i info, i < k /\ l = [i] /\ in_info !! i = Some info /\
                        inplace_target info = Some o)
  | AssertFail =>
      ~ ((forall i info, i < k -> in_info !! i = Some info ->
            is_Some (as_int (get info "want_inplace" (PInt (-1))))) /\
         (forall i j info info' o, i < k -> j < k ->
            in_info !! i = Some info -> in_info !! j = Some info' ->
            inplace_target info = Some o -> inplace_target info' = Some o ->
            i = j))
  | Fault => False
  end.
Proof.
  induction k as [|k IH]; intros Hk.
  - cbn. split_and!; [intros; lia|intros; lia|].
    intros o l. rewrite lookup_empty. split; [done|].
    intros (i & _ & Hi & _). lia.
  - specialize (IH ltac:(lia)).
    destruct (lookup_lt_is_Some_2 in_info k ltac:(lia)) as [info Hinfo].
    rewrite seq_S, for_each_app.
    destruct (for_each (seq 0 k) _ _) as [m| |]; cbn [mbind outcome_bind];
      [|intros [Hi Hd]; apply IH; split;
        [intros i info' ? ?; apply (Hi i); [lia|done]
        |intros i j info1 info2 o ? ? ? ? ? ?;
         apply (Hd i j info1 info2 o); done || lia]
       |done].
    destruct IH as (Hints & Hdist & Hchar).
    cbn [Nat.add]. rewrite for_each_cons. cbn [for_each].
    rewrite (list_lookup_total_correct _ _ _ Hinfo).
    pose proof (inplace_target_eq info) as Ht.
    destruct (as_int (get info "want_inplace" (PInt (-1)))) as [w|] eqn:Hw;
      cbn [mbind outcome_bind].
    2:{ intros [Hi _]. destruct (Hi k info ltac:(lia) Hinfo) as [w Hw'].
        congruence. }
    assert (Hints' : forall i info', i < S k -> in_info !! i = Some info' ->
              is_Some (as_int (get info' "want_inplace" (PInt (-1))))).
    { intros i info' Hi Hi'. destruct (decide (i = k)) as [->|Hne].
      - assert (info' = info) as -> by congruence. by eexists.
      - apply (Hints i); [lia|done]. }
    destruct ((0 <=? w)%Z && truthy (get info "is_inplace" (PBool false))).
    + destruct (decide (is_Some (m !! w))) as [[l Hl]|Hnone];
        cbn [mbind outcome_bind].
      * intros [_ Hd]. apply Hchar in Hl as (i & info' & Hi & _ & Hi' & Hti).
        specialize (Hd i k info' info w ltac:(lia) ltac:(lia) Hi' Hinfo Hti Ht).
        lia.
      * split_and!; [done| |].
        -- intros i j info1 info2 o Hi Hj Hi1 Hj2 Ho1 Ho2.
           destruct (decide (i = k)) as [->|Hik], (decide (j = k)) as [->|Hjk];
             [done| | |apply (Hdist i j info1 info2 o); done || lia].
           ++ exfalso. apply Hnone. assert (info1 = info) as -> by congruence.
              assert (o = w) as -> by congruence.
              exists [j]. apply Hchar. exists j, info2.
              split_and!; done || lia.
           ++ exfalso. apply Hnone. assert (info2 = info) as -> by congruence.
              assert (o = w) as -> by congruence.
              exists [i]. apply Hchar. exists i, info1.
              split_and!; done || lia.
        -- intros o l. destruct (decide (o = w)) as [->|How].
           ++ rewrite lookup_insert_eq. split.
              ** intros [= <-]. exists k, info. split_and!; done || lia.
              ** intros (i & info' & Hi & -> & Hi' & Hti).
                 destruct (decide (i = k)) as [->|Hik]; [done|].
                 exfalso. apply Hnone. exists [i]. apply Hchar.
                 exists i, info'. split_and!; done || lia.
           ++ rewrite lookup_insert_ne by done. rewrite Hchar. split.
              ** intros (i & info' & Hi & -> & Hi' & Hti).
                 exists i, info'. split_and!; done || lia.
              ** intros (i & info' & Hi & -> & Hi' & Hti).
                 destruct (decide (i = k)) as [->|Hik].
                 { assert (info' = info) as -> by congruence. congruence. }
                 exists i, info'. split_and!; done || lia.
    + split_and!; [done| |].
      * intros i j info1 info2 o Hi Hj Hi1 Hj2 Ho1 Ho2.
        destruct (decide (i = k)) as [->|Hik].
        { assert (info1 = info) as -> by congruence. congruence. }
        destruct (decide (j = k)) as [->|Hjk].
        { assert (info2 = info) as -> by congruence. congruence. }
        apply (Hdist i j info1 info2 o); done || lia.
      * intros o l. rewrite Hchar. split.
        -- intros (i & info' & Hi & -> & Hi' & Hti).
           exists i, info'. split_and!; done || lia.
        -- intros (i & info' & Hi & -> & Hi' & Hti).
           destruct (decide (i = k)) as [->|Hik].
           { assert (info' = info) as -> by congruence. congruence. }
           exists i, info'. split_and!; done || lia.
Qed.

(** [_construct_destroy_map] returns a dictionary exactly when every
    [want_inplace] is an integer and no two inputs are computed in place on
    the same output; otherwise it fails an assertion, and it raises no other
    exception.  The dictionary maps each such output to the list of its one
    input, and has no other key. *)
Theorem construct_destroy_map_spec (in_info : list Info) :
  match _construct_destroy_map in_info with
  | Ok destroy_map =>
      (forall i info, in_info !! i = Some info ->
         is_Some (as_int (get info "want_inplace" (PInt (-1))))) /\
      (forall i j info info' o,
         in_info !! i = Some info -> in_info !! j = Some info' ->
         inplace_target info = Some o -> inplace_target info' = Some o ->
         i = j) /\
      (forall o l, destroy_map !! o = Some l <->
         exists i info, l = [i] /\ in_info !! i = Some info /\
                        inplace_target info = Some o)
  | AssertFail =>
      ~ ((forall i info, in_info !! i = Some info ->
            is_Some (as_int (get info "want_inplace" (PInt (-1))))) /\
         (forall i j info info' o,
            in_info !! i = Some info -> in_info !! j = Some info' ->
            inplace_target info = Some o -> inplace_target info' = Some o ->
            i = j))
  | Fault => False
  end.
Proof.
  pose proof (construct_destroy_map_loop in_info (length in_info) ltac:(lia)) as H.
  unfold _construct_destroy_map.
  match goal with
  | |- context [for_each ?l ?f ?s] =>
      match type of H with
      | context [for_each ?l' ?f' ?s'] =>
          change (for_each l' f' s') with (for_each l f s) in H
      end;
      destruct (for_each l f s) as [m| |]
  end.
  - destruct H as (Hi & Hd & Hc). split_and!.
    + intros i info Hi'. apply (Hi i); [by eapply lookup_lt_Some|done].
    + intros i j info info' o Hi' Hj'.
      apply (Hd i j info info' o); done || by eapply lookup_lt_Some.
    + intros o l. rewrite Hc. split.
      * intros (i & info & _ & ?). by exists i, info.
      * intros (i & info & -> & Hi' & Ht). exists i, info.
        split_and!; [by eapply lookup_lt_Some|done..].
  - intros [Hi Hd]. apply H. split.
    + intros i info _. apply Hi.
    + intros i j info info' o _ _. apply Hd.
  - done.
Qed.

Lemma dummies_before_S (in_info : list Info) (k : nat) (info : Info) :
  in_info !! k = Some info ->
  dummies_before in_info (S k)
  = dummies_before in_info k + (if wants_dummy_out info then 1 else 0).
Proof.
  intros Hk. unfold dummies_before.
  rewrite (take_S_r _ _ _ Hk), filter_app, length_app. f_equal.
  rewrite filter_cons, filter_nil.
  destruct (wants_dummy_out info); destruct (decide _); done || congruence.
Qed.

(** The state of the loop of [_resolve_want_inplace_dummy] after [k]
    inputs. *)
Lemma resolve_want_inplace_dummy_loop (in_info out_info : list Info) (k : nat) :
  k <= length in_info ->
  match
    for_each (seq 0 k)
      (fun in_idx '(in_info, out_info, num_dummy_outs) =>
         let info := in_info !!! in_idx in
         if eq_str (get info "want_inplace" PNone) "dummy_out" then
           let num_dummy_outs := S num_dummy_outs in
           let dummy_out_idx := length out_info in
           ndim ← item info "ndim";
           n ← (match as_int ndim with Some n => Ok n | None => Fault end);
           let dummy_out : Info :=
             {[ "ndim" := ndim;
                "shape" := PList (shape_refs in_idx n);
                "dtype" := get info "dtype" (PStr "float32");
                "name" := PStr ("dummy_out_" +:+ pretty num_dummy_outs) ]} in
           let out_info := (out_info ++ [dummy_out])%list in
           let info := <["want_inplace" := PInt (Z.of_nat dummy_out_idx)]> info in
           Ok (<[in_idx := info]> in_info, out_info, num_dummy_outs)
         else Ok (in_info, out_info, num_dummy_outs))
      (in_info, out_info, 0)
  with
  | Ok (in_info', out_info', num_dummy_outs) =>
      num_dummy_outs = dummies_before in_info k /\
      length in_info' = length in_info /\
      length out_info' = length out_info + num_dummy_outs /\
      take (length out_info) out_info' = out_info /\
      (forall i, k <= i -> in_info' !! i = in_info !! i) /\
      (forall i info, i < k -> in_info !! i = Some info ->
         if wants_dummy_out info then
           in_info' !! i
           = Some (<["want_inplace" :=
                       PInt (Z.of_nat (length out_info + dummies_before in_info i))]>
                     info) /\
           exists ndim n,
             info !! "ndim" = Some ndim /\ as_int ndim = Some n /\
             out_info' !! (length out_info + dummies_before in_info i)
             = Some ({[ "ndim" := ndim;
                        "shape" := PList (shape_refs i n);
                        "dtype" := get info "dtype" (PStr "float32");
                        "name" := PStr ("dummy_out_"
                                        +:+ pretty (S (dummies_before in_info i))) ]}
                     : Info)
         else in_info' !! i = Some info)
  | Fault =>
      exists i info, i < k /\ in_info !! i = Some info /\
        wants_dummy_out info = true /\
        ~ (exists ndim, info !! "ndim" = Some ndim /\ is_Some (as_int ndim))
  | AssertFail => False
  end.
Proof.
  induction k as [|k IH]; intros Hk.
  - cbn. split_and!; [done|done|lia|by rewrite take_ge|done|intros; lia].
  - specialize (IH ltac:(lia)).
    destruct (lookup_lt_is_Some_2 in_info k ltac:(lia)) as [info Hinfo].
    pose proof (dummies_before_S _ _ _ Hinfo) as HS.
    rewrite seq_S, for_each_app.
    destruct (for_each (seq 0 k) _ _) as [[[in' out'] n]| |];
      cbn [mbind outcome_bind]; [|done|].
    2:{ destruct IH as (i & info' & Hi & Hi' & Hd & Hbad).
        exists i, info'. split_and!; done || lia. }
    destruct IH as (Hn & Hlen & Hlo & Hpre & Hrest & Hchar).
    cbn [Nat.add]. rewrite for_each_cons. cbn [for_each].
    assert (Hk' : in' !! k = Some info) by (by rewrite Hrest by lia).
    rewrite (list_lookup_total_correct _ _ _ Hk').
    fold (wants_dummy_out info). rewrite Hn in Hlo.
    destruct (wants_dummy_out info) eqn:Hd.
    + unfold item. destruct (info !! "ndim") as [ndim|] eqn:Hnd;
        cbn [mbind outcome_bind].
      2:{ exists k, info. split_and!; [lia|done|done|].
          intros (nd & ? & _). congruence. }
      destruct (as_int ndim) as [nn|] eqn:Hnn; cbn [mbind outcome_bind].
      2:{ exists k, info. split_and!; [lia|done|done|].
          intros (nd & ? & [x Hx]). congruence. }
      split_and!.
      * rewrite HS. lia.
      * by rewrite length_insert.
      * rewrite length_app. cbn. lia.
      * rewrite take_app_le by lia. done.
      * intros i Hi. rewrite list_lookup_insert_ne by lia. apply Hrest. lia.
      * intros i info' Hi Hi'. destruct (decide (i = k)) as [->|Hne].
        -- assert (info' = info) as -> by congruence. rewrite Hd. split.
           ++ rewrite list_lookup_insert_eq by lia. by rewrite Hlo.
           ++ exists ndim, nn. split_and!; [done..|].
              rewrite <- Hlo, Hn. by rewrite lookup_app_r, Nat.sub_diag by lia.
        -- rewrite list_lookup_insert_ne by lia.
           specialize (Hchar i info' ltac:(lia) Hi').
           destruct (wants_dummy_out info'); [|done].
           destruct Hchar as (Hin & nd & x & Hnd' & Hx & Hout).
           split; [done|]. exists nd, x. split_and!; [done..|].
           by apply lookup_app_l_Some.
    + cbn [mbind outcome_bind]. split_and!; [lia|done|lia|done| |].
      * intros i Hi. apply Hrest. lia.
      * intros i info' Hi Hi'. destruct (decide (i = k)) as [->|Hne].
        -- assert (info' = info) as -> by congruence. by rewrite Hd.
        -- apply Hchar; [lia|done].
Qed.

(** [_resolve_want_inplace_dummy] raises an exception exactly when an
    input that asks for a dummy output has no integer [ndim], and fails no
    assertion.  Otherwise it keeps the given outputs and appends one output
    per such input, in the order of the inputs; [want_inplace] of the input
    becomes the index of its output, which has the [ndim] and the [dtype] of
    the input and refers to each of its dimensions as its shape.  The other
    inputs are unchanged, and no input asks for a dummy output any more. *)
Theorem resolve_want_inplace_dummy_spec (in_info out_info : list Info) :
  match _resolve_want_inplace_dummy in_info out_info with
  | Ok (in_info', out_info', num_dummy_outs) =>
      num_dummy_outs = dummies_before in_info (length in_info) /\
      length in_info' = length in_info /\
      length out_info' = length out_info + num_dummy_outs /\
      take (length out_info) out_info' = out_info /\
      (forall i info', in_info' !! i = Some info' ->
         wants_dummy_out info' = false) /\
      (forall i info, in_info !! i = Some info ->
         if wants_dummy_out info then
           in_info' !! i
           = Some (<["want_inplace" :=
                       PInt (Z.of_nat (length out_info + dummies_before in_info i))]>
                     info) /\
           exists ndim n,
             info !! "ndim" = Some ndim /\ as_int ndim = Some n /\
             out_info' !! (length out_info + dummies_before in_info i)
             = Some ({[ "ndim" := ndim;
                        "shape" := PList (shape_refs i n);
                        "dtype" := get info "dtype" (PStr "float32");
                        "name" := PStr ("dummy_out_"
                                        +:+ pretty (S (dummies_before in_info i))) ]}
                     : Info)
         else in_info' !! i = Some info)
  | Fault =>
      exists i info, in_info !! i = Some info /\
        wants_dummy_out info = true /\
        ~ (exists ndim, info !! "ndim" = Some ndim /\ is_Some (as_int ndim))
  | AssertFail => False
  end.
Proof.
  pose proof (resolve_want_inplace_dummy_loop in_info out_info (length in_info)
                ltac:(lia)) as H.
  unfold _resolve_want_inplace_dummy.
  match goal with
  | |- context [for_each ?l ?f ?s] =>
      match type of H with
      | context [for_each ?l' ?f' ?s'] =>
          change (for_each l' f' s') with (for_each l f s) in H
      end;
      destruct (for_each l f s) as [[[in' out'] n]| |]
  end.
  - destruct H as (Hn & Hlen & Hlo & Hpre & _ & Hchar).
    assert (Hall : forall i info, in_info !! i = Some info ->
              if wants_dummy_out info then
                in' !! i
                = Some (<["want_inplace" :=
                            PInt (Z.of_nat (length out_info
                                            + dummies_before in_info i))]> info) /\
                exists ndim n,
                  info !! "ndim" = Some ndim /\ as_int ndim = Some n /\
                  out' !! (length out_info + dummies_before in_info i)
                  = Some ({[ "ndim" := ndim;
                             "shape" := PList (shape_refs i n);
                             "dtype" := get info "dtype" (PStr "float32");
                             "name" := PStr ("dummy_out_"
                                             +:+ pretty (S (dummies_before in_info i))) ]}
                          : Info)
              else in' !! i = Some info).
    { intros i info Hi. apply Hchar; [by eapply lookup_lt_Some|done]. }
    split_and!; [done..| |done].
    intros i info' Hi'.
    destruct (lookup_lt_is_Some_2 in_info i) as [info Hi].
    { rewrite <- Hlen. by eapply lookup_lt_Some. }
    specialize (Hall i info Hi). destruct (wants_dummy_out info) eqn:Hd.
    + destruct Hall as [Hin _]. rewrite Hin in Hi'. injection Hi' as <-.
      unfold wants_dummy_out, get, Info in *. by rewrite lookup_insert_eq.
    + congruence.
  - done.
  - destruct H as (i & info & _ & ?). by exists i, info.
Qed.

End MixinHelpers.

(** ** [Chunking]: the kernel and the host code *)

Lemma flat_index_lt (a b n m : nat) : a < n -> b < m -> a * m + b < n * m.
Proof. nia. Qed.

(** A loop whose round [z] stores [val z] in the cell [base + z]. *)
Lemma for_each_fill_range {A} (base n : nat) (val : nat -> A)
    (body : nat -> list A -> outcome (list A)) (s : list A) :
  base + n <= length s ->
  (forall z s0, z < n -> length s0 = length s ->
     body z s0 = Ok (<[base + z:=val z]> s0)) ->
  exists s',
    for_each (seq 0 n) body s = Ok s' /\ length s' = length s /\
    (forall z, z < n -> s' !! (base + z) = Some (val z)) /\
    (forall k, ~ (base <= k < base + n) -> s' !! k = s !! k).
Proof.
  induction n as [|n IH]; intros Hlen Hbody.
  - exists s. split_and!; [reflexivity|reflexivity|intros; lia|reflexivity].
  - destruct IH as (s1 & Hrun & Hl1 & Hin & Hout); [lia|intros; apply Hbody; lia|].
    exists (<[base + n:=val n]> s1). split_and!.
    + rewrite seq_S, for_each_app, Hrun. cbn [mbind outcome_bind Nat.add].
      rewrite for_each_cons, Hbody by lia. reflexivity.
    + by rewrite length_insert.
    + intros z Hz. destruct (decide (z = n)) as [->|Hne].
      * apply list_lookup_insert_eq. lia.
      * rewrite list_lookup_insert_ne by lia. apply Hin. lia.
    + intros k Hk. rewrite list_lookup_insert_ne by lia. apply Hout. lia.
Qed.

(** A loop in which the round [i] establishes [P i] and keeps what the
    other rounds have established; an index may occur more than once. *)
Lemma for_each_rounds {St} (dom : nat -> Prop) (J : St -> Prop)
    (P : nat -> St -> Prop) (body : nat -> St -> outcome St) (l : list nat)
    (st : St) :
  (forall i s, dom i -> J s ->
     exists s', body i s = Ok s' /\ J s' /\ P i s' /\
       forall j, dom j -> j <> i -> P j s -> P j s') ->
  (forall i, i ∈ l -> dom i) -> J st ->
  exists st',
    for_each l body st = Ok st' /\ J st' /\
    (forall i, i ∈ l -> P i st') /\
    (forall j, dom j -> P j st -> P j st').
Proof.
  intros Hbody. revert st. induction l as [|a l IH]; intros st Hl Hst.
  - exists st. split_and!; [reflexivity|done| |done].
    intros i Hi. by apply elem_of_nil in Hi.
  - destruct (Hbody a st) as (s1 & Ha & Hs1 & HPa & Hkeep);
      [apply Hl, elem_of_cons; by left|done|].
    destruct (IH s1) as (st' & Hrun & Hst' & Hin & Hpres);
      [intros i Hi; apply Hl, elem_of_cons; by right|done|].
    exists st'. rewrite for_each_cons, Ha. split_and!; [done|done| |].
    + intros i Hi. apply elem_of_cons in Hi as [->|Hi]; [|by apply Hin].
      apply Hpres; [apply Hl, elem_of_cons; by left|done].
    + intros j Hj HPj. apply Hpres; [done|].
      destruct (decide (j = a)) as [->|Hne]; [done|by apply Hkeep].
Qed.

Module ChunkingCopy.
Import SubtensorBatchedIndex SubtensorSelect ChunkingOp.

(** One round of the loop of copy_kernel on contiguous arrays of the shapes
    [(T, B, N)], [(T, B)], [(S, B * C, N)] and [(S, B * C)]. *)
Lemma copy_kernel_round_spec (xd id : list float) (T B N S C step i : nat)
    (out oidx : list float) :
  0 < C -> i < S * (B * C) ->
  length xd = T * B * N -> length id = T * B ->
  length out = S * (B * C) * N -> length oidx = S * (B * C) ->
  let cell := i mod S * (B * C) + i / S in
  let live := chunk_live id T B step (i mod S) (i / S / C) (i / S mod C) in
  exists out' oidx',
    copy_kernel_round (Z.of_nat step) (Z.of_nat C) xd (Z.of_nat T) (Z.of_nat N)
      (Z.of_nat B * Z.of_nat N) (Z.of_nat N) 1 id (Z.of_nat B) 1
      (Z.of_nat S) (Z.of_nat (B * C) * Z.of_nat N) (Z.of_nat N) 1
      (Z.of_nat (B * C)) 1 i (out, oidx) = Ok (out', oidx') /\
    length out' = length out /\ length oidx' = length oidx /\
    (forall z, z < N ->
       out' !! (cell * N + z)
       = Some (if live
               then xd !!! (((step * (i / S mod C) + i mod S) * B + i / S / C) * N + z)
               else fzero)) /\
    oidx' !! cell = Some (if live then fone else fzero) /\
    (forall k, ~ (cell * N <= k < cell * N + N) -> out' !! k = out !! k) /\
    (forall k, k <> cell -> oidx' !! k = oidx !! k).
Proof.
  intros HC Hi Hx Hid Hout Hoidx. unfold copy_kernel_round. cbv beta zeta iota.
  assert (HS : 0 < S) by nia.
  rewrite !quot_of_nat, !rem_of_nat by lia.
  assert (Ht : i mod S < S) by (apply Nat.mod_upper_bound; lia).
  assert (Hy : i / S < B * C) by (apply Nat.Div0.div_lt_upper_bound; lia).
  assert (Hc : i / S mod C < C) by (apply Nat.mod_upper_bound; lia).
  assert (Hb : i / S / C < B) by (apply Nat.Div0.div_lt_upper_bound; lia).
  set (t := i mod S) in *. set (y := i / S) in *.
  set (c := y mod C) in *. set (b := y / C) in *.
  clearbody c b. clearbody t y. clear Hi.
  rewrite Nat2Z.id.
  replace (Z.of_nat step * Z.of_nat c + Z.of_nat t)%Z
    with (Z.of_nat (step * c + t)) by lia.
  replace (Z.of_nat (step * c + t) * Z.of_nat B + Z.of_nat b * 1)%Z
    with (Z.of_nat ((step * c + t) * B + b)) by lia.
  replace (Z.of_nat t * Z.of_nat (B * C) + Z.of_nat y * 1)%Z
    with (Z.of_nat (t * (B * C) + y)) by lia.
  set (live := chunk_live id T B step t b c).
  assert (Hlive : live = true -> step * c + t < T).
  { unfold live, chunk_live. intros H. apply andb_prop in H as [H _].
    by apply bool_decide_eq_true in H. }
  match goal with
  | |- context [@mbind _ _ bool _ _ ?m] => assert (Hflag : m = Ok live)
  end.
  { unfold live, chunk_live.
    destruct (decide (Z.of_nat (step * c + t) < Z.of_nat T)%Z) as [Hin|Hnin].
    - rewrite bool_decide_true by lia. rewrite read_at_nat.
      destruct (lookup_lt_is_Some_2 id ((step * c + t) * B + b)) as [f Hf];
        [rewrite Hid; apply flat_index_lt; lia|].
      rewrite (read_lookup _ _ _ Hf), (list_lookup_total_correct _ _ _ Hf).
      reflexivity.
    - rewrite bool_decide_false by lia. reflexivity. }
  rewrite Hflag. cbn [mbind outcome_bind]. clear Hflag.
  assert (Hcell : t * (B * C) + y < S * (B * C)) by (by apply flat_index_lt).
  destruct live.
  - specialize (Hlive eq_refl).
    match goal with
    | |- context [for_each (seq 0 N) ?body out] =>
        destruct (for_each_fill_range ((t * (B * C) + y) * N) N
                    (fun z => xd !!! (((step * c + t) * B + b) * N + z))
                    body out) as (out1 & Hrun & Hl1 & Hin1 & Hout1)
    end.
    { rewrite Hout. nia. }
    { intros z s0 Hz Hs0. cbv zeta.
      replace (Z.of_nat (step * c + t) * (Z.of_nat B * Z.of_nat N)
               + Z.of_nat b * Z.of_nat N + Z.of_nat z * 1)%Z
        with (Z.of_nat (((step * c + t) * B + b) * N + z)) by lia.
      replace (Z.of_nat t * (Z.of_nat (B * C) * Z.of_nat N)
               + Z.of_nat y * Z.of_nat N + Z.of_nat z * 1)%Z
        with (Z.of_nat ((t * (B * C) + y) * N + z)) by lia.
      rewrite read_at_nat.
      destruct (lookup_lt_is_Some_2 xd (((step * c + t) * B + b) * N + z))
        as [v Hv]; [rewrite Hx; by repeat apply flat_index_lt|].
      rewrite (read_lookup _ _ _ Hv), (list_lookup_total_correct _ _ _ Hv).
      cbn [mbind outcome_bind]. rewrite write_at_nat, write_lt; [done|].
      rewrite Hs0, Hout. by repeat apply flat_index_lt. }
    rewrite Hrun. cbn [mbind outcome_bind].
    rewrite write_at_nat, write_lt by lia. cbn [mbind outcome_bind].
    eexists _, _. split_and!; [reflexivity|done|by rewrite length_insert|done| |
                               done|].
    + apply list_lookup_insert_eq. lia.
    + intros k Hk. by apply list_lookup_insert_ne.
  - match goal with
    | |- context [for_each (seq 0 N) ?body out] =>
        destruct (for_each_fill_range ((t * (B * C) + y) * N) N
                    (fun _ => fzero) body out)
          as (out1 & Hrun & Hl1 & Hin1 & Hout1)
    end.
    { rewrite Hout. nia. }
    { intros z s0 Hz Hs0. cbv zeta.
      replace (Z.of_nat t * (Z.of_nat (B * C) * Z.of_nat N)
               + Z.of_nat y * Z.of_nat N + Z.of_nat z * 1)%Z
        with (Z.of_nat ((t * (B * C) + y) * N + z)) by lia.
      rewrite write_at_nat, write_lt; [done|]. rewrite Hs0, Hout. nia. }
    rewrite Hrun. cbn [mbind outcome_bind].
    rewrite write_at_nat, write_lt by lia. cbn [mbind outcome_bind].
    eexists _, _. split_and!; [reflexivity|done|by rewrite length_insert|done| |
                               done|].
    + apply list_lookup_insert_eq. lia.
    + intros k Hk. by apply list_lookup_insert_ne.
Qed.

(** The number of chunks of [chunk] covers the input. *)
Lemma n_chunks_cover (T S step : nat) :
  0 < step ->
  let C := Z.to_nat (Chunking.n_chunks (Z.of_nat T) (Z.of_nat S) (Z.of_nat step)) in
  0 < C /\ T <= step * (C - 1) + S.
Proof.
  intros Hstep. cbv zeta. unfold Chunking.n_chunks.
  set (m := Z.max (Z.of_nat T - Z.of_nat S + Z.of_nat step - 1) 0).
  assert (Hq : (0 <= m / Z.of_nat step)%Z) by (apply Z.div_pos; lia).
  pose proof (Z.mul_succ_div_gt m (Z.of_nat step) ltac:(lia)) as Hgt.
  split; [lia|].
  apply Nat2Z.inj_le.
  rewrite Nat2Z.inj_add, Nat2Z.inj_mul, Nat2Z.inj_sub by lia.
  rewrite Z2Nat.id by lia.
  replace (m / Z.of_nat step + 1 - Z.of_nat 1)%Z with (m / Z.of_nat step)%Z by lia.
  lia.
Qed.

(** The assertions of copy_kernel on the arrays of [chunk]: all but the
    last one hold. *)
Lemma copy_kernel_prelude (tid total : nat) (xd id : list float)
    (T B N S C step : nat) (st : list float * list float) :
  0 < B -> 0 < C -> 0 < step ->
  (Z.of_nat S < 2 ^ 63)%Z -> (Z.of_nat step < 2 ^ 63)%Z ->
  T <= step * (C - 1) + S ->
  copy_kernel tid total
    [Fin (IZR (Z.of_nat S)); Fin (IZR (Z.of_nat step))] xd
    (Z.of_nat T) (Z.of_nat B) (Z.of_nat N)
    (Z.of_nat B * Z.of_nat N) (Z.of_nat N) 1
    id (Z.of_nat B) 1
    (Z.of_nat S) (Z.of_nat (B * C))
    (Z.of_nat (B * C) * Z.of_nat N) (Z.of_nat N) 1
    (Z.of_nat (B * C)) 1 st
  = if decide (step * (C - 1) < T) then
      grid_stride tid total (S * (B * C))
        (copy_kernel_round (Z.of_nat step) (Z.of_nat C) xd
           (Z.of_nat T) (Z.of_nat N)
           (Z.of_nat B * Z.of_nat N) (Z.of_nat N) 1 id (Z.of_nat B) 1
           (Z.of_nat S) (Z.of_nat (B * C) * Z.of_nat N) (Z.of_nat N) 1
           (Z.of_nat (B * C)) 1)
        st
    else AssertFail.
Proof.
  intros HB HC Hstep HS63 Hst63 Hcover. unfold copy_kernel. cbv zeta.
  assert (Hr : Z.rem (Z.of_nat (B * C)) (Z.of_nat B) = 0%Z).
  { rewrite rem_of_nat by lia. rewrite Nat.mul_comm, Nat.Div0.mod_mul. done. }
  assert (Hq : Z.quot (Z.of_nat (B * C)) (Z.of_nat B) = Z.of_nat C).
  { rewrite quot_of_nat by lia. by rewrite Nat.mul_comm, Nat.div_mul by lia. }
  rewrite Hr, Hq. destruct (decide (Z.of_nat B = 0%Z)) as [|_]; [lia|].
  rewrite Z.eqb_refl. cbn [assert mbind outcome_bind].
  rewrite (proj2 (Z.ltb_lt 0 (Z.of_nat C))) by lia.
  cbn [assert mbind outcome_bind].
  change (read [Fin (IZR (Z.of_nat S)); Fin (IZR (Z.of_nat step))] 0)
    with (Ok (Fin (IZR (Z.of_nat S)))).
  cbn [mbind outcome_bind]. rewrite float_to_long_IZR by lia.
  cbn [mbind outcome_bind]. rewrite Z.eqb_refl. cbn [assert mbind outcome_bind].
  change (read [Fin (IZR (Z.of_nat S)); Fin (IZR (Z.of_nat step))] 1)
    with (Ok (Fin (IZR (Z.of_nat step)))).
  cbn [mbind outcome_bind]. rewrite float_to_long_IZR by lia.
  cbn [mbind outcome_bind].
  rewrite (proj2 (Z.ltb_lt 0 (Z.of_nat step))) by lia.
  cbn [assert mbind outcome_bind].
  replace (Z.of_nat step * (Z.of_nat C - 1))%Z with (Z.of_nat (step * (C - 1)))
    by (rewrite Nat2Z.inj_mul, Nat2Z.inj_sub by lia; reflexivity).
  rewrite (proj2 (Z.leb_le _ _)) by lia. cbn [assert mbind outcome_bind].
  rewrite <- Nat2Z.inj_mul, Nat2Z.id.
  destruct (decide (step * (C - 1) < T)) as [Hlt|Hge].
  - rewrite (proj2 (Z.ltb_lt _ _)) by lia. reflexivity.
  - rewrite (proj2 (Z.ltb_ge _ _)) by lia. reflexivity.
Qed.

(** copy_kernel on the arrays of [chunk], for any grid with a thread. *)
Lemma copy_kernel_launch (n_blocks n_threads : nat) (xd id : list float)
    (T B N S C step : nat) (out oidx : list float) :
  0 < n_blocks * n_threads ->
  0 < B -> 0 < C -> 0 < step ->
  (Z.of_nat S < 2 ^ 63)%Z -> (Z.of_nat step < 2 ^ 63)%Z ->
  T <= step * (C - 1) + S -> step * (C - 1) < T ->
  length xd = T * B * N -> length id = T * B ->
  length out = S * (B * C) * N -> length oidx = S * (B * C) ->
  exists out' oidx',
    launch n_blocks n_threads
      (fun tid =>
         copy_kernel tid (n_blocks * n_threads)
           [Fin (IZR (Z.of_nat S)); Fin (IZR (Z.of_nat step))] xd
           (Z.of_nat T) (Z.of_nat B) (Z.of_nat N)
           (Z.of_nat B * Z.of_nat N) (Z.of_nat N) 1
           id (Z.of_nat B) 1
           (Z.of_nat S) (Z.of_nat (B * C))
           (Z.of_nat (B * C) * Z.of_nat N) (Z.of_nat N) 1
           (Z.of_nat (B * C)) 1)
      (out, oidx) = Ok (out', oidx') /\
    length out' = S * (B * C) * N /\ length oidx' = S * (B * C) /\
    forall t b c, t < S -> b < B -> c < C ->
      oidx' !! (t * (B * C) + (b * C + c))
      = Some (if chunk_live id T B step t b c then fone else fzero) /\
      forall z, z < N ->
        out' !! ((t * (B * C) + (b * C + c)) * N + z)
        = Some (if chunk_live id T B step t b c
                then xd !!! (((step * c + t) * B + b) * N + z)
                else fzero).
Proof.
  intros Hgrid HB HC Hstep HS63 Hst63 Hcover Hlast Hx Hid Hout Hoidx.
  unfold launch.
  rewrite (for_each_ext _ _
    (fun tid =>
       grid_stride tid (n_blocks * n_threads) (S * (B * C))
         (copy_kernel_round (Z.of_nat step) (Z.of_nat C) xd
            (Z.of_nat T) (Z.of_nat N)
            (Z.of_nat B * Z.of_nat N) (Z.of_nat N) 1 id (Z.of_nat B) 1
            (Z.of_nat S) (Z.of_nat (B * C) * Z.of_nat N) (Z.of_nat N) 1
            (Z.of_nat (B * C)) 1))).
  2:{ intros tid s _. rewrite copy_kernel_prelude by assumption.
      by destruct (decide _). }
  destruct (launch_grid_stride (St:=list float * list float) n_blocks n_threads
              (S * (B * C)) Hgrid) as (l & Hrun & Hin).
  unfold launch in Hrun. rewrite Hrun. clear Hrun.
  pose (P := fun (i : nat) (st : list float * list float) =>
    (forall z, z < N ->
       st.1 !! ((i mod S * (B * C) + i / S) * N + z)
       = Some (if chunk_live id T B step (i mod S) (i / S / C) (i / S mod C)
               then xd !!! (((step * (i / S mod C) + i mod S) * B + i / S / C) * N + z)
               else fzero)) /\
    st.2 !! (i mod S * (B * C) + i / S)
    = Some (if chunk_live id T B step (i mod S) (i / S / C) (i / S mod C)
            then fone else fzero)).
  destruct (for_each_rounds (fun i => i < S * (B * C))
              (fun st => length st.1 = S * (B * C) * N /\ length st.2 = S * (B * C))
              P
              (copy_kernel_round (Z.of_nat step) (Z.of_nat C) xd
                 (Z.of_nat T) (Z.of_nat N)
                 (Z.of_nat B * Z.of_nat N) (Z.of_nat N) 1 id (Z.of_nat B) 1
                 (Z.of_nat S) (Z.of_nat (B * C) * Z.of_nat N) (Z.of_nat N) 1
                 (Z.of_nat (B * C)) 1)
              l (out, oidx))
    as ([out' oidx'] & Hfin & [Hlo Hli] & HP & _).
  - intros i [o oi] Hi [Ho Hoi]. cbn [fst snd] in Ho, Hoi.
    destruct (copy_kernel_round_spec xd id T B N S C step i o oi
                HC Hi Hx Hid Ho Hoi)
      as (o' & oi' & Hr & Hlo & Hli & Hcells & Hflag & Hkeep & Hkeepi).
    exists (o', oi'). split; [exact Hr|]. split; [cbn [fst snd]; lia|].
    split; [split; [exact Hcells|exact Hflag]|].
    intros j Hj Hne [Hjc Hjf]. cbn [fst snd] in *.
    assert (Hcell : j mod S * (B * C) + j / S <> i mod S * (B * C) + i / S).
    { intros Heq. apply Hne. by apply (transposed_cell_inj S (B * C)). }
    split.
    + intros z Hz. rewrite Hkeep; [by apply Hjc|]. nia.
    + rewrite Hkeepi by done. exact Hjf.
  - intros i Hi. by apply Hin.
  - done.
  - exists out', oidx'. split_and!; [exact Hfin|exact Hlo|exact Hli|].
    intros t b c Ht Hb Hc.
    destruct (transposed_cell_of C B c b Hc Hb) as (Hy & Hym & Hyd).
    destruct (transposed_cell_of S (B * C) t (b * C + c) Ht ltac:(lia))
      as (Hi & Him & Hid').
    destruct (HP ((b * C + c) * S + t)) as [Hcells Hflag]; [by apply Hin|].
    rewrite Him, Hid', Hym, Hyd in Hcells, Hflag. cbn [fst snd] in *.
    split; [exact Hflag|exact Hcells].
Qed.

(** [chunk] up to the launch of the kernel: the assertions of the host
    hold for the buffers that [chunk] allocates. *)
Lemma chunk_launch (n_blocks n_threads : nat) (x index : Ndarray float)
    (chunk_size chunk_step : nat) :
  NDIM x = 3 -> NDIM index = 2 ->
  Ndarray_DIMS index 0 = Ndarray_DIMS x 0 ->
  Ndarray_DIMS index 1 = Ndarray_DIMS x 1 ->
  chunk n_blocks n_threads x index chunk_size chunk_step
  = let T := Ndarray_DIMS x 0 in
    let B := Ndarray_DIMS x 1 in
    let N := Ndarray_DIMS x 2 in
    let C := Z.to_nat (Chunking.n_chunks (Z.of_nat T) (Z.of_nat chunk_size)
                         (Z.of_nat chunk_step)) in
    launch n_blocks n_threads
      (fun tid =>
         copy_kernel tid (n_blocks * n_threads)
           [Fin (IZR (Z.of_nat chunk_size)); Fin (IZR (Z.of_nat chunk_step))]
           (DATA x)
           (Z.of_nat T) (Z.of_nat B) (Z.of_nat N)
           (Z.of_nat B * Z.of_nat N) (Z.of_nat N) 1
           (DATA index) (Z.of_nat B) 1
           (Z.of_nat chunk_size) (Z.of_nat (B * C))
           (Z.of_nat (B * C) * Z.of_nat N) (Z.of_nat N) 1
           (Z.of_nat (B * C)) 1)
      (replicate (chunk_size * (B * C) * N) fzero,
       replicate (chunk_size * (B * C)) fzero).
Proof.
  intros HNx HNi Hi0 Hi1. unfold chunk. rewrite HNx.
  cbn [Nat.eqb assert mbind outcome_bind]. cbv zeta.
  set (C := Z.to_nat (Chunking.n_chunks _ _ _)).
  set (T := Ndarray_DIMS x 0) in *. set (B := Ndarray_DIMS x 1) in *.
  set (N := Ndarray_DIMS x 2) in *.
  set (params := mkNdarray [_; _] [2]).
  set (ob := mkNdarray (replicate _ fzero) [_; _; _]).
  set (oib := mkNdarray (replicate _ fzero) [_; _]).
  unfold c_fw_code.
  destruct (strides3 x HNx) as (Hx0 & Hx1 & Hx2).
  destruct (strides2 index HNi) as (Hs0 & Hs1).
  destruct (strides3 ob eq_refl) as (Ho0 & Ho1 & Ho2).
  destruct (strides2 oib eq_refl) as (Hoi0 & Hoi1).
  rewrite Hx0, Hx1, Hx2, Hs0, Hs1, Ho0, Ho1, Ho2, Hoi0, Hoi1.
  rewrite HNx, HNi. unfold DIM. rewrite Hi0, Hi1. fold T B N.
  change (NDIM params) with 1. change (NDIM ob) with 3. change (NDIM oib) with 2.
  change (Ndarray_DIMS params 0) with 2.
  change (Ndarray_DIMS ob 0) with chunk_size.
  change (Ndarray_DIMS ob 1) with (B * C).
  change (Ndarray_DIMS ob 2) with N.
  change (Ndarray_DIMS oib 0) with chunk_size.
  change (Ndarray_DIMS oib 1) with (B * C).
  rewrite !Z.eqb_refl. cbn [Nat.eqb assert mbind outcome_bind].
  reflexivity.
Qed.

Lemma write_at_no_abort {A} (arr : list A) (z : Z) (v : A) :
  write_at arr z v <> AssertFail.
Proof. unfold write_at. destruct (decide _); [apply write_no_abort|done]. Qed.

Lemma grid_stride_no_abort {St} (tid total max_idx : nat)
    (body : nat -> St -> outcome St) (st : St) :
  (forall i s, body i s <> AssertFail) ->
  grid_stride tid total max_idx body st <> AssertFail.
Proof.
  intros Hb. unfold grid_stride. generalize max_idx at 1. intros fuel.
  revert tid st. induction fuel as [|fuel IH]; intros tid st; [done|].
  cbn [grid_stride_loop]. destruct (decide _); [|done].
  apply bind_no_abort; [apply Hb|intros; apply IH].
Qed.

Lemma copy_kernel_round_no_abort (chunk_step n_chunks : Z)
    (input : list float)
    (in_dim0 in_dim2 in_stride0 in_stride1 in_stride2 : Z)
    (index : list float) (idx_stride0 idx_stride1 : Z)
    (out_dim0 out_stride0 out_stride1 out_stride2 : Z)
    (oidx_stride0 oidx_stride1 : Z)
    (idx : nat) (st : list float * list float) :
  copy_kernel_round chunk_step n_chunks input in_dim0 in_dim2
    in_stride0 in_stride1 in_stride2 index idx_stride0 idx_stride1
    out_dim0 out_stride0 out_stride1 out_stride2 oidx_stride0 oidx_stride1
    idx st <> AssertFail.
Proof.
  destruct st as [output oindex]. unfold copy_kernel_round. cbv zeta.
  apply bind_no_abort.
  - destruct (decide _); [|done].
    apply bind_no_abort; [apply read_at_no_abort|done].
  - intros [].
    + apply bind_no_abort.
      * apply for_each_no_abort. intros z s.
        apply bind_no_abort; [apply read_at_no_abort|].
        intros v. apply write_at_no_abort.
      * intros o. apply bind_no_abort; [apply write_at_no_abort|done].
    + apply bind_no_abort.
      * apply for_each_no_abort. intros z s. apply write_at_no_abort.
      * intros o. apply bind_no_abort; [apply write_at_no_abort|done].
Qed.

(** With overlapping chunks, the last chunk starts inside the input. *)
Lemma last_chunk_starts_inside (T S step : nat) :
  0 < step -> step <= S -> 0 < T ->
  step * (Z.to_nat (Chunking.n_chunks (Z.of_nat T) (Z.of_nat S) (Z.of_nat step))
          - 1) < T.
Proof.
  intros Hstep HS HT. unfold Chunking.n_chunks.
  set (m := Z.max (Z.of_nat T - Z.of_nat S + Z.of_nat step - 1) 0).
  assert (Hq : (0 <= m / Z.of_nat step)%Z) by (apply Z.div_pos; lia).
  pose proof (Z.mul_div_le m (Z.of_nat step) ltac:(lia)) as Hle.
  apply Nat2Z.inj_lt.
  rewrite Nat2Z.inj_mul, Nat2Z.inj_sub by lia.
  rewrite Z2Nat.id by lia.
  replace (m / Z.of_nat step + 1 - Z.of_nat 1)%Z with (m / Z.of_nat step)%Z by lia.
  lia.
Qed.

(** [chunk] fails the assertion of copy_kernel on the start of the last
    chunk exactly when that start, [chunk_step * (n_chunks - 1)], is not a
    frame of the input; this does not happen when the chunks overlap or
    touch, but [n_chunks] counts such a chunk when [chunk_step] is larger
    than [chunk_size]. *)
Theorem chunk_fails_on_last_chunk_outside (n_blocks n_threads : nat)
    (x index : Ndarray float) (chunk_size chunk_step : nat) :
  let n_time := Ndarray_DIMS x 0 in
  let n_chunks :=
    Z.to_nat (Chunking.n_chunks (Z.of_nat n_time) (Z.of_nat chunk_size)
                (Z.of_nat chunk_step)) in
  0 < n_blocks * n_threads ->
  NDIM x = 3 -> NDIM index = 2 ->
  Ndarray_DIMS index 0 = n_time ->
  Ndarray_DIMS index 1 = Ndarray_DIMS x 1 ->
  0 < Ndarray_DIMS x 1 -> 0 < chunk_step ->
  (Z.of_nat chunk_size < 2 ^ 63)%Z -> (Z.of_nat chunk_step < 2 ^ 63)%Z ->
  (chunk n_blocks n_threads x index chunk_size chunk_step = AssertFail
   <-> n_time <= chunk_step * (n_chunks - 1)) /\
  (chunk_step <= chunk_size -> 0 < n_time ->
   chunk n_blocks n_threads x index chunk_size chunk_step <> AssertFail).
Proof.
  intros n_time n_chunks Hgrid HNx HNi Hi0 Hi1 HB Hstep HS63 Hst63.
  assert (Hiff : chunk n_blocks n_threads x index chunk_size chunk_step
                 = AssertFail <-> n_time <= chunk_step * (n_chunks - 1)).
  { rewrite chunk_launch by assumption. cbv zeta. fold n_time n_chunks.
    destruct (n_chunks_cover n_time chunk_size chunk_step Hstep) as [HC Hcover].
    fold n_chunks in HC, Hcover. split.
    - intros Hfail.
      destruct (decide (n_time <= chunk_step * (n_chunks - 1))) as [|Hlt];
        [done|].
      exfalso. revert Hfail. apply launch_no_abort. intros tid s.
      rewrite copy_kernel_prelude by assumption.
      destruct (decide _); [|lia].
      apply grid_stride_no_abort. intros i s'.
      apply copy_kernel_round_no_abort.
    - intros Hout. unfold launch.
      destruct (n_blocks * n_threads) as [|k] eqn:Hk; [lia|].
      change (seq 0 (S k)) with (0 :: seq 1 k). rewrite for_each_cons.
      rewrite copy_kernel_prelude by assumption.
      destruct (decide _); [lia|]. reflexivity. }
  split; [exact Hiff|].
  intros Hle HT. rewrite Hiff.
  pose proof (last_chunk_starts_inside n_time chunk_size chunk_step
                Hstep Hle HT) as Hin.
  fold n_chunks in Hin. lia.
Qed.

(** Two frames, chunks of one frame every two frames: the second chunk
    would start after the input. *)
Lemma chunk_fails_on_last_chunk_outside_witness :
  chunk 1 1 gap_x gap_index 1 2 = AssertFail.
Proof.
  apply (proj1 (chunk_fails_on_last_chunk_outside 1 1 gap_x gap_index 1 2
                  ltac:(lia) eq_refl eq_refl eq_refl eq_refl
                  ltac:(vm_compute; lia) ltac:(lia) ltac:(lia) ltac:(lia))).
  vm_compute. lia.
Defined.

(** [chunk] on an input and an index of the sizes of their shapes, when the
    last chunk starts inside the input: the frame [t] of the chunk [c] of
    the sequence [b] is the column [b * n_chunks + c] of the row [t] of the
    two outputs.  It holds the frame [chunk_step * c + t] of the sequence
    [b] and the flag 1 when that is a frame of the input with an index
    above 0.1, and zeros and the flag 0 otherwise. *)
Theorem chunk_result (n_blocks n_threads : nat) (x index : Ndarray float)
    (chunk_size chunk_step : nat) :
  let n_time := Ndarray_DIMS x 0 in
  let n_batch := Ndarray_DIMS x 1 in
  let n_dim := Ndarray_DIMS x 2 in
  let n_chunks :=
    Z.to_nat (Chunking.n_chunks (Z.of_nat n_time) (Z.of_nat chunk_size)
                (Z.of_nat chunk_step)) in
  0 < n_blocks * n_threads ->
  NDIM x = 3 -> NDIM index = 2 ->
  Ndarray_DIMS index 0 = n_time -> Ndarray_DIMS index 1 = n_batch ->
  length (DATA x) = n_time * n_batch * n_dim ->
  length (DATA index) = n_time * n_batch ->
  0 < n_batch -> 0 < chunk_step ->
  (Z.of_nat chunk_size < 2 ^ 63)%Z -> (Z.of_nat chunk_step < 2 ^ 63)%Z ->
  chunk_step * (n_chunks - 1) < n_time ->
  exists out oindex,
    chunk n_blocks n_threads x index chunk_size chunk_step = Ok (out, oindex) /\
    length out = chunk_size * (n_batch * n_chunks) * n_dim /\
    length oindex = chunk_size * (n_batch * n_chunks) /\
    forall t b c, t < chunk_size -> b < n_batch -> c < n_chunks ->
      oindex !! (t * (n_batch * n_chunks) + (b * n_chunks + c))
      = Some (if chunk_live (DATA index) n_time n_batch chunk_step t b c
              then fone else fzero) /\
      forall z, z < n_dim ->
        out !! ((t * (n_batch * n_chunks) + (b * n_chunks + c)) * n_dim + z)
        = Some (if chunk_live (DATA index) n_time n_batch chunk_step t b c
                then DATA x !!! (((chunk_step * c + t) * n_batch + b) * n_dim + z)
                else fzero).
Proof.
  intros n_time n_batch n_dim n_chunks Hgrid HNx HNi Hi0 Hi1 Hlx Hli HB Hstep
    HS63 Hst63 Hlast.
  rewrite chunk_launch by assumption. cbv zeta.
  fold n_time n_batch n_dim n_chunks.
  destruct (n_chunks_cover n_time chunk_size chunk_step Hstep) as [HC Hcover].
  fold n_chunks in HC, Hcover.
  apply copy_kernel_launch; try assumption; by rewrite length_replicate.
Qed.

Lemma fgt_1_tenth : fgt (Fin 1) (Fin (1 / 10)) = true.
Proof. unfold fgt. destruct (Rlt_dec _ _) as [|Hn]; [done|]. exfalso. lra. Qed.

(** On [chunk_x]: the second chunk holds the frame 2 and one frame of
    padding. *)
Lemma chunk_result_witness :
  exists out oindex,
    chunk 1 2 chunk_x chunk_index 2 2 = Ok (out, oindex) /\
    length out = 4 /\
    oindex !! 3 = Some fzero /\ out !! 1 = Some (Fin 3).
Proof.
  destruct (chunk_result 1 2 chunk_x chunk_index 2 2)
    as (out & oindex & Hrun & Hlo & _ & Hcells);
    try reflexivity; try (vm_compute; lia).
  exists out, oindex. split_and!; [exact Hrun|exact Hlo| |].
  - destruct (Hcells 1 0 1) as [Hflag _]; try (vm_compute; lia).
    refine (eq_trans Hflag _). unfold chunk_live.
    rewrite bool_decide_false by (vm_compute; lia). reflexivity.
  - destruct (Hcells 0 0 1) as [_ Hout]; try (vm_compute; lia).
    refine (eq_trans (Hout 0 ltac:(vm_compute; lia)) _). unfold chunk_live.
    rewrite bool_decide_true by (vm_compute; lia).
    lazy -[fgt Rdiv IZR]. by rewrite fgt_1_tenth.
Defined.

End ChunkingCopy.

(** ** [UnChunking]: the kernel and the host code *)

(** A loop whose round [z] updates the cell [base + z] to [val z], which
    may depend on the content of the cell before the loop. *)
Lemma for_each_update_range {A} (base n : nat) (val : nat -> A)
    (body : nat -> list A -> outcome (list A)) (s : list A) :
  base + n <= length s ->
  (forall z s0, z < n -> length s0 = length s ->
     s0 !! (base + z) = s !! (base + z) ->
     body z s0 = Ok (<[base + z:=val z]> s0)) ->
  exists s',
    for_each (seq 0 n) body s = Ok s' /\ length s' = length s /\
    (forall z, z < n -> s' !! (base + z) = Some (val z)) /\
    (forall k, ~ (base <= k < base + n) -> s' !! k = s !! k).
Proof.
  induction n as [|n IH]; intros Hlen Hbody.
  - exists s. split_and!; [reflexivity|reflexivity|intros; lia|reflexivity].
  - destruct IH as (s1 & Hrun & Hl1 & Hin & Hout);
      [lia|intros; apply Hbody; done || lia|].
    exists (<[base + n:=val n]> s1). split_and!.
    + rewrite seq_S, for_each_app, Hrun. cbn [mbind outcome_bind Nat.add].
      rewrite for_each_cons, Hbody; [reflexivity|lia|done|apply Hout; lia].
    + by rewrite length_insert.
    + intros z Hz. destruct (decide (z = n)) as [->|Hne].
      * apply list_lookup_insert_eq. lia.
      * rewrite list_lookup_insert_ne by lia. apply Hin. lia.
    + intros k Hk. rewrite list_lookup_insert_ne by lia. apply Hout. lia.
Qed.

(** The first chunk that holds the frame [t], as unchunk_kernel computes
    it, and the end of its loop over the chunks. *)
Lemma chunk_idx_start_nat (t S step : nat) :
  0 < step ->
  (if decide (Z.quot (Z.of_nat t - Z.of_nat S + Z.of_nat step) (Z.of_nat step) < 0)%Z
   then 0%Z
   else Z.quot (Z.of_nat t - Z.of_nat S + Z.of_nat step) (Z.of_nat step))
  = Z.of_nat ((t + step - S) / step).
Proof.
  intros Hstep. destruct (decide (S <= t + step)) as [Hle|Hgt].
  - replace (Z.of_nat t - Z.of_nat S + Z.of_nat step)%Z
      with (Z.of_nat (t + step - S)) by lia.
    rewrite quot_of_nat by lia. destruct (decide _); lia.
  - replace (t + step - S) with 0 by lia. rewrite Nat.Div0.div_0_l.
    change (Z.of_nat 0) with 0%Z.
    set (n := (Z.of_nat t - Z.of_nat S + Z.of_nat step)%Z).
    assert (Hn : (n < 0)%Z) by (subst n; lia).
    assert (Hq : (Z.quot n (Z.of_nat step) <= 0)%Z).
    { replace n with (- (- n))%Z by lia. rewrite Z.quot_opp_l by lia.
      pose proof (Z.quot_pos (- n) (Z.of_nat step) ltac:(lia) ltac:(lia)). lia. }
    destruct (decide _); lia.
Qed.

Lemma chunk_idx_end_nat (t step C : nat) :
  0 < step ->
  (if decide (Z.quot (Z.of_nat t) (Z.of_nat step) + 1 > Z.of_nat C)%Z
   then Z.of_nat C
   else (Z.quot (Z.of_nat t) (Z.of_nat step) + 1)%Z)
  = Z.of_nat ((t / step + 1) `min` C).
Proof.
  intros Hstep. rewrite quot_of_nat by lia. destruct (decide _); lia.
Qed.

(** The chunks [c] with [start <= c < end] are those that hold [t]. *)
Lemma chunk_holds_frame (t S step c : nat) :
  0 < step ->
  (t + step - S) / step <= c < t / step + 1
  <-> step * c <= t < step * c + S.
Proof.
  intros Hstep.
  pose proof (Nat.Div0.mul_div_le t step) as Hle.
  pose proof (Nat.mul_succ_div_gt t step ltac:(lia)) as Hgt.
  pose proof (Nat.Div0.mul_div_le (t + step - S) step) as Hle'.
  pose proof (Nat.mul_succ_div_gt (t + step - S) step ltac:(lia)) as Hgt'.
  split.
  - intros [Ha He]. split; nia.
  - intros [Hc1 Hc2]. split.
    + assert ((t + step - S) / step < c + 1); [|lia].
      apply Nat.Div0.div_lt_upper_bound. nia.
    + assert (c <= t / step); [|lia].
      apply Nat.div_le_lower_bound; lia.
Qed.

Lemma filter_seq_interval (a e C : nat) :
  length (filter (fun c => a <= c < e) (seq 0 C)) = e `min` C - a.
Proof.
  induction C as [|C IH]; [cbn; lia|].
  rewrite seq_S, filter_app, length_app, IH. cbn [Nat.add].
  rewrite filter_cons, filter_nil. destruct (decide _); cbn [length]; lia.
Qed.

Lemma covering_chunks_eq (S step C t : nat) :
  0 < step ->
  covering_chunks S step C t = (t / step + 1) `min` C - (t + step - S) / step.
Proof.
  intros Hstep. unfold covering_chunks.
  rewrite <- filter_seq_interval. f_equal. apply list_filter_iff.
  intros c. symmetry. by apply chunk_holds_frame.
Qed.

(** The mean of [k] copies of a value is the value. *)
Lemma mean_of_copies (x : float) (k : nat) :
  0 < k ->
  fdiv (Nat.iter k (fun acc => fadd acc x) fzero) (Fin (INR k)) = x.
Proof.
  intros Hk. assert (HR : (0 < INR k)%R) by (by apply lt_0_INR).
  destruct x as [r| | |].
  - assert (H : Nat.iter k (fun acc => fadd acc (Fin r)) fzero
                = Fin (INR k * r)).
    { clear. induction k as [|k IH].
      - cbn. unfold fzero. f_equal. lra.
      - rewrite S_INR. rewrite Nat.iter_succ. rewrite IH. cbn. f_equal. lra. }
    rewrite H. cbn. destruct (Req_dec_T (INR k) 0); [lra|].
    f_equal. field. lra.
  - destruct k as [|k]; [lia|]. rewrite Nat.iter_succ.
    assert (H : fadd (Nat.iter k (fun acc => fadd acc PInf) fzero) PInf = PInf).
    { clear. induction k as [|k IH]; [done|]. rewrite Nat.iter_succ. by rewrite IH. }
    rewrite H. cbn -[INR]. destruct (Rlt_dec _ _); [lra|done].
  - destruct k as [|k]; [lia|]. rewrite Nat.iter_succ.
    assert (H : fadd (Nat.iter k (fun acc => fadd acc NInf) fzero) NInf = NInf).
    { clear. induction k as [|k IH]; [done|]. rewrite Nat.iter_succ. by rewrite IH. }
    rewrite H. cbn -[INR]. destruct (Rlt_dec _ _); [lra|done].
  - destruct k as [|k]; [lia|]. rewrite Nat.iter_succ.
    by destruct (Nat.iter k _ _).
Qed.

Lemma count_of_chunks (k : nat) :
  Nat.iter k (fun c => fadd c fone) fzero = Fin (INR k).
Proof.
  induction k as [|k IH]; [done|].
  rewrite S_INR. rewrite Nat.iter_succ. rewrite IH. reflexivity.
Qed.

Lemma fgt_count (k : nat) :
  fgt (Fin (INR k)) (Fin (1 / 10)) = bool_decide (0 < k).
Proof.
  unfold fgt. destruct k as [|k].
  - cbn. destruct (Rlt_dec _ _); [lra|done].
  - assert (1 <= INR (S k))%R.
    { rewrite S_INR. pose proof (pos_INR k). lra. }
    rewrite bool_decide_true by lia. destruct (Rlt_dec _ _); [done|lra].
Qed.

Lemma fgt_flag (b : bool) :
  fgt (if b then fone else fzero) (Fin (1 / 10)) = b.
Proof.
  unfold fgt, fone, fzero. destruct b; destruct (Rlt_dec _ _); done || lra.
Qed.

Module UnChunkingRound.
Import SubtensorBatchedIndex SubtensorSelect ChunkingOp ChunkingCopy UnChunkingOp.

(** One round of the loop of unchunk_kernel on the chunks [(cd, cf)] of
    the arrays [(xd, id)]. *)
Lemma unchunk_kernel_round_spec (xd id cd cf : list float)
    (T B N S C step i : nat) (o oi ofa : list float) :
  0 < step -> step <= S -> 0 < C -> T <= step * (C - 1) + S ->
  i < T * B ->
  length cd = S * (B * C) * N -> length cf = S * (B * C) ->
  (forall t b c, t < S -> b < B -> c < C ->
     cf !! (t * (B * C) + (b * C + c))
     = Some (if chunk_live id T B step t b c then fone else fzero) /\
     forall z, z < N ->
       cd !! ((t * (B * C) + (b * C + c)) * N + z)
       = Some (if chunk_live id T B step t b c
               then xd !!! (((step * c + t) * B + b) * N + z)
               else fzero)) ->
  length o = T * B * N -> length oi = T * B -> length ofa = T * B ->
  let cell := i mod T * B + i / T in
  let live := fgt (id !!! cell) (Fin (1 / 10)) in
  exists o' oi' ofa',
    unchunk_kernel_round (Z.of_nat S) (Z.of_nat step) (Z.of_nat C) cd (Z.of_nat N)
      (Z.of_nat (B * C) * Z.of_nat N) (Z.of_nat N) 1 cf (Z.of_nat (B * C)) 1
      (Z.of_nat T) (Z.of_nat B * Z.of_nat N) (Z.of_nat N) 1
      (Z.of_nat B) 1 (Z.of_nat B) 1 i (o, oi, ofa) = Ok (o', oi', ofa') /\
    length o' = length o /\ length oi' = length oi /\
    length ofa' = length ofa /\
    (forall z, z < N ->
       o' !! (cell * N + z)
       = Some (if live then xd !!! (cell * N + z) else fzero)) /\
    oi' !! cell = Some (if live then fone else fzero) /\
    ofa' !! cell
    = Some (if live
            then Fin (1 / INR (covering_chunks S step C (i mod T)))
            else fone) /\
    (forall k, ~ (cell * N <= k < cell * N + N) -> o' !! k = o !! k) /\
    (forall k, k <> cell -> oi' !! k = oi !! k) /\
    (forall k, k <> cell -> ofa' !! k = ofa !! k).
Proof.
  intros Hstep HstepS HC Hcover Hi Hlcd Hlcf Hchunks Ho Hoi Hofa.
  unfold unchunk_kernel_round. cbv beta zeta iota.
  assert (HT : 0 < T) by nia.
  rewrite (rem_of_nat i T), (quot_of_nat i T) by lia.
  rewrite (covering_chunks_eq S step C (i mod T) Hstep).
  assert (Ht : i mod T < T) by (apply Nat.mod_upper_bound; lia).
  assert (Hb : i / T < B) by (apply Nat.Div0.div_lt_upper_bound; lia).
  set (t := i mod T) in *. set (b := i / T) in *. clearbody t b. clear Hi.
  rewrite chunk_idx_start_nat, chunk_idx_end_nat by lia.
  assert (HsC : step * C = step * (C - 1) + step) by nia.
  assert (Ha : (t + step - S) / step <= t / step).
  { apply Nat.Div0.div_le_mono. lia. }
  assert (HaC : (t + step - S) / step < C).
  { apply Nat.Div0.div_lt_upper_bound. lia. }
  assert (Hholds : forall c, (t + step - S) / step <= c < (t / step + 1) `min` C ->
            step * c <= t < step * c + S /\ c < C).
  { intros c Hc. split; [|lia]. apply chunk_holds_frame; lia. }
  set (a := (t + step - S) / step) in *. set (e := (t / step + 1) `min` C) in *.
  assert (Hae : a < e) by lia. clearbody a e.
  rewrite !Nat2Z.id.
  replace (Z.to_nat (Z.of_nat e - Z.of_nat a)) with (e - a) by lia.
  rewrite (proj2 (Z.ltb_lt (Z.of_nat a) (Z.of_nat e))) by lia.
  replace (Z.of_nat t * Z.of_nat B + Z.of_nat b * 1)%Z
    with (Z.of_nat (t * B + b)) by lia.
  assert (Hcell : t * B + b < T * B) by (by apply flat_index_lt).
  set (live := fgt (id !!! (t * B + b)) (Fin (1 / 10))).
  assert (Hlive : forall c, step * c <= t ->
            chunk_live id T B step (t - step * c) b c = live).
  { intros c Hc. unfold chunk_live.
    replace (step * c + (t - step * c)) with t by lia.
    by rewrite bool_decide_true by lia. }
  (* the cells are set to zero *)
  match goal with
  | |- context [for_each (seq 0 N) ?body o] =>
      destruct (for_each_fill_range ((t * B + b) * N) N (fun _ => fzero) body o)
        as (o1 & Hrun1 & Hl1 & Hin1 & Hout1)
  end.
  { rewrite Ho. nia. }
  { intros z s0 Hz Hs0. cbv zeta.
    replace (Z.of_nat t * (Z.of_nat B * Z.of_nat N) + Z.of_nat b * Z.of_nat N
             + Z.of_nat z * 1)%Z
      with (Z.of_nat ((t * B + b) * N + z)) by lia.
    rewrite write_at_nat, write_lt; [done|].
    rewrite Hs0, Ho. by repeat apply flat_index_lt. }
  rewrite Hrun1. cbn [assert mbind outcome_bind]. clear Hrun1.
  (* the loop over the chunks *)
  match goal with
  | |- context [for_each (seq a (e - a)) ?body (fzero, o1)] =>
      assert (Hloop : forall j, j <= e - a ->
        exists oj,
          for_each (seq a j) body (fzero, o1)
          = Ok (if live then Fin (INR j) else fzero, oj) /\
          length oj = length o /\
          (forall z, z < N ->
             oj !! ((t * B + b) * N + z)
             = Some (if live
                     then Nat.iter j
                            (fun acc => fadd acc (xd !!! ((t * B + b) * N + z)))
                            fzero
                     else fzero)) /\
          (forall k, ~ ((t * B + b) * N <= k < (t * B + b) * N + N) ->
             oj !! k = o1 !! k))
  end.
  { induction j as [|j IH]; intros Hj.
    - exists o1. split_and!; [by destruct live|lia| |done].
      intros z Hz. rewrite Hin1 by done. by destruct live.
    - destruct (IH ltac:(lia)) as (oj & Hrunj & Hlj & Hinj & Houtj).
      rewrite seq_S, for_each_app, Hrunj. cbn [mbind outcome_bind].
      rewrite for_each_cons. cbn [for_each]. cbv beta zeta iota.
      destruct (Hholds (a + j) ltac:(lia)) as [Hfr HcC].
      replace (Z.of_nat b * Z.of_nat C + Z.of_nat (a + j))%Z
        with (Z.of_nat (b * C + (a + j))) by lia.
      replace (Z.of_nat t - Z.of_nat step * Z.of_nat (a + j))%Z
        with (Z.of_nat (t - step * (a + j))) by lia.
      rewrite (proj2 (Z.leb_le 0 _)) by lia.
      rewrite (proj2 (Z.ltb_lt _ (Z.of_nat S))) by lia.
      cbn [assert mbind outcome_bind].
      replace (Z.of_nat (t - step * (a + j)) * Z.of_nat (B * C)
               + Z.of_nat (b * C + (a + j)) * 1)%Z
        with (Z.of_nat ((t - step * (a + j)) * (B * C) + (b * C + (a + j))))
        by lia.
      destruct (Hchunks (t - step * (a + j)) b (a + j) ltac:(lia) Hb HcC)
        as [Hflag Hdata].
      rewrite (Hlive (a + j)) in Hflag, Hdata by lia.
      rewrite read_at_nat, (read_lookup _ _ _ Hflag).
      cbn [mbind outcome_bind]. rewrite fgt_flag.
      destruct live.
      + match goal with
        | |- context [for_each (seq 0 N) ?bodyz oj] =>
            destruct (for_each_update_range ((t * B + b) * N) N
                        (fun z =>
                           Nat.iter (Datatypes.S j)
                             (fun acc => fadd acc (xd !!! ((t * B + b) * N + z)))
                             fzero)
                        bodyz oj)
              as (o2 & Hrun2 & Hl2 & Hin2 & Hout2)
        end.
        { rewrite Hlj, Ho. nia. }
        { intros z s0 Hz Hs0 Hs0z. cbv zeta.
          replace (Z.of_nat (t - step * (a + j)) * (Z.of_nat (B * C) * Z.of_nat N)
                   + Z.of_nat (b * C + (a + j)) * Z.of_nat N + Z.of_nat z * 1)%Z
            with (Z.of_nat (((t - step * (a + j)) * (B * C) + (b * C + (a + j))) * N
                            + z)) by lia.
          replace (Z.of_nat t * (Z.of_nat B * Z.of_nat N) + Z.of_nat b * Z.of_nat N
                   + Z.of_nat z * 1)%Z
            with (Z.of_nat ((t * B + b) * N + z)) by lia.
          rewrite !read_at_nat, (read_lookup _ _ _ (Hdata z Hz)).
          cbn [mbind outcome_bind].
          rewrite Hinj in Hs0z by done. rewrite (read_lookup _ _ _ Hs0z).
          cbn [mbind outcome_bind].
          rewrite write_at_nat, write_lt.
          - rewrite Nat.iter_succ.
            replace (step * (a + j) + (t - step * (a + j))) with t by lia.
            reflexivity.
          - rewrite Hs0, Hlj, Ho. by repeat apply flat_index_lt. }
        rewrite Hrun2. cbn [mbind outcome_bind].
        exists o2. split_and!.
        * rewrite S_INR. reflexivity.
        * lia.
        * exact Hin2.
        * intros k Hk. rewrite Hout2 by done. by apply Houtj.
      + exists oj. split_and!; done. }
  destruct (Hloop (e - a) ltac:(lia)) as (o2 & Hrun2 & Hl2 & Hin2 & Hout2).
  rewrite Hrun2. cbn [mbind outcome_bind]. clear Hloop Hrun2.
  destruct live.
  - rewrite fgt_count, bool_decide_true by lia.
    match goal with
    | |- context [for_each (seq 0 N) ?bodyz o2] =>
        destruct (for_each_update_range ((t * B + b) * N) N
                    (fun z => xd !!! ((t * B + b) * N + z)) bodyz o2)
          as (o3 & Hrun3 & Hl3 & Hin3 & Hout3)
    end.
    { rewrite Hl2, Ho. nia. }
    { intros z s0 Hz Hs0 Hs0z. cbv zeta.
      replace (Z.of_nat t * (Z.of_nat B * Z.of_nat N) + Z.of_nat b * Z.of_nat N
               + Z.of_nat z * 1)%Z
        with (Z.of_nat ((t * B + b) * N + z)) by lia.
      rewrite Hin2 in Hs0z by done.
      rewrite read_at_nat, (read_lookup _ _ _ Hs0z). cbn [mbind outcome_bind].
      rewrite write_at_nat, write_lt.
      - by rewrite mean_of_copies by lia.
      - rewrite Hs0, Hl2, Ho. by repeat apply flat_index_lt. }
    rewrite Hrun3. cbn [mbind outcome_bind].
    rewrite !write_at_nat, !write_lt by lia. cbn [mbind outcome_bind].
    eexists _, _, _. split_and!; [reflexivity|lia|by rewrite length_insert|
                                 by rewrite length_insert|exact Hin3| | | | |].
    + apply list_lookup_insert_eq. lia.
    + rewrite list_lookup_insert_eq by lia. f_equal. unfold fdiv, fone.
      assert (0 < INR (e - a))%R by (apply lt_0_INR; lia).
      destruct (Req_dec_T _ _); [lra|done].
    + intros k Hk. rewrite Hout3, Hout2, Hout1 by done. done.
    + intros k Hk. by apply list_lookup_insert_ne.
    + intros k Hk. by apply list_lookup_insert_ne.
  - change (fgt fzero (Fin (1 / 10))) with (fgt (Fin (INR 0)) (Fin (1 / 10))).
    rewrite fgt_count, bool_decide_false by lia.
    rewrite !write_at_nat, !write_lt by lia. cbn [mbind outcome_bind].
    eexists _, _, _. split_and!; [reflexivity|lia|by rewrite length_insert|
                                 by rewrite length_insert|exact Hin2| | | | |].
    + apply list_lookup_insert_eq. lia.
    + apply list_lookup_insert_eq. lia.
    + intros k Hk. rewrite Hout2, Hout1 by done. done.
    + intros k Hk. by apply list_lookup_insert_ne.
    + intros k Hk. by apply list_lookup_insert_ne.
Qed.

(** The assertions at the start of unchunk_kernel, on chunks of the shape
    [(S, B * C, N)] and an output of the shape [(T, B, N)]. *)
Lemma unchunk_kernel_prelude (tid total : nat) (cd cf : list float)
    (T B N S C step : nat) (st : list float * list float * list float) :
  0 < B -> 0 < C -> 0 < step ->
  (Z.of_nat S < 2 ^ 63)%Z -> (Z.of_nat step < 2 ^ 63)%Z ->
  T <= step * (C - 1) + S -> step * (C - 1) < T ->
  unchunk_kernel tid total
    [Fin (IZR (Z.of_nat S)); Fin (IZR (Z.of_nat step))] cd
    (Z.of_nat S) (Z.of_nat (B * C)) (Z.of_nat N)
    (Z.of_nat (B * C) * Z.of_nat N) (Z.of_nat N) 1
    cf (Z.of_nat (B * C)) 1
    (Z.of_nat T) (Z.of_nat B)
    (Z.of_nat B * Z.of_nat N) (Z.of_nat N) 1
    (Z.of_nat B) 1 (Z.of_nat B) 1 st
  = grid_stride tid total (T * B)
      (unchunk_kernel_round (Z.of_nat S) (Z.of_nat step) (Z.of_nat C) cd
         (Z.of_nat N) (Z.of_nat (B * C) * Z.of_nat N) (Z.of_nat N) 1
         cf (Z.of_nat (B * C)) 1
         (Z.of_nat T) (Z.of_nat B * Z.of_nat N) (Z.of_nat N) 1
         (Z.of_nat B) 1 (Z.of_nat B) 1)
      st.
Proof.
  intros HB HC Hstep HS63 Hst63 Hcover Hlast. unfold unchunk_kernel. cbv zeta.
  assert (Hr : Z.rem (Z.of_nat (B * C)) (Z.of_nat B) = 0%Z).
  { rewrite rem_of_nat by lia. rewrite Nat.mul_comm, Nat.Div0.mod_mul. done. }
  assert (Hq : Z.quot (Z.of_nat (B * C)) (Z.of_nat B) = Z.of_nat C).
  { rewrite quot_of_nat by lia. by rewrite Nat.mul_comm, Nat.div_mul by lia. }
  rewrite Hr, Hq. destruct (decide (Z.of_nat B = 0%Z)) as [|_]; [lia|].
  rewrite Z.eqb_refl. cbn [assert mbind outcome_bind].
  rewrite (proj2 (Z.ltb_lt 0 (Z.of_nat C))) by lia.
  cbn [assert mbind outcome_bind].
  change (read [Fin (IZR (Z.of_nat S)); Fin (IZR (Z.of_nat step))] 0)
    with (Ok (Fin (IZR (Z.of_nat S)))).
  cbn [mbind outcome_bind]. rewrite float_to_long_IZR by lia.
  cbn [mbind outcome_bind]. rewrite Z.eqb_refl. cbn [assert mbind outcome_bind].
  change (read [Fin (IZR (Z.of_nat S)); Fin (IZR (Z.of_nat step))] 1)
    with (Ok (Fin (IZR (Z.of_nat step)))).
  cbn [mbind outcome_bind]. rewrite float_to_long_IZR by lia.
  cbn [mbind outcome_bind].
  rewrite (proj2 (Z.ltb_lt 0 (Z.of_nat step))) by lia.
  cbn [assert mbind outcome_bind].
  replace (Z.of_nat step * (Z.of_nat C - 1))%Z with (Z.of_nat (step * (C - 1)))
    by (rewrite Nat2Z.inj_mul, Nat2Z.inj_sub by lia; reflexivity).
  rewrite (proj2 (Z.leb_le _ _)) by lia. cbn [assert mbind outcome_bind].
  rewrite (proj2 (Z.ltb_lt _ _)) by lia. cbn [assert mbind outcome_bind].
  rewrite <- Nat2Z.inj_mul, Nat2Z.id. reflexivity.
Qed.

(** unchunk_kernel on the chunks [(cd, cf)] of the arrays [(xd, id)], for
    any grid with a thread. *)
Lemma unchunk_kernel_launch (n_blocks n_threads : nat) (xd id cd cf : list float)
    (T B N S C step : nat) (o oi ofa : list float) :
  0 < n_blocks * n_threads ->
  0 < B -> 0 < C -> 0 < step -> step <= S ->
  (Z.of_nat S < 2 ^ 63)%Z -> (Z.of_nat step < 2 ^ 63)%Z ->
  T <= step * (C - 1) + S -> step * (C - 1) < T ->
  length cd = S * (B * C) * N -> length cf = S * (B * C) ->
  (forall t b c, t < S -> b < B -> c < C ->
     cf !! (t * (B * C) + (b * C + c))
     = Some (if chunk_live id T B step t b c then fone else fzero) /\
     forall z, z < N ->
       cd !! ((t * (B * C) + (b * C + c)) * N + z)
       = Some (if chunk_live id T B step t b c
               then xd !!! (((step * c + t) * B + b) * N + z)
               else fzero)) ->
  length o = T * B * N -> length oi = T * B -> length ofa = T * B ->
  exists o' oi' ofa',
    launch n_blocks n_threads
      (fun tid =>
         unchunk_kernel tid (n_blocks * n_threads)
           [Fin (IZR (Z.of_nat S)); Fin (IZR (Z.of_nat step))] cd
           (Z.of_nat S) (Z.of_nat (B * C)) (Z.of_nat N)
           (Z.of_nat (B * C) * Z.of_nat N) (Z.of_nat N) 1
           cf (Z.of_nat (B * C)) 1
           (Z.of_nat T) (Z.of_nat B)
           (Z.of_nat B * Z.of_nat N) (Z.of_nat N) 1
           (Z.of_nat B) 1 (Z.of_nat B) 1)
      (o, oi, ofa) = Ok (o', oi', ofa') /\
    length o' = T * B * N /\ length oi' = T * B /\ length ofa' = T * B /\
    forall t b, t < T -> b < B ->
      oi' !! (t * B + b)
      = Some (if fgt (id !!! (t * B + b)) (Fin (1 / 10)) then fone else fzero) /\
      ofa' !! (t * B + b)
      = Some (if fgt (id !!! (t * B + b)) (Fin (1 / 10))
              then Fin (1 / INR (covering_chunks S step C t))
              else fone) /\
      forall z, z < N ->
        o' !! ((t * B + b) * N + z)
        = Some (if fgt (id !!! (t * B + b)) (Fin (1 / 10))
                then xd !!! ((t * B + b) * N + z)
                else fzero).
Proof.
  intros Hgrid HB HC Hstep HstepS HS63 Hst63 Hcover Hlast Hlcd Hlcf Hchunks
    Ho Hoi Hofa.
  unfold launch.
  rewrite (for_each_ext _ _
    (fun tid =>
       grid_stride tid (n_blocks * n_threads) (T * B)
         (unchunk_kernel_round (Z.of_nat S) (Z.of_nat step) (Z.of_nat C) cd
            (Z.of_nat N) (Z.of_nat (B * C) * Z.of_nat N) (Z.of_nat N) 1
            cf (Z.of_nat (B * C)) 1
            (Z.of_nat T) (Z.of_nat B * Z.of_nat N) (Z.of_nat N) 1
            (Z.of_nat B) 1 (Z.of_nat B) 1))).
  2:{ intros tid s _. by rewrite unchunk_kernel_prelude by assumption. }
  destruct (launch_grid_stride (St:=list float * list float * list float)
              n_blocks n_threads (T * B) Hgrid) as (l & Hrun & Hin).
  unfold launch in Hrun. rewrite Hrun. clear Hrun.
  pose (P := fun (i : nat) (st : list float * list float * list float) =>
    (forall z, z < N ->
       st.1.1 !! ((i mod T * B + i / T) * N + z)
       = Some (if fgt (id !!! (i mod T * B + i / T)) (Fin (1 / 10))
               then xd !!! ((i mod T * B + i / T) * N + z)
               else fzero)) /\
    st.1.2 !! (i mod T * B + i / T)
    = Some (if fgt (id !!! (i mod T * B + i / T)) (Fin (1 / 10))
            then fone else fzero) /\
    st.2 !! (i mod T * B + i / T)
    = Some (if fgt (id !!! (i mod T * B + i / T)) (Fin (1 / 10))
            then Fin (1 / INR (covering_chunks S step C (i mod T)))
            else fone)).
  destruct (for_each_rounds (fun i => i < T * B)
              (fun st => length st.1.1 = T * B * N /\ length st.1.2 = T * B /\
                         length st.2 = T * B)
              P
              (unchunk_kernel_round (Z.of_nat S) (Z.of_nat step) (Z.of_nat C) cd
                 (Z.of_nat N) (Z.of_nat (B * C) * Z.of_nat N) (Z.of_nat N) 1
                 cf (Z.of_nat (B * C)) 1
                 (Z.of_nat T) (Z.of_nat B * Z.of_nat N) (Z.of_nat N) 1
                 (Z.of_nat B) 1 (Z.of_nat B) 1)
              l (o, oi, ofa))
    as ([[o' oi'] ofa'] & Hfin & (Hlo & Hli & Hlf) & HP & _).
  - intros i [[s1 s2] s3] Hi (Hs1 & Hs2 & Hs3). cbn [fst snd] in Hs1, Hs2, Hs3.
    destruct (unchunk_kernel_round_spec xd id cd cf T B N S C step i s1 s2 s3
                Hstep HstepS HC Hcover Hi Hlcd Hlcf Hchunks Hs1 Hs2 Hs3)
      as (r1 & r2 & r3 & Hr & Hl1 & Hl2 & Hl3 & Hcells & Hflag & Hfac
          & Hk1 & Hk2 & Hk3).
    exists (r1, r2, r3). split; [exact Hr|].
    split; [cbn [fst snd]; lia|].
    split; [split_and!; [exact Hcells|exact Hflag|exact Hfac]|].
    intros j Hj Hne (Hjc & Hjf & Hjfac). cbn [fst snd] in *.
    assert (Hcell : j mod T * B + j / T <> i mod T * B + i / T).
    { intros Heq. apply Hne. by apply (transposed_cell_inj T B). }
    split_and!.
    + intros z Hz. rewrite Hk1; [by apply Hjc|]. nia.
    + rewrite Hk2 by done. exact Hjf.
    + rewrite Hk3 by done. exact Hjfac.
  - intros i Hi. by apply Hin.
  - done.
  - cbn [fst snd] in *.
    exists o', oi', ofa'. split_and!; [exact Hfin|exact Hlo|exact Hli|exact Hlf|].
    intros t b Ht Hb.
    destruct (transposed_cell_of T B t b Ht Hb) as (Hi & Him & Hid').
    destruct (HP (b * T + t)) as (Hcells & Hflag & Hfac); [by apply Hin|].
    rewrite Him, Hid' in Hcells, Hflag, Hfac. cbn [fst snd] in *.
    split_and!; [exact Hflag|exact Hfac|exact Hcells].
Qed.

(** [unchunk] up to the launch of the kernel: the assertions of the host
    hold for the buffers that [unchunk] allocates. *)
Lemma unchunk_launch (n_blocks n_threads : nat) (cd cf : list float)
    (S BC N step T B : nat) :
  unchunk n_blocks n_threads (mkNdarray cd [S; BC; N]) (mkNdarray cf [S; BC])
    S step T B
  = launch n_blocks n_threads
      (fun tid =>
         unchunk_kernel tid (n_blocks * n_threads)
           [Fin (IZR (Z.of_nat S)); Fin (IZR (Z.of_nat step))] cd
           (Z.of_nat S) (Z.of_nat BC) (Z.of_nat N)
           (Z.of_nat BC * Z.of_nat N) (Z.of_nat N) 1
           cf (Z.of_nat BC) 1
           (Z.of_nat T) (Z.of_nat B)
           (Z.of_nat B * Z.of_nat N) (Z.of_nat N) 1
           (Z.of_nat B) 1 (Z.of_nat B) 1)
      (replicate (T * B * N) fzero, replicate (T * B) fzero,
       replicate (T * B) fzero).
Proof.
  unfold unchunk. change (NDIM (mkNdarray cd [S; BC; N])) with 3.
  cbn [Nat.eqb assert mbind outcome_bind]. cbv zeta.
  change (Ndarray_DIMS (mkNdarray cd [S; BC; N]) 2) with N.
  set (x := mkNdarray cd [S; BC; N]). set (index := mkNdarray cf [S; BC]).
  set (params := mkNdarray [_; _] [2]).
  set (ob := mkNdarray (replicate _ fzero) [_; _; _]).
  set (oib := mkNdarray (replicate (T * B) fzero) [T; B]).
  unfold c_fw_code.
  destruct (strides3 x eq_refl) as (Hx0 & Hx1 & Hx2).
  destruct (strides2 index eq_refl) as (Hs0 & Hs1).
  destruct (strides3 ob eq_refl) as (Ho0 & Ho1 & Ho2).
  destruct (strides2 oib eq_refl) as (Hoi0 & Hoi1).
  rewrite Hx0, Hx1, Hx2, Hs0, Hs1, Ho0, Ho1, Ho2, Hoi0, Hoi1.
  unfold DIM.
  change (NDIM x) with 3. change (NDIM index) with 2.
  change (NDIM params) with 1. change (NDIM ob) with 3. change (NDIM oib) with 2.
  change (Ndarray_DIMS params 0) with 2.
  change (Ndarray_DIMS x 0) with S. change (Ndarray_DIMS x 1) with BC.
  change (Ndarray_DIMS x 2) with N.
  change (Ndarray_DIMS index 0) with S. change (Ndarray_DIMS index 1) with BC.
  change (Ndarray_DIMS ob 0) with T. change (Ndarray_DIMS ob 1) with B.
  change (Ndarray_DIMS ob 2) with N.
  change (Ndarray_DIMS oib 0) with T. change (Ndarray_DIMS oib 1) with B.
  rewrite !Z.eqb_refl. cbn [Nat.eqb assert mbind outcome_bind].
  reflexivity.
Qed.

(** [unchunk] undoes [chunk] when the chunks overlap or touch: on the
    chunks of an input and an index of the sizes of their shapes, it
    returns the frames of the input on which the index is above 0.1, with
    the flag 1 and the factor 1 / (the number of chunks that hold the
    frame), and zeros with the flag 0 and the factor 1 for the others.
    The arithmetic on floats is exact here. *)
Theorem unchunk_of_chunk (n_blocks n_threads n_blocks' n_threads' : nat)
    (x index : Ndarray float) (chunk_size chunk_step : nat) :
  let n_time := Ndarray_DIMS x 0 in
  let n_batch := Ndarray_DIMS x 1 in
  let n_dim := Ndarray_DIMS x 2 in
  let n_chunks :=
    Z.to_nat (Chunking.n_chunks (Z.of_nat n_time) (Z.of_nat chunk_size)
                (Z.of_nat chunk_step)) in
  0 < n_blocks * n_threads -> 0 < n_blocks' * n_threads' ->
  NDIM x = 3 -> NDIM index = 2 ->
  Ndarray_DIMS index 0 = n_time -> Ndarray_DIMS index 1 = n_batch ->
  length (DATA x) = n_time * n_batch * n_dim ->
  length (DATA index) = n_time * n_batch ->
  0 < n_time -> 0 < n_batch -> 0 < chunk_step -> chunk_step <= chunk_size ->
  (Z.of_nat chunk_size < 2 ^ 63)%Z ->
  exists out oindex y yindex yfactors,
    chunk n_blocks n_threads x index chunk_size chunk_step = Ok (out, oindex) /\
    unchunk n_blocks' n_threads'
      (mkNdarray out [chunk_size; n_batch * n_chunks; n_dim])
      (mkNdarray oindex [chunk_size; n_batch * n_chunks])
      chunk_size chunk_step n_time n_batch = Ok (y, yindex, yfactors) /\
    length y = length (DATA x) /\
    length yindex = length (DATA index) /\
    length yfactors = length (DATA index) /\
    forall t b, t < n_time -> b < n_batch ->
      let live := fgt (DATA index !!! (t * n_batch + b)) (Fin (1 / 10)) in
      yindex !! (t * n_batch + b) = Some (if live then fone else fzero) /\
      yfactors !! (t * n_batch + b)
      = Some (if live
              then Fin (1 / INR (covering_chunks chunk_size chunk_step n_chunks t))
              else fone) /\
      forall z, z < n_dim ->
        y !! ((t * n_batch + b) * n_dim + z)
        = if live then DATA x !! ((t * n_batch + b) * n_dim + z)
          else Some fzero.
Proof.
  intros n_time n_batch n_dim n_chunks Hgrid Hgrid' HNx HNi Hi0 Hi1 Hlx Hli
    HT HB Hstep HstepS HS63.
  assert (Hst63 : (Z.of_nat chunk_step < 2 ^ 63)%Z) by lia.
  destruct (n_chunks_cover n_time chunk_size chunk_step Hstep) as [HC Hcover].
  pose proof (last_chunk_starts_inside n_time chunk_size chunk_step
                Hstep HstepS HT) as Hlast.
  fold n_chunks in HC, Hcover, Hlast.
  destruct (copy_kernel_launch n_blocks n_threads (DATA x) (DATA index)
              n_time n_batch n_dim chunk_size n_chunks chunk_step
              (replicate (chunk_size * (n_batch * n_chunks) * n_dim) fzero)
              (replicate (chunk_size * (n_batch * n_chunks)) fzero))
    as (out & oindex & Hchunk & Hlo & Hloi & Hchunks);
    try assumption; try (by rewrite length_replicate).
  destruct (unchunk_kernel_launch n_blocks' n_threads' (DATA x) (DATA index)
              out oindex n_time n_batch n_dim chunk_size n_chunks chunk_step
              (replicate (n_time * n_batch * n_dim) fzero)
              (replicate (n_time * n_batch) fzero)
              (replicate (n_time * n_batch) fzero))
    as (y & yindex & yfactors & Hun & Hly & Hlyi & Hlyf & Hcells);
    try assumption; try (by rewrite length_replicate).
  exists out, oindex, y, yindex, yfactors. split_and!.
  - rewrite chunk_launch by assumption. exact Hchunk.
  - rewrite unchunk_launch. exact Hun.
  - lia.
  - lia.
  - lia.
  - intros t b Ht Hb. cbv zeta.
    destruct (Hcells t b Ht Hb) as (Hflag & Hfac & Hdata).
    split_and!; [exact Hflag|exact Hfac|].
    intros z Hz. rewrite (Hdata z Hz).
    destruct (fgt _ _); [|done]. symmetry.
    apply list_lookup_lookup_total_lt. rewrite Hlx.
    by repeat apply flat_index_lt.
Qed.

(** On the chunks of [chunk_x], for other grids. *)
Lemma unchunk_of_chunk_witness :
  exists out oindex y yindex yfactors,
    chunk 1 2 chunk_x chunk_index 2 2 = Ok (out, oindex) /\
    unchunk 2 1 (mkNdarray out [2; 2; 1]) (mkNdarray oindex [2; 2]) 2 2 3 1
    = Ok (y, yindex, yfactors) /\
    y !! 2 = Some (Fin 3) /\ yindex !! 2 = Some fone.
Proof.
  destruct (unchunk_of_chunk 1 2 2 1 chunk_x chunk_index 2 2)
    as (out & oindex & y & yindex & yfactors & Hchunk & Hun & _ & _ & _ & Hcells);
    try reflexivity; try (vm_compute; lia).
  exists out, oindex, y, yindex, yfactors.
  destruct (Hcells 2 0) as (Hflag & _ & Hdata); try (vm_compute; lia).
  specialize (Hdata 0 ltac:(vm_compute; lia)). cbv zeta in Hflag, Hdata.
  change (DATA chunk_index !!! (2 * Ndarray_DIMS chunk_x 1 + 0))
    with (Fin 1) in Hflag, Hdata.
  rewrite fgt_1_tenth in Hflag, Hdata.
  split_and!; [exact Hchunk|exact Hun|exact Hdata|exact Hflag].
Defined.

(** The round of unchunk_kernel for a frame that no chunk holds does not
    end well: its loop over the chunks would be empty, which the kernel
    excludes by an assertion. *)
Lemma unchunk_round_uncovered (S step C T : nat)
    (input : list float) (in_dim2 in_stride0 in_stride1 in_stride2 : Z)
    (index : list float) (idx_stride0 idx_stride1 : Z)
    (out_stride0 out_stride1 out_stride2 : Z)
    (oidx_stride0 oidx_stride1 ofac_stride0 ofac_stride1 : Z)
    (i : nat) (st r : list float * list float * list float) :
  0 < step -> 0 < T ->
  covering_chunks S step C (i mod T) = 0 ->
  unchunk_kernel_round (Z.of_nat S) (Z.of_nat step) (Z.of_nat C) input in_dim2
    in_stride0 in_stride1 in_stride2 index idx_stride0 idx_stride1
    (Z.of_nat T) out_stride0 out_stride1 out_stride2
    oidx_stride0 oidx_stride1 ofac_stride0 ofac_stride1 i st <> Ok r.
Proof.
  intros Hstep HT Hcov. rewrite covering_chunks_eq in Hcov by done.
  destruct st as [[o oi] ofa]. unfold unchunk_kernel_round.
  cbv beta zeta iota. rewrite (rem_of_nat i T) by lia.
  rewrite chunk_idx_start_nat, chunk_idx_end_nat by lia.
  rewrite (proj2 (Z.ltb_ge _ _)) by lia.
  destruct (for_each _ _ o); cbn [assert mbind outcome_bind]; discriminate.
Qed.

(** The assertions at the start of unchunk_kernel do not depend on the
    thread: either no thread gets past them, or every thread runs its
    loop. *)
Lemma unchunk_kernel_prelude_any (total : nat) (chunk_params : list float)
    (input : list float)
    (in_dim0 in_dim1 in_dim2 in_stride0 in_stride1 in_stride2 : Z)
    (index : list float) (idx_stride0 idx_stride1 : Z)
    (out_dim0 out_dim1 out_stride0 out_stride1 out_stride2 : Z)
    (oidx_stride0 oidx_stride1 ofac_stride0 ofac_stride1 : Z) :
  (forall tid st r,
     unchunk_kernel tid total chunk_params input in_dim0 in_dim1 in_dim2
       in_stride0 in_stride1 in_stride2 index idx_stride0 idx_stride1
       out_dim0 out_dim1 out_stride0 out_stride1 out_stride2
       oidx_stride0 oidx_stride1 ofac_stride0 ofac_stride1 st <> Ok r) \/
  exists p1 chunk_step,
    chunk_params !! 1 = Some p1 /\ float_to_long p1 = Ok chunk_step /\
    out_dim1 <> 0%Z /\
    forall tid st,
      unchunk_kernel tid total chunk_params input in_dim0 in_dim1 in_dim2
        in_stride0 in_stride1 in_stride2 index idx_stride0 idx_stride1
        out_dim0 out_dim1 out_stride0 out_stride1 out_stride2
        oidx_stride0 oidx_stride1 ofac_stride0 ofac_stride1 st
      = grid_stride tid total (Z.to_nat (out_dim0 * out_dim1))
          (unchunk_kernel_round in_dim0 chunk_step (Z.quot in_dim1 out_dim1)
             input in_dim2 in_stride0 in_stride1 in_stride2
             index idx_stride0 idx_stride1
             out_dim0 out_stride0 out_stride1 out_stride2
             oidx_stride0 oidx_stride1 ofac_stride0 ofac_stride1)
          st.
Proof.
  unfold unchunk_kernel. cbv zeta.
  destruct (decide (out_dim1 = 0%Z)) as [|Hnz];
    [left; intros; discriminate|].
  destruct (assert (Z.rem in_dim1 out_dim1 =? 0)%Z) as [[]| |];
    cbn [mbind outcome_bind]; [|left; intros; discriminate..].
  destruct (assert (0 <? Z.quot in_dim1 out_dim1)%Z) as [[]| |];
    cbn [mbind outcome_bind]; [|left; intros; discriminate..].
  destruct (read chunk_params 0) as [p0| |];
    cbn [mbind outcome_bind]; [|left; intros; discriminate..].
  destruct (float_to_long p0) as [z0| |];
    cbn [mbind outcome_bind]; [|left; intros; discriminate..].
  destruct (assert (z0 =? in_dim0)%Z) as [[]| |];
    cbn [mbind outcome_bind]; [|left; intros; discriminate..].
  destruct (read chunk_params 1) as [p1| |] eqn:Hp1;
    cbn [mbind outcome_bind]; [|left; intros; discriminate..].
  destruct (float_to_long p1) as [chunk_step| |] eqn:Hstep;
    cbn [mbind outcome_bind]; [|left; intros; discriminate..].
  destruct (assert (0 <? chunk_step)%Z) as [[]| |];
    cbn [mbind outcome_bind]; [|left; intros; discriminate..].
  destruct (assert (out_dim0 <=? _)%Z) as [[]| |];
    cbn [mbind outcome_bind]; [|left; intros; discriminate..].
  destruct (assert (_ <? out_dim0)%Z) as [[]| |];
    cbn [mbind outcome_bind]; [|left; intros; discriminate..].
  right. exists p1, chunk_step. split_and!; [by apply read_Ok|done|done|done].
Qed.

Lemma unchunk_uncovered (n_blocks n_threads : nat)
    (x index : Ndarray float) (chunk_size chunk_step n_time n_batch t : nat) :
  0 < n_blocks * n_threads -> 0 < n_batch -> 0 < chunk_step ->
  (Z.of_nat chunk_step < 2 ^ 63)%Z ->
  t < n_time ->
  covering_chunks (Ndarray_DIMS x 0) chunk_step (Ndarray_DIMS x 1 / n_batch) t
  = 0 ->
  unchunk n_blocks n_threads x index chunk_size chunk_step n_time n_batch
  = AssertFail \/
  unchunk n_blocks n_threads x index chunk_size chunk_step n_time n_batch
  = Fault.
Proof.
  intros Hgrid HB Hstep Hst63 Ht Hcov.
  destruct (unchunk _ _ _ _ _ _ _ _) as [r| |] eqn:H; [exfalso|by left|by right].
  unfold unchunk in H. apply bind_Ok in H as ([] & _ & H). cbv zeta in H.
  unfold c_fw_code in H. repeat (apply bind_Ok in H as ([] & _ & H)).
  match type of H with
  | launch _ _ (fun tid => unchunk_kernel tid ?total ?params ?input
                             ?id0 ?id1 ?id2 ?is0 ?is1 ?is2 ?index ?xs0 ?xs1
                             ?od0 ?od1 ?os0 ?os1 ?os2 ?oi0 ?oi1 ?of0 ?of1) _ = _ =>
      destruct (unchunk_kernel_prelude_any total params input
                  id0 id1 id2 is0 is1 is2 index xs0 xs1
                  od0 od1 os0 os1 os2 oi0 oi1 of0 of1)
        as [Hno|(p1 & step' & Hp1 & Hstep' & _ & Hloop)]
  end.
  - unfold launch in H.
    destruct (for_each_all_ok _ _ _ _ H 0) as (s & s' & H0).
    { apply elem_of_seq. lia. }
    by apply Hno in H0.
  - cbn in Hp1. injection Hp1 as <-.
    rewrite float_to_long_IZR in Hstep' by lia. injection Hstep' as <-.
    unfold launch in H.
    rewrite (for_each_ext _ _ _ _ (fun tid s _ => Hloop tid s)) in H.
    clear Hloop. unfold DIM in H.
    set (ob := mkNdarray (replicate (n_time * n_batch * Ndarray_DIMS x 2) fzero)
                 [n_time; n_batch; Ndarray_DIMS x 2]) in H.
    change (Ndarray_DIMS ob 0) with n_time in H.
    change (Ndarray_DIMS ob 1) with n_batch in H.
    rewrite quot_of_nat, <- Nat2Z.inj_mul, Nat2Z.id in H by lia.
    destruct (launch_grid_stride (St:=list float * list float * list float)
                n_blocks n_threads (n_time * n_batch) Hgrid)
      as (l & Hrun & Hin).
    unfold launch in Hrun. rewrite Hrun in H. clear Hrun.
    destruct (for_each_all_ok _ _ _ _ H t) as (s & s' & Hround).
    { apply Hin. nia. }
    revert Hround. apply unchunk_round_uncovered; [done|lia|].
    by rewrite Nat.mod_small by lia.
Qed.

(** With chunks that do not touch, the frame after the first chunk is in
    no chunk. *)
Lemma gap_frame_uncovered (S step C : nat) :
  S < step -> covering_chunks S step C S = 0.
Proof.
  intros HS. rewrite covering_chunks_eq by lia.
  replace (S + step - S) with step by lia.
  rewrite Nat.div_small, Nat.div_same by lia. lia.
Qed.

(** [unchunk] does not return when a frame of the output is in no chunk of
    the input: it ends on a failed assertion, or on an access outside of an
    array.  This is so for every input with [chunk_step] above the size of
    the chunks and [n_time] above it too. *)
Theorem unchunk_needs_every_frame_in_a_chunk (n_blocks n_threads : nat)
    (x index : Ndarray float) (chunk_size chunk_step n_time n_batch : nat) :
  0 < n_blocks * n_threads -> 0 < n_batch -> 0 < chunk_step ->
  (Z.of_nat chunk_step < 2 ^ 63)%Z ->
  (exists t, t < n_time /\
     covering_chunks (Ndarray_DIMS x 0) chunk_step
       (Ndarray_DIMS x 1 / n_batch) t = 0) \/
  Ndarray_DIMS x 0 < chunk_step /\ Ndarray_DIMS x 0 < n_time ->
  unchunk n_blocks n_threads x index chunk_size chunk_step n_time n_batch
  = AssertFail \/
  unchunk n_blocks n_threads x index chunk_size chunk_step n_time n_batch
  = Fault.
Proof.
  intros Hgrid HB Hstep Hst63 [(t & Ht & Hcov)|[Hgap HT]].
  - by apply (unchunk_uncovered _ _ _ _ _ _ _ _ t).
  - apply (unchunk_uncovered _ _ _ _ _ _ _ _ (Ndarray_DIMS x 0));
      [done..|by apply gap_frame_uncovered].
Qed.

(** Chunks of one frame every two frames: the frame 1 of three frames is
    in no chunk. *)
Lemma unchunk_needs_every_frame_in_a_chunk_witness :
  unchunk 1 1 gap_chunks gap_flags 1 2 3 1 = AssertFail \/
  unchunk 1 1 gap_chunks gap_flags 1 2 3 1 = Fault.
Proof.
  apply unchunk_needs_every_frame_in_a_chunk; try lia.
  right. vm_compute. lia.
Defined.

End UnChunkingRound.
